(** * Liveness, register demand and occupancy of the ACO compiler

    A shallow embedding of [src/amd/compiler/aco_live_var_analysis.cpp]
    and the properties its specification states about it.

    Conventions of the embedding.
    - Machine integers are [Z] with their wrap-around written out
      ([u16], [u32], [i16]).
    - [std::vector] is [list] with stdpp's lookup; an index out of range
      is undefined behaviour in the source and [Err OutOfBounds] here.
    - [IDSet] and [std::set<unsigned>] are [gset nat].
    - An [assert] that fails aborts the program: [Err (AssertionFailed l)]
      with [l] the line of the assertion in the source file.  An integer
      division by zero is [Err DivisionByZero].
    - The source mutates the program in place; here every function takes
      the state and gives the new one back. *)

From stdpp Require Import gmap list sets.
From Stdlib Require Import ZArith Lia Znumtheory.

#[local] Set Warnings "-clear-no-such-hyp".

(* ================================================================== *)
(** ** Results of fallible code *)

Inductive error : Type :=
  | AssertionFailed (line : nat)
  | OutOfBounds
  | DivisionByZero.

Inductive result (A : Type) : Type :=
  | Ok (a : A)
  | Err (e : error).
Arguments Ok {A} a.
Arguments Err {A} e.

#[global] Instance result_ret : MRet result := fun A a => Ok a.
#[global] Instance result_bind : MBind result := fun A B k r =>
  match r with
  | Ok a => k a
  | Err e => Err e
  end.

Definition assert (line : nat) (c : bool) : result unit :=
  if c then Ok tt else Err (AssertionFailed line).

Definition of_option {A : Type} (o : option A) : result A :=
  match o with
  | Some a => Ok a
  | None => Err OutOfBounds
  end.

(** [a / b] of the source on non-negative machine integers. *)
Definition udiv (a b : Z) : result Z :=
  if (b =? 0)%Z then Err DivisionByZero else Ok (a / b)%Z.

Lemma bind_Ok {A B : Type} (r : result A) (k : A -> result B) (b : B) :
  (r ≫= k) = Ok b <-> exists a, r = Ok a /\ k a = Ok b.
Proof.
  destruct r as [a|e]; cbn; split.
  - eauto.
  - intros (a' & [= ->] & H). exact H.
  - discriminate.
  - intros (a' & [=] & _).
Qed.

Lemma assert_Ok (line : nat) (c : bool) (u : unit) : assert line c = Ok u <-> c = true.
Proof. destruct c, u; cbn; split; congruence. Qed.

Lemma udiv_Ok (a b q : Z) : udiv a b = Ok q <-> (b <> 0 /\ q = a / b)%Z.
Proof.
  unfold udiv. destruct (Z.eqb_spec b 0); split.
  - discriminate.
  - intros [? _]. contradiction.
  - intros [= <-]. auto.
  - intros [_ ->]. reflexivity.
Qed.

Lemma of_option_Ok {A : Type} (o : option A) (a : A) : of_option o = Ok a <-> o = Some a.
Proof. destruct o; cbn; split; congruence. Qed.

(** Take a successful run apart, bind by bind. *)
Ltac inv_ok H :=
  repeat match type of H with
         | (_ ≫= _) = Ok _ =>
             let a := fresh "a" in
             let Ha := fresh "Ha" in
             apply bind_Ok in H; destruct H as (a & Ha & H)
         end.

(* ================================================================== *)
(** ** Machine integers *)

Definition u16 (x : Z) : Z := (x mod 65536)%Z.
Definition u32 (x : Z) : Z := (x mod 4294967296)%Z.
Definition i16 (x : Z) : Z := ((x + 32768) mod 65536 - 32768)%Z.
Definition UINT_MAX : Z := 4294967295%Z.

(* ================================================================== *)
(** ** The data model (aco_ir.h) *)

Inductive RegType : Type := RegType_sgpr | RegType_vgpr.

Definition RegType_eqb (a b : RegType) : bool :=
  match a, b with
  | RegType_sgpr, RegType_sgpr | RegType_vgpr, RegType_vgpr => true
  | _, _ => false
  end.

(** Modelled from the spec: the declaration of [RegClass] is in aco_ir.h,
    which is not among the sources.  A register class gives the bank, the
    size in allocation units and whether values of the class follow the
    linear control-flow graph. *)
Record RegClass : Type := {
  rc_type : RegType;
  rc_size : Z;
  is_linear : bool
}.

Record Temp : Type := {
  id : nat;
  regClass : RegClass
}.

Definition type (t : Temp) : RegType := rc_type (regClass t).
(** [Temp::size()]; stdpp has a [size] of its own. *)
Definition temp_size (t : Temp) : Z := rc_size (regClass t).

(** Physical registers are numbered; [vcc] and [exec] are two of them. *)
Definition PhysReg : Type := nat.
Definition vcc : PhysReg := 106%nat.
Definition exec : PhysReg := 126%nat.

(** Modelled from the spec: [RegisterDemand] (aco_ir.h) has two counters
    and supports combination, subtraction and pointwise maximum.  The
    counters are 16-bit signed integers. *)
Record RegisterDemand : Type := {
  vgpr : Z;
  sgpr : Z
}.

Definition zero_demand : RegisterDemand := {| vgpr := 0; sgpr := 0 |}.

(** [demand += temp] *)
Definition demand_add_temp (d : RegisterDemand) (t : Temp) : RegisterDemand :=
  match type t with
  | RegType_sgpr => {| vgpr := vgpr d; sgpr := i16 (sgpr d + temp_size t) |}
  | RegType_vgpr => {| vgpr := i16 (vgpr d + temp_size t); sgpr := sgpr d |}
  end.

(** [demand -= temp] *)
Definition demand_sub_temp (d : RegisterDemand) (t : Temp) : RegisterDemand :=
  match type t with
  | RegType_sgpr => {| vgpr := vgpr d; sgpr := i16 (sgpr d - temp_size t) |}
  | RegType_vgpr => {| vgpr := i16 (vgpr d - temp_size t); sgpr := sgpr d |}
  end.

(** [a += b] and [a -= b] on demands *)
Definition demand_add (a b : RegisterDemand) : RegisterDemand :=
  {| vgpr := i16 (vgpr a + vgpr b); sgpr := i16 (sgpr a + sgpr b) |}.
Definition demand_sub (a b : RegisterDemand) : RegisterDemand :=
  {| vgpr := i16 (vgpr a - vgpr b); sgpr := i16 (sgpr a - sgpr b) |}.

(** [a.update(b)]: pointwise maximum *)
Definition demand_update (a b : RegisterDemand) : RegisterDemand :=
  {| vgpr := Z.max (vgpr a) (vgpr b); sgpr := Z.max (sgpr a) (sgpr b) |}.

Definition demand_eqb (a b : RegisterDemand) : bool :=
  ((vgpr a =? vgpr b) && (sgpr a =? sgpr b))%Z.

(** Modelled from the spec: an operand is a read reference to a virtual
    register (or a constant) with the flags the analysis writes
    ([isKill], [isFirstKill]) and the ones it reads ([isLateKill],
    [isFixed] and the physical register).  A first kill is a kill, and
    clearing the kill flag clears the first-kill flag: the source resets
    an operand with [setKill(false)] alone. *)
Record Operand : Type := {
  op_isTemp : bool;
  op_temp : Temp;
  op_isFixed : bool;
  op_physReg : PhysReg;
  op_isLateKill : bool;
  isKill_ : bool;
  isFirstKill_ : bool
}.

Definition op_isFirstKill (o : Operand) : bool := isFirstKill_ o.
Definition op_isKill (o : Operand) : bool := isKill_ o || isFirstKill_ o.
Definition tempId (o : Operand) : nat := id (op_temp o).

Definition op_with_flags (o : Operand) (k fk : bool) : Operand :=
  {| op_isTemp := op_isTemp o; op_temp := op_temp o;
     op_isFixed := op_isFixed o; op_physReg := op_physReg o;
     op_isLateKill := op_isLateKill o;
     isKill_ := k; isFirstKill_ := fk |}.

Definition op_setKill (flag : bool) (o : Operand) : Operand :=
  op_with_flags o flag (if flag then isFirstKill_ o else false).

Definition op_setFirstKill (flag : bool) (o : Operand) : Operand :=
  op_with_flags o (if flag then true else isKill_ o) flag.

(** Modelled from the spec: a definition is a write reference with the
    same fixed/hint flags and one flag written by the analysis. *)
Record Definition_ : Type := {
  def_isTemp : bool;
  def_temp : Temp;
  def_isFixed : bool;
  def_hasHint : bool;
  def_physReg : PhysReg;
  def_isKill : bool
}.

Definition def_setKill (flag : bool) (d : Definition_) : Definition_ :=
  {| def_isTemp := def_isTemp d; def_temp := def_temp d;
     def_isFixed := def_isFixed d; def_hasHint := def_hasHint d;
     def_physReg := def_physReg d; def_isKill := flag |}.

(** The opcodes the analysis tells apart; every other one is [other_op]. *)
Inductive aco_opcode : Type :=
  | p_phi
  | p_linear_phi
  | p_logical_end
  | other_op (n : nat).

Record Instruction : Type := {
  opcode : aco_opcode;
  operands : list Operand;
  definitions : list Definition_
}.

Definition is_phi (insn : Instruction) : bool :=
  match opcode insn with
  | p_phi | p_linear_phi => true
  | _ => false
  end.

Definition is_logical_end (insn : Instruction) : bool :=
  match opcode insn with
  | p_logical_end => true
  | _ => false
  end.

Record Block : Type := {
  index : nat;
  instructions : list Instruction;
  logical_preds : list nat;
  linear_preds : list nat;
  register_demand : RegisterDemand
}.

Inductive chip_class_t : Type := GFX6 | GFX7 | GFX8 | GFX9 | GFX10 | GFX10_3.

Definition chip_rank (c : chip_class_t) : nat :=
  match c with
  | GFX6 => 0 | GFX7 => 1 | GFX8 => 2 | GFX9 => 3 | GFX10 => 4 | GFX10_3 => 5
  end.

(** [a >= b] on chip classes *)
Definition chip_ge (a b : chip_class_t) : bool := (chip_rank b <=? chip_rank a)%nat.

Inductive CompilationProgress : Type := after_isel | after_spilling | after_ra.

Definition before_ra (c : CompilationProgress) : bool :=
  match c with
  | after_ra => false
  | _ => true
  end.

Record DeviceInfo : Type := {
  physical_sgprs : Z;
  physical_vgprs : Z;
  sgpr_limit : Z;
  vgpr_limit : Z;
  sgpr_alloc_granule : Z;
  vgpr_alloc_granule : Z;
  max_wave64_per_simd : Z;
  simd_per_cu : Z;
  lds_limit : Z;
  lds_encoding_granule : Z;
  lds_alloc_granule : Z;
  xnack_enabled : bool
}.

Record Config : Type := {
  num_shared_vgprs : Z;
  lds_size : Z
}.

Record Program : Type := {
  blocks : list Block;
  temp_rc : list RegClass;
  chip_class : chip_class_t;
  dev : DeviceInfo;
  config : Config;
  progress : CompilationProgress;
  wave_size : Z;
  workgroup_size : Z;
  wgp_mode : bool;
  needs_flat_scr : bool;
  needs_vcc : bool;
  min_waves : Z;
  max_waves : Z;
  num_waves : Z;
  max_reg_demand : RegisterDemand
}.

Definition with_blocks (p : Program) (bs : list Block) : Program :=
  {| blocks := bs; temp_rc := temp_rc p; chip_class := chip_class p;
     dev := dev p; config := config p; progress := progress p;
     wave_size := wave_size p; workgroup_size := workgroup_size p;
     wgp_mode := wgp_mode p; needs_flat_scr := needs_flat_scr p;
     needs_vcc := needs_vcc p; min_waves := min_waves p;
     max_waves := max_waves p; num_waves := num_waves p;
     max_reg_demand := max_reg_demand p |}.

Definition with_needs_vcc (p : Program) (v : bool) : Program :=
  {| blocks := blocks p; temp_rc := temp_rc p; chip_class := chip_class p;
     dev := dev p; config := config p; progress := progress p;
     wave_size := wave_size p; workgroup_size := workgroup_size p;
     wgp_mode := wgp_mode p; needs_flat_scr := needs_flat_scr p;
     needs_vcc := v; min_waves := min_waves p;
     max_waves := max_waves p; num_waves := num_waves p;
     max_reg_demand := max_reg_demand p |}.

(** The three output fields of the occupancy computation. *)
Definition with_waves (p : Program) (maxw numw : Z) (d : RegisterDemand) : Program :=
  {| blocks := blocks p; temp_rc := temp_rc p; chip_class := chip_class p;
     dev := dev p; config := config p; progress := progress p;
     wave_size := wave_size p; workgroup_size := workgroup_size p;
     wgp_mode := wgp_mode p; needs_flat_scr := needs_flat_scr p;
     needs_vcc := needs_vcc p; min_waves := min_waves p;
     max_waves := maxw; num_waves := numw;
     max_reg_demand := d |}.

Definition with_min_waves (p : Program) (w : Z) : Program :=
  {| blocks := blocks p; temp_rc := temp_rc p; chip_class := chip_class p;
     dev := dev p; config := config p; progress := progress p;
     wave_size := wave_size p; workgroup_size := workgroup_size p;
     wgp_mode := wgp_mode p; needs_flat_scr := needs_flat_scr p;
     needs_vcc := needs_vcc p; min_waves := w;
     max_waves := max_waves p; num_waves := num_waves p;
     max_reg_demand := max_reg_demand p |}.

(** The result of the analysis: per block, the live-out set and the
    demand snapshot of every instruction. *)
Record live : Type := {
  live_out : list (gset nat);
  lives_register_demand : list (list RegisterDemand)
}.

(* ================================================================== *)
(** ** The occupancy solver *)

Section Occupancy.
Local Open Scope Z_scope.

(** Modelled from the spec: the helpers of util/u_math.h, which is not
    among the sources.  [align] rounds up to a power-of-two alignment with
    a bit mask, [ALIGN_NPOT] rounds up to any alignment with a division,
    [DIV_ROUND_UP] is the ceiling of a quotient. *)
Definition align (value alignment : Z) : Z :=
  Z.land (u32 (value + alignment - 1)) (Z.lnot (alignment - 1)).

Definition ALIGN_NPOT (value alignment : Z) : result Z :=
  q ← udiv (value + alignment - 1) alignment; Ok (q * alignment).

Definition DIV_ROUND_UP (a b : Z) : result Z :=
  udiv (u32 (a + b - 1)) b.

Definition calc_waves_per_workgroup (program : Program) : result Z :=
  let workgroup_size :=
    if workgroup_size program =? UINT_MAX then wave_size program
    else workgroup_size program in
  udiv (align workgroup_size (wave_size program)) (wave_size program).

Definition get_extra_sgprs (program : Program) : result Z :=
  if chip_ge (chip_class program) GFX10 then
    _ ← assert 255 (negb (needs_flat_scr program));
    _ ← assert 256 (negb (xnack_enabled (dev program)));
    Ok 0
  else if chip_ge (chip_class program) GFX8 then
    if needs_flat_scr program then Ok 6
    else if xnack_enabled (dev program) then Ok 4
    else if needs_vcc program then Ok 2
    else Ok 0
  else
    _ ← assert 268 (negb (xnack_enabled (dev program)));
    if needs_flat_scr program then Ok 4
    else if needs_vcc program then Ok 2
    else Ok 0.

Definition get_sgpr_alloc (program : Program) (addressable_sgprs : Z) : result Z :=
  extra ← get_extra_sgprs program;
  let sgprs := u16 (addressable_sgprs + extra) in
  let granule := sgpr_alloc_granule (dev program) in
  a ← ALIGN_NPOT (Z.max sgprs granule) granule;
  Ok (u16 a).

Definition get_vgpr_alloc (program : Program) (addressable_vgprs : Z) : result Z :=
  _ ← assert 287 (addressable_vgprs <=? vgpr_limit (dev program));
  let granule := vgpr_alloc_granule (dev program) in
  Ok (u16 (align (Z.max addressable_vgprs granule) granule)).

Definition round_down (a b : Z) : result Z :=
  if b =? 0 then Err DivisionByZero else Ok (u32 (a - a mod b)).

Definition get_addr_sgpr_from_waves (program : Program) (waves : Z) : result Z :=
  (* it's not possible to allocate more than 128 SGPRs *)
  q ← udiv (physical_sgprs (dev program)) waves;
  let sgprs := u16 (Z.min q 128) in
  r ← round_down sgprs (sgpr_alloc_granule (dev program));
  let sgprs := u16 r in
  extra ← get_extra_sgprs program;
  let sgprs := u16 (sgprs - extra) in
  Ok (Z.min sgprs (sgpr_limit (dev program))).

Definition get_addr_vgpr_from_waves (program : Program) (waves : Z) : result Z :=
  q ← udiv (physical_vgprs (dev program)) waves;
  let vgprs := u16 (Z.land q (Z.lnot (vgpr_alloc_granule (dev program) - 1))) in
  let vgprs := u16 (vgprs - num_shared_vgprs (config program) / 2) in
  Ok (Z.min vgprs (vgpr_limit (dev program))).

Definition simd_per_cu_wgp (program : Program) : Z :=
  u32 (simd_per_cu (dev program) * (if wgp_mode program then 2 else 1)).

Definition calc_min_waves (program : Program) : result Program :=
  waves_per_workgroup ← calc_waves_per_workgroup program;
  w ← DIV_ROUND_UP waves_per_workgroup (simd_per_cu_wgp program);
  Ok (with_min_waves program (u16 w)).

(** The test of line 331: the demand does not fit at the minimum wave count. *)
Definition exceeds_limits (new_demand : RegisterDemand) (vgpr_limit sgpr_limit : Z) : bool :=
  (vgpr_limit <? vgpr new_demand) || (sgpr_limit <? sgpr new_demand).

Definition update_vgpr_sgpr_demand (program : Program) (new_demand : RegisterDemand)
  : result Program :=
  w ← udiv 64 (wave_size program);
  let max_waves_per_simd := u32 (max_wave64_per_simd (dev program) * w) in
  let simd_per_cu_wgp := simd_per_cu_wgp program in
  let lds_limit :=
    if wgp_mode program then u32 (lds_limit (dev program) * 2)
    else lds_limit (dev program) in
  _ ← assert 326 (1 <=? min_waves program);
  sgpr_limit ← get_addr_sgpr_from_waves program (min_waves program);
  vgpr_limit ← get_addr_vgpr_from_waves program (min_waves program);
  (* this won't compile, register pressure reduction necessary *)
  if exceeds_limits new_demand vgpr_limit sgpr_limit then
    Ok (with_waves program (max_waves program) 0 new_demand)
  else
    sgpr_alloc ← get_sgpr_alloc program (u16 (sgpr new_demand));
    q ← udiv (physical_sgprs (dev program)) sgpr_alloc;
    let num_waves := u16 q in
    vgpr_alloc ← get_vgpr_alloc program (u16 (vgpr new_demand));
    let vgpr_demand := u16 (vgpr_alloc + num_shared_vgprs (config program) / 2) in
    q ← udiv (physical_vgprs (dev program)) vgpr_demand;
    let num_waves := Z.min num_waves (u16 q) in
    let max_waves := u16 max_waves_per_simd in
    (* adjust max_waves for workgroup and LDS limits *)
    waves_per_workgroup ← calc_waves_per_workgroup program;
    workgroups_per_cu_wgp ←
      udiv (u32 (max_waves_per_simd * simd_per_cu_wgp)) waves_per_workgroup;
    workgroups_per_cu_wgp ←
      (if lds_size (config program) =? 0 then Ok workgroups_per_cu_wgp
       else
         let lds := u32 (lds_size (config program) * lds_encoding_granule (dev program)) in
         let lds := align lds (lds_alloc_granule (dev program)) in
         q ← udiv lds_limit lds;
         Ok (Z.min workgroups_per_cu_wgp q));
    let workgroups_per_cu_wgp :=
      if (1 <? waves_per_workgroup) && negb (chip_ge (chip_class program) GFX10)
      then Z.min workgroups_per_cu_wgp 16
      else workgroups_per_cu_wgp in
    d ← DIV_ROUND_UP (u32 (workgroups_per_cu_wgp * waves_per_workgroup)) simd_per_cu_wgp;
    let max_waves := Z.min max_waves (u16 d) in
    (* incorporate max_waves and calculate max_reg_demand *)
    let num_waves := Z.min num_waves max_waves in
    v ← get_addr_vgpr_from_waves program num_waves;
    s ← get_addr_sgpr_from_waves program num_waves;
    Ok (with_waves program max_waves num_waves {| vgpr := i16 v; sgpr := i16 s |}).

End Occupancy.

(* ================================================================== *)
(** ** Sample device and program descriptors *)

Section Samples.
Local Open Scope Z_scope.

Definition s1 : RegClass := {| rc_type := RegType_sgpr; rc_size := 1; is_linear := true |}.
Definition s2 : RegClass := {| rc_type := RegType_sgpr; rc_size := 2; is_linear := true |}.
Definition v1 : RegClass := {| rc_type := RegType_vgpr; rc_size := 1; is_linear := false |}.

(** A device of the GFX8 tier: 800 physical scalar registers allocated in
    granules of 16, 256 vector registers in granules of 4. *)
Definition gfx8_dev : DeviceInfo :=
  {| physical_sgprs := 800; physical_vgprs := 256;
     sgpr_limit := 102; vgpr_limit := 256;
     sgpr_alloc_granule := 16; vgpr_alloc_granule := 4;
     max_wave64_per_simd := 10; simd_per_cu := 4;
     lds_limit := 65536; lds_encoding_granule := 512; lds_alloc_granule := 512;
     xnack_enabled := false |}.

(** A device of the GFX10 tier. *)
Definition gfx10_dev : DeviceInfo :=
  {| physical_sgprs := 5120; physical_vgprs := 512;
     sgpr_limit := 108; vgpr_limit := 256;
     sgpr_alloc_granule := 128; vgpr_alloc_granule := 8;
     max_wave64_per_simd := 20; simd_per_cu := 2;
     lds_limit := 65536; lds_encoding_granule := 512; lds_alloc_granule := 512;
     xnack_enabled := false |}.

Definition sample_program (bs : list Block) (rcs : list RegClass)
    (c : chip_class_t) (d : DeviceInfo) (cfg : Config) (flat needsvcc : bool) : Program :=
  {| blocks := bs; temp_rc := rcs; chip_class := c; dev := d; config := cfg;
     progress := after_isel; wave_size := 64; workgroup_size := 64;
     wgp_mode := false; needs_flat_scr := flat; needs_vcc := needsvcc;
     min_waves := 1; max_waves := 0; num_waves := 0;
     max_reg_demand := zero_demand |}.

Definition no_lds : Config := {| num_shared_vgprs := 0; lds_size := 0 |}.

Definition gfx8_program (needsvcc : bool) : Program :=
  sample_program [] [] GFX8 gfx8_dev no_lds false needsvcc.

End Samples.

(* ================================================================== *)
(** ** Properties of the occupancy solver *)

Section OccupancyFacts.
Local Open Scope Z_scope.

(** The generation tier [get_extra_sgprs] branches on. *)
Inductive tier_t : Type := tier_gfx6 | tier_gfx8 | tier_gfx10.

Definition tier (p : Program) : tier_t :=
  if chip_ge (chip_class p) GFX10 then tier_gfx10
  else if chip_ge (chip_class p) GFX8 then tier_gfx8
  else tier_gfx6.

(** What the assertions of [get_extra_sgprs] require of the program. *)
Definition extra_sgprs_pre (p : Program) : bool :=
  match tier p with
  | tier_gfx10 => negb (needs_flat_scr p) && negb (xnack_enabled (dev p))
  | tier_gfx8 => true
  | tier_gfx6 => negb (xnack_enabled (dev p))
  end.

Lemma get_extra_sgprs_range p v :
  get_extra_sgprs p = Ok v -> v = 0 \/ v = 2 \/ v = 4 \/ v = 6.
Proof.
  unfold get_extra_sgprs.
  destruct (chip_ge (chip_class p) GFX10), (chip_ge (chip_class p) GFX8),
    (needs_flat_scr p), (xnack_enabled (dev p)), (needs_vcc p); cbn;
    intros [= <-]; auto.
Qed.

Lemma get_extra_sgprs_bounds p v :
  get_extra_sgprs p = Ok v -> 0 <= v <= 6.
Proof. intros H. apply get_extra_sgprs_range in H. lia. Qed.

(** The asserted preconditions are exactly what makes the function return. *)
Lemma get_extra_sgprs_defined p :
  extra_sgprs_pre p = true <-> exists v, get_extra_sgprs p = Ok v.
Proof.
  unfold extra_sgprs_pre, tier, get_extra_sgprs.
  destruct (chip_ge (chip_class p) GFX10), (chip_ge (chip_class p) GFX8),
    (needs_flat_scr p), (xnack_enabled (dev p)), (needs_vcc p); simpl;
    split; try (intros [v [=]]); try discriminate; eauto.
Qed.

(** C7, as written, fails where an assertion of the function does: on the
    GFX10 tier with a flat-scratch need the function aborts instead of
    returning one of the four values. *)
Lemma get_extra_sgprs_aborts :
  get_extra_sgprs (sample_program [] [] GFX10 gfx10_dev no_lds true false)
  = Err (AssertionFailed 255).
Proof. reflexivity. Qed.

(** C7 (amended): on every program state that satisfies the assertions of
    [get_extra_sgprs], the function returns one of 0, 2, 4, 6; the value
    depends on the tier and the three flags only; within a tier a
    flat-scratch need decides the value whatever the other two flags are,
    without it an enabled xnack decides it whatever [needs_vcc] is; and
    with no flag set the value is 0. *)
Theorem get_extra_sgprs_policy p :
  extra_sgprs_pre p = true ->
  exists v,
    get_extra_sgprs p = Ok v /\
    (v = 0 \/ v = 2 \/ v = 4 \/ v = 6) /\
    (forall q, extra_sgprs_pre q = true -> tier q = tier p ->
       (needs_flat_scr q = needs_flat_scr p /\
        xnack_enabled (dev q) = xnack_enabled (dev p) /\
        needs_vcc q = needs_vcc p) \/
       (needs_flat_scr p = true /\ needs_flat_scr q = true) \/
       (needs_flat_scr p = false /\ needs_flat_scr q = false /\
        xnack_enabled (dev p) = true /\ xnack_enabled (dev q) = true) ->
       get_extra_sgprs q = Ok v) /\
    (needs_flat_scr p = false -> xnack_enabled (dev p) = false ->
     needs_vcc p = false -> v = 0).
Proof.
  intros Hp.
  destruct (proj1 (get_extra_sgprs_defined p) Hp) as [v Hv].
  exists v. split; [exact Hv|]. split; [eapply get_extra_sgprs_range; eauto|].
  split.
  - intros q Hq Ht Hflags. revert Hp Hq Ht Hflags Hv.
    unfold extra_sgprs_pre, tier, get_extra_sgprs.
    destruct (chip_ge (chip_class p) GFX10), (chip_ge (chip_class p) GFX8),
      (chip_ge (chip_class q) GFX10), (chip_ge (chip_class q) GFX8),
      (needs_flat_scr p), (xnack_enabled (dev p)), (needs_vcc p),
      (needs_flat_scr q), (xnack_enabled (dev q)), (needs_vcc q); simpl;
      intros; try discriminate; try assumption;
      repeat match goal with
             | H : _ \/ _ |- _ => destruct H
             | H : _ /\ _ |- _ => destruct H
             end; discriminate.
  - revert Hv. unfold get_extra_sgprs.
    intros Hv Hf Hx Hc. rewrite Hf, Hx, Hc in Hv.
    destruct (chip_ge (chip_class p) GFX10), (chip_ge (chip_class p) GFX8);
      cbn in Hv; congruence.
Qed.

Lemma get_extra_sgprs_policy_witness :
  exists v, get_extra_sgprs (gfx8_program true) = Ok v /\ v = 2.
Proof.
  destruct (get_extra_sgprs_policy (gfx8_program true) eq_refl)
    as (v & Hv & _).
  exists v. split; [exact Hv|].
  vm_compute in Hv. congruence.
Defined.

End OccupancyFacts.

Section Infeasibility.
Local Open Scope Z_scope.

(** More local storage than the device has: a feasible register demand,
    and no workgroup fits. *)
Definition lds_hungry_program : Program :=
  sample_program [] [] GFX8 gfx8_dev {| num_shared_vgprs := 0; lds_size := 200 |}
    false false.

(** C6, as written, fails in the feasible branch: when no wave fits for a
    reason other than register pressure the function divides by the zero
    wave count instead of reporting a wave count. *)
Lemma update_feasible_division_by_zero :
  exists sl vl,
    get_addr_sgpr_from_waves lds_hungry_program (min_waves lds_hungry_program) = Ok sl /\
    get_addr_vgpr_from_waves lds_hungry_program (min_waves lds_hungry_program) = Ok vl /\
    exceeds_limits {| vgpr := 24; sgpr := 30 |} vl sl = false /\
    update_vgpr_sgpr_demand lds_hungry_program {| vgpr := 24; sgpr := 30 |}
    = Err DivisionByZero.
Proof. exists 102, 256. vm_compute. auto. Qed.

End Infeasibility.

Section OccupancyFloor.
Local Open Scope Z_scope.

Lemma u16_small x : 0 <= x < 65536 -> u16 x = x.
Proof. intros. unfold u16. apply Z.mod_small. lia. Qed.

Lemma u32_small x : 0 <= x < 4294967296 -> u32 x = x.
Proof. intros. unfold u32. apply Z.mod_small. lia. Qed.

Lemma i16_small x : -32768 <= x < 32768 -> i16 x = x.
Proof. intros. unfold i16. rewrite Z.mod_small; lia. Qed.

Lemma u16_le x : 0 <= x -> 0 <= u16 x <= x.
Proof.
  intros. unfold u16. split; [apply Z.mod_pos_bound; lia|].
  apply Z.mod_le; lia.
Qed.

Lemma u32_le x : 0 <= x -> 0 <= u32 x <= x.
Proof.
  intros. unfold u32. split; [apply Z.mod_pos_bound; lia|].
  apply Z.mod_le; lia.
Qed.

(** Masking with [~(2^k - 1)] rounds down to a multiple of [2^k]. *)
Lemma land_lnot_pow2 q k :
  0 <= k -> Z.land q (Z.lnot (2 ^ k - 1)) = q - q mod 2 ^ k.
Proof.
  intros Hk.
  replace (2 ^ k - 1) with (Z.ones k) by (rewrite Z.ones_equiv; lia).
  rewrite <- Z.ldiff_land, Z.ldiff_ones_r by assumption.
  rewrite Z.shiftr_div_pow2, Z.shiftl_mul_pow2 by assumption.
  pose proof (Z.pow_pos_nonneg 2 k ltac:(lia) Hk).
  rewrite Z.mod_eq by lia. lia.
Qed.

(** Rounding down to a multiple of [g] stays above every multiple below. *)
Lemma round_down_above g a x :
  0 < g -> (g | a) -> a <= x -> a <= x - x mod g.
Proof.
  intros Hg [c ->] Hx.
  assert (c <= x / g) by (apply Z.div_le_lower_bound; lia).
  rewrite Z.mod_eq by lia. nia.
Qed.

Lemma round_down_range g x : 0 < g -> 0 <= x -> 0 <= x - x mod g <= x.
Proof.
  intros. pose proof (Z.mod_pos_bound x g). pose proof (Z.mod_le x g). lia.
Qed.

(** Rounding up with a division gives the least multiple above. *)
Lemma round_up_spec g y :
  0 < g -> 0 <= y ->
  y <= (y + g - 1) / g * g <= y + g - 1 /\ (g | (y + g - 1) / g * g).
Proof.
  intros Hg Hy. split; [|exists ((y + g - 1) / g); reflexivity].
  pose proof (Z.div_mod (y + g - 1) g ltac:(lia)).
  pose proof (Z.mod_pos_bound (y + g - 1) g Hg). lia.
Qed.

Lemma round_up_least g y r :
  0 < g -> 0 <= y -> (g | r) -> y <= r -> (y + g - 1) / g * g <= r.
Proof.
  intros Hg Hy [c ->] Hr.
  assert ((y + g - 1) / g <= c); [|nia].
  assert (y + g - 1 < g * (c + 1)) by nia.
  assert ((y + g - 1) / g < c + 1) by (apply Z.div_lt_upper_bound; lia).
  lia.
Qed.

(** What the floor property asks of the device, the configuration and the
    demand: 16-bit register counts, a scalar granule between the reserved
    count and the cap of 128 of which the minimum wave count fits the
    register file, a power-of-two vector granule that divides the half
    count of shared vector registers, and a non-negative demand. *)
Record floor_pre (p : Program) (d : RegisterDemand) (k : Z) : Prop := {
  fp_wave_size : 0 < wave_size p;
  fp_max_wave64 : 0 <= max_wave64_per_simd (dev p);
  fp_min_waves : 1 <= min_waves p;
  fp_physical_sgprs : 0 <= physical_sgprs (dev p) < 65536;
  fp_physical_vgprs : 0 <= physical_vgprs (dev p) < 65536;
  fp_sgpr_limit : 0 <= sgpr_limit (dev p) < 32768;
  fp_vgpr_limit : 0 <= vgpr_limit (dev p) < 32768;
  fp_sgpr_granule : 6 <= sgpr_alloc_granule (dev p) <= 128;
  fp_sgpr_file : sgpr_alloc_granule (dev p) * min_waves p <= physical_sgprs (dev p);
  fp_vgpr_granule_log : 0 <= k;
  fp_vgpr_granule : vgpr_alloc_granule (dev p) = 2 ^ k;
  fp_vgpr_granule_size : vgpr_alloc_granule (dev p) < 8192;
  fp_shared : 0 <= num_shared_vgprs (config p) < 32768;
  fp_shared_aligned : (vgpr_alloc_granule (dev p) | num_shared_vgprs (config p) / 2);
  fp_demand_vgpr : 0 <= vgpr d;
  fp_demand_sgpr : 0 <= sgpr d
}.

(** A GFX10 program that reserves eight shared vector registers: half of
    them is not a multiple of the granule of 8. *)
Definition shared_vgpr_program : Program :=
  sample_program [] [] GFX10 gfx10_dev {| num_shared_vgprs := 8; lds_size := 0 |}
    false false.

(** C5, as written, fails on the vector registers: with a demand of 96 the
    feasible branch picks 5 waves, at which only 92 registers are
    addressable. *)
Lemma occupancy_floor_fails_shared_vgprs :
  exists p',
    get_addr_sgpr_from_waves shared_vgpr_program (min_waves shared_vgpr_program)
      = Ok 108 /\
    get_addr_vgpr_from_waves shared_vgpr_program (min_waves shared_vgpr_program)
      = Ok 256 /\
    exceeds_limits {| vgpr := 96; sgpr := 10 |} 256 108 = false /\
    update_vgpr_sgpr_demand shared_vgpr_program {| vgpr := 96; sgpr := 10 |}
      = Ok p' /\
    num_waves p' = 5 /\
    vgpr (max_reg_demand p') = 92 /\
    ~ (vgpr {| vgpr := 96; sgpr := 10 |} <= vgpr (max_reg_demand p')).
Proof.
  eexists.
  split; [vm_compute; reflexivity|]. split; [vm_compute; reflexivity|].
  split; [vm_compute; reflexivity|]. split; [vm_compute; reflexivity|].
  split; [vm_compute; reflexivity|]. split; [vm_compute; reflexivity|].
  vm_compute. intros H. apply H. reflexivity.
Qed.

(** The scalar allotment at [w] waves, without the wrap-around. *)
Lemma get_addr_sgpr_from_waves_Ok p w r :
  0 <= physical_sgprs (dev p) < 65536 -> 0 < sgpr_alloc_granule (dev p) ->
  get_addr_sgpr_from_waves p w = Ok r ->
  exists e x,
    get_extra_sgprs p = Ok e /\ w <> 0 /\
    x = Z.min (physical_sgprs (dev p) / w) 128 /\
    (0 < w -> r = Z.min (u16 (x - x mod sgpr_alloc_granule (dev p) - e))
                        (sgpr_limit (dev p))).
Proof.
  intros HP Hg H. unfold get_addr_sgpr_from_waves in H. inv_ok H.
  injection H as <-.
  match goal with H : udiv _ _ = Ok _ |- _ => apply udiv_Ok in H as [Hw ->] end.
  match goal with H : round_down _ _ = Ok _ |- _ =>
    unfold round_down in H;
    destruct (Z.eqb_spec (sgpr_alloc_granule (dev p)) 0); [lia|];
    injection H as <-
  end.
  eexists _, _. split; [eassumption|]. split; [assumption|].
  split; [reflexivity|]. intros Hw0.
  assert (0 <= physical_sgprs (dev p) / w) by (apply Z.div_pos; lia).
  set (x := Z.min (physical_sgprs (dev p) / w) 128) in *.
  assert (0 <= x <= 128) by lia.
  rewrite (u16_small x) by lia.
  pose proof (round_down_range (sgpr_alloc_granule (dev p)) x Hg ltac:(lia)).
  rewrite u32_small by lia.
  rewrite (u16_small (x - x mod sgpr_alloc_granule (dev p))) by lia.
  reflexivity.
Qed.

Lemma get_addr_vgpr_from_waves_Ok p w r k :
  0 <= physical_vgprs (dev p) < 65536 -> 0 <= k ->
  vgpr_alloc_granule (dev p) = 2 ^ k ->
  get_addr_vgpr_from_waves p w = Ok r ->
  w <> 0 /\
  (0 < w ->
   let q := physical_vgprs (dev p) / w in
   r = Z.min (u16 (q - q mod 2 ^ k - num_shared_vgprs (config p) / 2))
             (vgpr_limit (dev p))).
Proof.
  intros HP Hk Hg H. unfold get_addr_vgpr_from_waves in H. inv_ok H.
  injection H as <-.
  match goal with H : udiv _ _ = Ok _ |- _ => apply udiv_Ok in H as [Hw ->] end.
  split; [assumption|]. intros Hw0 q.
  rewrite Hg, land_lnot_pow2 by assumption. fold q.
  assert (0 <= q) by (apply Z.div_pos; lia).
  assert (q <= physical_vgprs (dev p)).
  { apply Z.div_le_upper_bound; nia. }
  pose proof (Z.pow_pos_nonneg 2 k ltac:(lia) Hk).
  pose proof (round_down_range (2 ^ k) q ltac:(lia) ltac:(lia)).
  rewrite (u16_small (q - q mod 2 ^ k)) by lia. reflexivity.
Qed.


Lemma round_down_divide g x : (g | x - x mod g).
Proof.
  destruct (Z.eq_dec g 0) as [->|Hg].
  - rewrite Z.mod_0_r. exists 0. lia.
  - exists (x / g). rewrite Z.mod_eq by assumption. lia.
Qed.

Lemma get_sgpr_alloc_Ok p s a e :
  get_extra_sgprs p = Ok e -> 0 < sgpr_alloc_granule (dev p) ->
  get_sgpr_alloc p s = Ok a ->
  let g := sgpr_alloc_granule (dev p) in
  a = u16 ((Z.max (u16 (s + e)) g + g - 1) / g * g).
Proof.
  intros He Hg H g. unfold get_sgpr_alloc in H. rewrite He in H. cbn in H.
  inv_ok H. injection H as <-.
  match goal with H : ALIGN_NPOT _ _ = Ok _ |- _ =>
    unfold ALIGN_NPOT in H; inv_ok H; injection H as <- end.
  match goal with H : udiv _ _ = Ok _ |- _ => apply udiv_Ok in H as [_ ->] end.
  reflexivity.
Qed.

Lemma get_vgpr_alloc_Ok p v a k :
  0 <= k -> vgpr_alloc_granule (dev p) = 2 ^ k ->
  get_vgpr_alloc p v = Ok a ->
  let y := u32 (Z.max v (2 ^ k) + 2 ^ k - 1) in
  v <= vgpr_limit (dev p) /\ a = u16 (y - y mod 2 ^ k).
Proof.
  intros Hk Hg H y. unfold get_vgpr_alloc in H. inv_ok H. injection H as <-.
  match goal with H : assert _ _ = Ok _ |- _ => apply assert_Ok in H end.
  split; [lia|]. unfold align. rewrite Hg, land_lnot_pow2 by assumption.
  reflexivity.
Qed.

(** C5 (amended): on a device and demand that satisfy [floor_pre], when
    the demand fits the limits at the minimum wave count and the function
    returns, the wave count it chose is at most the hardware maximum
    [max_wave64_per_simd * (64 / wave_size)] and the allotment recomputed
    from that wave count covers the demand in both components. *)
Theorem occupancy_floor p d k sl vl p' :
  floor_pre p d k ->
  get_addr_sgpr_from_waves p (min_waves p) = Ok sl ->
  get_addr_vgpr_from_waves p (min_waves p) = Ok vl ->
  exceeds_limits d vl sl = false ->
  update_vgpr_sgpr_demand p d = Ok p' ->
  num_waves p' <= max_wave64_per_simd (dev p) * (64 / wave_size p) /\
  vgpr d <= vgpr (max_reg_demand p') /\
  sgpr d <= sgpr (max_reg_demand p').
Proof.
  intros [] Hsl Hvl Hfit H.
  unfold update_vgpr_sgpr_demand in H. inv_ok H.
  rewrite Hsl in *. rewrite Hvl in *.
  repeat match goal with H : Ok _ = Ok _ |- _ => injection H as <- end.
  rewrite Hfit in H. inv_ok H. injection H as <-. cbn.
  apply orb_false_iff in Hfit as [Hfv Hfs].
  apply Z.ltb_ge in Hfv, Hfs.
  set (sh := num_shared_vgprs (config p) / 2) in *.
  assert (Hsh : 0 <= sh < 16384).
  { subst sh. split; [apply Z.div_pos; lia|].
    apply Z.div_lt_upper_bound; lia. }
  pose proof (Z.pow_pos_nonneg 2 k ltac:(lia) fp_vgpr_granule_log0) as Hgv.
  match goal with H : udiv 64 _ = Ok _ |- _ => apply udiv_Ok in H as [_ ->] end.
  match goal with
  | H : udiv (physical_sgprs _) ?a = Ok ?q,
    H' : udiv (physical_vgprs _) ?b = Ok ?q' |- _ =>
      apply udiv_Ok in H as [Hsa_nz ->]; apply udiv_Ok in H' as [Hvd_nz ->]
  end.
  (* the wave count *)
  match goal with
  | H : get_addr_vgpr_from_waves p ?w = Ok _ |- _ => set (W := w) in *
  end.
  assert (Hw64 : 0 <= 64 / wave_size p) by (apply Z.div_pos; lia).
  assert (Hmw : 0 <= max_wave64_per_simd (dev p) * (64 / wave_size p)) by nia.
  match goal with
  | H : get_addr_vgpr_from_waves p W = Ok ?r |- _ =>
      destruct (get_addr_vgpr_from_waves_Ok p W r k) as [HW0 Hv];
        [assumption|assumption|assumption|assumption|]
  end.
  assert (HWs : W <= u16 (physical_sgprs (dev p) / a1)) by (subst W; lia).
  assert (HWv : W <= u16 (physical_vgprs (dev p) / u16 (a3 + sh)))
    by (subst W; lia).
  assert (HWm : W <= u16 (u32 (max_wave64_per_simd (dev p) * (64 / wave_size p))))
    by (subst W; lia).
  assert (HW : 0 < W).
  { assert (0 <= W); [|lia]. subst W. unfold u16.
    repeat apply Z.min_glb; apply Z.mod_pos_bound; lia. }
  clearbody W. specialize (Hv HW). cbv zeta in Hv.
  split.
  { pose proof (u32_le _ Hmw) as H32.
    pose proof (u16_le _ (proj1 H32)). lia. }
  split.
  - (* the vector registers *)
    set (g := 2 ^ k) in *.
    destruct (get_addr_vgpr_from_waves_Ok p (min_waves p) vl k)
      as [_ Hvlv]; [assumption..|].
    specialize (Hvlv ltac:(lia)). cbv zeta in Hvlv.
    assert (Hdv : 0 <= vgpr d <= vgpr_limit (dev p)) by lia.
    rewrite (u16_small (vgpr d)) in * by lia.
    match goal with
    | H : get_vgpr_alloc p _ = Ok _ |- _ =>
        destruct (get_vgpr_alloc_Ok p _ _ k fp_vgpr_granule_log0
                    fp_vgpr_granule0 H) as [_ Hva]
    end.
    cbv zeta in Hva. fold g in Hva.
    assert (Hg8 : g < 8192) by lia.
    set (M := Z.max (vgpr d) g) in *.
    assert (HM : g <= M < 32768) by lia.
    rewrite (u32_small (M + g - 1)) in Hva by lia.
    set (y := M + g - 1) in *.
    pose proof (Z.mod_pos_bound y g Hgv) as Hym.
    pose proof (round_down_range g y Hgv ltac:(lia)) as Hyr.
    pose proof (round_down_divide g y) as Hyd.
    set (VA := y - y mod g) in *.
    rewrite (u16_small VA) in Hva by lia. subst a3.
    assert (HVA : M <= VA) by lia.
    rewrite (u16_small (VA + sh)) in * by lia.
    assert (Hq0 : 0 <= physical_vgprs (dev p) / (VA + sh))
      by (apply Z.div_pos; lia).
    pose proof (u16_le _ Hq0) as Hq1.
    pose proof (Z.mul_div_le (physical_vgprs (dev p)) (VA + sh) ltac:(lia)).
    assert (Hvdq : VA + sh <= physical_vgprs (dev p) / W).
    { apply Z.div_le_lower_bound; [lia|]. rewrite Z.mul_comm.
      etransitivity; [apply Z.mul_le_mono_nonneg_l with (m := physical_vgprs (dev p) / (VA + sh)); lia|].
      assumption. }
    set (q := physical_vgprs (dev p) / W) in *.
    assert (Hdiv : (g | VA + sh)).
    { apply Z.divide_add_r; [exact Hyd|]. subst g sh.
      rewrite <- fp_vgpr_granule0. exact fp_shared_aligned0. }
    pose proof (round_down_above g _ q Hgv Hdiv Hvdq).
    assert (q <= physical_vgprs (dev p)).
    { subst q. apply Z.div_le_upper_bound; nia. }
    pose proof (Z.mod_pos_bound q g Hgv).
    rewrite u16_small in Hv by lia.
    rewrite i16_small; lia.
  - (* the scalar registers *)
    set (gs := sgpr_alloc_granule (dev p)) in *.
    destruct (get_addr_sgpr_from_waves_Ok p (min_waves p) sl)
      as (e & xm & He & _ & Hxm & Hslv); [assumption|subst gs; lia|assumption|].
    specialize (Hslv ltac:(lia)).
    destruct (get_addr_sgpr_from_waves_Ok p W a10)
      as (e' & x & He' & _ & Hx & Ha10v); [assumption|subst gs; lia|assumption|].
    specialize (Ha10v HW).
    rewrite He in He'. injection He' as <-.
    pose proof (get_extra_sgprs_bounds p e He) as Hebound.
    assert (Hgs : 0 < gs) by (subst gs; lia).
    fold gs in Hslv, Ha10v.
    assert (Hpm : gs <= physical_sgprs (dev p) / min_waves p).
    { apply Z.div_le_lower_bound; [lia|]. subst gs. lia. }
    assert (Hxmr : gs <= xm <= 128) by (subst gs; lia).
    pose proof (round_down_above gs gs xm Hgs (Z.divide_refl gs) ltac:(lia)) as HRm.
    pose proof (round_down_range gs xm Hgs ltac:(lia)) as HRmr.
    pose proof (round_down_divide gs xm) as HRmd.
    set (Rm := xm - xm mod gs) in *.
    rewrite (u16_small (Rm - e)) in Hslv by (subst gs; lia).
    assert (Hds : 0 <= sgpr d /\ sgpr d + e <= Rm /\ sgpr d <= sgpr_limit (dev p))
      by lia.
    match goal with
    | H : get_sgpr_alloc p _ = Ok _ |- _ =>
        pose proof (get_sgpr_alloc_Ok p _ _ e He Hgs H) as Hsa
    end.
    cbv zeta in Hsa. fold gs in Hsa.
    rewrite (u16_small (sgpr d)) in Hsa by lia.
    rewrite (u16_small (sgpr d + e)) in Hsa by lia.
    set (y := Z.max (sgpr d + e) gs) in *.
    destruct (round_up_spec gs y Hgs ltac:(lia)) as [Hyr Hyd].
    pose proof (round_up_least gs y Rm Hgs ltac:(lia) HRmd ltac:(lia)) as Hyl.
    set (A0 := (y + gs - 1) / gs * gs) in *.
    rewrite (u16_small A0) in Hsa by lia. subst a1.
    assert (Hq0 : 0 <= physical_sgprs (dev p) / A0) by (apply Z.div_pos; lia).
    pose proof (u16_le _ Hq0) as Hq1.
    pose proof (Z.mul_div_le (physical_sgprs (dev p)) A0 ltac:(lia)).
    assert (HA0q : A0 <= physical_sgprs (dev p) / W).
    { apply Z.div_le_lower_bound; [lia|]. rewrite Z.mul_comm.
      etransitivity; [apply Z.mul_le_mono_nonneg_l with (m := physical_sgprs (dev p) / A0); lia|].
      assumption. }
    assert (HA0x : A0 <= x) by lia.
    pose proof (round_down_above gs A0 x Hgs Hyd HA0x) as HR.
    pose proof (round_down_range gs x Hgs ltac:(lia)) as HRr.
    set (R := x - x mod gs) in *.
    rewrite (u16_small (R - e)) in Ha10v by lia.
    rewrite i16_small; lia.
Qed.

Lemma occupancy_floor_witness :
  exists p',
    update_vgpr_sgpr_demand (gfx8_program true) {| vgpr := 24; sgpr := 100 |}
      = Ok p' /\
    num_waves p' <= 10 /\ 24 <= vgpr (max_reg_demand p') /\
    100 <= sgpr (max_reg_demand p').
Proof.
  eexists. split; [vm_compute; reflexivity|].
  apply (occupancy_floor (gfx8_program true) {| vgpr := 24; sgpr := 100 |}
           2 102 256).
  - constructor; try (exists 0; reflexivity); vm_compute;
      repeat split; try reflexivity; intro; discriminate.
  - vm_compute; reflexivity.
  - vm_compute; reflexivity.
  - vm_compute; reflexivity.
  - vm_compute; reflexivity.
Defined.

End OccupancyFloor.

Section Feasibility.
Local Open Scope Z_scope.

(** The number of threads [calc_waves_per_workgroup] counts waves for. *)
Definition workgroup_threads (p : Program) : Z :=
  if workgroup_size p =? UINT_MAX then wave_size p else workgroup_size p.

(** The local storage one workgroup allocates, and the storage there is
    for the workgroups of one compute unit, as the feasible branch of
    [update_vgpr_sgpr_demand] computes them. *)
Definition lds_alloc (p : Program) : Z :=
  align (u32 (lds_size (config p) * lds_encoding_granule (dev p)))
    (lds_alloc_granule (dev p)).

Definition lds_available (p : Program) : Z :=
  if wgp_mode p then u32 (lds_limit (dev p) * 2) else lds_limit (dev p).

(** What the feasible branch needs beyond [floor_pre] to report a wave
    count: a power-of-two wave size of at most 64, at least one wave and
    one SIMD per compute unit, a workgroup that fits the waves of one
    compute unit, room for one vector granule beside the shared registers
    at the minimum wave count, and local storage that fits the storage
    available. *)
Record fits_pre (p : Program) (j : Z) : Prop := {
  ft_wave_log : 0 <= j <= 6;
  ft_wave_size : wave_size p = 2 ^ j;
  ft_max_wave64 : 1 <= max_wave64_per_simd (dev p) < 1024;
  ft_simd : 1 <= simd_per_cu (dev p) < 32768;
  ft_workgroup : 1 <= workgroup_threads p < 2147483648;
  ft_workgroup_fits :
    workgroup_threads p
    <= max_wave64_per_simd (dev p) * (64 / wave_size p) * simd_per_cu_wgp p
       * wave_size p;
  ft_vgpr_file :
    vgpr_alloc_granule (dev p) + num_shared_vgprs (config p) / 2
    <= physical_vgprs (dev p) / min_waves p;
  ft_lds : lds_size (config p) = 0 \/ 0 < lds_alloc p <= lds_available p
}.

Lemma div_bounds x w : 0 <= x -> 1 <= w -> 0 <= x / w <= x.
Proof.
  intros. split; [apply Z.div_pos; lia|]. apply Z.div_le_upper_bound; nia.
Qed.

Lemma div_at_least_one x a : 0 < a <= x -> 1 <= x / a.
Proof. intros. apply Z.div_le_lower_bound; lia. Qed.

Lemma mul_bounds a b A B :
  1 <= a < A -> 1 <= b <= B -> 1 <= a * b < A * B.
Proof. intros. nia. Qed.

Lemma mul_le_chain a b c m :
  1 <= a <= b -> 1 <= c -> b * c <= m -> 1 <= a * c <= m.
Proof. intros. nia. Qed.

Lemma ceil_div_bounds x s m :
  0 < s -> 1 <= x <= m * s -> 1 <= (x + s - 1) / s <= m.
Proof.
  intros Hs Hx. split; [apply Z.div_le_lower_bound; lia|].
  assert ((x + s - 1) / s < m + 1); [|lia].
  apply Z.div_lt_upper_bound; lia.
Qed.

Lemma align_pow2 t j :
  0 <= j -> 0 <= t -> t + 2 ^ j - 1 < 4294967296 ->
  align t (2 ^ j) = (t + 2 ^ j - 1) - (t + 2 ^ j - 1) mod 2 ^ j.
Proof.
  intros Hj Ht Hb. unfold align.
  pose proof (Z.pow_pos_nonneg 2 j ltac:(lia) Hj).
  rewrite u32_small by lia. apply land_lnot_pow2. exact Hj.
Qed.

Lemma get_addr_vgpr_from_waves_returns p w :
  w <> 0 -> exists r, get_addr_vgpr_from_waves p w = Ok r.
Proof.
  intros Hw. unfold get_addr_vgpr_from_waves.
  rewrite (proj2 (udiv_Ok _ w _) (conj Hw eq_refl)). cbn. eauto.
Qed.

Lemma get_addr_sgpr_from_waves_returns p w e :
  get_extra_sgprs p = Ok e -> sgpr_alloc_granule (dev p) <> 0 -> w <> 0 ->
  exists r, get_addr_sgpr_from_waves p w = Ok r.
Proof.
  intros He Hg Hw. unfold get_addr_sgpr_from_waves, round_down.
  rewrite (proj2 (udiv_Ok _ w _) (conj Hw eq_refl)). cbn.
  destruct (Z.eqb_spec (sgpr_alloc_granule (dev p)) 0); [contradiction|].
  cbn. rewrite He. cbn. eauto.
Qed.

Lemma get_sgpr_alloc_value p s e :
  get_extra_sgprs p = Ok e -> sgpr_alloc_granule (dev p) <> 0 ->
  let g := sgpr_alloc_granule (dev p) in
  get_sgpr_alloc p s = Ok (u16 ((Z.max (u16 (s + e)) g + g - 1) / g * g)).
Proof.
  intros He Hg g. unfold get_sgpr_alloc, ALIGN_NPOT. rewrite He. cbn.
  rewrite (proj2 (udiv_Ok _ (sgpr_alloc_granule (dev p)) _) (conj Hg eq_refl)).
  reflexivity.
Qed.

Lemma get_vgpr_alloc_value p v :
  v <= vgpr_limit (dev p) ->
  get_vgpr_alloc p v
  = Ok (u16 (align (Z.max v (vgpr_alloc_granule (dev p)))
               (vgpr_alloc_granule (dev p)))).
Proof.
  intros Hv. unfold get_vgpr_alloc.
  rewrite (proj2 (assert_Ok 287 _ tt) (proj2 (Z.leb_le _ _) Hv)). reflexivity.
Qed.

(** The waves one workgroup takes: the ceiling of threads over wave size. *)
Lemma calc_waves_per_workgroup_value p j :
  0 <= j -> wave_size p = 2 ^ j ->
  0 <= workgroup_threads p -> workgroup_threads p + wave_size p - 1 < 4294967296 ->
  calc_waves_per_workgroup p
  = Ok ((workgroup_threads p + wave_size p - 1) / wave_size p).
Proof.
  intros Hj Hws Ht Hb. unfold calc_waves_per_workgroup.
  fold (workgroup_threads p). rewrite Hws in *.
  pose proof (Z.pow_pos_nonneg 2 j ltac:(lia) Hj) as Hpos.
  rewrite align_pow2 by assumption.
  assert (Hnz : 2 ^ j <> 0) by lia.
  rewrite (proj2 (udiv_Ok _ (2 ^ j) _) (conj Hnz eq_refl)).
  f_equal. set (y := workgroup_threads p + 2 ^ j - 1).
  rewrite (Z.mod_eq y (2 ^ j)) by lia.
  replace (y - (y - 2 ^ j * (y / 2 ^ j))) with (y / 2 ^ j * 2 ^ j) by lia.
  apply Z.div_mul. lia.
Qed.

Lemma update_feasible_returns p d k j sl vl :
  floor_pre p d k -> fits_pre p j ->
  get_addr_sgpr_from_waves p (min_waves p) = Ok sl ->
  get_addr_vgpr_from_waves p (min_waves p) = Ok vl ->
  exceeds_limits d vl sl = false ->
  exists p', update_vgpr_sgpr_demand p d = Ok p' /\ 1 <= num_waves p'.
Proof.
  intros Hfp Hft Hsl Hvl Hfit.
  destruct Hfp as [fp_wave_size0 fp_max_wave640 fp_min_waves0 fp_physical_sgprs0
    fp_physical_vgprs0 fp_sgpr_limit0 fp_vgpr_limit0 fp_sgpr_granule0
    fp_sgpr_file0 fp_vgpr_granule_log0 fp_vgpr_granule0 fp_vgpr_granule_size0
    fp_shared0 fp_shared_aligned0 fp_demand_vgpr0 fp_demand_sgpr0].
  destruct Hft as [ft_wave_log0 ft_wave_size0 ft_max_wave640 ft_simd0
    ft_workgroup0 ft_workgroup_fits0 ft_vgpr_file0 ft_lds0].
  pose proof Hfit as Hfit'.
  apply orb_false_iff in Hfit' as [Hfv Hfs].
  apply Z.ltb_ge in Hfv, Hfs.
  set (sh := num_shared_vgprs (config p) / 2) in *.
  assert (Hsh : 0 <= sh < 16384).
  { subst sh. split; [apply Z.div_pos; lia|].
    apply Z.div_lt_upper_bound; lia. }
  pose proof (Z.pow_pos_nonneg 2 k ltac:(lia) fp_vgpr_granule_log0) as Hgv.
  pose proof (Z.pow_pos_nonneg 2 j ltac:(lia) ltac:(lia)) as Hwv.
  set (PS := physical_sgprs (dev p)) in *.
  set (PV := physical_vgprs (dev p)) in *.
  (* the limits at the minimum wave count *)
  destruct (get_addr_sgpr_from_waves_Ok p (min_waves p) sl)
    as (e & xm & He & _ & Hxm & Hslv); [assumption|lia|assumption|].
  specialize (Hslv ltac:(lia)).
  destruct (get_addr_vgpr_from_waves_Ok p (min_waves p) vl k)
    as [_ Hvlv]; [assumption..|].
  specialize (Hvlv ltac:(lia)). cbv zeta in Hvlv. fold sh in Hvlv.
  pose proof (get_extra_sgprs_bounds p e He) as Hebound.
  (* the scalar allocation *)
  set (gs := sgpr_alloc_granule (dev p)) in *.
  assert (Hgs : 0 < gs) by lia.
  assert (Hqm : 0 <= PS / min_waves p <= PS) by (apply div_bounds; lia).
  assert (Hpm : gs <= PS / min_waves p).
  { apply Z.div_le_lower_bound; lia. }
  fold PS in Hxm.
  assert (Hxmr : gs <= xm <= 128) by lia.
  pose proof (round_down_above gs gs xm Hgs (Z.divide_refl gs) ltac:(lia)) as HRm.
  pose proof (round_down_range gs xm Hgs ltac:(lia)) as HRmr.
  pose proof (round_down_divide gs xm) as HRmd.
  set (Rm := xm - xm mod gs) in *.
  rewrite (u16_small (Rm - e)) in Hslv by lia.
  assert (Hds : sgpr d + e <= Rm /\ sgpr d <= sgpr_limit (dev p)) by lia.
  pose proof (get_sgpr_alloc_value p (u16 (sgpr d)) e He ltac:(lia)) as Esa.
  cbv zeta in Esa. fold gs in Esa.
  rewrite (u16_small (sgpr d)) in Esa by lia.
  rewrite (u16_small (sgpr d + e)) in Esa by lia.
  set (y := Z.max (sgpr d + e) gs) in *.
  destruct (round_up_spec gs y Hgs ltac:(lia)) as [Hyr Hyd].
  pose proof (round_up_least gs y Rm Hgs ltac:(lia) HRmd ltac:(lia)) as Hyl.
  set (A0 := (y + gs - 1) / gs * gs) in *.
  rewrite (u16_small A0) in Esa by lia.
  assert (HA0 : gs <= A0 <= PS) by lia.
  assert (Hqs : 1 <= PS / A0 < 65536).
  { pose proof (div_bounds PS A0 ltac:(lia) ltac:(lia)).
    pose proof (div_at_least_one PS A0 ltac:(lia)). lia. }
  (* the vector allocation *)
  set (g := 2 ^ k) in *.
  rewrite fp_vgpr_granule0 in ft_vgpr_file0.
  fold PV in Hvlv, ft_vgpr_file0.
  set (qm := PV / min_waves p) in *.
  assert (Hqmv : 0 <= qm <= PV) by (subst qm; apply div_bounds; lia).
  assert (Hdsh : (g | sh)).
  { subst g sh. rewrite <- fp_vgpr_granule0. exact fp_shared_aligned0. }
  assert (Hdgsh : (g | g + sh)) by (apply Z.divide_add_r; [apply Z.divide_refl|exact Hdsh]).
  pose proof (round_down_above g (g + sh) qm Hgv Hdgsh ft_vgpr_file0) as HRv.
  pose proof (round_down_range g qm Hgv ltac:(lia)) as HRvr.
  pose proof (round_down_divide g qm) as HRvd.
  set (Rv := qm - qm mod g) in *.
  rewrite (u16_small (Rv - sh)) in Hvlv by lia.
  assert (Hdv : 0 <= vgpr d /\ vgpr d + sh <= Rv /\ vgpr d <= vgpr_limit (dev p))
    by lia.
  pose proof (get_vgpr_alloc_value p (u16 (vgpr d))) as Eva.
  rewrite (u16_small (vgpr d)) in Eva by lia.
  specialize (Eva ltac:(lia)).
  rewrite fp_vgpr_granule0 in Eva. fold g in Eva.
  set (M := Z.max (vgpr d) g) in *.
  assert (HM : g <= M < 32768) by lia.
  pose proof (align_pow2 M k) as Hal. fold g in Hal.
  rewrite Hal in Eva by lia. clear Hal.
  set (yv := M + g - 1) in *.
  pose proof (Z.mod_pos_bound yv g Hgv) as Hym.
  pose proof (round_down_range g yv Hgv ltac:(lia)) as Hyvr.
  pose proof (round_down_divide g yv) as Hyvd.
  set (VA := yv - yv mod g) in *.
  rewrite (u16_small VA) in Eva by lia.
  assert (HVA : M <= VA) by lia.
  assert (HVAsh : VA + sh <= Rv).
  { assert (Hd1 : (g | Rv - sh)) by (apply Z.divide_sub_r; assumption).
    assert (Hle : VA <= Rv - sh); [|lia].
    subst VA yv. rewrite (Z.mod_eq (M + g - 1) g) by lia.
    pose proof (round_up_least g M (Rv - sh) Hgv ltac:(lia) Hd1 ltac:(lia)).
    lia. }
  assert (Hqv : 1 <= PV / (VA + sh) < 65536).
  { pose proof (div_bounds PV (VA + sh) ltac:(lia) ltac:(lia)).
    pose proof (div_at_least_one PV (VA + sh) ltac:(lia)). lia. }
  (* waves and workgroups *)
  assert (Hj64 : 2 ^ j <= 64).
  { change 64 with (2 ^ 6). apply Z.pow_le_mono_r; lia. }
  assert (Hw64 : 1 <= 64 / wave_size p <= 64).
  { rewrite ft_wave_size0.
    split; [apply Z.div_le_lower_bound; lia|].
    apply Z.div_le_upper_bound; lia. }
  set (w64 := 64 / wave_size p) in *.
  set (mw := max_wave64_per_simd (dev p) * w64) in *.
  assert (Hmw : 1 <= mw < 65536).
  { pose proof (mul_bounds _ _ 1024 64 ft_max_wave640 Hw64). subst mw. lia. }
  assert (Hsimd : 1 <= simd_per_cu_wgp p < 65536).
  { unfold simd_per_cu_wgp. destruct (wgp_mode p); rewrite u32_small; lia. }
  set (simd := simd_per_cu_wgp p) in *.
  set (t := workgroup_threads p) in *.
  assert (Ewpw : calc_waves_per_workgroup p
                 = Ok ((workgroup_threads p + wave_size p - 1) / wave_size p)).
  { apply (calc_waves_per_workgroup_value p j); fold t; rewrite ?ft_wave_size0; lia. }
  fold t in Ewpw. rewrite ft_wave_size0 in Ewpw, ft_workgroup_fits0.
  set (ws := 2 ^ j) in *.
  set (wpw := (t + ws - 1) / ws) in *.
  assert (Hwpw : 1 <= wpw <= mw * simd).
  { subst wpw. apply ceil_div_bounds; [lia|]. subst mw. lia. }
  assert (Hmws : 1 <= mw * simd < 65536 * 65535).
  { apply mul_bounds; lia. }
  set (wpc0 := mw * simd / wpw).
  assert (Hwpc0 : 1 <= wpc0 /\ wpc0 * wpw <= mw * simd).
  { subst wpc0. split; [apply Z.div_le_lower_bound; lia|].
    rewrite Z.mul_comm. apply Z.mul_div_le. lia. }
  assert (Hwsnz : wave_size p <> 0) by lia.
  unfold update_vgpr_sgpr_demand.
  rewrite (proj2 (udiv_Ok 64 (wave_size p) _) (conj Hwsnz eq_refl)).
  cbn [mbind result_bind].
  rewrite (proj2 (assert_Ok 326 _ tt) (proj2 (Z.leb_le _ _) fp_min_waves0)).
  cbn [mbind result_bind].
  rewrite Hsl. cbn [mbind result_bind]. rewrite Hvl. cbn [mbind result_bind].
  rewrite Hfit.
  rewrite (u16_small (sgpr d)), (u16_small (vgpr d)) by lia.
  rewrite Esa. cbn [mbind result_bind].
  fold PS PV sh w64. fold mw. fold simd.
  assert (HA0nz : A0 <> 0) by lia.
  rewrite (proj2 (udiv_Ok PS A0 _) (conj HA0nz eq_refl)). cbn [mbind result_bind].
  rewrite Eva. cbn [mbind result_bind].
  rewrite (u16_small (VA + sh)) by lia.
  assert (HVnz : VA + sh <> 0) by lia.
  rewrite (proj2 (udiv_Ok PV (VA + sh) _) (conj HVnz eq_refl)).
  cbn [mbind result_bind].
  rewrite Ewpw. cbn [mbind result_bind].
  rewrite (u32_small mw) by lia. rewrite (u32_small (mw * simd)) by lia.
  assert (Hwpwnz : wpw <> 0) by lia.
  rewrite (proj2 (udiv_Ok (mw * simd) wpw _) (conj Hwpwnz eq_refl)).
  cbn [mbind result_bind]. fold wpc0.
  (* local storage and the cap of 16 workgroups *)
  fold (lds_available p). fold (lds_alloc p).
  assert (Elds : exists wpc1,
             (if lds_size (config p) =? 0 then Ok wpc0
              else udiv (lds_available p) (lds_alloc p)
                   ≫= λ q1 : Z, Ok (wpc0 `min` q1)) = Ok wpc1 /\
             1 <= wpc1 <= wpc0).
  { destruct (Z.eqb_spec (lds_size (config p)) 0) as [Hz|Hnz];
      [exists wpc0; split; [reflexivity|lia]|].
    destruct ft_lds0 as [?|Hl]; [contradiction|].
    assert (Hlnz : lds_alloc p <> 0) by lia.
    rewrite (proj2 (udiv_Ok _ _ _) (conj Hlnz eq_refl)). cbn [mbind result_bind].
    eexists; split; [reflexivity|].
    pose proof (div_at_least_one (lds_available p) (lds_alloc p) ltac:(lia)).
    lia. }
  destruct Elds as (wpc1 & -> & Hwpc1). cbn [mbind result_bind].
  match goal with
  | |- context [DIV_ROUND_UP (u32 (?c * wpw)) simd] => set (wpc2 := c)
  end.
  assert (Hwpc2 : 1 <= wpc2 <= wpc0).
  { subst wpc2. destruct (_ && _); lia. }
  pose proof (mul_le_chain wpc2 wpc0 wpw (mw * simd) Hwpc2 ltac:(lia)
                ltac:(lia)) as Hprod.
  unfold DIV_ROUND_UP.
  rewrite (u32_small (wpc2 * wpw)) by lia.
  rewrite (u32_small (wpc2 * wpw + simd - 1)) by lia.
  assert (Hsimdnz : simd <> 0) by lia.
  rewrite (proj2 (udiv_Ok _ simd _) (conj Hsimdnz eq_refl)).
  cbn [mbind result_bind].
  pose proof (ceil_div_bounds (wpc2 * wpw) simd mw ltac:(lia) ltac:(lia)) as Hdd.
  set (dd := (wpc2 * wpw + simd - 1) / simd) in *.
  rewrite (u16_small (PS / A0)), (u16_small (PV / (VA + sh))),
    (u16_small mw), (u16_small dd) by lia.
  set (W := ((PS / A0) `min` (PV / (VA + sh))) `min` (mw `min` dd)).
  assert (HW : 1 <= W) by (subst W; lia).
  destruct (get_addr_vgpr_from_waves_returns p W ltac:(lia)) as [v ->].
  destruct (get_addr_sgpr_from_waves_returns p W e He ltac:(fold gs; lia) ltac:(lia))
    as [s ->].
  cbn [mbind result_bind].
  eexists. split; [reflexivity|]. exact HW.
Qed.

(** The conditions of [fits_pre] on the workgroup and on the shared
    vector registers are needed as well as the one on local storage: a
    workgroup of more waves than a compute unit runs, or shared registers
    that leave no room for one granule, make the feasible branch stop
    without a wave count. *)
Definition oversized_workgroup_program : Program :=
  {| blocks := []; temp_rc := []; chip_class := GFX8; dev := gfx8_dev;
     config := no_lds; progress := after_isel; wave_size := 64;
     workgroup_size := 4096; wgp_mode := false; needs_flat_scr := false;
     needs_vcc := false; min_waves := 1; max_waves := 0; num_waves := 0;
     max_reg_demand := zero_demand |}.

Definition all_shared_program : Program :=
  sample_program [] [] GFX10 gfx10_dev {| num_shared_vgprs := 1024; lds_size := 0 |}
    false false.

Lemma update_needs_workgroup_fit :
  exceeds_limits {| vgpr := 24; sgpr := 30 |} 256 102 = false /\
  get_addr_sgpr_from_waves oversized_workgroup_program 1 = Ok 102 /\
  get_addr_vgpr_from_waves oversized_workgroup_program 1 = Ok 256 /\
  update_vgpr_sgpr_demand oversized_workgroup_program {| vgpr := 24; sgpr := 30 |}
  = Err DivisionByZero.
Proof. vm_compute. auto. Qed.

Lemma update_needs_vector_room :
  exceeds_limits {| vgpr := 0; sgpr := 30 |} 0 108 = false /\
  get_addr_sgpr_from_waves all_shared_program 1 = Ok 108 /\
  get_addr_vgpr_from_waves all_shared_program 1 = Ok 0 /\
  update_vgpr_sgpr_demand all_shared_program {| vgpr := 0; sgpr := 30 |}
  = Err DivisionByZero.
Proof. vm_compute. auto. Qed.

(** C6 (amended): once the two limits at the minimum wave count are
    computed, a demand above either of them makes the function return
    normally with [num_waves = 0] and [max_reg_demand] the demand given,
    all other fields unchanged; whenever the function returns, the wave
    count is 0 in that case and positive in every other; and on a device,
    a configuration and a demand that satisfy [floor_pre] and [fits_pre],
    a demand within both limits makes the function return, with a wave
    count of at least one. *)
Theorem update_signals_infeasibility p d k j sl vl :
  wave_size p <> 0 -> 1 <= min_waves p ->
  get_addr_sgpr_from_waves p (min_waves p) = Ok sl ->
  get_addr_vgpr_from_waves p (min_waves p) = Ok vl ->
  (exceeds_limits d vl sl = true ->
   update_vgpr_sgpr_demand p d = Ok (with_waves p (max_waves p) 0 d)) /\
  (forall p', update_vgpr_sgpr_demand p d = Ok p' ->
     (exceeds_limits d vl sl = true <-> num_waves p' = 0) /\
     (exceeds_limits d vl sl = true -> max_reg_demand p' = d) /\
     (exceeds_limits d vl sl = false -> 0 < num_waves p')) /\
  (floor_pre p d k -> fits_pre p j -> exceeds_limits d vl sl = false ->
   exists p', update_vgpr_sgpr_demand p d = Ok p' /\ 1 <= num_waves p').
Proof.
  intros Hws Hmin Hsl Hvl.
  assert (Hhead : forall r : result Program,
    update_vgpr_sgpr_demand p d = r ->
    exists rest, r = (if exceeds_limits d vl sl
                      then Ok (with_waves p (max_waves p) 0 d) else rest) /\
                 (exceeds_limits d vl sl = false ->
                  forall p', rest = Ok p' ->
                  exists w v, udiv (physical_vgprs (dev p)) w = Ok v /\
                              0 <= w /\ num_waves p' = w)).
  { intros r <-. unfold update_vgpr_sgpr_demand.
    rewrite (proj2 (udiv_Ok 64 (wave_size p) _) (conj Hws eq_refl)). cbn.
    rewrite (proj2 (assert_Ok 326 _ tt) (proj2 (Z.leb_le _ _) Hmin)). cbn.
    rewrite Hsl. cbn. rewrite Hvl. cbn.
    eexists. split; [reflexivity|].
    intros _ p' Hp'. inv_ok Hp'. injection Hp' as <-. cbn.
    match goal with
    | H : get_addr_vgpr_from_waves _ _ = Ok _ |- _ =>
        unfold get_addr_vgpr_from_waves in H; inv_ok H
    end.
    match goal with
    | H : udiv (physical_vgprs _) (Z.min _ _) = Ok _ |- _ =>
        eexists _, _; split; [exact H|]
    end.
    split; [|reflexivity].
    unfold u16. repeat apply Z.min_glb; apply Z.mod_pos_bound; lia. }
  split; [|split].
  - intros E. destruct (Hhead _ eq_refl) as (rest & -> & _).
    rewrite E. reflexivity.
  - intros p' Hp'. destruct (Hhead _ Hp') as (rest & Hk & Hrest).
    destruct (exceeds_limits d vl sl) eqn:E.
    + injection Hk as ->. cbn. repeat split; auto; discriminate.
    + destruct (Hrest eq_refl p' (eq_sym Hk)) as (w & v & Hdiv & Hw & Hnw).
      apply udiv_Ok in Hdiv as [Hnz _].
      repeat split; intros; try discriminate; lia.
  - intros Hfp Hft Hfit. exact (update_feasible_returns p d k j sl vl Hfp Hft Hsl Hvl Hfit).
Qed.

End Feasibility.

(** Local storage that takes all there is: one workgroup fits. *)
Definition lds_full_program : Program :=
  sample_program [] [] GFX8 gfx8_dev {| num_shared_vgprs := 0; lds_size := 128 |}
    false false.

Lemma update_signals_infeasibility_witness :
  (update_vgpr_sgpr_demand lds_full_program {| vgpr := 300; sgpr := 10 |}
   = Ok (with_waves lds_full_program 0 0 {| vgpr := 300; sgpr := 10 |})) /\
  (exists p',
     update_vgpr_sgpr_demand lds_full_program {| vgpr := 24; sgpr := 30 |} = Ok p' /\
     (1 <= num_waves p')%Z).
Proof.
  split.
  - refine (proj1 (update_signals_infeasibility lds_full_program
              {| vgpr := 300; sgpr := 10 |} 2 6 102 256 _ _ _ _) _).
    + vm_compute. discriminate.
    + vm_compute. discriminate.
    + reflexivity.
    + reflexivity.
    + reflexivity.
  - refine (proj2 (proj2 (update_signals_infeasibility lds_full_program
              {| vgpr := 24; sgpr := 30 |} 2 6 102 256 _ _ _ _)) _ _ _).
    + vm_compute. discriminate.
    + vm_compute. discriminate.
    + reflexivity.
    + reflexivity.
    + constructor; try (exists 0%Z; reflexivity); vm_compute;
        repeat split; try reflexivity; intro; discriminate.
    + constructor; try right; vm_compute;
        repeat split; try reflexivity; intro; discriminate.
    + reflexivity.
Defined.

(* ================================================================== *)
(** ** Incremental demand utilities *)

(** [get_live_changes]: definitions that are not killed, minus operands
    that are a first kill. *)
Definition get_live_changes (instr : Instruction) : RegisterDemand :=
  let changes :=
    foldl (fun changes def =>
             if negb (def_isTemp def) || def_isKill def then changes
             else demand_add_temp changes (def_temp def))
          zero_demand (definitions instr) in
  foldl (fun changes op =>
           if negb (op_isTemp op) || negb (op_isFirstKill op) then changes
           else demand_sub_temp changes (op_temp op))
        changes (operands instr).

(** [get_temp_registers]: killed definitions, plus late-kill operands that
    are a first kill. *)
Definition get_temp_registers (instr : Instruction) : RegisterDemand :=
  let temp_registers :=
    foldl (fun acc def =>
             if negb (def_isTemp def) then acc
             else if def_isKill def then demand_add_temp acc (def_temp def)
             else acc)
          zero_demand (definitions instr) in
  foldl (fun acc op =>
           if op_isTemp op && op_isLateKill op && op_isFirstKill op
           then demand_add_temp acc (op_temp op) else acc)
        temp_registers (operands instr).

(** [get_demand_before]; [instr_before] is [None] for a null pointer. *)
Definition get_demand_before (demand : RegisterDemand) (instr : Instruction)
    (instr_before : option Instruction) : RegisterDemand :=
  let demand := demand_sub demand (get_live_changes instr) in
  let demand := demand_sub demand (get_temp_registers instr) in
  match instr_before with
  | Some ib => demand_add demand (get_temp_registers ib)
  | None => demand
  end.

(* ================================================================== *)
(** ** The per-block step of the liveness analysis *)

(** The running state of the backward scan of one block: the [live] set,
    [new_demand] and the [needs_vcc] flag of the program. *)
Record scan : Type := {
  s_live : gset nat;
  s_new_demand : RegisterDemand;
  s_needs_vcc : bool
}.

Definition def_on_vcc (d : Definition_) : bool :=
  (def_isFixed d || def_hasHint d) && bool_decide (def_physReg d = vcc).

Definition op_on_vcc (o : Operand) : bool :=
  op_isFixed o && bool_decide (op_physReg o = vcc).

(** KILL (lines 105-122): the definitions of one instruction, in order.
    [snap] is [register_demand[idx]]. *)
Fixpoint kill_definitions (defs : list Definition_) (st : scan) (snap : RegisterDemand)
  : list Definition_ * scan * RegisterDemand :=
  match defs with
  | [] => ([], st, snap)
  | definition :: rest =>
      if negb (def_isTemp definition) then
        let '(rest', st', snap') := kill_definitions rest st snap in
        (definition :: rest', st', snap')
      else
        let needs := s_needs_vcc st || def_on_vcc definition in
        let temp := def_temp definition in
        if bool_decide (id temp ∈ s_live st) then
          (* n = 1: the register was live *)
          let st1 := {| s_live := s_live st ∖ {[id temp]};
                        s_new_demand := demand_sub_temp (s_new_demand st) temp;
                        s_needs_vcc := needs |} in
          let '(rest', st', snap') := kill_definitions rest st1 snap in
          (def_setKill false definition :: rest', st', snap')
        else
          let st1 := {| s_live := s_live st;
                        s_new_demand := s_new_demand st;
                        s_needs_vcc := needs |} in
          let '(rest', st', snap') :=
            kill_definitions rest st1 (demand_add_temp snap temp) in
          (def_setKill true definition :: rest', st', snap')
  end.

(** The inner loop of lines 145-150 on the operands after the current one. *)
Definition mark_later_uses (t : nat) (rest : list Operand) : list Operand :=
  map (fun o =>
         if op_isTemp o && bool_decide (tempId o = t)
         then op_setKill true (op_setFirstKill false o)
         else o) rest.

(** GEN (lines 134-155): the operands of one instruction, in order.
    [n] counts the operands still to visit, [ops] are those operands as
    the earlier iterations left them. *)
Fixpoint gen_operands_from (n : nat) (ops : list Operand) (st : scan)
    (snap : RegisterDemand) : list Operand * scan * RegisterDemand :=
  match n, ops with
  | S n', operand :: rest =>
      if negb (op_isTemp operand) then
        let '(rest', st', snap') := gen_operands_from n' rest st snap in
        (operand :: rest', st', snap')
      else
        let needs := s_needs_vcc st || op_on_vcc operand in
        let temp := op_temp operand in
        if bool_decide (id temp ∈ s_live st) then
          (* inserted = false *)
          let st1 := {| s_live := s_live st;
                        s_new_demand := s_new_demand st;
                        s_needs_vcc := needs |} in
          let '(rest', st', snap') := gen_operands_from n' rest st1 snap in
          (operand :: rest', st', snap')
        else
          let operand1 := op_setFirstKill true operand in
          let rest1 := mark_later_uses (tempId operand) rest in
          let snap1 :=
            if op_isLateKill operand then demand_add_temp snap temp else snap in
          let st1 := {| s_live := {[id temp]} ∪ s_live st;
                        s_new_demand := demand_add_temp (s_new_demand st) temp;
                        s_needs_vcc := needs |} in
          let '(rest', st', snap') := gen_operands_from n' rest1 st1 snap1 in
          (operand1 :: rest', st', snap')
  | _, _ => (ops, st, snap)
  end.

Definition gen_operands (ops : list Operand) (st : scan) (snap : RegisterDemand)
  : list Operand * scan * RegisterDemand :=
  gen_operands_from (length ops) ops st snap.

(** [new_demand.sgpr += x] and [new_demand.sgpr -= x] with a 16-bit
    unsigned [x] (lines 93 and 126). *)
Definition demand_add_sgpr (d : RegisterDemand) (x : Z) : RegisterDemand :=
  {| vgpr := vgpr d; sgpr := i16 (sgpr d + x) |}.
Definition demand_sub_sgpr (d : RegisterDemand) (x : Z) : RegisterDemand :=
  {| vgpr := vgpr d; sgpr := i16 (sgpr d - x) |}.

(** The body of the backward loop (lines 102-158) for one instruction that
    is not a phi.  Gives the annotated instruction, its snapshot
    [register_demand[idx]] and the running state before the instruction. *)
Definition process_instruction (phi_sgpr : Z) (insn : Instruction) (st : scan)
  : Instruction * RegisterDemand * scan :=
  let snap := {| vgpr := vgpr (s_new_demand st); sgpr := sgpr (s_new_demand st) |} in
  let '(defs', st1, snap1) := kill_definitions (definitions insn) st snap in
  if is_logical_end insn then
    let st2 := {| s_live := s_live st1;
                  s_new_demand := demand_add_sgpr (s_new_demand st1) phi_sgpr;
                  s_needs_vcc := s_needs_vcc st1 |} in
    ({| opcode := opcode insn; operands := operands insn; definitions := defs' |},
     snap1, st2)
  else
    let ops0 := map (op_setKill false) (operands insn) in
    let '(ops', st2, snap2) := gen_operands ops0 st1 snap1 in
    ({| opcode := opcode insn; operands := ops'; definitions := defs' |},
     snap2, st2).

(** What the backward loop of lines 97-159 leaves: the instructions up to
    and including the last phi, untouched ([idx] is their number minus
    one); the annotated instructions after it with their snapshots; the
    running state and [block_register_demand]. *)
Record scanned : Type := {
  sc_phis : list Instruction;
  sc_body : list Instruction;
  sc_demands : list RegisterDemand;
  sc_state : scan;
  sc_block_demand : RegisterDemand
}.

(** The backward loop, from the last instruction down to the first phi
    met.  The recursion handles the tail of the list first. *)
Fixpoint scan_instructions (phi_sgpr : Z) (insns : list Instruction) (st : scan)
  : scanned :=
  match insns with
  | [] => {| sc_phis := []; sc_body := []; sc_demands := [];
             sc_state := st; sc_block_demand := zero_demand |}
  | insn :: rest =>
      let r := scan_instructions phi_sgpr rest st in
      match sc_phis r with
      | _ :: _ =>
          (* the loop has stopped at a phi further down *)
          {| sc_phis := insn :: sc_phis r; sc_body := sc_body r;
             sc_demands := sc_demands r; sc_state := sc_state r;
             sc_block_demand := sc_block_demand r |}
      | [] =>
          if is_phi insn then
            {| sc_phis := [insn]; sc_body := sc_body r;
               sc_demands := sc_demands r; sc_state := sc_state r;
               sc_block_demand := sc_block_demand r |}
          else
            let '(insn', snap, st') := process_instruction phi_sgpr insn (sc_state r) in
            {| sc_phis := []; sc_body := insn' :: sc_body r;
               sc_demands := snap :: sc_demands r; sc_state := st';
               sc_block_demand := demand_update (sc_block_demand r) snap |}
      end
  end.

(** One phi definition (lines 169-189). *)
Definition phi_definition (insn : Instruction) (st : scan) : result (Instruction * scan) :=
  _ ← assert 172 (is_phi insn && bool_decide (length (definitions insn) = 1%nat));
  match definitions insn with
  | [definition] =>
      if negb (def_isTemp definition) then
        _ ← assert 174 (def_isFixed definition &&
                        bool_decide (def_physReg definition = exec));
        Ok (insn, st)
      else
        let needs := s_needs_vcc st || def_on_vcc definition in
        let temp := def_temp definition in
        let n := bool_decide (id temp ∈ s_live st) in
        Ok ({| opcode := opcode insn; operands := operands insn;
               definitions := [def_setKill (negb n) definition] |},
            {| s_live := s_live st ∖ {[id temp]};
               s_new_demand := s_new_demand st;
               s_needs_vcc := needs |})
  | _ => Err (AssertionFailed 172)
  end.

(** The phi definitions, from index [idx] down to 0 (lines 167-190). *)
Fixpoint phi_definitions (phis : list Instruction) (st : scan)
  : result (list Instruction * scan) :=
  match phis with
  | [] => Ok ([], st)
  | insn :: rest =>
      '(rest', st1) ← phi_definitions rest st;
      '(insn', st2) ← phi_definition insn st1;
      Ok (insn' :: rest', st2)
  end.

(** [lives.live_out[pred].insert(t)]: the new sets and whether [t] is new. *)
Definition live_out_insert (lo : list (gset nat)) (pred t : nat)
  : result (list (gset nat) * bool) :=
  match lo !! pred with
  | None => Err OutOfBounds
  | Some s =>
      if bool_decide (t ∈ s) then Ok (lo, false)
      else Ok (<[pred := {[t]} ∪ s]> lo, true)
  end.

(** Lines 202-206 for one live-in [t]. *)
Fixpoint merge_into_preds (preds : list nat) (t : nat)
    (lo : list (gset nat)) (wl : gset nat) : result (list (gset nat) * gset nat) :=
  match preds with
  | [] => Ok (lo, wl)
  | pred_idx :: rest =>
      '(lo1, inserted) ← live_out_insert lo pred_idx t;
      let wl1 := if inserted : bool then {[pred_idx]} ∪ wl else wl in
      merge_into_preds rest t lo1 wl1
  end.

(** Lines 193-207: the live-ins go to the live-out sets of the
    predecessors.  (The diagnostic of line 199 prints and goes on.) *)
Fixpoint merge_live_ins (rcs : list RegClass) (block : Block) (ts : list nat)
    (lo : list (gset nat)) (wl : gset nat) : result (list (gset nat) * gset nat) :=
  match ts with
  | [] => Ok (lo, wl)
  | t :: rest =>
      rc ← of_option (rcs !! t);
      let preds := if is_linear rc then linear_preds block else logical_preds block in
      '(lo1, wl1) ← merge_into_preds preds t lo wl;
      merge_live_ins rcs block rest lo1 wl1
  end.

(** The stores the phi operands write to. *)
Record stores : Type := {
  st_live_out : list (gset nat);
  st_worklist : gset nat;
  st_phi_sgpr_ops : list Z;
  st_needs_vcc : bool
}.

(** Lines 218-234: the operands of one phi, one per predecessor. *)
Fixpoint phi_operands (logical : bool) (live_in : gset nat) (preds : list nat)
    (ops : list Operand) (s : stores) : result (list Operand * stores) :=
  match preds with
  | [] => Ok (ops, s)
  | pred :: preds' =>
      match ops with
      | [] => Err OutOfBounds
      | operand :: ops' =>
          if negb (op_isTemp operand) then
            '(ops'', s') ← phi_operands logical live_in preds' ops' s;
            Ok (operand :: ops'', s')
          else
            let needs := st_needs_vcc s || op_on_vcc operand in
            (* check if we changed an already processed block *)
            '(lo1, inserted) ← live_out_insert (st_live_out s) pred (tempId operand);
            let wl1 := if inserted : bool then {[pred]} ∪ st_worklist s
                       else st_worklist s in
            pso1 ←
              (if inserted && logical &&
                  RegType_eqb (type (op_temp operand)) RegType_sgpr
               then x ← of_option (st_phi_sgpr_ops s !! pred);
                    Ok (<[pred := u16 (x + temp_size (op_temp operand))]> (st_phi_sgpr_ops s))
               else Ok (st_phi_sgpr_ops s));
            (* set if the operand is killed by this (or another) phi instruction *)
            let operand1 :=
              op_setKill (negb (bool_decide (tempId operand ∈ live_in))) operand in
            '(ops'', s') ← phi_operands logical live_in preds' ops'
                             {| st_live_out := lo1; st_worklist := wl1;
                                st_phi_sgpr_ops := pso1; st_needs_vcc := needs |};
            Ok (operand1 :: ops'', s')
      end
  end.

(** Lines 210-236: the phi operands, from index [idx] down to 0. *)
Fixpoint phis_operands (block : Block) (live_in : gset nat)
    (phis : list Instruction) (s : stores) : result (list Instruction * stores) :=
  match phis with
  | [] => Ok ([], s)
  | insn :: rest =>
      '(rest', s1) ← phis_operands block live_in rest s;
      _ ← assert 213 (is_phi insn);
      let logical := match opcode insn with p_phi => true | _ => false end in
      let preds := if logical then logical_preds block else linear_preds block in
      '(ops', s2) ← phi_operands logical live_in preds (operands insn) s1;
      Ok ({| opcode := opcode insn; operands := ops';
             definitions := definitions insn |} :: rest', s2)
  end.

(** Lines 91-92: the demand of the registers live out of the block. *)
Fixpoint initial_demand (rcs : list RegClass) (ts : list nat) (d : RegisterDemand)
  : result RegisterDemand :=
  match ts with
  | [] => Ok d
  | t :: rest =>
      rc ← of_option (rcs !! t);
      initial_demand rcs rest (demand_add_temp d {| id := t; regClass := rc |})
  end.

(** The state the analysis threads through its steps. *)
Record analysis : Type := {
  program : Program;
  lives : live;
  worklist : gset nat;
  phi_sgpr_ops : list Z
}.

Definition with_block (block : Block) (insns : list Instruction)
    (d : RegisterDemand) : Block :=
  {| index := index block; instructions := insns;
     logical_preds := logical_preds block; linear_preds := linear_preds block;
     register_demand := d |}.

(** [process_live_temps_per_block] on the block at position [block_idx]. *)
Definition process_live_temps_per_block (a : analysis) (block_idx : nat)
  : result analysis :=
  let prog := program a in
  block ← of_option (blocks prog !! block_idx);
  _ ← of_option (lives_register_demand (lives a) !! index block);
  live0 ← of_option (live_out (lives a) !! index block);
  (* initialize register demand *)
  new_demand ← initial_demand (temp_rc prog) (elements live0) zero_demand;
  phi_sgpr ← of_option (phi_sgpr_ops a !! index block);
  let new_demand := demand_sub_sgpr new_demand phi_sgpr in
  (* traverse the instructions backwards *)
  let sc := scan_instructions phi_sgpr (instructions block)
              {| s_live := live0; s_new_demand := new_demand;
                 s_needs_vcc := needs_vcc prog |} in
  let new_demand := s_new_demand (sc_state sc) in
  (* update block's register demand for a last time *)
  let block_register_demand := demand_update (sc_block_demand sc) new_demand in
  let block_demand :=
    if before_ra (progress prog) then block_register_demand
    else register_demand block in
  (* handle phi definitions *)
  '(phis1, st1) ← phi_definitions (sc_phis sc) (sc_state sc);
  let live_in := s_live st1 in
  (* now, we need to merge the live-ins into the live-out sets *)
  '(lo1, wl1) ← merge_live_ins (temp_rc prog) block (elements live_in)
                  (live_out (lives a)) (worklist a);
  (* handle phi operands *)
  '(phis2, s2) ← phis_operands block live_in phis1
                   {| st_live_out := lo1; st_worklist := wl1;
                      st_phi_sgpr_ops := phi_sgpr_ops a;
                      st_needs_vcc := s_needs_vcc st1 |};
  _ ← assert 238 (negb (bool_decide (index block = 0%nat)) ||
                  (demand_eqb new_demand zero_demand &&
                   bool_decide (live_in = ∅)));
  let block' := with_block block (phis2 ++ sc_body sc) block_demand in
  let demands := replicate (length (sc_phis sc)) new_demand ++ sc_demands sc in
  Ok {| program := with_needs_vcc
                     (with_blocks prog (<[block_idx := block']> (blocks prog)))
                     (st_needs_vcc s2);
        lives := {| live_out := st_live_out s2;
                    lives_register_demand :=
                      <[index block := demands]> (lives_register_demand (lives a)) |};
        worklist := st_worklist s2;
        phi_sgpr_ops := st_phi_sgpr_ops s2 |}.

(* ================================================================== *)
(** ** The driver *)

Definition initial_analysis (prog : Program) : analysis :=
  let n := length (blocks prog) in
  {| program := with_needs_vcc prog false;
     lives := {| live_out := replicate n ∅;
                 lives_register_demand := replicate n [] |};
     worklist := list_to_set (index <$> blocks prog);
     phi_sgpr_ops := replicate n 0%Z |}.

Definition without_block (a : analysis) (block_idx : nat) : analysis :=
  {| program := program a; lives := lives a;
     worklist := worklist a ∖ {[block_idx]};
     phi_sgpr_ops := phi_sgpr_ops a |}.

(** One iteration of the loop of lines 377-383: take the highest pending
    block out of the worklist, run the per-block step and merge the
    block's demand into [new_demand]. *)
Definition worklist_step (a : analysis) (new_demand : RegisterDemand)
  : result (analysis * RegisterDemand) :=
  let block_idx := max_list (elements (worklist a)) in
  a' ← process_live_temps_per_block (without_block a block_idx) block_idx;
  block ← of_option (blocks (program a') !! block_idx);
  Ok (a', demand_update new_demand (register_demand block)).

(** The loop, run for at most [fuel] per-block steps; [None] when the
    worklist is not empty after that many steps. *)
Fixpoint worklist_loop (fuel : nat) (a : analysis) (new_demand : RegisterDemand)
  : option (result (analysis * RegisterDemand)) :=
  if decide (worklist a = ∅) then Some (Ok (a, new_demand))
  else
    match fuel with
    | O => None
    | S fuel' =>
        match worklist_step a new_demand with
        | Err e => Some (Err e)
        | Ok (a', new_demand') => worklist_loop fuel' a' new_demand'
        end
    end.

Definition live_var_analysis (fuel : nat) (prog : Program)
  : option (result (Program * live)) :=
  match worklist_loop fuel (initial_analysis prog) zero_demand with
  | None => None
  | Some (Err e) => Some (Err e)
  | Some (Ok (a, new_demand)) =>
      (* calculate the program's register demand and number of waves *)
      if before_ra (progress (program a)) then
        Some (p ← update_vgpr_sgpr_demand (program a) new_demand;
              Ok (p, lives a))
      else Some (Ok (program a, lives a))
  end.

(* ================================================================== *)
(** ** Sample programs *)

Definition tmp (i : nat) (rc : RegClass) : Temp := {| id := i; regClass := rc |}.

(** A read of a register, a constant operand, a write of a register. *)
Definition use (t : Temp) : Operand :=
  {| op_isTemp := true; op_temp := t; op_isFixed := false; op_physReg := 0%nat;
     op_isLateKill := false; isKill_ := false; isFirstKill_ := false |}.
Definition constant : Operand :=
  {| op_isTemp := false; op_temp := tmp 0 s1; op_isFixed := false;
     op_physReg := 0%nat; op_isLateKill := false;
     isKill_ := false; isFirstKill_ := false |}.
Definition def (t : Temp) : Definition_ :=
  {| def_isTemp := true; def_temp := t; def_isFixed := false;
     def_hasHint := false; def_physReg := 0%nat; def_isKill := false |}.

Definition instr (o : aco_opcode) (ops : list Operand) (defs : list Definition_)
  : Instruction :=
  {| opcode := o; operands := ops; definitions := defs |}.

Definition block_of (i : nat) (insns : list Instruction) (logical linear : list nat)
  : Block :=
  {| index := i; instructions := insns; logical_preds := logical;
     linear_preds := linear; register_demand := zero_demand |}.

(** The diamond of the specification: A defines %0 and branches to B and
    C; B reads %0 and defines %1; C reads %0; D merges %1 and a constant
    with a phi and reads the result. *)
Definition diamond_blocks : list Block :=
  [ block_of 0 [instr (other_op 1) [] [def (tmp 0 v1)];
                instr p_logical_end [] []] [] [];
    block_of 1 [instr (other_op 2) [use (tmp 0 v1)] [def (tmp 1 v1)];
                instr p_logical_end [] []] [0] [0];
    block_of 2 [instr (other_op 3) [use (tmp 0 v1)] [];
                instr p_logical_end [] []] [0] [0];
    block_of 3 [instr p_phi [use (tmp 1 v1); constant] [def (tmp 2 v1)];
                instr (other_op 4) [use (tmp 2 v1)] [];
                instr p_logical_end [] []] [1; 2] [1; 2] ]%nat.

Definition diamond : Program :=
  sample_program diamond_blocks [v1; v1; v1] GFX8 gfx8_dev no_lds false false.

(* ================================================================== *)
(** ** Kill flags of the operands *)

(** Two operands refer to the same thing: they differ in flags only. *)
Definition same_ref (o o' : Operand) : Prop :=
  op_isTemp o' = op_isTemp o /\ op_temp o' = op_temp o /\
  op_isFixed o' = op_isFixed o /\ op_physReg o' = op_physReg o /\
  op_isLateKill o' = op_isLateKill o.

Lemma same_ref_refl o : same_ref o o.
Proof. repeat split. Qed.

Lemma same_ref_trans o1 o2 o3 : same_ref o1 o2 -> same_ref o2 o3 -> same_ref o1 o3.
Proof. unfold same_ref. intuition congruence. Qed.

Lemma same_ref_with_flags o k fk : same_ref o (op_with_flags o k fk).
Proof. repeat split. Qed.

Lemma same_ref_tempId o o' : same_ref o o' -> tempId o' = tempId o.
Proof. intros (_ & H & _). unfold tempId. congruence. Qed.

Lemma same_ref_mark t rest : Forall2 same_ref rest (mark_later_uses t rest).
Proof.
  unfold mark_later_uses. induction rest as [|o rest IH]; cbn; constructor; auto.
  destruct (_ && _); [|apply same_ref_refl].
  unfold op_setKill, op_setFirstKill. repeat split.
Qed.

Lemma same_ref_clear ops : Forall2 same_ref ops (map (op_setKill false) ops).
Proof. induction ops; cbn; constructor; auto. repeat split. Qed.

Lemma mark_later_uses_lookup t rest j o :
  mark_later_uses t rest !! j = Some o <->
  exists o0, rest !! j = Some o0 /\
    o = if op_isTemp o0 && bool_decide (tempId o0 = t)
        then op_setKill true (op_setFirstKill false o0) else o0.
Proof.
  unfold mark_later_uses. rewrite list_lookup_fmap.
  destruct (rest !! j) as [o0|]; cbn; split.
  - intros [= <-]. eauto.
  - intros (? & [= <-] & ->). reflexivity.
  - discriminate.
  - intros (? & [=] & _).
Qed.

Section GenOperands.

Lemma gen_operands_from_same_ref n : forall ops st snap ops' st' snap',
  gen_operands_from n ops st snap = (ops', st', snap') ->
  Forall2 same_ref ops ops'.
Proof.
  induction n as [|n IH]; intros ops st snap ops' st' snap' H.
  - cbn in H. injection H as <- <- <-. apply Forall2_same_length_lookup.
    split; [reflexivity|]. intros i x y Hx Hy. rewrite Hx in Hy.
    injection Hy as <-. apply same_ref_refl.
  - destruct ops as [|o rest]; cbn in H.
    { injection H as <- <- <-. constructor. }
    destruct (negb (op_isTemp o)).
    { destruct (gen_operands_from n rest st snap) as [[r s] d] eqn:E.
      injection H as <- <- <-. constructor; [apply same_ref_refl|]. eauto. }
    destruct (bool_decide _).
    { destruct (gen_operands_from n rest _ snap) as [[r s] d] eqn:E.
      injection H as <- <- <-. constructor; [apply same_ref_refl|]. eauto. }
    destruct (gen_operands_from n (mark_later_uses _ rest) _ _) as [[r s] d] eqn:E.
    injection H as <- <- <-. constructor; [repeat split|].
    apply IH in E.
    pose proof (same_ref_mark (tempId o) rest) as Hm.
    clear -E Hm. revert Hm E. generalize (mark_later_uses (tempId o) rest).
    intros l Hm. revert r. induction Hm; intros r E; inversion E; subst;
      constructor; eauto using same_ref_trans.
Qed.

(** An operand whose register is already live is left as it is. *)
Lemma gen_operands_from_live n : forall ops st snap ops' st' snap' j o,
  gen_operands_from n ops st snap = (ops', st', snap') ->
  ops !! j = Some o -> op_isTemp o = true -> tempId o ∈ s_live st ->
  ops' !! j = Some o.
Proof.
  induction n as [|n IH]; intros ops st snap ops' st' snap' j o H Hj Ht Hl.
  - cbn in H. injection H as <- <- <-. exact Hj.
  - destruct ops as [|o0 rest]; cbn in H; [discriminate|].
    destruct (negb (op_isTemp o0)) eqn:Et.
    { destruct (gen_operands_from n rest st snap) as [[r s] d] eqn:E.
      injection H as <- <- <-. destruct j as [|j]; [exact Hj|].
      cbn in *. eauto. }
    destruct (bool_decide _) eqn:El.
    { destruct (gen_operands_from n rest _ snap) as [[r s] d] eqn:E.
      injection H as <- <- <-. destruct j as [|j]; [exact Hj|].
      cbn in *. eapply IH; eauto. }
    destruct (gen_operands_from n (mark_later_uses _ rest) _ _) as [[r s] d] eqn:E.
    injection H as <- <- <-. apply bool_decide_eq_false in El.
    destruct j as [|j].
    { cbn in Hj. injection Hj as ->. contradiction. }
    cbn in *. eapply IH; [exact E| |exact Ht|cbn; set_solver].
    apply mark_later_uses_lookup. exists o. split; [exact Hj|].
    rewrite Ht. cbn. rewrite bool_decide_eq_false_2; [reflexivity|].
    intros Heq. apply El. unfold tempId in *. congruence.
Qed.

(** The flags the operand loop leaves on the reads of a register that was
    not live: the first read is the first kill, the later ones are kills
    and no first kills. *)
Definition first_kill_at (ops : list Operand) (t i : nat) : Prop :=
  (exists o, ops !! i = Some o /\ op_isTemp o = true /\ tempId o = t /\
             op_isFirstKill o = true) /\
  forall j o, ops !! j = Some o -> op_isTemp o = true -> tempId o = t ->
    (i <= j)%nat /\ op_isKill o = true /\ (op_isFirstKill o = true -> j = i).

Lemma gen_operands_from_first_kill n : forall ops st snap ops' st' snap' t,
  gen_operands_from n ops st snap = (ops', st', snap') ->
  length ops = n ->
  (exists o, o ∈ ops /\ op_isTemp o = true /\ tempId o = t) ->
  t ∉ s_live st ->
  exists i, first_kill_at ops' t i.
Proof.
  induction n as [|n IH]; intros ops st snap ops' st' snap' t H Hn Hex Ht.
  - destruct ops; [|discriminate]. destruct Hex as (o & Ho & _).
    apply elem_of_nil in Ho. contradiction.
  - destruct ops as [|o0 rest]; [discriminate|]. cbn in Hn. injection Hn as Hn.
    cbn in H.
    assert (Hrest : forall st1 snap1 r s d rest1 o1,
      gen_operands_from n rest1 st1 snap1 = (r, s, d) ->
      Forall2 same_ref rest rest1 -> t ∉ s_live st1 ->
      ~ (op_isTemp o1 = true /\ tempId o1 = t) ->
      (op_isTemp o0 = true -> tempId o0 = t -> False) ->
      exists i, first_kill_at (o1 :: r) t i).
    { intros st1 snap1 r s d rest1 o1 E Hsame Ht1 Ho1 Ho0.
      destruct Hex as (o & Ho & Hot & Hoid).
      apply elem_of_cons in Ho as [->|Ho]; [exfalso; eauto|].
      apply list_elem_of_lookup in Ho as [j Hj].
      destruct (Forall2_lookup_l _ _ _ _ _ Hsame Hj) as (o' & Hj' & Hs).
      destruct (IH rest1 st1 snap1 r s d t E) as (i & (oi & Hi) & Hall).
      - rewrite <- Hn. symmetry. eapply Forall2_length; eauto.
      - exists o'. split; [eapply list_elem_of_lookup_2; eauto|].
        destruct Hs as (Hs1 & Hs2 & _). unfold tempId in *.
        split; congruence.
      - assumption.
      - exists (S i). split; [exists oi; exact Hi|].
        intros [|k] ok Hk Hkt Hkid.
        + cbn in Hk. injection Hk as <-. exfalso. eauto.
        + cbn in Hk. destruct (Hall k ok Hk Hkt Hkid) as (? & ? & ?).
          repeat split; [lia|assumption|intros; f_equal; auto]. }
    destruct (negb (op_isTemp o0)) eqn:Et.
    { destruct (gen_operands_from n rest st snap) as [[r s] d] eqn:E.
      injection H as <- <- <-.
      apply negb_true_iff in Et.
      eapply Hrest; eauto.
      - apply Forall2_same_length_lookup. split; [reflexivity|].
        intros i x y Hx Hy. rewrite Hx in Hy. injection Hy as <-.
        apply same_ref_refl.
      - intros [? _]. congruence.
      - congruence. }
    apply negb_false_iff in Et.
    destruct (bool_decide _) eqn:El.
    { destruct (gen_operands_from n rest _ snap) as [[r s] d] eqn:E.
      injection H as <- <- <-. apply bool_decide_eq_true in El.
      assert (tempId o0 <> t) by (intros <-; contradiction).
      eapply Hrest; eauto.
      - apply Forall2_same_length_lookup. split; [reflexivity|].
        intros i x y Hx Hy. rewrite Hx in Hy. injection Hy as <-.
        apply same_ref_refl.
      - intros [_ ?]. contradiction. }
    destruct (gen_operands_from n (mark_later_uses _ rest) _ _) as [[r s] d] eqn:E.
    injection H as <- <- <-. apply bool_decide_eq_false in El.
    destruct (decide (tempId o0 = t)) as [Heq|Hne].
    + (* the first read of [t] *)
      exists 0%nat. split.
      { exists (op_setFirstKill true o0). repeat split; assumption. }
      intros [|k] ok Hk Hkt Hkid.
      { cbn in Hk. injection Hk as <-. split; [lia|]. split; [reflexivity|]. reflexivity. }
      change (r !! k = Some ok) in Hk.
      pose proof (gen_operands_from_same_ref _ _ _ _ _ _ _ E) as Hsame.
      destruct (Forall2_lookup_r _ _ _ _ _ Hsame Hk) as (om & Hm & Hs).
      assert (Hkeep : r !! k = Some om).
      { eapply gen_operands_from_live; [exact E|exact Hm| |].
        - destruct Hs as (Hs1 & _). congruence.
        - cbn. rewrite <- (same_ref_tempId _ _ Hs), Hkid. set_solver. }
      assert (om = ok) as -> by congruence. clear Hkeep.
      apply mark_later_uses_lookup in Hm as (o1 & Ho1 & Hok).
      assert (Hcond : op_isTemp o1 && bool_decide (tempId o1 = tempId o0) = true).
      { destruct (op_isTemp o1 && bool_decide (tempId o1 = tempId o0)) eqn:Ec;
          [reflexivity|]. subst ok. rewrite Hkt in Ec. cbn in Ec.
        apply bool_decide_eq_false in Ec. congruence. }
      rewrite Hcond in Hok. subst ok.
      repeat split; try lia. discriminate.
    + eapply Hrest; eauto.
      * apply same_ref_mark.
      * cbn. set_solver.
      * intros [_ ?]. contradiction.
Qed.

End GenOperands.

(* ================================================================== *)
(** ** What one instruction does to the running state *)

(** The registers an instruction writes and reads. *)
Definition def_ids (defs : list Definition_) : gset nat :=
  list_to_set (id ∘ def_temp <$> filter (fun d => def_isTemp d = true) defs).

Definition use_ids (ops : list Operand) : gset nat :=
  list_to_set (tempId <$> filter (fun o => op_isTemp o = true) ops).

Lemma elem_of_def_ids t defs :
  t ∈ def_ids defs <-> exists d, d ∈ defs /\ def_isTemp d = true /\ id (def_temp d) = t.
Proof.
  unfold def_ids. rewrite elem_of_list_to_set, list_elem_of_fmap.
  split.
  - intros (d & -> & Hd). apply list_elem_of_filter in Hd as [? ?]. eauto.
  - intros (d & ? & ? & <-). exists d. split; [reflexivity|].
    apply list_elem_of_filter. auto.
Qed.

Lemma elem_of_use_ids t ops :
  t ∈ use_ids ops <-> exists o, o ∈ ops /\ op_isTemp o = true /\ tempId o = t.
Proof.
  unfold use_ids. rewrite elem_of_list_to_set, list_elem_of_fmap.
  split.
  - intros (o & -> & Ho). apply list_elem_of_filter in Ho as [? ?]. eauto.
  - intros (o & ? & ? & <-). exists o. split; [reflexivity|].
    apply list_elem_of_filter. auto.
Qed.

Lemma def_ids_cons d defs :
  def_ids (d :: defs) =
  (if def_isTemp d then {[id (def_temp d)]} else ∅) ∪ def_ids defs.
Proof.
  unfold def_ids. rewrite filter_cons. destruct (def_isTemp d) eqn:E.
  - rewrite decide_True by reflexivity. cbn. reflexivity.
  - rewrite decide_False by discriminate. set_solver.
Qed.

Lemma use_ids_cons o ops :
  use_ids (o :: ops) =
  (if op_isTemp o then {[tempId o]} else ∅) ∪ use_ids ops.
Proof.
  unfold use_ids. rewrite filter_cons. destruct (op_isTemp o) eqn:E.
  - rewrite decide_True by reflexivity. cbn. reflexivity.
  - rewrite decide_False by discriminate. set_solver.
Qed.

Lemma use_ids_same_ref ops ops' :
  Forall2 same_ref ops ops' -> use_ids ops' = use_ids ops.
Proof.
  induction 1 as [|o o' ops ops' Ho _ IH]; [reflexivity|].
  rewrite !use_ids_cons, IH, (same_ref_tempId _ _ Ho).
  destruct Ho as (-> & _). reflexivity.
Qed.

(** Two definitions that differ in the kill flag only. *)
Definition same_def (d d' : Definition_) : Prop := exists k, d' = def_setKill k d.

Lemma same_def_refl d : same_def d d.
Proof. exists (def_isKill d). destruct d; reflexivity. Qed.

Lemma def_ids_same_def defs defs' :
  Forall2 same_def defs defs' -> def_ids defs' = def_ids defs.
Proof.
  induction 1 as [|d d' defs defs' [k ->] _ IH]; [reflexivity|].
  rewrite !def_ids_cons, IH. reflexivity.
Qed.

Section KillDefinitions.

Lemma kill_definitions_same_def defs : forall st snap defs' st' snap',
  kill_definitions defs st snap = (defs', st', snap') ->
  Forall2 same_def defs defs'.
Proof.
  induction defs as [|d defs IH]; intros st snap defs' st' snap' H; cbn in H.
  - injection H as <- <- <-. constructor.
  - destruct (negb (def_isTemp d)).
    { destruct (kill_definitions defs st snap) as [[r s] x] eqn:E.
      injection H as <- <- <-. constructor; eauto using same_def_refl. }
    destruct (bool_decide _).
    + destruct (kill_definitions defs _ snap) as [[r s] x] eqn:E.
      injection H as <- <- <-. constructor; [eexists; reflexivity|eauto].
    + destruct (kill_definitions defs _ _) as [[r s] x] eqn:E.
      injection H as <- <- <-. constructor; [eexists; reflexivity|eauto].
Qed.

Lemma kill_definitions_live defs : forall st snap defs' st' snap',
  kill_definitions defs st snap = (defs', st', snap') ->
  s_live st' = s_live st ∖ def_ids defs.
Proof.
  induction defs as [|d defs IH]; intros st snap defs' st' snap' H; cbn in H.
  - injection H as <- <- <-. unfold def_ids. cbn. set_solver.
  - rewrite def_ids_cons. destruct (def_isTemp d); cbn in H.
    2:{ destruct (kill_definitions defs st snap) as [[r s] x] eqn:E.
        injection H as <- <- <-. apply IH in E. rewrite E. set_solver. }
    destruct (bool_decide _) eqn:El.
    + destruct (kill_definitions defs _ snap) as [[r s] x] eqn:E.
      injection H as <- <- <-. apply IH in E. rewrite E. cbn. set_solver.
    + destruct (kill_definitions defs _ _) as [[r s] x] eqn:E.
      injection H as <- <- <-. apply IH in E. rewrite E. cbn.
      apply bool_decide_eq_false in El. set_solver.
Qed.

(** Running the loop again on its own output changes nothing. *)
Lemma kill_definitions_idem defs : forall st snap defs' st' snap',
  kill_definitions defs st snap = (defs', st', snap') ->
  kill_definitions defs' st snap = (defs', st', snap').
Proof.
  induction defs as [|d defs IH]; intros st snap defs' st' snap' H; cbn in H.
  - injection H as <- <- <-. reflexivity.
  - destruct (negb (def_isTemp d)) eqn:Et.
    { destruct (kill_definitions defs st snap) as [[r s] x] eqn:E.
      injection H as <- <- <-. cbn. rewrite Et. erewrite IH; eauto. }
    destruct (bool_decide _) eqn:El.
    + destruct (kill_definitions defs _ snap) as [[r s] x] eqn:E.
      injection H as <- <- <-. cbn. rewrite Et, El. erewrite IH; eauto.
    + destruct (kill_definitions defs _ _) as [[r s] x] eqn:E.
      injection H as <- <- <-. cbn. rewrite Et, El. erewrite IH; eauto.
Qed.

(** A definition whose register is not live is marked as a kill. *)
Lemma kill_definitions_dead defs : forall st snap defs' st' snap' j d',
  kill_definitions defs st snap = (defs', st', snap') ->
  defs' !! j = Some d' -> def_isTemp d' = true ->
  id (def_temp d') ∉ s_live st ->
  def_isKill d' = true.
Proof.
  induction defs as [|d defs IH]; intros st snap defs' st' snap' j d' H Hj Ht Hl;
    cbn in H.
  - injection H as <- <- <-. discriminate.
  - destruct (negb (def_isTemp d)) eqn:Et.
    { destruct (kill_definitions defs st snap) as [[r s] x] eqn:E.
      injection H as <- <- <-. destruct j as [|j]; cbn in Hj.
      - injection Hj as <-. rewrite Ht in Et. discriminate.
      - eapply IH; eauto. }
    destruct (bool_decide _) eqn:El.
    + destruct (kill_definitions defs _ snap) as [[r s] x] eqn:E.
      injection H as <- <- <-. apply bool_decide_eq_true in El.
      destruct j as [|j]; cbn in Hj.
      * injection Hj as <-. contradiction.
      * eapply IH; eauto. cbn. set_solver.
    + destruct (kill_definitions defs _ _) as [[r s] x] eqn:E.
      injection H as <- <- <-.
      destruct j as [|j]; cbn in Hj.
      * injection Hj as <-. reflexivity.
      * eapply IH; eauto.
Qed.

End KillDefinitions.

Section GenOperandsState.

Lemma gen_operands_from_live_set n : forall ops st snap ops' st' snap',
  gen_operands_from n ops st snap = (ops', st', snap') ->
  length ops = n ->
  s_live st' = s_live st ∪ use_ids ops.
Proof.
  induction n as [|n IH]; intros ops st snap ops' st' snap' H Hn.
  - destruct ops; [|discriminate]. cbn in H. injection H as <- <- <-.
    unfold use_ids. cbn. set_solver.
  - destruct ops as [|o rest]; [discriminate|]. injection Hn as Hn.
    cbn in H. rewrite use_ids_cons. destruct (op_isTemp o); cbn in H.
    2:{ destruct (gen_operands_from n rest st snap) as [[r s] d] eqn:E.
        injection H as <- <- <-. apply IH in E; [|assumption].
        rewrite E. set_solver. }
    destruct (bool_decide _) eqn:El.
    + destruct (gen_operands_from n rest _ snap) as [[r s] d] eqn:E.
      injection H as <- <- <-. apply IH in E; [|assumption].
      apply bool_decide_eq_true in El. rewrite E. cbn.
      unfold tempId. set_solver.
    + destruct (gen_operands_from n (mark_later_uses _ rest) _ _)
        as [[r s] d] eqn:E.
      injection H as <- <- <-. apply IH in E.
      * rewrite E. cbn. rewrite (use_ids_same_ref _ _ (same_ref_mark _ rest)).
        unfold tempId. set_solver.
      * rewrite <- Hn. symmetry. eapply Forall2_length, same_ref_mark.
Qed.

Lemma clear_same_ref ops ops' :
  Forall2 same_ref ops ops' ->
  map (op_setKill false) ops' = map (op_setKill false) ops.
Proof.
  induction 1 as [|o o' ops ops' Ho _ IH]; [reflexivity|].
  cbn. rewrite IH. f_equal.
  destruct Ho as (H1 & H2 & H3 & H4 & H5).
  unfold op_setKill, op_with_flags. congruence.
Qed.

End GenOperandsState.

(** Two instructions that differ in the flags the analysis writes. *)
Definition same_instr (i i' : Instruction) : Prop :=
  opcode i' = opcode i /\
  Forall2 same_ref (operands i) (operands i') /\
  Forall2 same_def (definitions i) (definitions i').

Lemma Forall2_same_ref_refl ops : Forall2 same_ref ops ops.
Proof. induction ops; constructor; auto using same_ref_refl. Qed.

Lemma Forall2_same_def_refl defs : Forall2 same_def defs defs.
Proof. induction defs; constructor; auto using same_def_refl. Qed.

Lemma same_instr_refl i : same_instr i i.
Proof.
  split; [reflexivity|].
  split; [apply Forall2_same_ref_refl|apply Forall2_same_def_refl].
Qed.

Lemma same_instr_is_phi i i' : same_instr i i' -> is_phi i' = is_phi i.
Proof. intros [H _]. unfold is_phi. rewrite H. reflexivity. Qed.

Lemma same_instr_is_logical_end i i' :
  same_instr i i' -> is_logical_end i' = is_logical_end i.
Proof. intros [H _]. unfold is_logical_end. rewrite H. reflexivity. Qed.

(** The live set before an instruction, from the live set after it. *)
Definition live_through (insn : Instruction) (L : gset nat) : gset nat :=
  if is_logical_end insn then L ∖ def_ids (definitions insn)
  else (L ∖ def_ids (definitions insn)) ∪ use_ids (operands insn).

Section ProcessInstruction.

Lemma process_instruction_same phi insn st insn' snap st' :
  process_instruction phi insn st = (insn', snap, st') ->
  same_instr insn insn'.
Proof.
  unfold process_instruction. intros H.
  destruct (kill_definitions _ _ _) as [[defs' st1] snap1] eqn:Ek.
  apply kill_definitions_same_def in Ek.
  destruct (is_logical_end insn).
  - injection H as <- <- <-. split; [reflexivity|].
    split; [apply Forall2_same_ref_refl|exact Ek].
  - destruct (gen_operands _ _ _) as [[ops' st2] snap2] eqn:Eg.
    injection H as <- <- <-. split; [reflexivity|]. split; [|exact Ek].
    apply gen_operands_from_same_ref in Eg. cbn.
    pose proof (same_ref_clear (operands insn)) as Hc.
    revert Eg Hc. generalize (map (op_setKill false) (operands insn)).
    intros l Eg Hc. revert ops' Eg.
    induction Hc; intros ops' Eg; inversion Eg; subst; constructor;
      eauto using same_ref_trans.
Qed.

Lemma process_instruction_live phi insn st insn' snap st' :
  process_instruction phi insn st = (insn', snap, st') ->
  s_live st' = live_through insn (s_live st).
Proof.
  unfold process_instruction, live_through. intros H.
  destruct (kill_definitions _ _ _) as [[defs' st1] snap1] eqn:Ek.
  apply kill_definitions_live in Ek.
  destruct (is_logical_end insn).
  - injection H as <- <- <-. exact Ek.
  - destruct (gen_operands _ _ _) as [[ops' st2] snap2] eqn:Eg.
    injection H as <- <- <-.
    apply gen_operands_from_live_set in Eg; [|reflexivity].
    rewrite Eg, Ek, (use_ids_same_ref _ _ (same_ref_clear _)). reflexivity.
Qed.

Lemma process_instruction_idem phi insn st insn' snap st' :
  process_instruction phi insn st = (insn', snap, st') ->
  process_instruction phi insn' st = (insn', snap, st').
Proof.
  intros H. pose proof (process_instruction_same _ _ _ _ _ _ H) as Hs.
  revert H. unfold process_instruction.
  rewrite (same_instr_is_logical_end _ _ Hs).
  destruct (kill_definitions (definitions insn) _ _) as [[defs' st1] snap1] eqn:Ek.
  destruct (is_logical_end insn).
  - intros [= <- <- <-]. cbn.
    rewrite (kill_definitions_idem _ _ _ _ _ _ Ek). reflexivity.
  - destruct (gen_operands _ _ _) as [[ops' st2] snap2] eqn:Eg.
    intros [= <- <- <-]. cbn.
    rewrite (kill_definitions_idem _ _ _ _ _ _ Ek).
    destruct Hs as (_ & Hops & _). cbn in Hops.
    unfold gen_operands in *.
    rewrite (clear_same_ref _ _ Hops), Eg. reflexivity.
Qed.

(** C1 for one instruction. *)
Lemma process_instruction_first_kill phi insn st insn' snap st' t :
  process_instruction phi insn st = (insn', snap, st') ->
  is_logical_end insn = false ->
  t ∈ use_ids (operands insn) -> t ∉ s_live st ->
  exists i, first_kill_at (operands insn') t i.
Proof.
  unfold process_instruction. intros H Hle Ht Hl. rewrite Hle in H.
  destruct (kill_definitions _ _ _) as [[defs' st1] snap1] eqn:Ek.
  apply kill_definitions_live in Ek.
  destruct (gen_operands _ _ _) as [[ops' st2] snap2] eqn:Eg.
  injection H as <- <- <-. cbn.
  eapply gen_operands_from_first_kill; [exact Eg|reflexivity| |].
  - apply elem_of_use_ids.
    rewrite (use_ids_same_ref _ _ (same_ref_clear _)). exact Ht.
  - rewrite Ek. set_solver.
Qed.

End ProcessInstruction.

(* ================================================================== *)
(** ** The backward scan of a block *)

Definition no_phi (insns : list Instruction) : Prop :=
  Forall (fun i => is_phi i = false) insns.

(** All instructions and all snapshots of a block after the scan; the
    phis get the demand [nd] at the top of the body. *)
Definition scanned_instructions (sc : scanned) : list Instruction :=
  sc_phis sc ++ sc_body sc.

Definition scanned_demands (nd : RegisterDemand) (sc : scanned) : list RegisterDemand :=
  replicate (length (sc_phis sc)) nd ++ sc_demands sc.

Section Scan.
Variable phi_sgpr : Z.

Lemma scan_instructions_no_phi insns st :
  no_phi insns -> sc_phis (scan_instructions phi_sgpr insns st) = [].
Proof.
  induction 1 as [|i insns Hi _ IH]; [reflexivity|].
  cbn. rewrite IH, Hi.
  destruct (process_instruction _ _ _) as [[? ?] ?]. reflexivity.
Qed.

Lemma scan_instructions_cons_body i insns st :
  no_phi (i :: insns) ->
  let r := scan_instructions phi_sgpr insns st in
  let res := process_instruction phi_sgpr i (sc_state r) in
  scan_instructions phi_sgpr (i :: insns) st =
  {| sc_phis := []; sc_body := res.1.1 :: sc_body r;
     sc_demands := res.1.2 :: sc_demands r; sc_state := res.2;
     sc_block_demand := demand_update (sc_block_demand r) res.1.2 |}.
Proof.
  intros H r res. inversion H as [|? ? Hi Hrest]; subst.
  cbn. fold r. unfold r at 1. rewrite scan_instructions_no_phi by assumption.
  rewrite Hi. subst res. destruct (process_instruction _ _ _) as [[? ?] ?].
  reflexivity.
Qed.

(** The scan splits the block into the phis it leaves alone and the body
    it annotates. *)
Lemma scan_instructions_split insns st :
  let sc := scan_instructions phi_sgpr insns st in
  exists body,
    insns = sc_phis sc ++ body /\ no_phi body /\
    scan_instructions phi_sgpr body st =
      {| sc_phis := []; sc_body := sc_body sc; sc_demands := sc_demands sc;
         sc_state := sc_state sc; sc_block_demand := sc_block_demand sc |} /\
    (sc_phis sc = [] \/ exists p i, sc_phis sc = p ++ [i] /\ is_phi i = true).
Proof.
  induction insns as [|i insns IH]; cbn zeta.
  - exists []. repeat split; auto. constructor.
  - cbn zeta in IH. destruct IH as (body & Hsplit & Hbody & Hscan & Hlast).
    cbn. destruct (sc_phis (scan_instructions phi_sgpr insns st)) as [|p ps] eqn:Ep.
    + destruct (is_phi i) eqn:Ei.
      * exists body. cbn. repeat split.
        -- cbn in Hsplit. congruence.
        -- assumption.
        -- assumption.
        -- right. exists [], i. auto.
      * cbn in Hsplit. subst body.
        exists (i :: insns).
        assert (Hnp : no_phi (i :: insns)) by (constructor; assumption).
        destruct (process_instruction _ _ _) as [[i' snap] st'] eqn:Epi.
        cbn. split; [reflexivity|]. split; [assumption|].
        split; [rewrite Ep, Ei, Epi; reflexivity|]. left. reflexivity.
    + exists body. cbn. repeat split.
      * rewrite Hsplit. reflexivity.
      * assumption.
      * assumption.
      * right. destruct Hlast as [|(q & l & Hq & Hl)]; [discriminate|].
        exists (i :: q), l. rewrite Hq. auto.
Qed.

(** Scanning phis followed by a body: the phis are left, the body is
    scanned. *)
Lemma scan_instructions_app phis body st :
  no_phi body ->
  (phis = [] \/ exists p i, phis = p ++ [i] /\ is_phi i = true) ->
  let r := scan_instructions phi_sgpr body st in
  scan_instructions phi_sgpr (phis ++ body) st =
  {| sc_phis := phis; sc_body := sc_body r; sc_demands := sc_demands r;
     sc_state := sc_state r; sc_block_demand := sc_block_demand r |}.
Proof.
  intros Hbody Hlast r.
  assert (Hr : sc_phis r = []) by (apply scan_instructions_no_phi; assumption).
  induction phis as [|i phis IH].
  - cbn. fold r. destruct r; cbn in *. subst. reflexivity.
  - destruct Hlast as [|(p & l & Hp & Hl)]; [discriminate|].
    cbn. destruct p as [|p0 p]; cbn in Hp; injection Hp as -> ->.
    + cbn. fold r. rewrite Hr, Hl. reflexivity.
    + rewrite IH by (right; eauto). cbn.
      destruct (p ++ [l]) eqn:E; [|reflexivity].
      destruct p; discriminate.
Qed.

(** The instruction at [idx] of a body is processed in the state the scan
    of the instructions after it leaves. *)
Lemma scan_instructions_lookup body st idx insn :
  no_phi body -> body !! idx = Some insn ->
  let r := scan_instructions phi_sgpr (drop (S idx) body) st in
  let res := process_instruction phi_sgpr insn (sc_state r) in
  sc_body (scan_instructions phi_sgpr body st) !! idx = Some res.1.1 /\
  sc_demands (scan_instructions phi_sgpr body st) !! idx = Some res.1.2 /\
  sc_state (scan_instructions phi_sgpr (drop idx body) st) = res.2.
Proof.
  intros Hbody. revert idx. induction Hbody as [|i body Hi Hbody IH];
    intros idx Hidx; [discriminate|].
  assert (Hnp : no_phi (i :: body)) by (constructor; assumption).
  destruct idx as [|idx].
  - cbn in Hidx. injection Hidx as ->. cbn zeta. rewrite drop_0.
    rewrite (scan_instructions_cons_body _ _ _ Hnp). cbn [drop].
    rewrite drop_0. auto.
  - cbn in Hidx. rewrite (scan_instructions_cons_body _ _ _ Hnp).
    cbn [drop sc_body sc_demands]. apply IH. exact Hidx.
Qed.

Lemma scan_instructions_length insns st :
  let sc := scan_instructions phi_sgpr insns st in
  length (sc_body sc) = length (sc_demands sc) /\
  (length (sc_phis sc) + length (sc_body sc) = length insns)%nat.
Proof.
  induction insns as [|i insns IH]; [auto|]. cbn zeta in *. cbn.
  destruct (sc_phis (scan_instructions phi_sgpr insns st)) eqn:E.
  - destruct (is_phi i); cbn in *; [lia|].
    destruct (process_instruction _ _ _) as [[? ?] ?]. cbn. lia.
  - cbn in *. lia.
Qed.

(** Scanning an annotated body again gives the same annotations. *)
Lemma scan_instructions_idem body st :
  no_phi body ->
  let sc := scan_instructions phi_sgpr body st in
  no_phi (sc_body sc) /\
  scan_instructions phi_sgpr (sc_body sc) st = sc.
Proof.
  induction 1 as [|i body Hi Hbody IH]; [split; [constructor|reflexivity]|].
  cbn zeta in *. destruct IH as [IH1 IH2].
  assert (Hnp : no_phi (i :: body)) by (constructor; assumption).
  rewrite (scan_instructions_cons_body _ _ _ Hnp). cbn [sc_body].
  destruct (process_instruction phi_sgpr i _) as [[i' snap] st'] eqn:Ep.
  cbn [fst snd].
  assert (Hi' : is_phi i' = false).
  { rewrite (same_instr_is_phi _ _ (process_instruction_same _ _ _ _ _ _ Ep)).
    exact Hi. }
  assert (Hnp' : no_phi (i' :: sc_body (scan_instructions phi_sgpr body st)))
    by (constructor; assumption).
  split; [assumption|].
  rewrite (scan_instructions_cons_body _ _ _ Hnp'). rewrite IH2.
  rewrite (process_instruction_idem _ _ _ _ _ _ Ep). reflexivity.
Qed.

End Scan.

(* ================================================================== *)
(** ** Insertions into the live-out sets

    Every write of the per-block step to a stored live-out set, to the
    worklist and to [phi_sgpr_ops] is an insertion [(pred, t, inc)]: the
    register [t] goes into the live-out set of [pred]; when it is new
    there, [pred] is put on the worklist and, when [inc] is given,
    [phi_sgpr_ops[pred]] grows by it.  The loops of the step are
    sequences of such insertions. *)

Definition event : Type := nat * nat * option Z.

Definition insert_event (lo : list (gset nat)) (wl : gset nat) (pso : list Z)
    (e : event) : result (list (gset nat) * gset nat * list Z) :=
  let '(pred, t, inc) := e in
  '(lo1, inserted) ← live_out_insert lo pred t;
  let wl1 := if inserted : bool then {[pred]} ∪ wl else wl in
  pso1 ← match inc with
         | Some z =>
             if inserted then
               x ← of_option (pso !! pred); Ok (<[pred := u16 (x + z)]> pso)
             else Ok pso
         | None => Ok pso
         end;
  Ok (lo1, wl1, pso1).

Fixpoint insert_events (es : list event) (lo : list (gset nat)) (wl : gset nat)
    (pso : list Z) : result (list (gset nat) * gset nat * list Z) :=
  match es with
  | [] => Ok (lo, wl, pso)
  | e :: es' =>
      '(lo1, wl1, pso1) ← insert_event lo wl pso e;
      insert_events es' lo1 wl1 pso1
  end.

(** The registers a sequence of insertions sends to block [k]. *)
Definition event_ids (k : nat) (es : list event) : gset nat :=
  list_to_set ((fun e : event => e.1.2) <$> filter (fun e : event => e.1.1 = k) es).

Lemma event_ids_nil k : event_ids k [] = ∅.
Proof. reflexivity. Qed.

Lemma event_ids_cons k p t inc es :
  event_ids k ((p, t, inc) :: es) =
  (if decide (p = k) then {[t]} else ∅) ∪ event_ids k es.
Proof.
  unfold event_ids. rewrite filter_cons. cbn.
  destruct (decide (p = k)); cbn; [reflexivity|set_solver].
Qed.

Lemma event_ids_app k es1 es2 :
  event_ids k (es1 ++ es2) = event_ids k es1 ∪ event_ids k es2.
Proof.
  unfold event_ids. rewrite filter_app, fmap_app, list_to_set_app_L.
  reflexivity.
Qed.

Lemma elem_of_event_ids k t es :
  t ∈ event_ids k es <-> exists inc, (k, t, inc) ∈ es.
Proof.
  unfold event_ids. rewrite elem_of_list_to_set, list_elem_of_fmap. split.
  - intros ([[p t'] inc] & -> & He). apply list_elem_of_filter in He as [Hp He].
    cbn in *. subst. eauto.
  - intros [inc He]. exists (k, t, inc). split; [reflexivity|].
    apply list_elem_of_filter. auto.
Qed.

Section InsertEvents.

Lemma insert_events_app es1 es2 lo wl pso :
  insert_events (es1 ++ es2) lo wl pso =
  ('(lo1, wl1, pso1) ← insert_events es1 lo wl pso;
   insert_events es2 lo1 wl1 pso1).
Proof.
  revert lo wl pso. induction es1 as [|e es1 IH]; intros lo wl pso; [reflexivity|].
  cbn. destruct (insert_event lo wl pso e) as [[[lo1 wl1] pso1]|]; cbn; auto.
Qed.

(** One insertion, taken apart. *)
Lemma insert_event_Ok lo wl pso p t inc lo' wl' pso' :
  insert_event lo wl pso (p, t, inc) = Ok (lo', wl', pso') ->
  exists S, lo !! p = Some S /\
    lo' = <[p := {[t]} ∪ S]> lo /\
    wl' = (if decide (t ∈ S) then wl else {[p]} ∪ wl) /\
    (pso' = pso \/
     exists x z, (t ∉ S) /\ inc = Some z /\ pso !! p = Some x /\
                 pso' = <[p := u16 (x + z)]> pso).
Proof.
  unfold insert_event, live_out_insert. intros H.
  apply bind_Ok in H as ([lo1 ins] & Hins & H).
  destruct (lo !! p) as [S|] eqn:HS; [|discriminate].
  exists S. split; [reflexivity|].
  apply bind_Ok in H as (pso1 & Hpso & H). injection H as <- <- <-.
  destruct (bool_decide (t ∈ S)) eqn:Hin.
  - apply bool_decide_eq_true in Hin.
    injection Hins as <- <-. rewrite decide_True by assumption.
    assert (pso1 = pso) as -> by (destruct inc; cbn in Hpso; congruence).
    split; [|auto].
    symmetry; apply list_insert_id; rewrite HS; f_equal; set_solver.
  - apply bool_decide_eq_false in Hin.
    injection Hins as <- <-. rewrite decide_False by assumption.
    split; [reflexivity|]. split; [reflexivity|].
    destruct inc as [z|]; cbn in Hpso.
    + apply bind_Ok in Hpso as (x & Hx & Hpso). apply of_option_Ok in Hx.
      injection Hpso as <-. right. eauto 10.
    + injection Hpso as <-. auto.
Qed.

Lemma insert_events_length es : forall lo wl pso lo' wl' pso',
  insert_events es lo wl pso = Ok (lo', wl', pso') ->
  length lo' = length lo /\ length pso' = length pso.
Proof.
  induction es as [|[[p t] inc] es IH]; intros lo wl pso lo' wl' pso' H; cbn in H.
  - injection H as <- <- <-. auto.
  - inv_ok H. destruct a as [[lo1 wl1] pso1].
    apply insert_event_Ok in Ha as (S & HS & -> & -> & Hpso).
    apply IH in H as [H1 H2]. rewrite length_insert in H1.
    split; [assumption|].
    destruct Hpso as [->|(x & z & _ & _ & _ & ->)]; [assumption|].
    rewrite length_insert in H2. assumption.
Qed.

(** The live-out sets after a sequence of insertions. *)
Lemma insert_events_live_out es : forall lo wl pso lo' wl' pso' k,
  insert_events es lo wl pso = Ok (lo', wl', pso') ->
  lo' !! k = (fun S => S ∪ event_ids k es) <$> lo !! k.
Proof.
  induction es as [|[[p t] inc] es IH]; intros lo wl pso lo' wl' pso' k H; cbn in H.
  - injection H as <- <- <-. rewrite event_ids_nil.
    destruct (lo !! k); cbn; [f_equal; set_solver|reflexivity].
  - inv_ok H. destruct a as [[lo1 wl1] pso1].
    apply insert_event_Ok in Ha as (S & HS & -> & -> & _).
    rewrite (IH _ _ _ _ _ _ k H), event_ids_cons.
    destruct (decide (p = k)) as [->|Hne].
    + rewrite list_lookup_insert_eq by (eapply lookup_lt_Some; eauto).
      rewrite HS. cbn. f_equal. set_solver.
    + rewrite list_lookup_insert_ne by assumption.
      destruct (lo !! k); cbn; [f_equal; set_solver|reflexivity].
Qed.

(** The targets of the insertions are blocks that exist. *)
Lemma insert_events_in_range es : forall lo wl pso lo' wl' pso' p t inc,
  insert_events es lo wl pso = Ok (lo', wl', pso') ->
  (p, t, inc) ∈ es -> (p < length lo)%nat.
Proof.
  induction es as [|[[p0 t0] inc0] es IH];
    intros lo wl pso lo' wl' pso' p t inc H He; cbn in H.
  - apply elem_of_nil in He. contradiction.
  - inv_ok H. destruct a as [[lo1 wl1] pso1].
    apply insert_event_Ok in Ha as (S & HS & -> & -> & _).
    apply elem_of_cons in He as [[= -> -> ->]|He].
    + eapply lookup_lt_Some; eauto.
    + eapply IH in H; [|exact He]. rewrite length_insert in H. exact H.
Qed.

(** The worklist after a sequence of insertions: what was pending, and
    the blocks whose live-out set gained a register. *)
Lemma insert_events_worklist es : forall lo wl pso lo' wl' pso' k,
  insert_events es lo wl pso = Ok (lo', wl', pso') ->
  k ∈ wl' <-> k ∈ wl \/ exists S, lo !! k = Some S /\ ~ event_ids k es ⊆ S.
Proof.
  induction es as [|[[p t] inc] es IH]; intros lo wl pso lo' wl' pso' k H; cbn in H.
  - injection H as <- <- <-. rewrite event_ids_nil. split; [auto|].
    intros [?|(S & _ & HS)]; [assumption|]. exfalso. apply HS. set_solver.
  - inv_ok H. destruct a as [[lo1 wl1] pso1].
    apply insert_event_Ok in Ha as (S & HS & -> & -> & _).
    rewrite (IH _ _ _ _ _ _ k H), event_ids_cons.
    destruct (decide (p = k)) as [->|Hne].
    + rewrite list_lookup_insert_eq by (eapply lookup_lt_Some; eauto).
      rewrite HS. destruct (decide (t ∈ S)) as [Hin|Hin].
      * split; (intros [?|(S' & [= <-] & HS')]; [auto|]); right;
          eexists; (split; [reflexivity|]); set_solver.
      * split.
        -- intros [?|(S' & [= <-] & HS')]; [set_solver|].
           right. eexists. split; [reflexivity|]. set_solver.
        -- intros [?|(S' & [= <-] & HS')]; [set_solver|].
           left. set_solver.
    + rewrite list_lookup_insert_ne by assumption.
      assert (Hwl : k ∈ (if decide (t ∈ S) then wl else {[p]} ∪ wl) <-> k ∈ wl).
      { destruct (decide (t ∈ S)); set_solver. }
      rewrite Hwl. split; (intros [?|(S' & HS1 & HS')]; [auto|]); right;
        exists S'; (split; [assumption|]); set_solver.
Qed.

(** [phi_sgpr_ops] changes only where the live-out set gained a register. *)
Lemma insert_events_phi_sgpr_ops es : forall lo wl pso lo' wl' pso' k,
  insert_events es lo wl pso = Ok (lo', wl', pso') ->
  pso' !! k = pso !! k \/ exists S, lo !! k = Some S /\ ~ event_ids k es ⊆ S.
Proof.
  induction es as [|[[p t] inc] es IH]; intros lo wl pso lo' wl' pso' k H; cbn in H.
  - injection H as <- <- <-. auto.
  - inv_ok H. destruct a as [[lo1 wl1] pso1].
    apply insert_event_Ok in Ha as (S & HS & -> & -> & Hpso).
    rewrite event_ids_cons.
    destruct (IH _ _ _ _ _ _ k H) as [Heq|(S' & HS1 & HS')].
    + destruct Hpso as [->|(x & z & Hin & _ & Hx & ->)]; [auto|].
      destruct (decide (p = k)) as [->|Hne].
      * right. exists S. split; [assumption|]. set_solver.
      * left. rewrite Heq. apply list_lookup_insert_ne. assumption.
    + right. destruct (decide (p = k)) as [->|Hne].
      * rewrite list_lookup_insert_eq in HS1 by (eapply lookup_lt_Some; eauto).
        injection HS1 as <-. exists S. split; [assumption|]. set_solver.
      * rewrite list_lookup_insert_ne in HS1 by assumption.
        exists S'. split; [assumption|]. set_solver.
Qed.

End InsertEvents.

(* ================================================================== *)
(** ** The loops of the step as insertions *)

Definition preds_of (block : Block) (rc : RegClass) : list nat :=
  if is_linear rc then linear_preds block else logical_preds block.

(** The insertions of lines 193-207. *)
Fixpoint merge_events (rcs : list RegClass) (block : Block) (ts : list nat)
  : list event :=
  match ts with
  | [] => []
  | t :: rest =>
      match rcs !! t with
      | Some rc => ((fun p => (p, t, None)) <$> preds_of block rc)
                   ++ merge_events rcs block rest
      | None => []
      end
  end.

(** The insertions of one phi (lines 218-234). *)
Fixpoint phi_events (logical : bool) (preds : list nat) (ops : list Operand)
  : list event :=
  match preds, ops with
  | pred :: preds', operand :: ops' =>
      (if op_isTemp operand then
         [(pred, tempId operand,
           if logical && RegType_eqb (type (op_temp operand)) RegType_sgpr
           then Some (temp_size (op_temp operand)) else None)]
       else []) ++ phi_events logical preds' ops'
  | _, _ => []
  end.

Definition phi_is_logical (insn : Instruction) : bool :=
  match opcode insn with p_phi => true | _ => false end.

Definition phi_preds (block : Block) (insn : Instruction) : list nat :=
  if phi_is_logical insn then logical_preds block else linear_preds block.

(** The insertions of all phis, the last phi first (lines 210-236). *)
Fixpoint phis_events (block : Block) (phis : list Instruction) : list event :=
  match phis with
  | [] => []
  | insn :: rest =>
      phis_events block rest ++
      phi_events (phi_is_logical insn) (phi_preds block insn) (operands insn)
  end.

Section LoopsAsEvents.

Lemma merge_into_preds_events preds t : forall lo wl lo' wl' pso,
  merge_into_preds preds t lo wl = Ok (lo', wl') ->
  insert_events ((fun p => (p, t, None)) <$> preds) lo wl pso = Ok (lo', wl', pso).
Proof.
  induction preds as [|p preds IH]; intros lo wl lo' wl' pso H; cbn in H.
  - injection H as <- <-. reflexivity.
  - apply bind_Ok in H as ([lo1 ins] & Hins & H).
    cbn. rewrite Hins. cbn. apply IH. exact H.
Qed.

Lemma merge_live_ins_events rcs block ts : forall lo wl lo' wl' pso,
  merge_live_ins rcs block ts lo wl = Ok (lo', wl') ->
  insert_events (merge_events rcs block ts) lo wl pso = Ok (lo', wl', pso) /\
  Forall (fun t => is_Some (rcs !! t)) ts.
Proof.
  induction ts as [|t ts IH]; intros lo wl lo' wl' pso H; cbn in H.
  - injection H as <- <-. split; [reflexivity|constructor].
  - apply bind_Ok in H as (rc & Hrc & H). apply of_option_Ok in Hrc.
    apply bind_Ok in H as ([lo1 wl1] & Hm & H).
    cbn. rewrite Hrc. rewrite insert_events_app.
    fold (preds_of block rc) in Hm.
    rewrite (merge_into_preds_events _ _ _ _ _ _ pso Hm). cbn.
    destruct (IH _ _ _ _ pso H) as [IH1 IH2]. split; [exact IH1|].
    constructor; [eauto|assumption].
Qed.

Lemma phi_operands_events logical live_in preds : forall ops s ops' s',
  phi_operands logical live_in preds ops s = Ok (ops', s') ->
  insert_events (phi_events logical preds ops)
    (st_live_out s) (st_worklist s) (st_phi_sgpr_ops s)
  = Ok (st_live_out s', st_worklist s', st_phi_sgpr_ops s') /\
  Forall2 same_ref ops ops'.
Proof.
  induction preds as [|p preds IH]; intros ops s ops' s' H; cbn in H.
  - injection H as <- <-. split; [reflexivity|apply Forall2_same_ref_refl].
  - destruct ops as [|o ops]; [discriminate|]. cbn [phi_events].
    destruct (op_isTemp o) eqn:Et; cbn in H.
    + apply bind_Ok in H as ([lo1 ins] & Hins & H).
      apply bind_Ok in H as (pso1 & Hpso & H).
      apply bind_Ok in H as ([ops1 s1] & Hrec & H). injection H as <- <-.
      destruct (IH _ _ _ _ Hrec) as [IH1 IH2]. cbn in IH1.
      split; [|constructor; [repeat split|assumption]].
      cbn. rewrite Hins. cbn.
      assert (Hpso' :
        match (if logical && RegType_eqb (type (op_temp o)) RegType_sgpr
               then Some (temp_size (op_temp o)) else None) with
        | Some z =>
            if ins then
              x ← of_option (st_phi_sgpr_ops s !! p);
              Ok (<[p := u16 (x + z)]> (st_phi_sgpr_ops s))
            else Ok (st_phi_sgpr_ops s)
        | None => Ok (st_phi_sgpr_ops s)
        end = Ok pso1).
      { rewrite <- Hpso. destruct ins, logical,
          (RegType_eqb (type (op_temp o)) RegType_sgpr); reflexivity. }
      rewrite Hpso'. cbn. exact IH1.
    + apply bind_Ok in H as ([ops1 s1] & Hrec & H). injection H as <- <-.
      destruct (IH _ _ _ _ Hrec) as [IH1 IH2].
      split; [exact IH1|constructor; [apply same_ref_refl|assumption]].
Qed.

Lemma phis_operands_events block live_in phis : forall s phis' s',
  phis_operands block live_in phis s = Ok (phis', s') ->
  insert_events (phis_events block phis)
    (st_live_out s) (st_worklist s) (st_phi_sgpr_ops s)
  = Ok (st_live_out s', st_worklist s', st_phi_sgpr_ops s') /\
  Forall2 same_instr phis phis' /\
  Forall (fun i => is_phi i = true) phis.
Proof.
  induction phis as [|i phis IH]; intros s phis' s' H; cbn in H.
  - injection H as <- <-. repeat split; constructor.
  - apply bind_Ok in H as ([rest1 s1] & Hrec & H).
    apply bind_Ok in H as (u & Hphi & H). apply assert_Ok in Hphi.
    apply bind_Ok in H as ([ops1 s2] & Hops & H). injection H as <- <-.
    destruct (IH _ _ _ Hrec) as (IH1 & IH2 & IH3).
    apply phi_operands_events in Hops as [Hev Hsame].
    split; [|split].
    + cbn. rewrite insert_events_app, IH1. cbn. exact Hev.
    + constructor; [|assumption]. split; [reflexivity|].
      split; [exact Hsame|apply Forall2_same_def_refl].
    + constructor; assumption.
Qed.

(** The registers the phis of a block define. *)
Definition phi_def_ids (phis : list Instruction) : gset nat :=
  ⋃ ((fun i => def_ids (definitions i)) <$> phis).

Lemma phi_definition_Ok insn st insn' st' :
  phi_definition insn st = Ok (insn', st') ->
  is_phi insn = true /\ same_instr insn insn' /\
  s_live st' = s_live st ∖ def_ids (definitions insn) /\
  s_new_demand st' = s_new_demand st.
Proof.
  unfold phi_definition. intros H.
  apply bind_Ok in H as (u & Ha & H). apply assert_Ok in Ha.
  apply andb_true_iff in Ha as [Hphi _]. split; [assumption|].
  destruct (definitions insn) as [|d [|? ?]] eqn:Ed; try discriminate.
  rewrite def_ids_cons. destruct (def_isTemp d) eqn:Et; cbn in H.
  - injection H as <- <-. cbn. repeat split.
    + apply Forall2_same_ref_refl.
    + rewrite Ed. cbn. constructor; [eexists; reflexivity|constructor].
    + set_solver.
  - apply bind_Ok in H as (u' & _ & H). injection H as <- <-.
    repeat split.
    + apply Forall2_same_ref_refl.
    + apply Forall2_same_def_refl.
    + set_solver.
Qed.

Lemma phi_definitions_Ok phis : forall st phis' st',
  phi_definitions phis st = Ok (phis', st') ->
  Forall (fun i => is_phi i = true) phis /\
  Forall2 same_instr phis phis' /\
  s_live st' = s_live st ∖ phi_def_ids phis /\
  s_new_demand st' = s_new_demand st.
Proof.
  induction phis as [|i phis IH]; intros st phis' st' H; cbn in H.
  - injection H as <- <-. unfold phi_def_ids. cbn.
    repeat split; try constructor. set_solver.
  - apply bind_Ok in H as ([rest1 st1] & Hrec & H).
    apply bind_Ok in H as ([i1 st2] & Hi & H). injection H as <- <-.
    destruct (IH _ _ _ Hrec) as (IH1 & IH2 & IH3 & IH4).
    apply phi_definition_Ok in Hi as (Hphi & Hsame & Hl & Hd).
    repeat split.
    + constructor; assumption.
    + constructor; assumption.
    + rewrite Hl, IH3. unfold phi_def_ids. cbn. set_solver.
    + congruence.
Qed.

End LoopsAsEvents.

(* ================================================================== *)
(** ** A successful per-block step, taken apart *)

(** The state in which the backward scan of a block starts. *)
Definition scan_start (a : analysis) (live0 : gset nat) (nd0 : RegisterDemand)
    (phi : Z) : scan :=
  {| s_live := live0; s_new_demand := demand_sub_sgpr nd0 phi;
     s_needs_vcc := needs_vcc (program a) |}.

(** The demand the step stores in the block. *)
Definition block_demand_after (a : analysis) (blk : Block) (sc : scanned)
  : RegisterDemand :=
  if before_ra (progress (program a))
  then demand_update (sc_block_demand sc) (s_new_demand (sc_state sc))
  else register_demand blk.

Inductive step_of (a : analysis) (b : nat) (a' : analysis) : Prop :=
  | StepOf (blk : Block) (live0 : gset nat) (nd0 : RegisterDemand) (phi : Z)
      (phis1 phis2 : list Instruction) (st1 : scan) (vcc' : bool)
      (Hblk : blocks (program a) !! b = Some blk)
      (Hrd : is_Some (lives_register_demand (lives a) !! index blk))
      (Hlive0 : live_out (lives a) !! index blk = Some live0)
      (Hnd0 : initial_demand (temp_rc (program a)) (elements live0) zero_demand
              = Ok nd0)
      (Hphi : phi_sgpr_ops a !! index blk = Some phi)
      (Hdefs : phi_definitions
                 (sc_phis (scan_instructions phi (instructions blk)
                             (scan_start a live0 nd0 phi)))
                 (sc_state (scan_instructions phi (instructions blk)
                              (scan_start a live0 nd0 phi)))
               = Ok (phis1, st1))
      (Hevents : insert_events
                   (merge_events (temp_rc (program a)) blk (elements (s_live st1))
                    ++ phis_events blk phis1)
                   (live_out (lives a)) (worklist a) (phi_sgpr_ops a)
                 = Ok (live_out (lives a'), worklist a', phi_sgpr_ops a'))
      (Hrcs : Forall (fun t => is_Some (temp_rc (program a) !! t))
                (elements (s_live st1)))
      (Hphis2 : Forall2 same_instr phis1 phis2)
      (Hentry : index blk = 0%nat ->
                demand_eqb (s_new_demand
                              (sc_state (scan_instructions phi (instructions blk)
                                           (scan_start a live0 nd0 phi))))
                           zero_demand = true /\
                s_live st1 = ∅)
      (Hprog : program a' =
               with_needs_vcc
                 (with_blocks (program a)
                    (<[b := with_block blk
                              (phis2 ++ sc_body (scan_instructions phi
                                                   (instructions blk)
                                                   (scan_start a live0 nd0 phi)))
                              (block_demand_after a blk
                                 (scan_instructions phi (instructions blk)
                                    (scan_start a live0 nd0 phi)))]>
                       (blocks (program a))))
                 vcc')
      (Hdemands : lives_register_demand (lives a') =
                  <[index blk :=
                      scanned_demands
                        (s_new_demand
                           (sc_state (scan_instructions phi (instructions blk)
                                        (scan_start a live0 nd0 phi))))
                        (scan_instructions phi (instructions blk)
                           (scan_start a live0 nd0 phi))]>
                    (lives_register_demand (lives a))).

Lemma process_block_Ok a b a' :
  process_live_temps_per_block a b = Ok a' -> step_of a b a'.
Proof.
  unfold process_live_temps_per_block. intros H.
  apply bind_Ok in H as (blk & Hblk & H). apply of_option_Ok in Hblk.
  apply bind_Ok in H as (rd & Hrd & H). apply of_option_Ok in Hrd.
  apply bind_Ok in H as (live0 & Hlive0 & H). apply of_option_Ok in Hlive0.
  apply bind_Ok in H as (nd0 & Hnd0 & H).
  apply bind_Ok in H as (phi & Hphi & H). apply of_option_Ok in Hphi.
  fold (scan_start a live0 nd0 phi) in H.
  set (sc := scan_instructions phi (instructions blk) (scan_start a live0 nd0 phi)) in *.
  apply bind_Ok in H as ([phis1 st1] & Hdefs & H).
  apply bind_Ok in H as ([lo1 wl1] & Hmerge & H).
  apply bind_Ok in H as ([phis2 s2] & Hops & H).
  apply bind_Ok in H as (u & Hassert & H). apply assert_Ok in Hassert.
  injection H as <-.
  apply (merge_live_ins_events _ _ _ _ _ _ _ (phi_sgpr_ops a)) in Hmerge
    as [Hmerge Hrcs].
  apply phis_operands_events in Hops as (Hops & Hsame & _). cbn in Hops.
  eapply (StepOf a b _ blk live0 nd0 phi phis1 phis2 st1); eauto.
  - rewrite insert_events_app. fold sc. rewrite Hmerge. cbn. exact Hops.
  - intros H0. apply orb_true_iff in Hassert as [Hne|Hassert].
    + apply negb_true_iff, bool_decide_eq_false in Hne. contradiction.
    + apply andb_true_iff in Hassert as [Hd Hl].
      apply bool_decide_eq_true in Hl. auto.
Qed.

(** What a step leaves of the program outside the block it processes. *)
Lemma step_of_temp_rc a b a' : step_of a b a' -> temp_rc (program a') = temp_rc (program a).
Proof. intros []. rewrite Hprog. reflexivity. Qed.

Lemma step_of_progress a b a' : step_of a b a' -> progress (program a') = progress (program a).
Proof. intros []. rewrite Hprog. reflexivity. Qed.

Lemma step_of_blocks_length a b a' :
  step_of a b a' -> length (blocks (program a')) = length (blocks (program a)).
Proof. intros []. rewrite Hprog. cbn. apply length_insert. Qed.

Lemma step_of_other_block a b a' k :
  step_of a b a' -> k <> b -> blocks (program a') !! k = blocks (program a) !! k.
Proof.
  intros [] Hk. rewrite Hprog. cbn. apply list_lookup_insert_ne. congruence.
Qed.

(* ================================================================== *)
(** ** Which insertions a step makes *)

Section StepEvents.

Lemma elem_of_merge_events rcs block ts p t inc :
  (p, t, inc) ∈ merge_events rcs block ts ->
  inc = None /\ t ∈ ts /\ exists rc, rcs !! t = Some rc /\ p ∈ preds_of block rc.
Proof.
  induction ts as [|t0 ts IH]; cbn.
  - intros H. apply elem_of_nil in H. contradiction.
  - destruct (rcs !! t0) as [rc|] eqn:E.
    + rewrite elem_of_app, list_elem_of_fmap.
      intros [(p' & [= -> -> ->] & Hp)|H].
      * split; [reflexivity|]. split; [left|eauto].
      * destruct (IH H) as (? & ? & ?). split; [assumption|].
        split; [right; assumption|assumption].
    + intros H. apply elem_of_nil in H. contradiction.
Qed.

Lemma merge_events_complete rcs block ts p t rc :
  Forall (fun t => is_Some (rcs !! t)) ts ->
  t ∈ ts -> rcs !! t = Some rc -> p ∈ preds_of block rc ->
  (p, t, None) ∈ merge_events rcs block ts.
Proof.
  induction 1 as [|t0 ts [rc0 Hrc0] _ IH]; intros Ht Hrc Hp.
  - apply elem_of_nil in Ht. contradiction.
  - cbn. rewrite Hrc0. apply elem_of_app.
    apply elem_of_cons in Ht as [->|Ht].
    + left. apply list_elem_of_fmap. exists p. split; [reflexivity|].
      congruence.
    + right. auto.
Qed.

Lemma elem_of_phi_events logical preds : forall ops p t inc,
  (p, t, inc) ∈ phi_events logical preds ops ->
  p ∈ preds /\ t ∈ use_ids ops.
Proof.
  induction preds as [|p0 preds IH]; intros ops p t inc H; cbn in H.
  - apply elem_of_nil in H. contradiction.
  - destruct ops as [|o ops]; [apply elem_of_nil in H; contradiction|].
    rewrite use_ids_cons. apply elem_of_app in H as [H|H].
    + destruct (op_isTemp o); [|apply elem_of_nil in H; contradiction].
      apply list_elem_of_singleton in H. injection H as -> -> ->.
      split; [left|set_solver].
    + destruct (IH _ _ _ _ H). split; [right; assumption|set_solver].
Qed.

Lemma phi_events_same_ref logical preds : forall ops ops',
  Forall2 same_ref ops ops' ->
  phi_events logical preds ops' = phi_events logical preds ops.
Proof.
  induction preds as [|p preds IH]; intros ops ops' H; [reflexivity|].
  destruct H as [|o o' ops ops' Ho H]; [reflexivity|].
  cbn. rewrite (IH _ _ H), (same_ref_tempId _ _ Ho).
  destruct Ho as (-> & -> & _). reflexivity.
Qed.

Lemma phis_events_same block phis phis' :
  Forall2 same_instr phis phis' ->
  phis_events block phis' = phis_events block phis.
Proof.
  induction 1 as [|i i' phis phis' (Hop & Hops & _) _ IH]; [reflexivity|].
  cbn. rewrite IH, (phi_events_same_ref _ _ _ _ Hops).
  unfold phi_preds, phi_is_logical. rewrite Hop. reflexivity.
Qed.

(** The registers the instructions of a list read. *)
Definition uses_of (insns : list Instruction) : gset nat :=
  ⋃ ((fun i => use_ids (operands i)) <$> insns).

Lemma uses_of_cons i insns :
  uses_of (i :: insns) = use_ids (operands i) ∪ uses_of insns.
Proof. reflexivity. Qed.

Lemma uses_of_app l1 l2 : uses_of (l1 ++ l2) = uses_of l1 ∪ uses_of l2.
Proof.
  unfold uses_of. rewrite fmap_app, union_list_app_L. reflexivity.
Qed.

Lemma uses_of_same insns insns' :
  Forall2 same_instr insns insns' -> uses_of insns' = uses_of insns.
Proof.
  induction 1 as [|i i' insns insns' (_ & Hops & _) _ IH]; [reflexivity|].
  rewrite !uses_of_cons, IH, (use_ids_same_ref _ _ Hops). reflexivity.
Qed.

Lemma elem_of_phis_events block phis p t inc :
  (p, t, inc) ∈ phis_events block phis ->
  (p ∈ logical_preds block \/ p ∈ linear_preds block) /\ t ∈ uses_of phis.
Proof.
  induction phis as [|i phis IH].
  - intros H. apply elem_of_nil in H. contradiction.
  - rewrite uses_of_cons. cbn [phis_events]. rewrite elem_of_app. intros [H|H].
    + destruct (IH H). split; [assumption|set_solver].
    + apply elem_of_phi_events in H as [Hp Ht]. split; [|set_solver].
      unfold phi_preds in Hp. destruct (phi_is_logical i); auto.
Qed.

Lemma preds_of_either block rc p :
  p ∈ preds_of block rc -> p ∈ logical_preds block \/ p ∈ linear_preds block.
Proof. unfold preds_of. destruct (is_linear rc); auto. Qed.

End StepEvents.

(* ================================================================== *)
(** ** The live set of the scan as a function of the live-out set *)

Section ScanLive.

Lemma live_through_mono insn L L' :
  L ⊆ L' -> live_through insn L ⊆ live_through insn L'.
Proof. unfold live_through. destruct (is_logical_end insn); set_solver. Qed.

Lemma live_through_bound insn L :
  live_through insn L ⊆ L ∪ use_ids (operands insn).
Proof. unfold live_through. destruct (is_logical_end insn); set_solver. Qed.

(** The phis the scan stops at do not depend on the running state, and the
    live set at the top of the body grows with the live-out set. *)
Lemma scan_instructions_mono phi phi' insns : forall st st',
  s_live st ⊆ s_live st' ->
  sc_phis (scan_instructions phi insns st)
  = sc_phis (scan_instructions phi' insns st') /\
  s_live (sc_state (scan_instructions phi insns st))
  ⊆ s_live (sc_state (scan_instructions phi' insns st')).
Proof.
  induction insns as [|i insns IH]; intros st st' H; [auto|].
  destruct (IH _ _ H) as [IH1 IH2]. cbn. rewrite <- IH1.
  destruct (sc_phis (scan_instructions phi insns st)); [|auto].
  destruct (is_phi i); [auto|].
  destruct (process_instruction phi i _) as [[i1 d1] s1] eqn:E1.
  destruct (process_instruction phi' i _) as [[i2 d2] s2] eqn:E2.
  cbn. split; [reflexivity|].
  rewrite (process_instruction_live _ _ _ _ _ _ E1).
  rewrite (process_instruction_live _ _ _ _ _ _ E2).
  apply live_through_mono. assumption.
Qed.

Lemma scan_instructions_live_eq phi phi' insns st st' :
  s_live st = s_live st' ->
  s_live (sc_state (scan_instructions phi insns st))
  = s_live (sc_state (scan_instructions phi' insns st')).
Proof.
  intros H. apply set_eq. intros t. split.
  - apply scan_instructions_mono. rewrite H. reflexivity.
  - apply scan_instructions_mono. rewrite H. reflexivity.
Qed.

(** The scan adds to the live set only registers the block reads. *)
Lemma scan_instructions_live_bound phi insns st :
  s_live (sc_state (scan_instructions phi insns st))
  ⊆ s_live st ∪ uses_of insns.
Proof.
  induction insns as [|i insns IH]; [cbn; set_solver|].
  rewrite uses_of_cons. cbn [scan_instructions].
  destruct (sc_phis (scan_instructions phi insns st)); [|cbn; set_solver].
  destruct (is_phi i); [cbn; set_solver|].
  destruct (process_instruction phi i _) as [[i1 d1] s1] eqn:E1. cbn.
  rewrite (process_instruction_live _ _ _ _ _ _ E1).
  pose proof (live_through_bound i
                (s_live (sc_state (scan_instructions phi insns st)))).
  set_solver.
Qed.

(** The scan changes flags only. *)
Lemma scan_instructions_same phi insns st :
  Forall2 same_instr insns
    (scanned_instructions (scan_instructions phi insns st)).
Proof.
  unfold scanned_instructions.
  induction insns as [|i insns IH]; [constructor|].
  cbn. destruct (sc_phis (scan_instructions phi insns st)) eqn:E.
  - destruct (is_phi i).
    + cbn. constructor; [apply same_instr_refl|exact IH].
    + destruct (process_instruction phi i _) as [[i1 d1] s1] eqn:E1. cbn.
      constructor; [|exact IH].
      eapply process_instruction_same. exact E1.
  - cbn. constructor; [apply same_instr_refl|exact IH].
Qed.

End ScanLive.

(* ================================================================== *)
(** ** Frame and monotonicity of the per-block step *)

Section StepFrame.

(** The insertions of a step go to predecessors of the block. *)
Lemma step_events_preds rcs blk ts phis p t inc :
  (p, t, inc) ∈ merge_events rcs blk ts ++ phis_events blk phis ->
  p ∈ logical_preds blk \/ p ∈ linear_preds blk.
Proof.
  rewrite elem_of_app. intros [H|H].
  - apply elem_of_merge_events in H as (_ & _ & rc & _ & Hp).
    eapply preds_of_either. exact Hp.
  - apply elem_of_phis_events in H as [Hp _]. exact Hp.
Qed.

Lemma event_ids_empty k es :
  (forall p t inc, (p, t, inc) ∈ es -> p <> k) -> event_ids k es = ∅.
Proof.
  intros H. apply set_eq. intros t. rewrite elem_of_event_ids. split.
  - intros [inc He]. exfalso. eapply H; eauto.
  - intros Ht. apply not_elem_of_empty in Ht. contradiction.
Qed.

(** C10: the per-block step keeps the number of stored live-out sets,
    only adds registers to them, and leaves alone every set that is not
    the set of a logical or linear predecessor of the block; so the
    block's own set is unchanged when the block is not its own
    predecessor. *)
Theorem step_frame a b a' blk :
  process_live_temps_per_block a b = Ok a' ->
  blocks (program a) !! b = Some blk ->
  length (live_out (lives a')) = length (live_out (lives a)) /\
  (forall k S, live_out (lives a) !! k = Some S ->
     exists S', live_out (lives a') !! k = Some S' /\ S ⊆ S') /\
  (forall k, k ∉ logical_preds blk -> k ∉ linear_preds blk ->
     live_out (lives a') !! k = live_out (lives a) !! k) /\
  (index blk ∉ logical_preds blk -> index blk ∉ linear_preds blk ->
     live_out (lives a') !! index blk = live_out (lives a) !! index blk).
Proof.
  intros H Hb. apply process_block_Ok in H. destruct H.
  assert (blk0 = blk) as -> by congruence.
  assert (Hframe : forall k, k ∉ logical_preds blk -> k ∉ linear_preds blk ->
            live_out (lives a') !! k = live_out (lives a) !! k).
  { intros k Hk1 Hk2.
    rewrite (insert_events_live_out _ _ _ _ _ _ _ k Hevents).
    rewrite event_ids_empty.
    - destruct (live_out (lives a) !! k); cbn; [f_equal; set_solver|reflexivity].
    - intros p t inc He ->. apply step_events_preds in He as [?|?]; contradiction. }
  split; [eapply insert_events_length; eauto|].
  split; [|split; [exact Hframe|apply Hframe]].
  intros k S HS. rewrite (insert_events_live_out _ _ _ _ _ _ _ k Hevents), HS.
  cbn. eexists. split; [reflexivity|set_solver].
Qed.

Lemma step_frame_witness :
  exists a',
    process_live_temps_per_block (initial_analysis diamond) 3 = Ok a' /\
    live_out (lives a') !! 3%nat = Some ∅ /\
    live_out (lives a') !! 1%nat = Some {[1%nat]}.
Proof.
  destruct (process_live_temps_per_block (initial_analysis diamond) 3)
    as [a'|e] eqn:E; [|vm_compute in E; discriminate].
  exists a'. split; [reflexivity|].
  destruct (step_frame _ _ _ (block_of 3 [instr p_phi [use (tmp 1 v1); constant] [def (tmp 2 v1)];
          instr (other_op 4) [use (tmp 2 v1)] [];
          instr p_logical_end [] []] [1; 2] [1; 2])%nat E eq_refl)
    as (_ & _ & _ & Hown).
  cbn [index block_of logical_preds linear_preds] in Hown.
  split.
  - rewrite Hown; [reflexivity| |]; set_solver.
  - vm_compute in E. injection E as <-. vm_compute. reflexivity.
Defined.

End StepFrame.

(* ================================================================== *)
(** ** Termination of the worklist loop *)

(** The registers that occur in a list of instructions, in a program. *)
Definition temps_of (insns : list Instruction) : gset nat :=
  ⋃ ((fun i => use_ids (operands i) ∪ def_ids (definitions i)) <$> insns).

Definition program_temps (prog : Program) : gset nat :=
  ⋃ ((fun b => temps_of (instructions b)) <$> blocks prog).

(** The measure of the loop: the pending blocks, and for every block the
    registers of [T] that are not yet in its live-out set. *)
Definition room (T : gset nat) (lo : list (gset nat)) : nat :=
  sum_list ((fun S => size (T ∖ S)) <$> lo).

Definition potential (T : gset nat) (a : analysis) : nat :=
  size (worklist a) + room T (live_out (lives a)).

Section Termination.

Lemma uses_of_temps_of insns : uses_of insns ⊆ temps_of insns.
Proof.
  induction insns as [|i insns IH]; [set_solver|].
  rewrite uses_of_cons. unfold temps_of in *. cbn. set_solver.
Qed.

Lemma temps_of_program prog b blk :
  blocks prog !! b = Some blk -> temps_of (instructions blk) ⊆ program_temps prog.
Proof.
  intros H. unfold program_temps.
  apply list_elem_of_lookup_2 in H. revert H.
  induction (blocks prog) as [|b0 bs IH]; intros H.
  - apply elem_of_nil in H. contradiction.
  - cbn. apply elem_of_cons in H as [->|H]; [set_solver|].
    specialize (IH H). set_solver.
Qed.

Lemma sum_list_insert_lt {A : Type} (f : A -> nat) (l : list A) p x y :
  l !! p = Some y -> (f x < f y)%nat ->
  (sum_list (f <$> <[p := x]> l) < sum_list (f <$> l))%nat.
Proof.
  revert p. induction l as [|z l IH]; intros p Hp Hf; [discriminate|].
  destruct p as [|p]; simpl in *.
  - injection Hp as ->. apply Nat.add_lt_mono_r. exact Hf.
  - specialize (IH p Hp Hf). apply Nat.add_lt_mono_l. exact IH.
Qed.

Lemma room_insert T lo p S t :
  lo !! p = Some S -> t ∈ T -> t ∉ S ->
  (room T (<[p := {[t]} ∪ S]> lo) < room T lo)%nat.
Proof.
  intros Hp Ht HS. unfold room.
  apply sum_list_insert_lt with (y := S); [assumption|].
  apply subset_size. set_solver.
Qed.

Lemma insert_events_potential T es : forall lo wl pso lo' wl' pso',
  insert_events es lo wl pso = Ok (lo', wl', pso') ->
  (forall p t inc, (p, t, inc) ∈ es -> t ∈ T) ->
  (size wl' + room T lo' <= size wl + room T lo)%nat.
Proof.
  induction es as [|[[p t] inc] es IH]; intros lo wl pso lo' wl' pso' H HT;
    cbn in H.
  - injection H as <- <- <-. lia.
  - apply bind_Ok in H as ([[lo1 wl1] pso1] & He & H).
    apply insert_event_Ok in He as (S & HS & -> & -> & _).
    apply IH in H; [|intros; eapply HT; right; eauto].
    assert (Ht : t ∈ T) by (eapply HT; left).
    destruct (decide (t ∈ S)) as [Hin|Hin].
    + replace (<[p := {[t]} ∪ S]> lo) with lo in H; [exact H|].
      symmetry. apply list_insert_id. rewrite HS. f_equal. set_solver.
    + pose proof (room_insert T lo p S t HS Ht Hin).
      assert (size ({[p]} ∪ wl) <= size wl + 1)%nat.
      { rewrite size_union_alt, size_singleton.
        pose proof (subseteq_size (wl ∖ {[p]}) wl ltac:(set_solver)). lia. }
      lia.
Qed.

(** What the loop keeps true: the stored live-out sets and the registers
    the blocks read are in [T]. *)
Record within (T : gset nat) (a : analysis) : Prop := {
  within_live_out : forall k S, live_out (lives a) !! k = Some S -> S ⊆ T;
  within_uses : forall b blk, blocks (program a) !! b = Some blk ->
                uses_of (instructions blk) ⊆ T
}.

Lemma same_def_trans d1 d2 d3 : same_def d1 d2 -> same_def d2 d3 -> same_def d1 d3.
Proof. intros [k ->] [k' ->]. exists k'. reflexivity. Qed.

Lemma same_instr_trans i1 i2 i3 :
  same_instr i1 i2 -> same_instr i2 i3 -> same_instr i1 i3.
Proof.
  intros (H1 & H2 & H3) (H1' & H2' & H3'). split; [congruence|]. split.
  - clear -H2 H2'. revert H2'. generalize (operands i3).
    induction H2; intros ops3 Hops; inversion Hops; subst; constructor;
      eauto using same_ref_trans.
  - clear -H3 H3'. revert H3'. generalize (definitions i3).
    induction H3; intros defs3 Hdefs; inversion Hdefs; subst; constructor;
      eauto using same_def_trans.
Qed.

Lemma Forall2_same_instr_trans l1 l2 l3 :
  Forall2 same_instr l1 l2 -> Forall2 same_instr l2 l3 -> Forall2 same_instr l1 l3.
Proof.
  intros H. revert l3. induction H; intros l3 H'; inversion H'; subst;
    constructor; eauto using same_instr_trans.
Qed.

Lemma Forall2_same_instr_refl l : Forall2 same_instr l l.
Proof. induction l; constructor; auto using same_instr_refl. Qed.

(** The block a step writes back differs from the block it read in flags
    and in the demand only. *)
Lemma step_of_block a b a' blk :
  step_of a b a' -> blocks (program a) !! b = Some blk ->
  exists blk',
    blocks (program a') !! b = Some blk' /\
    Forall2 same_instr (instructions blk) (instructions blk') /\
    index blk' = index blk /\
    logical_preds blk' = logical_preds blk /\
    linear_preds blk' = linear_preds blk.
Proof.
  intros [] Hb. assert (blk0 = blk) as -> by congruence.
  eexists. split.
  { rewrite Hprog. cbn. apply list_lookup_insert_eq.
    eapply lookup_lt_Some. exact Hblk. }
  cbn. repeat split.
  apply phi_definitions_Ok in Hdefs as (_ & Hsame & _).
  eapply Forall2_same_instr_trans; [apply scan_instructions_same|].
  unfold scanned_instructions. apply Forall2_app; [|apply Forall2_same_instr_refl].
  eapply Forall2_same_instr_trans; eassumption.
Qed.

(** The registers a step inserts are live out of the block or read in it. *)
Lemma step_of_event_ids a b a' :
  step_of a b a' ->
  exists blk live0 es,
    blocks (program a) !! b = Some blk /\
    live_out (lives a) !! index blk = Some live0 /\
    insert_events es (live_out (lives a)) (worklist a) (phi_sgpr_ops a)
    = Ok (live_out (lives a'), worklist a', phi_sgpr_ops a') /\
    forall p t inc, (p, t, inc) ∈ es ->
      t ∈ live0 ∪ uses_of (instructions blk).
Proof.
  intros []. exists blk, live0. eexists. split; [assumption|].
  split; [assumption|]. split; [exact Hevents|].
  intros p t inc He.
  pose proof (scan_instructions_live_bound phi (instructions blk)
                (scan_start a live0 nd0 phi)) as Hbound.
  pose proof (scan_instructions_same phi (instructions blk)
                (scan_start a live0 nd0 phi)) as Hsame.
  apply uses_of_same in Hsame. unfold scanned_instructions in Hsame.
  rewrite uses_of_app in Hsame.
  apply phi_definitions_Ok in Hdefs as (_ & Hsame1 & Hl & _).
  apply uses_of_same in Hsame1.
  apply elem_of_app in He as [He|He].
  - apply elem_of_merge_events in He as (_ & Ht & _).
    apply elem_of_elements in Ht. rewrite Hl in Ht. cbn in Hbound. set_solver.
  - apply elem_of_phis_events in He as [_ Ht]. set_solver.
Qed.

Lemma step_of_within T a b a' :
  step_of a b a' -> within T a -> within T a'.
Proof.
  intros Hstep [Hlo Huses].
  destruct (step_of_event_ids _ _ _ Hstep) as (blk & live0 & es & Hb & Hl & Hev & Hes).
  constructor.
  - intros k S HS.
    rewrite (insert_events_live_out _ _ _ _ _ _ _ k Hev) in HS.
    destruct (live_out (lives a) !! k) as [S0|] eqn:E; [|discriminate].
    injection HS as <-. pose proof (Hlo _ _ E) as HS0.
    pose proof (Hlo _ _ Hl) as Hl0. specialize (Huses _ _ Hb).
    assert (event_ids k es ⊆ T); [|set_solver].
    intros t Ht. apply elem_of_event_ids in Ht as [inc Ht].
    specialize (Hes _ _ _ Ht). set_solver.
  - intros k blk' Hk. destruct (decide (k = b)) as [->|Hne].
    + destruct (step_of_block _ _ _ _ Hstep Hb) as (blk'' & Hb' & Hsame & _).
      assert (blk'' = blk') as -> by congruence.
      rewrite (uses_of_same _ _ Hsame). eauto.
    + rewrite (step_of_other_block _ _ _ _ Hstep Hne) in Hk. eauto.
Qed.

Lemma step_of_potential T a b a' :
  step_of a b a' -> within T a -> (potential T a' <= potential T a)%nat.
Proof.
  intros Hstep [Hlo Huses].
  destruct (step_of_event_ids _ _ _ Hstep) as (blk & live0 & es & Hb & Hl & Hev & Hes).
  unfold potential. eapply insert_events_potential; [exact Hev|].
  intros p t inc He. specialize (Hes _ _ _ He).
  specialize (Hlo _ _ Hl). specialize (Huses _ _ Hb). set_solver.
Qed.

Lemma max_list_elem_of (l : list nat) : l <> [] -> max_list l ∈ l.
Proof.
  induction l as [|x l IH]; [congruence|]. intros _. cbn.
  destruct l as [|y l].
  - cbn. rewrite Nat.max_0_r. left.
  - specialize (IH ltac:(discriminate)).
    destruct (Nat.max_spec x (max_list (y :: l))) as [[_ ->]|[_ ->]];
      [right; exact IH|left].
Qed.

Lemma highest_pending (wl : gset nat) :
  wl <> ∅ -> max_list (elements wl) ∈ wl.
Proof.
  intros H. apply elem_of_elements, max_list_elem_of.
  intros He. apply H. apply elements_empty_inv in He.
  apply leibniz_equiv. exact He.
Qed.

Lemma worklist_step_Ok a nd a' nd' :
  worklist_step a nd = Ok (a', nd') ->
  step_of (without_block a (max_list (elements (worklist a))))
          (max_list (elements (worklist a))) a'.
Proof.
  unfold worklist_step. intros H.
  apply bind_Ok in H as (a1 & Hstep & H).
  apply bind_Ok in H as (blk & _ & H). injection H as <- _.
  apply process_block_Ok. exact Hstep.
Qed.

Lemma worklist_step_decreases T a nd a' nd' :
  worklist a <> ∅ -> within T a ->
  worklist_step a nd = Ok (a', nd') ->
  within T a' /\ (potential T a' < potential T a)%nat.
Proof.
  intros Hne Hin H. apply worklist_step_Ok in H.
  set (idx := max_list (elements (worklist a))) in *.
  assert (Hin' : within T (without_block a idx)).
  { destruct Hin. constructor; assumption. }
  split; [eapply step_of_within; eauto|].
  pose proof (step_of_potential T _ _ _ H Hin') as Hle.
  assert (potential T (without_block a idx) < potential T a)%nat; [|lia].
  unfold potential. cbn.
  pose proof (highest_pending _ Hne) as Hidx. fold idx in Hidx.
  assert (size (worklist a ∖ {[idx]}) < size (worklist a))%nat; [|lia].
  apply subset_size. set_solver.
Qed.

(** With as much fuel as the measure, the loop comes to its end. *)
Lemma worklist_loop_fuel T : forall fuel a nd,
  within T a -> (potential T a <= fuel)%nat ->
  exists r, worklist_loop fuel a nd = Some r.
Proof.
  induction fuel as [|fuel IH]; intros a nd Hin Hfuel.
  - cbn. destruct (decide (worklist a = ∅)) as [He|Hne]; [eauto|].
    unfold potential in Hfuel.
    assert (size (worklist a) <> 0)%nat; [|lia].
    intros Hs. apply size_empty_inv in Hs. apply Hne, leibniz_equiv, Hs.
  - cbn. destruct (decide (worklist a = ∅)) as [He|Hne]; [eauto|].
    destruct (worklist_step a nd) as [[a' nd']|e] eqn:E; [|eauto].
    destruct (worklist_step_decreases T _ _ _ _ Hne Hin E) as [Hin' Hlt].
    apply IH; [assumption|lia].
Qed.

Lemma room_replicate T n : room T (replicate n ∅) = (n * size T)%nat.
Proof.
  unfold room. induction n as [|n IH]; [reflexivity|]. cbn.
  rewrite IH. replace (T ∖ ∅) with T by set_solver. reflexivity.
Qed.

Lemma size_list_to_set_le (l : list nat) :
  (size (list_to_set l : gset nat) <= length l)%nat.
Proof.
  induction l as [|x l IH]; [cbn; rewrite size_empty; lia|].
  cbn [list_to_set foldr length]. rewrite size_union_alt, size_singleton.
  pose proof (subseteq_size (list_to_set l ∖ {[x]} : gset nat) (list_to_set l)
                ltac:(set_solver)). lia.
Qed.

Lemma initial_within prog : within (program_temps prog) (initial_analysis prog).
Proof.
  constructor.
  - cbn. intros k S HS. apply lookup_replicate in HS as [-> _]. set_solver.
  - cbn. intros b blk Hb.
    etransitivity; [apply uses_of_temps_of|]. eapply temps_of_program. exact Hb.
Qed.

Lemma worklist_loop_empty : forall fuel a nd a' nd',
  worklist_loop fuel a nd = Some (Ok (a', nd')) -> worklist a' = ∅.
Proof.
  induction fuel as [|fuel IH]; intros a nd a' nd' H; cbn in H.
  - destruct (decide (worklist a = ∅)); [|discriminate].
    injection H as <- _. assumption.
  - destruct (decide (worklist a = ∅)).
    + injection H as <- _. assumption.
    + destruct (worklist_step a nd) as [[a1 nd1]|e]; [|discriminate]. eauto.
Qed.

(** The diamond of the specification converges in four steps, one per
    block. *)
Example diamond_converges :
  exists a nd,
    worklist_loop 4 (initial_analysis diamond) zero_demand = Some (Ok (a, nd)) /\
    live_out (lives a) = [{[0%nat]}; {[1%nat]}; ∅; ∅] /\
    nd = {| vgpr := 1; sgpr := 0 |}.
Proof. eexists _, _. split; [vm_compute; reflexivity|]. split; reflexivity. Qed.


End Termination.

(* ================================================================== *)
(** ** Arithmetic of register demands *)

Section DemandArithmetic.
Local Open Scope Z_scope.

Lemma i16_range x : -32768 <= i16 x < 32768.
Proof. unfold i16. pose proof (Z.mod_pos_bound (x + 32768) 65536). lia. Qed.

Lemma i16_add_l a b : i16 (i16 a + b) = i16 (a + b).
Proof.
  unfold i16. f_equal.
  replace ((a + 32768) mod 65536 - 32768 + b + 32768)
    with ((a + 32768) mod 65536 + b) by lia.
  rewrite Zplus_mod_idemp_l. f_equal. lia.
Qed.

Lemma i16_add_r a b : i16 (a + i16 b) = i16 (a + b).
Proof. rewrite Z.add_comm, i16_add_l. f_equal. lia. Qed.

Lemma i16_sub_l a b : i16 (i16 a - b) = i16 (a - b).
Proof.
  replace (i16 a - b) with (i16 a + - b) by lia.
  rewrite i16_add_l. reflexivity.
Qed.

Lemma i16_sub_r a b : i16 (a - i16 b) = i16 (a - b).
Proof.
  unfold i16. f_equal.
  replace (a - ((b + 32768) mod 65536 - 32768) + 32768)
    with (a + 65536 - (b + 32768) mod 65536) by lia.
  rewrite Zminus_mod_idemp_r.
  replace (a + 65536 - (b + 32768)) with (a - b + 32768) by lia.
  reflexivity.
Qed.

(** Both counters fit 16 bits. *)
Definition in_range (d : RegisterDemand) : Prop :=
  (-32768 <= vgpr d < 32768) /\ (-32768 <= sgpr d < 32768).

(** The demand of one register. *)
Definition temp_demand (t : Temp) : RegisterDemand :=
  demand_add_temp zero_demand t.

Lemma in_range_zero : in_range zero_demand.
Proof. unfold in_range. cbn. lia. Qed.

Lemma in_range_add a b : in_range (demand_add a b).
Proof. split; apply i16_range. Qed.

Lemma in_range_sub a b : in_range (demand_sub a b).
Proof. split; apply i16_range. Qed.

Lemma in_range_add_temp d t : in_range d -> in_range (demand_add_temp d t).
Proof.
  intros [? ?]. unfold demand_add_temp.
  destruct (type t); split; cbn; auto using i16_range.
Qed.

Lemma in_range_sub_temp d t : in_range d -> in_range (demand_sub_temp d t).
Proof.
  intros [? ?]. unfold demand_sub_temp.
  destruct (type t); split; cbn; auto using i16_range.
Qed.

Lemma in_range_add_sgpr d x : in_range d -> in_range (demand_add_sgpr d x).
Proof. intros [? ?]. split; cbn; auto using i16_range. Qed.

Lemma in_range_sub_sgpr d x : in_range d -> in_range (demand_sub_sgpr d x).
Proof. intros [? ?]. split; cbn; auto using i16_range. Qed.

Lemma in_range_temp_demand t : in_range (temp_demand t).
Proof. apply in_range_add_temp, in_range_zero. Qed.

Lemma demand_eq (a b : RegisterDemand) :
  vgpr a = vgpr b -> sgpr a = sgpr b -> a = b.
Proof. destruct a, b. cbn. congruence. Qed.

End DemandArithmetic.

(** Equalities between demands built from the wrapped operations. *)
Ltac demand_norm :=
  repeat match goal with
         | d : RegisterDemand |- _ => destruct d
         | H : in_range _ |- _ => destruct H; cbn in *
         end;
  unfold temp_demand in *;
  unfold demand_add, demand_sub, demand_add_temp, demand_sub_temp,
    demand_add_sgpr, demand_sub_sgpr, zero_demand in *;
  repeat match goal with
         | |- context [type ?t] => destruct (type t)
         end;
  cbn [vgpr sgpr] in *;
  apply demand_eq; cbn [vgpr sgpr];
  rewrite ?i16_add_l, ?i16_add_r, ?i16_sub_l, ?i16_sub_r;
  try solve [ f_equal; lia
            | rewrite i16_small by lia; lia
            | symmetry; rewrite i16_small by lia; lia
            | lia ].

Section DemandAlgebra.
Local Open Scope Z_scope.

Lemma demand_add_temp_eq d t :
  in_range d -> demand_add_temp d t = demand_add d (temp_demand t).
Proof. intros H. demand_norm. Qed.

Lemma demand_sub_temp_eq d t :
  in_range d -> demand_sub_temp d t = demand_sub d (temp_demand t).
Proof. intros H. demand_norm. Qed.

Lemma demand_add_assoc a b c :
  demand_add (demand_add a b) c = demand_add a (demand_add b c).
Proof. demand_norm. Qed.

Lemma demand_add_comm a b : demand_add a b = demand_add b a.
Proof. demand_norm. Qed.

Lemma demand_add_zero a : in_range a -> demand_add a zero_demand = a.
Proof. intros H. demand_norm. Qed.

Lemma demand_sub_add a b c :
  demand_sub (demand_add a b) c = demand_add a (demand_sub b c).
Proof. demand_norm. Qed.

Lemma demand_sub_sub a b c :
  demand_sub (demand_sub a b) c = demand_sub a (demand_add b c).
Proof. demand_norm. Qed.

Lemma demand_add_sub_cancel a b :
  in_range a -> demand_sub (demand_add a b) b = a.
Proof. intros H. demand_norm. Qed.

Lemma demand_sub_add_cancel a b :
  in_range a -> demand_add (demand_sub a b) b = a.
Proof. intros H. demand_norm. Qed.

End DemandAlgebra.

(* ================================================================== *)
(** ** Demand accounting of one instruction *)

(** The steps of the folds of [get_live_changes] and [get_temp_registers]. *)
Definition changes_def (changes : RegisterDemand) (def : Definition_) : RegisterDemand :=
  if negb (def_isTemp def) || def_isKill def then changes
  else demand_add_temp changes (def_temp def).

Definition changes_op (changes : RegisterDemand) (op : Operand) : RegisterDemand :=
  if negb (op_isTemp op) || negb (op_isFirstKill op) then changes
  else demand_sub_temp changes (op_temp op).

Definition temps_def (acc : RegisterDemand) (def : Definition_) : RegisterDemand :=
  if negb (def_isTemp def) then acc
  else if def_isKill def then demand_add_temp acc (def_temp def)
  else acc.

Definition temps_op (acc : RegisterDemand) (op : Operand) : RegisterDemand :=
  if op_isTemp op && op_isLateKill op && op_isFirstKill op
  then demand_add_temp acc (op_temp op) else acc.

Section InstructionDemand.

Lemma demand_sub_zero a : in_range a -> demand_sub a zero_demand = a.
Proof. intros H. demand_norm. Qed.

Lemma get_live_changes_folds i :
  get_live_changes i
  = foldl changes_op (foldl changes_def zero_demand (definitions i)) (operands i).
Proof. reflexivity. Qed.

Lemma get_temp_registers_folds i :
  get_temp_registers i
  = foldl temps_op (foldl temps_def zero_demand (definitions i)) (operands i).
Proof. reflexivity. Qed.

(** A fold whose step adds a demand can start from zero. *)
Lemma foldl_shift {A : Type} (F : RegisterDemand -> A -> RegisterDemand) :
  (forall acc x, in_range acc ->
     F acc x = demand_add acc (F zero_demand x) /\ in_range (F acc x)) ->
  forall l acc, in_range acc ->
    foldl F acc l = demand_add acc (foldl F zero_demand l) /\
    in_range (foldl F acc l).
Proof.
  intros HF. induction l as [|x l IH]; intros acc Hacc; cbn.
  - split; [symmetry; apply demand_add_zero; assumption|assumption].
  - destruct (HF acc x Hacc) as [Hx Hr].
    destruct (HF zero_demand x in_range_zero) as [_ Hr0].
    destruct (IH _ Hr) as [E1 Hr'].
    destruct (IH _ Hr0) as [E2 _].
    split; [|exact Hr'].
    rewrite E1, E2, Hx, demand_add_assoc. reflexivity.
Qed.

Lemma changes_def_shift acc d :
  in_range acc ->
  changes_def acc d = demand_add acc (changes_def zero_demand d) /\
  in_range (changes_def acc d).
Proof.
  intros H. unfold changes_def. destruct (negb _ || _).
  - split; [symmetry; apply demand_add_zero; assumption|assumption].
  - split; [|apply in_range_add_temp; assumption]. clear -H. demand_norm.
Qed.

Lemma changes_op_shift acc o :
  in_range acc ->
  changes_op acc o = demand_add acc (changes_op zero_demand o) /\
  in_range (changes_op acc o).
Proof.
  intros H. unfold changes_op. destruct (negb _ || _).
  - split; [symmetry; apply demand_add_zero; assumption|assumption].
  - split; [|apply in_range_sub_temp; assumption]. clear -H. demand_norm.
Qed.

Lemma temps_def_shift acc d :
  in_range acc ->
  temps_def acc d = demand_add acc (temps_def zero_demand d) /\
  in_range (temps_def acc d).
Proof.
  intros H. unfold temps_def. destruct (negb _); [|destruct (def_isKill d)].
  - split; [symmetry; apply demand_add_zero; assumption|assumption].
  - split; [|apply in_range_add_temp; assumption]. clear -H. demand_norm.
  - split; [symmetry; apply demand_add_zero; assumption|assumption].
Qed.

Lemma temps_op_shift acc o :
  in_range acc ->
  temps_op acc o = demand_add acc (temps_op zero_demand o) /\
  in_range (temps_op acc o).
Proof.
  intros H. unfold temps_op. destruct (_ && _).
  - split; [|apply in_range_add_temp; assumption]. clear -H. demand_norm.
  - split; [symmetry; apply demand_add_zero; assumption|assumption].
Qed.

Lemma kill_definitions_demand defs : forall st snap defs' st' snap',
  kill_definitions defs st snap = (defs', st', snap') ->
  in_range snap -> in_range (s_new_demand st) ->
  snap' = demand_add snap (foldl temps_def zero_demand defs') /\
  s_new_demand st' =
    demand_sub (s_new_demand st) (foldl changes_def zero_demand defs') /\
  in_range snap' /\ in_range (s_new_demand st').
Proof.
  induction defs as [|d defs IH]; intros st snap defs' st' snap' H Hs Hn;
    cbn in H.
  - injection H as <- <- <-. cbn.
    split; [symmetry; apply demand_add_zero; assumption|].
    split; [symmetry; apply demand_sub_zero; assumption|]. auto.
  - destruct (negb (def_isTemp d)) eqn:Et.
    { destruct (kill_definitions defs st snap) as [[r s] x] eqn:E.
      injection H as <- <- <-. cbn.
      unfold temps_def at 2, changes_def at 2. rewrite Et. cbn.
      eapply IH; eauto. }
    destruct (bool_decide _).
    + destruct (kill_definitions defs _ snap) as [[r s] x] eqn:E.
      injection H as <- <- <-.
      destruct (IH _ _ _ _ _ E Hs) as (IH1 & IH2 & IH3 & IH4);
        [cbn; apply in_range_sub_temp; assumption|].
      cbn in IH2. cbn [foldl].
      unfold temps_def at 2, changes_def at 2. cbn. rewrite Et. cbn.
      destruct (foldl_shift changes_def changes_def_shift r
                  (demand_add_temp zero_demand (def_temp d))
                  (in_range_add_temp _ _ in_range_zero)) as [-> _].
      split; [exact IH1|]. split; [|split; assumption].
      rewrite IH2. generalize (foldl changes_def zero_demand r). intros X.
      clear -Hn. demand_norm.
    + destruct (kill_definitions defs _ _) as [[r s] x] eqn:E.
      injection H as <- <- <-.
      destruct (IH _ _ _ _ _ E (in_range_add_temp _ _ Hs) Hn)
        as (IH1 & IH2 & IH3 & IH4).
      cbn in IH2. cbn [foldl].
      unfold temps_def at 2, changes_def at 2. cbn. rewrite Et. cbn.
      destruct (foldl_shift temps_def temps_def_shift r
                  (demand_add_temp zero_demand (def_temp d))
                  (in_range_add_temp _ _ in_range_zero)) as [-> _].
      split; [|split; [exact IH2|split; assumption]].
      rewrite IH1. generalize (foldl temps_def zero_demand r). intros X.
      clear -Hs. demand_norm.
Qed.

Lemma mark_later_uses_no_first_kill t ops :
  Forall (fun o => op_isFirstKill o = false) ops ->
  Forall (fun o => op_isFirstKill o = false) (mark_later_uses t ops).
Proof.
  unfold mark_later_uses. induction 1 as [|o ops Ho _ IH]; cbn; constructor; auto.
  destruct (_ && _); [reflexivity|assumption].
Qed.

Lemma gen_operands_from_demand n : forall ops st snap ops' st' snap',
  gen_operands_from n ops st snap = (ops', st', snap') ->
  length ops = n ->
  Forall (fun o => op_isFirstKill o = false) ops ->
  in_range snap -> in_range (s_new_demand st) ->
  snap' = demand_add snap (foldl temps_op zero_demand ops') /\
  s_new_demand st' =
    demand_sub (s_new_demand st) (foldl changes_op zero_demand ops') /\
  in_range snap' /\ in_range (s_new_demand st').
Proof.
  induction n as [|n IH]; intros ops st snap ops' st' snap' H Hlen Hfk Hs Hn.
  - destruct ops; [|discriminate]. cbn in H. injection H as <- <- <-. cbn.
    split; [symmetry; apply demand_add_zero; assumption|].
    split; [symmetry; apply demand_sub_zero; assumption|]. auto.
  - destruct ops as [|o rest]; [discriminate|]. injection Hlen as Hlen.
    apply Forall_cons in Hfk as [Ho Hrest]. cbn in H.
    destruct (negb (op_isTemp o)) eqn:Et.
    { destruct (gen_operands_from n rest st snap) as [[r s] x] eqn:E.
      injection H as <- <- <-. cbn [foldl].
      unfold temps_op at 2, changes_op at 2.
      apply negb_true_iff in Et. rewrite Et. cbn.
      eapply IH; eauto. }
    apply negb_false_iff in Et.
    destruct (bool_decide _).
    + destruct (gen_operands_from n rest _ snap) as [[r s] x] eqn:E.
      injection H as <- <- <-. cbn [foldl].
      unfold temps_op at 2, changes_op at 2. rewrite Et, Ho. cbn.
      rewrite andb_false_r.
      eapply (IH _ _ _ _ _ _ E); eauto.
    + destruct (gen_operands_from n (mark_later_uses _ rest) _ _)
        as [[r s] x] eqn:E.
      injection H as <- <- <-.
      assert (Hs1 : in_range (if op_isLateKill o
                              then demand_add_temp snap (op_temp o) else snap)).
      { destruct (op_isLateKill o); [apply in_range_add_temp|]; assumption. }
      destruct (IH _ _ _ _ _ _ E) as (IH1 & IH2 & IH3 & IH4); try assumption.
      { rewrite <- Hlen. symmetry. eapply Forall2_length, same_ref_mark. }
      { apply mark_later_uses_no_first_kill. assumption. }
      { cbn. apply in_range_add_temp. assumption. }
      cbn in IH2. cbn [foldl].
      unfold temps_op at 2, changes_op at 2. cbn. rewrite Et. cbn.
      split; [|split; [|split; assumption]].
      * destruct (op_isLateKill o); cbn.
        -- destruct (foldl_shift temps_op temps_op_shift r
                       (demand_add_temp zero_demand (op_temp o))
                       (in_range_add_temp _ _ in_range_zero)) as [-> _].
           rewrite IH1. generalize (foldl temps_op zero_demand r). intros X.
           clear -Hs. demand_norm.
        -- exact IH1.
      * destruct (foldl_shift changes_op changes_op_shift r
                    (demand_sub_temp zero_demand (op_temp o))
                    (in_range_sub_temp _ _ in_range_zero)) as [-> _].
        rewrite IH2. generalize (foldl changes_op zero_demand r). intros X.
        clear -Hn. demand_norm.
Qed.

Lemma clear_no_first_kill ops :
  Forall (fun o => op_isFirstKill o = false) (map (op_setKill false) ops).
Proof. induction ops; cbn; constructor; auto. Qed.

(** The snapshot of an instruction is the running demand on reaching it
    plus its transient registers; the running demand before it is the one
    on reaching it minus the live changes. *)
Lemma process_instruction_demand phi insn st insn' snap st' :
  process_instruction phi insn st = (insn', snap, st') ->
  is_logical_end insn = false ->
  in_range (s_new_demand st) ->
  snap = demand_add (s_new_demand st) (get_temp_registers insn') /\
  s_new_demand st' = demand_sub (s_new_demand st) (get_live_changes insn') /\
  in_range snap /\ in_range (s_new_demand st').
Proof.
  unfold process_instruction. intros H Hle Hn. rewrite Hle in H.
  destruct (kill_definitions _ _ _) as [[defs' st1] snap1] eqn:Ek.
  destruct (gen_operands _ _ _) as [[ops' st2] snap2] eqn:Eg.
  injection H as <- <- <-.
  assert (Hs0 : {| vgpr := vgpr (s_new_demand st); sgpr := sgpr (s_new_demand st) |}
                = s_new_demand st) by (destruct (s_new_demand st); reflexivity).
  rewrite Hs0 in Ek.
  destruct (kill_definitions_demand _ _ _ _ _ _ Ek Hn Hn) as (K1 & K2 & K3 & K4).
  destruct (gen_operands_from_demand _ _ _ _ _ _ _ Eg eq_refl
              (clear_no_first_kill _) K3 K4) as (G1 & G2 & G3 & G4).
  rewrite get_temp_registers_folds, get_live_changes_folds. cbn.
  destruct (foldl_shift temps_def temps_def_shift defs' zero_demand in_range_zero)
    as [_ Ht].
  destruct (foldl_shift changes_def changes_def_shift defs' zero_demand in_range_zero)
    as [_ Hc].
  destruct (foldl_shift temps_op temps_op_shift ops' _ Ht) as [-> _].
  destruct (foldl_shift changes_op changes_op_shift ops' _ Hc) as [-> _].
  split; [|split; [|split; assumption]].
  - rewrite G1, K1, demand_add_assoc. reflexivity.
  - rewrite G2, K2, demand_sub_sub. reflexivity.
Qed.

Lemma process_instruction_in_range phi insn st insn' snap st' :
  process_instruction phi insn st = (insn', snap, st') ->
  in_range (s_new_demand st) ->
  in_range snap /\ in_range (s_new_demand st').
Proof.
  unfold process_instruction. intros H Hn.
  destruct (kill_definitions _ _ _) as [[defs' st1] snap1] eqn:Ek.
  assert (Hs0 : {| vgpr := vgpr (s_new_demand st); sgpr := sgpr (s_new_demand st) |}
                = s_new_demand st) by (destruct (s_new_demand st); reflexivity).
  rewrite Hs0 in Ek.
  destruct (kill_definitions_demand _ _ _ _ _ _ Ek Hn Hn) as (K1 & K2 & K3 & K4).
  destruct (is_logical_end insn).
  - injection H as <- <- <-. cbn. split; [assumption|].
    apply in_range_add_sgpr. assumption.
  - destruct (gen_operands _ _ _) as [[ops' st2] snap2] eqn:Eg.
    injection H as <- <- <-.
    destruct (gen_operands_from_demand _ _ _ _ _ _ _ Eg eq_refl
                (clear_no_first_kill _) K3 K4) as (G1 & G2 & G3 & G4).
    auto.
Qed.

End InstructionDemand.

(* ================================================================== *)
(** ** What the analysis leaves on every block *)

(** The block at position [b] carries the annotations and the snapshots
    of a scan that started from its stored live-out set. *)
Definition annotated (a : analysis) (b : nat) : Prop :=
  exists blk S phi nd0 vcc0,
    blocks (program a) !! b = Some blk /\
    live_out (lives a) !! b = Some S /\
    phi_sgpr_ops a !! b = Some phi /\
    initial_demand (temp_rc (program a)) (elements S) zero_demand = Ok nd0 /\
    let sc := scan_instructions phi (instructions blk)
                {| s_live := S; s_new_demand := demand_sub_sgpr nd0 phi;
                   s_needs_vcc := vcc0 |} in
    Forall (fun i => is_phi i = true) (sc_phis sc) /\
    sc_body sc = drop (length (sc_phis sc)) (instructions blk) /\
    lives_register_demand (lives a) !! b
    = Some (scanned_demands (s_new_demand (sc_state sc)) sc).

(** Block indices are positions (the assumption stated at line 374). *)
Definition indexed (bs : list Block) : Prop :=
  forall b blk, bs !! b = Some blk -> index blk = b.

Record settled (a : analysis) : Prop := {
  settled_indexed : indexed (blocks (program a));
  settled_annotated : forall b, (b < length (blocks (program a)))%nat ->
                      b ∉ worklist a -> annotated a b
}.

Section Settled.

Lemma all_phis_last (l : list Instruction) :
  Forall (fun i => is_phi i = true) l ->
  l = [] \/ exists p i, l = p ++ [i] /\ is_phi i = true.
Proof.
  intros H. destruct l as [|x l] using rev_ind; [auto|]. right.
  apply Forall_app in H as [_ H]. apply Forall_cons in H as [H _]. eauto.
Qed.

Lemma all_phis_same l l' :
  Forall2 same_instr l l' -> Forall (fun i => is_phi i = true) l ->
  Forall (fun i => is_phi i = true) l'.
Proof.
  induction 1 as [|i i' l l' Hi _ IH]; intros H; [constructor|].
  apply Forall_cons in H as [H1 H2]. constructor; [|auto].
  rewrite (same_instr_is_phi _ _ Hi). exact H1.
Qed.

(** The block a step has processed is annotated from the live-out set the
    step read. *)
Lemma step_of_annotates a b a' :
  step_of a b a' -> indexed (blocks (program a)) ->
  b ∉ worklist a' -> annotated a' b.
Proof.
  intros [] Hidx Hb.
  assert (Hib : index blk = b) by (apply Hidx; assumption).
  rewrite Hib in *.
  assert (Hids : event_ids b
                   (merge_events (temp_rc (program a)) blk (elements (s_live st1))
                    ++ phis_events blk phis1) ⊆ live0).
  { destruct (decide (event_ids b
                   (merge_events (temp_rc (program a)) blk (elements (s_live st1))
                    ++ phis_events blk phis1) ⊆ live0)) as [?|Hn]; [assumption|].
    exfalso. apply Hb.
    apply (insert_events_worklist _ _ _ _ _ _ _ b Hevents). right. eauto. }
  unfold scan_start in *.
  set (st0 := {| s_live := live0; s_new_demand := demand_sub_sgpr nd0 phi;
                 s_needs_vcc := needs_vcc (program a) |}) in *.
  set (sc := scan_instructions phi (instructions blk) st0) in *.
  destruct (scan_instructions_split phi (instructions blk) st0)
    as (body & Hsplit & Hbody & Hscan & _). fold sc in Hsplit, Hscan.
  destruct (scan_instructions_idem phi body st0 Hbody) as [Hnp Hidem].
  rewrite Hscan in Hnp, Hidem. cbn in Hnp, Hidem.
  pose proof Hdefs as Hd. apply phi_definitions_Ok in Hd as (Hallphi & Hsame1 & _).
  assert (Hsame : Forall2 same_instr (sc_phis sc) phis2)
    by (eapply Forall2_same_instr_trans; eassumption).
  assert (Hall2 : Forall (fun i => is_phi i = true) phis2)
    by (eapply all_phis_same; eassumption).
  pose proof (scan_instructions_app phi phis2 (sc_body sc) st0 Hnp
                (all_phis_last _ Hall2)) as Happ.
  cbn zeta in Happ. rewrite Hidem in Happ. cbn in Happ.
  exists (with_block blk (phis2 ++ sc_body sc) (block_demand_after a blk sc)),
    live0, phi, nd0, (needs_vcc (program a)).
  split.
  { rewrite Hprog. cbn. apply list_lookup_insert_eq.
    eapply lookup_lt_Some. eassumption. }
  split.
  { rewrite (insert_events_live_out _ _ _ _ _ _ _ b Hevents), Hlive0. cbn.
    f_equal. set_solver. }
  split.
  { destruct (insert_events_phi_sgpr_ops _ _ _ _ _ _ _ b Hevents)
      as [->|(S' & HS' & Hn)]; [assumption|].
    exfalso. apply Hn. congruence. }
  split.
  { rewrite Hprog. cbn. exact Hnd0. }
  cbn [instructions with_block]. fold st0. rewrite Happ. cbn.
  split; [assumption|]. split.
  { rewrite drop_app_length. reflexivity. }
  rewrite Hdemands. destruct Hrd as [rd Hrd].
  rewrite list_lookup_insert_eq by (eapply lookup_lt_Some; eassumption).
  unfold scanned_demands. cbn. rewrite (Forall2_length _ _ _ Hsame).
  reflexivity.
Qed.

(** A block the step has not put on the worklist keeps its annotations. *)
Lemma step_of_keeps a b a' k :
  step_of a b a' -> indexed (blocks (program a)) -> k <> b ->
  k ∉ worklist a' -> annotated a k -> annotated a' k.
Proof.
  intros Hstep Hidx Hk Hwl (blk & S & phi & nd0 & vcc0 & Hb & HS & Hphi & Hnd & Hsc).
  rewrite <- (step_of_temp_rc _ _ _ Hstep) in Hnd.
  rewrite <- (step_of_other_block _ _ _ _ Hstep Hk) in Hb.
  destruct Hstep.
  assert (Hib : index blk0 = b) by (apply Hidx; assumption).
  assert (Hids : event_ids k
                   (merge_events (temp_rc (program a)) blk0 (elements (s_live st1))
                    ++ phis_events blk0 phis1) ⊆ S).
  { destruct (decide (event_ids k
                   (merge_events (temp_rc (program a)) blk0 (elements (s_live st1))
                    ++ phis_events blk0 phis1) ⊆ S)) as [?|Hn]; [assumption|].
    exfalso. apply Hwl.
    apply (insert_events_worklist _ _ _ _ _ _ _ k Hevents). right. eauto. }
  exists blk, S, phi, nd0, vcc0.
  split; [assumption|]. split.
  { rewrite (insert_events_live_out _ _ _ _ _ _ _ k Hevents), HS. cbn.
    f_equal. set_solver. }
  split.
  { destruct (insert_events_phi_sgpr_ops _ _ _ _ _ _ _ k Hevents)
      as [->|(S' & HS' & Hn)]; [assumption|].
    exfalso. apply Hn. congruence. }
  split; [assumption|].
  cbn zeta in *. destruct Hsc as (H1 & H2 & H3).
  split; [assumption|]. split; [assumption|].
  rewrite Hdemands, list_lookup_insert_ne by congruence. exact H3.
Qed.

Lemma step_of_indexed a b a' :
  step_of a b a' -> indexed (blocks (program a)) -> indexed (blocks (program a')).
Proof.
  intros Hstep Hidx k blk' Hk. destruct (decide (k = b)) as [->|Hne].
  - destruct Hstep. rewrite Hprog in Hk. cbn in Hk.
    rewrite list_lookup_insert_eq in Hk by (eapply lookup_lt_Some; eassumption).
    injection Hk as <-. cbn. apply Hidx. assumption.
  - rewrite (step_of_other_block _ _ _ _ Hstep Hne) in Hk. apply Hidx. assumption.
Qed.

Lemma step_of_worklist_grows a b a' : step_of a b a' -> worklist a ⊆ worklist a'.
Proof.
  intros [] k Hk.
  apply (insert_events_worklist _ _ _ _ _ _ _ k Hevents). left. assumption.
Qed.

Lemma worklist_step_settled a nd a' nd' :
  settled a -> worklist_step a nd = Ok (a', nd') -> settled a'.
Proof.
  intros [Hidx Hann] H. apply worklist_step_Ok in H.
  set (idx := max_list (elements (worklist a))) in *.
  constructor.
  - eapply step_of_indexed; [exact H|exact Hidx].
  - intros k Hk Hwl. rewrite (step_of_blocks_length _ _ _ H) in Hk.
    destruct (decide (k = idx)) as [->|Hne].
    + eapply step_of_annotates; [exact H|exact Hidx|exact Hwl].
    + eapply step_of_keeps; [exact H|exact Hidx|exact Hne|exact Hwl|].
      destruct (Hann k Hk) as (blk & S & phi & nd0 & vcc0 & Hrest).
      * intros Hin. apply Hwl. apply (step_of_worklist_grows _ _ _ H).
        cbn. set_solver.
      * exists blk, S, phi, nd0, vcc0. exact Hrest.
Qed.

Lemma worklist_loop_settled : forall fuel a nd a' nd',
  settled a -> worklist_loop fuel a nd = Some (Ok (a', nd')) -> settled a'.
Proof.
  induction fuel as [|fuel IH]; intros a nd a' nd' Hs H; cbn in H.
  - destruct (decide (worklist a = ∅)); [|discriminate].
    injection H as <- _. assumption.
  - destruct (decide (worklist a = ∅)).
    + injection H as <- _. assumption.
    + destruct (worklist_step a nd) as [[a1 nd1]|e] eqn:E; [|discriminate].
      eapply IH; [|exact H]. eapply worklist_step_settled; eauto.
Qed.

Lemma initial_settled prog :
  indexed (blocks prog) -> settled (initial_analysis prog).
Proof.
  intros Hidx. constructor; [exact Hidx|].
  cbn. intros b Hb Hwl. exfalso. apply Hwl.
  apply lookup_lt_is_Some in Hb as [blk Hblk].
  apply elem_of_list_to_set, list_elem_of_fmap. exists blk.
  split; [symmetry; apply Hidx; assumption|].
  eapply list_elem_of_lookup_2. eassumption.
Qed.

(** After the analysis every block is annotated from its final live-out
    set. *)
Lemma analysis_annotated fuel prog a nd b :
  indexed (blocks prog) ->
  worklist_loop fuel (initial_analysis prog) zero_demand = Some (Ok (a, nd)) ->
  (b < length (blocks (program a)))%nat -> annotated a b.
Proof.
  intros Hidx H Hb.
  pose proof (worklist_loop_settled _ _ _ _ _ (initial_settled _ Hidx) H) as [_ Hs].
  apply Hs; [assumption|].
  rewrite (worklist_loop_empty _ _ _ _ _ H). set_solver.
Qed.

End Settled.

(* ================================================================== *)
(** ** Kill flags and demand snapshots after the analysis *)

(** The running live set when the backward scan of a block with live-out
    set [live0] reaches the instruction at [idx]. *)
Definition running_live (insns : list Instruction) (live0 : gset nat) (idx : nat)
  : gset nat :=
  s_live (sc_state (scan_instructions 0 (drop (idx + 1) insns)
                      {| s_live := live0; s_new_demand := zero_demand;
                         s_needs_vcc := false |})).

(** A block whose marker reads a register. *)
Definition marker_reads : Program :=
  sample_program [block_of 0 [instr p_logical_end [use (tmp 0 v1)] []] [] []]
    [v1] GFX8 gfx8_dev no_lds false false.

(** A block that defines a register and reads it in the next instruction. *)
Definition def_use : Program :=
  sample_program
    [block_of 0 [instr (other_op 1) [] [def (tmp 0 v1)];
                 instr (other_op 2) [use (tmp 0 v1)] [];
                 instr p_logical_end [] []] [] []]
    [v1] GFX8 gfx8_dev no_lds false false.

(** A block with a dead definition above a definition that is read. *)
Definition dead_def_use : Program :=
  sample_program
    [block_of 0 [instr (other_op 1) [] [def (tmp 0 v1)];
                 instr (other_op 2) [] [def (tmp 1 v1)];
                 instr (other_op 3) [use (tmp 1 v1)] [];
                 instr p_logical_end [] []] [] []]
    [v1; v1] GFX8 gfx8_dev no_lds false false.

Lemma diamond_indexed : indexed (blocks diamond).
Proof.
  intros [|[|[|[|b]]]] blk H; cbn in H; try discriminate H;
    injection H as <-; reflexivity.
Qed.

Lemma def_use_indexed : indexed (blocks def_use).
Proof.
  intros [|b] blk H; cbn in H; try discriminate H.
  injection H as <-. reflexivity.
Qed.

Section AfterAnalysis.

Lemma initial_demand_in_range rcs ts : forall d nd,
  initial_demand rcs ts d = Ok nd -> in_range d -> in_range nd.
Proof.
  induction ts as [|t ts IH]; intros d nd H Hd; cbn in H.
  - injection H as <-. assumption.
  - apply bind_Ok in H as (rc & _ & H). eapply IH; [exact H|].
    apply in_range_add_temp. assumption.
Qed.

Lemma scan_instructions_in_range phi insns st :
  in_range (s_new_demand st) ->
  in_range (s_new_demand (sc_state (scan_instructions phi insns st))).
Proof.
  intros H. induction insns as [|i insns IH]; [assumption|]. cbn.
  destruct (sc_phis (scan_instructions phi insns st)); [|assumption].
  destruct (is_phi i); [assumption|].
  destruct (process_instruction phi i _) as [[i' snap] st'] eqn:E. cbn.
  eapply process_instruction_in_range; eauto.
Qed.

(** The body of an annotated block is a fixed point of the scan. *)
Lemma annotated_body a b :
  annotated a b ->
  exists blk live0 phi st0 phis body,
    blocks (program a) !! b = Some blk /\
    live_out (lives a) !! b = Some live0 /\
    s_live st0 = live0 /\ in_range (s_new_demand st0) /\
    instructions blk = phis ++ body /\
    Forall (fun i => is_phi i = true) phis /\ no_phi body /\
    sc_body (scan_instructions phi body st0) = body /\
    lives_register_demand (lives a) !! b
    = Some (replicate (length phis)
              (s_new_demand (sc_state (scan_instructions phi body st0)))
            ++ sc_demands (scan_instructions phi body st0)).
Proof.
  intros (blk & live0 & phi & nd0 & vcc0 & Hb & Hl & Hphi & Hnd & Hsc).
  cbn zeta in Hsc. destruct Hsc as (Hall & Hbody & Hrd).
  set (st0 := {| s_live := live0; s_new_demand := demand_sub_sgpr nd0 phi;
                 s_needs_vcc := vcc0 |}) in *.
  destruct (scan_instructions_split phi (instructions blk) st0)
    as (body & Hsplit & Hnp & Hscan & _).
  exists blk, live0, phi, st0, (sc_phis (scan_instructions phi (instructions blk) st0)),
    body.
  assert (Hbody' : sc_body (scan_instructions phi (instructions blk) st0) = body).
  { rewrite Hbody. rewrite Hsplit at 2. rewrite drop_app_length. reflexivity. }
  rewrite Hscan. cbn.
  repeat split; try assumption.
  all: try (apply in_range_sub_sgpr; eapply initial_demand_in_range; [exact Hnd|];
            apply in_range_zero).
Qed.

(** An instruction that is not a phi lies in the body. *)
Lemma lookup_body (phis body : list Instruction) idx insn :
  Forall (fun i => is_phi i = true) phis ->
  (phis ++ body) !! idx = Some insn -> is_phi insn = false ->
  exists j, idx = (length phis + j)%nat /\ body !! j = Some insn.
Proof.
  intros Hall Hidx Hphi.
  apply lookup_app_Some in Hidx as [Hin|[Hle Hin]].
  - exfalso. rewrite Forall_forall in Hall.
    apply list_elem_of_lookup_2 in Hin. apply Hall in Hin. congruence.
  - exists (idx - length phis)%nat. split; [lia|assumption].
Qed.

(** The demand relation between two consecutive instructions of a body:
    both snapshots are the running demand below the second instruction,
    moved over the second instruction for the first, plus the transient
    registers of the instruction itself. *)
Lemma scan_instructions_consecutive phi body st j insn next :
  no_phi body -> in_range (s_new_demand st) ->
  body !! j = Some insn -> body !! (j + 1)%nat = Some next ->
  is_logical_end insn = false -> is_logical_end next = false ->
  exists insn' next' n1,
    sc_body (scan_instructions phi body st) !! j = Some insn' /\
    sc_body (scan_instructions phi body st) !! (j + 1)%nat = Some next' /\
    in_range n1 /\
    sc_demands (scan_instructions phi body st) !! (j + 1)%nat
    = Some (demand_add n1 (get_temp_registers next')) /\
    sc_demands (scan_instructions phi body st) !! j
    = Some (demand_add (demand_sub n1 (get_live_changes next'))
              (get_temp_registers insn')).
Proof.
  intros Hnp Hst Hj Hj1 Hle Hle1.
  destruct (scan_instructions_lookup phi body st j insn Hnp Hj)
    as (B0 & D0 & S0).
  destruct (scan_instructions_lookup phi body st (j + 1) next Hnp Hj1)
    as (B1 & D1 & S1).
  cbn zeta in *.
  replace (S j) with (j + 1)%nat in * by lia.
  set (st1 := sc_state (scan_instructions phi (drop (S (j + 1)) body) st)) in *.
  assert (Hst1 : in_range (s_new_demand st1))
    by (apply scan_instructions_in_range; assumption).
  destruct (process_instruction phi next st1) as [[next' d1] st1'] eqn:E1.
  cbn in B1, D1, S1. rewrite S1 in *.
  destruct (process_instruction phi insn st1') as [[insn' d0] st0'] eqn:E0.
  cbn in B0, D0.
  destruct (process_instruction_demand _ _ _ _ _ _ E1 Hle1 Hst1)
    as (P1 & P2 & P3 & P4).
  destruct (process_instruction_demand _ _ _ _ _ _ E0 Hle P4)
    as (Q1 & Q2 & Q3 & Q4).
  exists insn', next', (s_new_demand st1).
  split; [assumption|]. split; [assumption|]. split; [assumption|].
  split; [congruence|]. rewrite D0, Q1, P2. reflexivity.
Qed.

(** The two readings of the snapshots in terms of the running demand. *)
Lemma demand_before_of_running n1 C T0 T1 :
  demand_add (demand_sub n1 C) T0
  = demand_add (demand_sub (demand_sub (demand_add n1 T1) C) T1) T0.
Proof.
  demand_norm.
  all: match goal with
       | |- _ = i16 (i16 ?x - ?y + ?z) =>
           replace (i16 x - y + z) with (i16 x + (z - y)) by lia;
           rewrite i16_add_l; f_equal; lia
       end.
Qed.

Lemma demand_round_trip_of_running n1 C :
  in_range n1 ->
  demand_add (demand_add (demand_sub n1 C) zero_demand) C
  = demand_add n1 zero_demand.
Proof.
  intros H. demand_norm.
  all: rewrite !Z.add_0_r, i16_add_l; f_equal; lia.
Qed.

Lemma running_live_body phi st0 phis body j live0 :
  s_live st0 = live0 ->
  s_live (sc_state (scan_instructions phi (drop (S j) body) st0))
  = running_live (phis ++ body) live0 (length phis + j).
Proof.
  intros H. unfold running_live.
  replace (length phis + j + 1)%nat with (length phis + S j)%nat by lia.
  rewrite drop_app_add. apply scan_instructions_live_eq. assumption.
Qed.

(** The operands of the marker that ends the logical part of a block are
    not visited: a register it reads gets no first-kill flag. *)
Lemma kill_flags_fail_at_marker :
  exists a nd blk insn,
    worklist_loop 1 (initial_analysis marker_reads) zero_demand = Some (Ok (a, nd)) /\
    blocks (program a) !! 0%nat = Some blk /\
    live_out (lives a) !! 0%nat = Some ∅ /\
    instructions blk !! 0%nat = Some insn /\
    is_phi insn = false /\
    0%nat ∈ use_ids (operands insn) /\
    (0%nat ∉ running_live (instructions blk) ∅ 0) /\
    ~ (exists i, first_kill_at (operands insn) 0 i).
Proof.
  eexists _, _, _, _.
  split; [vm_compute; reflexivity|]. split; [reflexivity|].
  split; [reflexivity|]. split; [reflexivity|]. split; [reflexivity|].
  split; [apply elem_of_use_ids; eexists; split; [left|split; reflexivity]|].
  split; [apply (proj1 (bool_decide_eq_false _)); vm_compute; reflexivity|].
  intros (i & (o & Ho & _ & _ & Hfk) & _).
  destruct i as [|i]; cbn in Ho; [|discriminate].
  injection Ho as <-. discriminate.
Qed.

(** Kill flags after the analysis: for every instruction that is neither
    a phi nor the end-of-logical-part marker and every register it reads
    that is not in the running live set when the backward scan of its
    block reaches it, the lowest-index read of that register is marked as
    first kill and is the only one so marked, and every read of that
    register in the instruction is marked as kill. *)
Theorem kill_flags_sound fuel prog a nd b blk live0 idx insn t :
  indexed (blocks prog) ->
  worklist_loop fuel (initial_analysis prog) zero_demand = Some (Ok (a, nd)) ->
  blocks (program a) !! b = Some blk ->
  live_out (lives a) !! b = Some live0 ->
  instructions blk !! idx = Some insn ->
  is_phi insn = false -> is_logical_end insn = false ->
  t ∈ use_ids (operands insn) ->
  t ∉ running_live (instructions blk) live0 idx ->
  exists i, first_kill_at (operands insn) t i.
Proof.
  intros Hidx Hloop Hb Hl Hinsn Hphi Hle Ht Hdead.
  assert (Hlt : (b < length (blocks (program a)))%nat)
    by (eapply lookup_lt_Some; eassumption).
  destruct (annotated_body _ _ (analysis_annotated _ _ _ _ _ Hidx Hloop Hlt))
    as (blk' & live0' & phi & st0 & phis & body & Hb' & Hl' & Hst0 & _ &
        Hsplit & Hall & Hnp & Hfix & _).
  assert (blk' = blk) as -> by congruence.
  assert (live0' = live0) as -> by congruence.
  rewrite Hsplit in Hinsn, Hdead.
  destruct (lookup_body _ _ _ _ Hall Hinsn Hphi) as (j & -> & Hj).
  destruct (scan_instructions_lookup phi body st0 j insn Hnp Hj) as (B & _ & _).
  cbn zeta in B. rewrite Hfix, Hj in B.
  destruct (process_instruction phi insn _) as [[insn' snap] st'] eqn:E.
  cbn in B. injection B as <-.
  eapply process_instruction_first_kill; [exact E|assumption|assumption|].
  rewrite (running_live_body phi st0 phis body j live0 Hst0). exact Hdead.
Qed.

Lemma kill_flags_sound_witness :
  exists a nd blk insn,
    worklist_loop 4 (initial_analysis diamond) zero_demand = Some (Ok (a, nd)) /\
    blocks (program a) !! 1%nat = Some blk /\
    instructions blk !! 0%nat = Some insn /\
    exists i, first_kill_at (operands insn) 0 i.
Proof.
  assert (E : exists a nd blk insn,
    worklist_loop 4 (initial_analysis diamond) zero_demand = Some (Ok (a, nd)) /\
    blocks (program a) !! 1%nat = Some blk /\
    live_out (lives a) !! 1%nat = Some {[1%nat]} /\
    instructions blk !! 0%nat = Some insn /\
    is_phi insn = false /\ is_logical_end insn = false /\
    bool_decide (0%nat ∈ use_ids (operands insn)) = true /\
    bool_decide (0%nat ∈ running_live (instructions blk) {[1%nat]} 0) = false).
  { eexists _, _, _, _. split; [vm_compute; reflexivity|].
    split; [reflexivity|]. split; [vm_compute; reflexivity|].
    split; [reflexivity|]. split; [reflexivity|]. split; [reflexivity|].
    split; vm_compute; reflexivity. }
  destruct E as (a & nd & blk & insn & Hloop & Hb & Hl & Hi & Hphi & Hle & Hops & Hrun).
  exists a, nd, blk, insn. split; [exact Hloop|]. split; [exact Hb|].
  split; [exact Hi|].
  apply (kill_flags_sound 4 diamond a nd 1 blk {[1%nat]} 0 insn 0
           diamond_indexed Hloop Hb Hl Hi Hphi Hle).
  - apply bool_decide_eq_true in Hops. exact Hops.
  - apply bool_decide_eq_false in Hrun. exact Hrun.
Defined.

(** The snapshot stored for an instruction is the demand below it:
    adding the change of the instruction itself does not give the next
    snapshot, and adding it to the snapshot of the instruction above does
    not give its own snapshot when that one has a dead definition. *)
Lemma demand_round_trip_fails :
  exists a nd blk rd insn d0 d1 d2,
    worklist_loop 1 (initial_analysis dead_def_use) zero_demand = Some (Ok (a, nd)) /\
    blocks (program a) !! 0%nat = Some blk /\
    lives_register_demand (lives a) !! 0%nat = Some rd /\
    instructions blk !! 1%nat = Some insn /\
    rd !! 0%nat = Some d0 /\ rd !! 1%nat = Some d1 /\ rd !! 2%nat = Some d2 /\
    demand_add d1 (get_live_changes insn) <> d2 /\
    demand_add d0 (get_live_changes insn) <> d1.
Proof.
  eexists _, _, _, _, _, _, _, _.
  split; [vm_compute; reflexivity|].
  split; [reflexivity|]. split; [reflexivity|]. split; [reflexivity|].
  split; [reflexivity|]. split; [reflexivity|]. split; [reflexivity|].
  split; vm_compute; discriminate.
Qed.

(** Snapshots after the analysis: for two consecutive instructions of
    a block, neither of them a phi or the end-of-logical-part marker, the
    snapshot of the first is the demand before the second as
    [get_demand_before] computes it from the snapshot of the second; when
    neither instruction has transient registers (dead definitions or
    late-kill reads), the snapshot of the first plus the live change of
    the second is the snapshot of the second. *)
Theorem demand_round_trip fuel prog a nd b blk rd idx insn next d0 d1 :
  indexed (blocks prog) ->
  worklist_loop fuel (initial_analysis prog) zero_demand = Some (Ok (a, nd)) ->
  blocks (program a) !! b = Some blk ->
  lives_register_demand (lives a) !! b = Some rd ->
  instructions blk !! idx = Some insn ->
  instructions blk !! (idx + 1)%nat = Some next ->
  is_phi insn = false ->
  is_logical_end insn = false -> is_logical_end next = false ->
  rd !! idx = Some d0 -> rd !! (idx + 1)%nat = Some d1 ->
  d0 = get_demand_before d1 next (Some insn) /\
  (get_temp_registers insn = zero_demand ->
   get_temp_registers next = zero_demand ->
   demand_add d0 (get_live_changes next) = d1).
Proof.
  intros Hidx Hloop Hb Hrd Hinsn Hnext Hphi Hle Hle1 Hd0 Hd1.
  assert (Hlt : (b < length (blocks (program a)))%nat)
    by (eapply lookup_lt_Some; eassumption).
  destruct (annotated_body _ _ (analysis_annotated _ _ _ _ _ Hidx Hloop Hlt))
    as (blk' & live0 & phi & st0 & phis & body & Hb' & _ & _ & Hst0 &
        Hsplit & Hall & Hnp & Hfix & Hrd').
  assert (blk' = blk) as -> by congruence.
  rewrite Hrd in Hrd'. injection Hrd' as ->.
  rewrite Hsplit in Hinsn, Hnext.
  destruct (lookup_body _ _ _ _ Hall Hinsn Hphi) as (j & -> & Hj).
  rewrite <- Nat.add_assoc in Hnext, Hd1.
  rewrite lookup_app_r in Hnext by lia.
  replace (length phis + (j + 1) - length phis)%nat with (j + 1)%nat in Hnext by lia.
  rewrite lookup_app_r in Hd0, Hd1 by (rewrite length_replicate; lia).
  rewrite length_replicate in Hd0, Hd1.
  replace (length phis + j - length phis)%nat with j in Hd0 by lia.
  replace (length phis + (j + 1) - length phis)%nat with (j + 1)%nat in Hd1 by lia.
  destruct (scan_instructions_consecutive phi body st0 j insn next
              Hnp Hst0 Hj Hnext Hle Hle1)
    as (insn' & next' & n1 & B0 & B1 & Hn1 & D1 & D0).
  rewrite Hfix in B0, B1.
  assert (insn' = insn) as -> by congruence.
  assert (next' = next) as -> by congruence.
  rewrite Hd0 in D0. rewrite Hd1 in D1. injection D0 as ->. injection D1 as ->.
  split.
  - unfold get_demand_before. apply demand_before_of_running.
  - intros -> ->. apply demand_round_trip_of_running. assumption.
Qed.

Lemma demand_round_trip_witness :
  exists a nd blk rd insn next d0 d1,
    worklist_loop 1 (initial_analysis def_use) zero_demand = Some (Ok (a, nd)) /\
    blocks (program a) !! 0%nat = Some blk /\
    lives_register_demand (lives a) !! 0%nat = Some rd /\
    instructions blk !! 0%nat = Some insn /\
    instructions blk !! 1%nat = Some next /\
    rd !! 0%nat = Some d0 /\ rd !! 1%nat = Some d1 /\
    d0 = get_demand_before d1 next (Some insn) /\
    demand_add d0 (get_live_changes next) = d1.
Proof.
  assert (E : exists a nd blk rd insn next d0 d1,
    worklist_loop 1 (initial_analysis def_use) zero_demand = Some (Ok (a, nd)) /\
    blocks (program a) !! 0%nat = Some blk /\
    lives_register_demand (lives a) !! 0%nat = Some rd /\
    instructions blk !! 0%nat = Some insn /\
    instructions blk !! 1%nat = Some next /\
    rd !! 0%nat = Some d0 /\ rd !! 1%nat = Some d1 /\
    is_phi insn = false /\ is_logical_end insn = false /\
    is_logical_end next = false /\
    get_temp_registers insn = zero_demand /\
    get_temp_registers next = zero_demand).
  { eexists _, _, _, _, _, _, _, _. split; [vm_compute; reflexivity|].
    split; [reflexivity|]. split; [reflexivity|]. split; [reflexivity|].
    split; [reflexivity|]. split; [reflexivity|]. split; [reflexivity|].
    split; [reflexivity|]. split; [reflexivity|]. split; [reflexivity|].
    split; vm_compute; reflexivity. }
  destruct E as (a & nd & blk & rd & insn & next & d0 & d1 & Hloop & Hb & Hrd &
                 Hi & Hn & Hd0 & Hd1 & Hphi & Hle & Hle1 & T0 & T1).
  exists a, nd, blk, rd, insn, next, d0, d1.
  split; [exact Hloop|]. split; [exact Hb|]. split; [exact Hrd|].
  split; [exact Hi|]. split; [exact Hn|]. split; [exact Hd0|]. split; [exact Hd1|].
  destruct (demand_round_trip 1 def_use a nd 0 blk rd 0 insn next d0 d1) as [H1 H2].
  - exact def_use_indexed.
  - exact Hloop.
  - exact Hb.
  - exact Hrd.
  - exact Hi.
  - exact Hn.
  - exact Hphi.
  - exact Hle.
  - exact Hle1.
  - exact Hd0.
  - exact Hd1.
  - split; [exact H1|]. apply H2; assumption.
Defined.

End AfterAnalysis.

(* ================================================================== *)
(** ** What the loop keeps *)

(** Two blocks that differ in the flags of their instructions and in the
    stored demand only. *)
Definition same_block (blk blk' : Block) : Prop :=
  index blk' = index blk /\
  logical_preds blk' = logical_preds blk /\
  linear_preds blk' = linear_preds blk /\
  Forall2 same_instr (instructions blk) (instructions blk').

(** The registers that some instruction of the program reads. *)
Definition program_uses (prog : Program) : gset nat :=
  ⋃ ((fun b => uses_of (instructions b)) <$> blocks prog).

(** Pointwise order of register demands. *)
Definition demand_le (d d' : RegisterDemand) : Prop :=
  (vgpr d <= vgpr d')%Z /\ (sgpr d <= sgpr d')%Z.

Section LoopInvariant.
Variable P : analysis -> RegisterDemand -> Prop.
Hypothesis P_step : forall a nd a' nd',
  P a nd -> worklist a <> ∅ -> worklist_step a nd = Ok (a', nd') -> P a' nd'.

Lemma worklist_loop_invariant : forall fuel a nd a' nd',
  P a nd -> worklist_loop fuel a nd = Some (Ok (a', nd')) -> P a' nd'.
Proof.
  induction fuel as [|fuel IH]; intros a nd a' nd' HP H; cbn in H.
  - destruct (decide (worklist a = ∅)); [|discriminate].
    injection H as <- <-. assumption.
  - destruct (decide (worklist a = ∅)) as [|Hne].
    + injection H as <- <-. assumption.
    + destruct (worklist_step a nd) as [[a1 nd1]|e] eqn:E; [|discriminate].
      eapply IH; [|exact H]. eapply P_step; eauto.
Qed.

End LoopInvariant.

Section LoopKeeps.

Lemma same_block_refl blk : same_block blk blk.
Proof. repeat split. apply Forall2_same_instr_refl. Qed.

Lemma same_block_trans b1 b2 b3 :
  same_block b1 b2 -> same_block b2 b3 -> same_block b1 b3.
Proof.
  intros (H1 & H2 & H3 & H4) (H1' & H2' & H3' & H4').
  split; [congruence|]. split; [congruence|]. split; [congruence|].
  eapply Forall2_same_instr_trans; eassumption.
Qed.

(** The fields of the program a step leaves alone. *)
Definition same_settings (p p' : Program) : Prop :=
  p' = with_needs_vcc (with_blocks p (blocks p')) (needs_vcc p').

Lemma same_settings_refl p : same_settings p p.
Proof. unfold same_settings. destruct p; reflexivity. Qed.

Lemma same_settings_trans p1 p2 p3 :
  same_settings p1 p2 -> same_settings p2 p3 -> same_settings p1 p3.
Proof.
  unfold same_settings. intros H12 H23. rewrite H23 at 1. rewrite H12 at 1.
  destruct p1; reflexivity.
Qed.

Lemma step_of_same_settings a b a' :
  step_of a b a' -> same_settings (program a) (program a').
Proof.
  intros []. unfold same_settings. rewrite Hprog.
  destruct (program a); reflexivity.
Qed.

Lemma step_of_same_blocks a b a' k blk :
  step_of a b a' -> blocks (program a) !! k = Some blk ->
  exists blk', blocks (program a') !! k = Some blk' /\ same_block blk blk'.
Proof.
  intros Hstep Hk. destruct (decide (k = b)) as [->|Hne].
  - destruct (step_of_block _ _ _ _ Hstep Hk) as (blk' & Hb & Hs & Hi & Hlog & Hlin).
    exists blk'. repeat split; assumption.
  - exists blk. rewrite (step_of_other_block _ _ _ _ Hstep Hne).
    split; [assumption|apply same_block_refl].
Qed.

Lemma worklist_step_keeps_code prog a nd a' nd' :
  (same_settings (with_needs_vcc prog false) (program a) /\
   length (blocks (program a)) = length (blocks prog) /\
   forall k blk, blocks prog !! k = Some blk ->
     exists blk', blocks (program a) !! k = Some blk' /\ same_block blk blk') ->
  worklist_step a nd = Ok (a', nd') ->
  same_settings (with_needs_vcc prog false) (program a') /\
  length (blocks (program a')) = length (blocks prog) /\
  forall k blk, blocks prog !! k = Some blk ->
    exists blk', blocks (program a') !! k = Some blk' /\ same_block blk blk'.
Proof.
  intros (Hset & Hlen & Hblocks) H. apply worklist_step_Ok in H. cbn in H.
  split; [|split].
  - eapply same_settings_trans; [exact Hset|].
    exact (step_of_same_settings _ _ _ H).
  - rewrite (step_of_blocks_length _ _ _ H). exact Hlen.
  - intros k blk Hk. destruct (Hblocks k blk Hk) as (blk1 & Hk1 & Hs1).
    destruct (step_of_same_blocks _ _ _ k blk1 H Hk1) as (blk' & Hk' & Hs').
    exists blk'. split; [assumption|]. eapply same_block_trans; eassumption.
Qed.

(** The loop rewrites flags, block demands and [needs_vcc] only. *)
Lemma worklist_loop_keeps_code fuel prog a nd :
  worklist_loop fuel (initial_analysis prog) zero_demand = Some (Ok (a, nd)) ->
  Forall2 same_block (blocks prog) (blocks (program a)) /\
  program a = with_needs_vcc (with_blocks prog (blocks (program a)))
                (needs_vcc (program a)).
Proof.
  intros H.
  destruct (worklist_loop_invariant
    (fun a _ =>
       same_settings (with_needs_vcc prog false) (program a) /\
       length (blocks (program a)) = length (blocks prog) /\
       forall k blk, blocks prog !! k = Some blk ->
         exists blk', blocks (program a) !! k = Some blk' /\ same_block blk blk')
    (fun a nd a' nd' HP _ Hs => worklist_step_keeps_code prog a nd a' nd' HP Hs)
    fuel (initial_analysis prog) zero_demand a nd) as (Hset & Hlen & Hblocks);
    [|exact H|].
  - cbn. split; [apply same_settings_refl|]. split; [reflexivity|].
    intros k blk Hk. exists blk. split; [assumption|apply same_block_refl].
  - split.
    + apply Forall2_same_length_lookup_2; [symmetry; exact Hlen|].
      intros k blk blk' Hk Hk'. destruct (Hblocks k blk Hk) as (blk1 & Hk1 & Hs).
      congruence.
    + unfold same_settings in Hset. rewrite Hset at 1.
      destruct prog; reflexivity.
Qed.

Lemma uses_of_program_uses prog b blk :
  blocks prog !! b = Some blk -> uses_of (instructions blk) ⊆ program_uses prog.
Proof.
  intros H. unfold program_uses.
  apply list_elem_of_lookup_2 in H. revert H.
  induction (blocks prog) as [|b0 bs IH]; intros H.
  - apply elem_of_nil in H. contradiction.
  - cbn. apply elem_of_cons in H as [->|H]; [set_solver|].
    specialize (IH H). set_solver.
Qed.

Lemma initial_within_uses prog : within (program_uses prog) (initial_analysis prog).
Proof.
  constructor.
  - cbn. intros k S0 HS. apply lookup_replicate in HS as [-> _]. set_solver.
  - cbn. intros b blk Hb. eapply uses_of_program_uses. exact Hb.
Qed.

Lemma within_without_block T a k : within T a -> within T (without_block a k).
Proof. intros [H1 H2]. constructor; assumption. Qed.

Lemma worklist_loop_live_out_length fuel prog a nd :
  worklist_loop fuel (initial_analysis prog) zero_demand = Some (Ok (a, nd)) ->
  length (live_out (lives a)) = length (blocks prog).
Proof.
  intros H.
  apply (worklist_loop_invariant
           (fun a _ => length (live_out (lives a)) = length (blocks prog)))
    with (fuel := fuel) (a := initial_analysis prog) (nd := zero_demand) (nd' := nd);
    [|cbn; apply length_replicate|exact H].
  clear. intros a nd a' nd' Hlen _ Hs. apply worklist_step_Ok in Hs.
  destruct Hs. apply insert_events_length in Hevents as [Hl _].
  etransitivity; [exact Hl|exact Hlen].
Qed.

(** The live-out sets after the analysis: one per block, and each holds
    only registers that some instruction of the program reads. *)
Theorem live_out_within_uses fuel prog a nd :
  worklist_loop fuel (initial_analysis prog) zero_demand = Some (Ok (a, nd)) ->
  length (live_out (lives a)) = length (blocks prog) /\
  forall k live0, live_out (lives a) !! k = Some live0 ->
    live0 ⊆ program_uses prog.
Proof.
  intros H. split; [eapply worklist_loop_live_out_length; exact H|].
  assert (Hin : within (program_uses prog) a).
  { apply (worklist_loop_invariant (fun a _ => within (program_uses prog) a))
      with (fuel := fuel) (a := initial_analysis prog) (nd := zero_demand) (nd' := nd);
      [|apply initial_within_uses|exact H].
    clear. intros a nd a' nd' Hin _ Hs. apply worklist_step_Ok in Hs.
    eapply step_of_within; [exact Hs|]. apply within_without_block. exact Hin. }
  destruct Hin as [Hlo _]. exact Hlo.
Qed.

Lemma live_out_within_uses_witness :
  exists a nd,
    worklist_loop 4 (initial_analysis diamond) zero_demand = Some (Ok (a, nd)) /\
    length (live_out (lives a)) = 4%nat /\
    forall k live0, live_out (lives a) !! k = Some live0 ->
      live0 ⊆ program_uses diamond.
Proof.
  destruct (worklist_loop 4 (initial_analysis diamond) zero_demand)
    as [[[a nd]|e]|] eqn:E; [|vm_compute in E; discriminate E..].
  exists a, nd. split; [reflexivity|].
  apply (live_out_within_uses 4 diamond a nd E).
Defined.

End LoopKeeps.

(* ================================================================== *)
(** ** Snapshots, block demands and the peak demand *)

Section PeakDemand.
Local Open Scope Z_scope.

Lemma demand_le_refl d : demand_le d d.
Proof. split; lia. Qed.

Lemma demand_le_trans d1 d2 d3 : demand_le d1 d2 -> demand_le d2 d3 -> demand_le d1 d3.
Proof. intros [] []. split; lia. Qed.

Lemma demand_le_update_l d d' : demand_le d (demand_update d d').
Proof. split; cbn; lia. Qed.

Lemma demand_le_update_r d d' : demand_le d' (demand_update d d').
Proof. split; cbn; lia. Qed.

(** The block demand of a scan is above every snapshot of the body. *)
Lemma scan_instructions_block_demand phi insns st d :
  d ∈ sc_demands (scan_instructions phi insns st) ->
  demand_le d (sc_block_demand (scan_instructions phi insns st)).
Proof.
  induction insns as [|i insns IH]; cbn.
  - intros H. apply elem_of_nil in H. contradiction.
  - destruct (sc_phis (scan_instructions phi insns st)); [|exact IH].
    destruct (is_phi i); [exact IH|].
    destruct (process_instruction phi i _) as [[i' snap] st']. cbn.
    intros H. apply elem_of_cons in H as [->|H].
    + apply demand_le_update_r.
    + eapply demand_le_trans; [apply IH; assumption|apply demand_le_update_l].
Qed.

(** Every snapshot a step stores for its block is below the demand it
    stores in the block. *)
Lemma step_of_block_demand a b a' blk' rd d :
  step_of a b a' -> indexed (blocks (program a)) ->
  before_ra (progress (program a)) = true ->
  blocks (program a') !! b = Some blk' ->
  lives_register_demand (lives a') !! b = Some rd ->
  d ∈ rd -> demand_le d (register_demand blk').
Proof.
  intros [] Hidx Hra Hb' Hrd' Hd.
  assert (Hib : index blk = b) by (apply Hidx; assumption).
  rewrite Hprog in Hb'. cbn in Hb'.
  rewrite list_lookup_insert_eq in Hb' by (eapply lookup_lt_Some; eassumption).
  injection Hb' as <-. cbn. unfold block_demand_after. rewrite Hra.
  rewrite Hdemands, Hib in Hrd'. destruct Hrd as [rd0 Hrd0]. rewrite Hib in Hrd0.
  rewrite list_lookup_insert_eq in Hrd' by (eapply lookup_lt_Some; eassumption).
  injection Hrd' as <-. unfold scanned_demands in Hd.
  apply elem_of_app in Hd as [Hd|Hd].
  - apply elem_of_replicate in Hd as [-> _]. apply demand_le_update_r.
  - eapply demand_le_trans; [|apply demand_le_update_l].
    apply scan_instructions_block_demand. exact Hd.
Qed.

Lemma worklist_step_demand a nd a' nd' :
  worklist_step a nd = Ok (a', nd') ->
  exists blk', blocks (program a') !! max_list (elements (worklist a)) = Some blk' /\
               nd' = demand_update nd (register_demand blk').
Proof.
  unfold worklist_step. intros H.
  apply bind_Ok in H as (a1 & Hstep & H).
  apply bind_Ok in H as (blk & Hblk & H). apply of_option_Ok in Hblk.
  injection H as <- <-. eauto.
Qed.

(** The invariant: snapshots are below the demand of their block, and the
    demand of every block that is not pending is below the running peak. *)
Record peaked (a : analysis) (nd : RegisterDemand) : Prop := {
  peaked_indexed : indexed (blocks (program a));
  peaked_before_ra : before_ra (progress (program a)) = true;
  peaked_snapshots : forall b blk rd d,
    blocks (program a) !! b = Some blk ->
    lives_register_demand (lives a) !! b = Some rd ->
    d ∈ rd -> demand_le d (register_demand blk);
  peaked_blocks : forall b blk,
    blocks (program a) !! b = Some blk -> b ∉ worklist a ->
    demand_le (register_demand blk) nd
}.

Lemma worklist_step_peaked a nd a' nd' :
  peaked a nd -> worklist a <> ∅ -> worklist_step a nd = Ok (a', nd') ->
  peaked a' nd'.
Proof.
  intros [Hidx Hra Hsnap Hblocks] Hne H.
  destruct (worklist_step_demand _ _ _ _ H) as (blk1 & Hblk1 & ->).
  apply worklist_step_Ok in H.
  set (idx := max_list (elements (worklist a))) in *.
  constructor.
  - eapply step_of_indexed; [exact H|exact Hidx].
  - rewrite (step_of_progress _ _ _ H). exact Hra.
  - intros b blk rd d Hb Hrd Hd. destruct (decide (b = idx)) as [->|Hb'].
    + eapply step_of_block_demand; eauto.
    + rewrite (step_of_other_block _ _ _ _ H Hb') in Hb. cbn in Hb.
      destruct H. assert (Hib : index blk0 = idx) by (apply Hidx; assumption).
      rewrite Hdemands, Hib, list_lookup_insert_ne in Hrd by congruence.
      cbn in Hrd. eauto.
  - intros b blk Hb Hwl. destruct (decide (b = idx)) as [->|Hb'].
    + assert (blk = blk1) as -> by congruence. apply demand_le_update_r.
    + eapply demand_le_trans; [|apply demand_le_update_l].
      rewrite (step_of_other_block _ _ _ _ H Hb') in Hb. cbn in Hb.
      apply (Hblocks b blk Hb). intros Hin. apply Hwl.
      apply (step_of_worklist_grows _ _ _ H). cbn. set_solver.
Qed.

Lemma initial_peaked prog :
  indexed (blocks prog) -> before_ra (progress prog) = true ->
  peaked (initial_analysis prog) zero_demand.
Proof.
  intros Hidx Hra. constructor; cbn; try assumption.
  - intros b blk rd d _ Hrd Hd. apply lookup_replicate in Hrd as [-> _].
    apply elem_of_nil in Hd. contradiction.
  - intros b blk Hb Hwl. exfalso. apply Hwl.
    apply elem_of_list_to_set, list_elem_of_fmap. exists blk.
    split; [symmetry; apply Hidx; assumption|].
    eapply list_elem_of_lookup_2. eassumption.
Qed.

(** Before register allocation, the demand the analysis stores in a block
    is at least every snapshot of the block, and the peak demand the loop
    hands to [update_vgpr_sgpr_demand] is at least the demand of every
    block. *)
Theorem peak_demand_bounds fuel prog a nd b blk rd d :
  indexed (blocks prog) -> before_ra (progress prog) = true ->
  worklist_loop fuel (initial_analysis prog) zero_demand = Some (Ok (a, nd)) ->
  blocks (program a) !! b = Some blk ->
  lives_register_demand (lives a) !! b = Some rd ->
  d ∈ rd ->
  demand_le d (register_demand blk) /\ demand_le (register_demand blk) nd.
Proof.
  intros Hidx Hra H Hb Hrd Hd.
  destruct (worklist_loop_invariant peaked worklist_step_peaked fuel _ _ _ _
              (initial_peaked prog Hidx Hra) H) as [_ _ Hsnap Hblocks].
  split; [eapply Hsnap; eassumption|].
  apply (Hblocks b blk Hb).
  rewrite (worklist_loop_empty _ _ _ _ _ H). set_solver.
Qed.

End PeakDemand.

Lemma peak_demand_bounds_witness :
  exists a nd blk rd d,
    worklist_loop 4 (initial_analysis diamond) zero_demand = Some (Ok (a, nd)) /\
    blocks (program a) !! 3%nat = Some blk /\
    lives_register_demand (lives a) !! 3%nat = Some rd /\
    rd !! 0%nat = Some d /\
    demand_le d (register_demand blk) /\ demand_le (register_demand blk) nd.
Proof.
  assert (E : exists a nd blk rd d,
    worklist_loop 4 (initial_analysis diamond) zero_demand = Some (Ok (a, nd)) /\
    blocks (program a) !! 3%nat = Some blk /\
    lives_register_demand (lives a) !! 3%nat = Some rd /\
    rd !! 0%nat = Some d).
  { eexists _, _, _, _, _. split; [vm_compute; reflexivity|].
    split; [reflexivity|]. split; reflexivity. }
  destruct E as (a & nd & blk & rd & d & Hloop & Hb & Hrd & Hd).
  exists a, nd, blk, rd, d.
  split; [exact Hloop|]. split; [exact Hb|]. split; [exact Hrd|].
  split; [exact Hd|].
  apply (peak_demand_bounds 4 diamond a nd 3 blk rd d diamond_indexed eq_refl
           Hloop Hb Hrd).
  eapply list_elem_of_lookup_2. exact Hd.
Defined.

Section SnapshotCount.

(** After the analysis every block has one snapshot per instruction, and
    the snapshots of its phis are all the same. *)
Theorem snapshot_per_instruction fuel prog a nd b blk rd :
  indexed (blocks prog) ->
  worklist_loop fuel (initial_analysis prog) zero_demand = Some (Ok (a, nd)) ->
  blocks (program a) !! b = Some blk ->
  lives_register_demand (lives a) !! b = Some rd ->
  length rd = length (instructions blk) /\
  forall i j insn insn' d d',
    instructions blk !! i = Some insn -> instructions blk !! j = Some insn' ->
    is_phi insn = true -> is_phi insn' = true ->
    rd !! i = Some d -> rd !! j = Some d' -> d = d'.
Proof.
  intros Hidx Hloop Hb Hrd.
  assert (Hlt : (b < length (blocks (program a)))%nat)
    by (eapply lookup_lt_Some; eassumption).
  destruct (annotated_body _ _ (analysis_annotated _ _ _ _ _ Hidx Hloop Hlt))
    as (blk' & live0 & phi & st0 & phis & body & Hb' & _ & _ & _ &
        Hsplit & Hall & Hnp & Hfix & Hrd').
  assert (blk' = blk) as -> by congruence.
  rewrite Hrd in Hrd'. injection Hrd' as ->.
  pose proof (scan_instructions_length phi body st0) as [Hl1 _].
  cbn zeta in Hl1. rewrite Hfix in Hl1.
  split.
  - rewrite Hsplit, !length_app, length_replicate. lia.
  - assert (Hin : forall i insn, instructions blk !! i = Some insn ->
                    is_phi insn = true -> (i < length phis)%nat).
    { intros i insn Hi Hphi. rewrite Hsplit in Hi.
      apply lookup_app_Some in Hi as [Hi|[_ Hi]];
        [eapply lookup_lt_Some; exact Hi|].
      exfalso. unfold no_phi in Hnp. rewrite Forall_forall in Hnp.
      apply list_elem_of_lookup_2 in Hi. apply Hnp in Hi. congruence. }
    intros i j insn insn' d d' Hi Hj Hpi Hpj Hdi Hdj.
    apply Hin in Hi; [|assumption]. apply Hin in Hj; [|assumption].
    rewrite lookup_app_l in Hdi, Hdj by (rewrite length_replicate; assumption).
    apply lookup_replicate in Hdi as [-> _].
    apply lookup_replicate in Hdj as [-> _]. reflexivity.
Qed.

Lemma snapshot_per_instruction_witness :
  exists a nd blk rd,
    worklist_loop 4 (initial_analysis diamond) zero_demand = Some (Ok (a, nd)) /\
    blocks (program a) !! 3%nat = Some blk /\
    lives_register_demand (lives a) !! 3%nat = Some rd /\
    length rd = length (instructions blk).
Proof.
  assert (E : exists a nd blk rd,
    worklist_loop 4 (initial_analysis diamond) zero_demand = Some (Ok (a, nd)) /\
    blocks (program a) !! 3%nat = Some blk /\
    lives_register_demand (lives a) !! 3%nat = Some rd).
  { eexists _, _, _, _. split; [vm_compute; reflexivity|].
    split; reflexivity. }
  destruct E as (a & nd & blk & rd & Hloop & Hb & Hrd).
  exists a, nd, blk, rd.
  split; [exact Hloop|]. split; [exact Hb|]. split; [exact Hrd|].
  apply (snapshot_per_instruction 4 diamond a nd 3 blk rd diamond_indexed
           Hloop Hb Hrd).
Defined.

End SnapshotCount.

(* ================================================================== *)
(** ** The live-out sets solve the data-flow equations *)

(** The registers live at the top of a block whose live-out set is
    [live0]: what the backward scan leaves in the live set, without the
    registers the phis of the block define. *)
Definition live_in_of (blk : Block) (live0 : gset nat) : gset nat :=
  let sc := scan_instructions 0 (instructions blk)
              {| s_live := live0; s_new_demand := zero_demand;
                 s_needs_vcc := false |} in
  s_live (sc_state sc) ∖ phi_def_ids (sc_phis sc).

(** The block at position [b] has sent everything it needs to its
    predecessors. *)
Definition flows (a : analysis) (b : nat) : Prop :=
  forall blk live0,
    blocks (program a) !! b = Some blk ->
    live_out (lives a) !! b = Some live0 ->
    (forall t rc p,
        t ∈ live_in_of blk live0 ->
        temp_rc (program a) !! t = Some rc -> p ∈ preds_of blk rc ->
        exists Sp, live_out (lives a) !! p = Some Sp /\ t ∈ Sp) /\
    (forall insn j p o,
        insn ∈ instructions blk -> is_phi insn = true ->
        phi_preds blk insn !! j = Some p -> operands insn !! j = Some o ->
        op_isTemp o = true ->
        exists Sp, live_out (lives a) !! p = Some Sp /\ tempId o ∈ Sp) /\
    (index blk = 0%nat -> live_in_of blk live0 = ∅) /\
    (forall t, t ∈ live_in_of blk live0 -> is_Some (temp_rc (program a) !! t)).

Record flowing (a : analysis) : Prop := {
  flowing_indexed : indexed (blocks (program a));
  flowing_flows : forall b, (b < length (blocks (program a)))%nat ->
                  b ∉ worklist a -> flows a b
}.

Section Flow.

Lemma phi_def_ids_same phis phis' :
  Forall2 same_instr phis phis' -> phi_def_ids phis' = phi_def_ids phis.
Proof.
  unfold phi_def_ids.
  induction 1 as [|i i' phis phis' (_ & _ & Hdefs) _ IH]; [reflexivity|].
  cbn. rewrite IH, (def_ids_same_def _ _ Hdefs). reflexivity.
Qed.

Lemma phi_events_complete logical : forall preds ops j p o,
  preds !! j = Some p -> ops !! j = Some o -> op_isTemp o = true ->
  exists inc, (p, tempId o, inc) ∈ phi_events logical preds ops.
Proof.
  induction preds as [|p0 preds IH]; intros ops j p o Hp Ho Ht; [discriminate|].
  destruct ops as [|o0 ops]; [discriminate|].
  destruct j as [|j]; cbn in Hp, Ho.
  - injection Hp as ->. injection Ho as ->. cbn. rewrite Ht.
    eexists. apply elem_of_app. left. left.
  - destruct (IH ops j p o Hp Ho Ht) as [inc Hin].
    exists inc. cbn. apply elem_of_app. right. exact Hin.
Qed.

Lemma phis_events_complete block phis insn j p o :
  insn ∈ phis -> phi_preds block insn !! j = Some p ->
  operands insn !! j = Some o -> op_isTemp o = true ->
  exists inc, (p, tempId o, inc) ∈ phis_events block phis.
Proof.
  intros Hin Hp Ho Ht. induction phis as [|i phis IH].
  - apply elem_of_nil in Hin. contradiction.
  - cbn. apply elem_of_cons in Hin as [<-|Hin].
    + destruct (phi_events_complete (phi_is_logical insn) _ _ _ _ _ Hp Ho Ht)
        as [inc H].
      exists inc. apply elem_of_app. right. exact H.
    + destruct (IH Hin) as [inc H]. exists inc. apply elem_of_app. left. exact H.
Qed.

(** A register an insertion sends to [p] is in the live-out set of [p]
    afterwards. *)
Lemma insert_events_sent es lo wl pso lo' wl' pso' p t inc :
  insert_events es lo wl pso = Ok (lo', wl', pso') ->
  (p, t, inc) ∈ es ->
  exists Sp, lo' !! p = Some Sp /\ t ∈ Sp.
Proof.
  intros H He.
  pose proof (insert_events_in_range _ _ _ _ _ _ _ _ _ _ H He) as Hlt.
  apply lookup_lt_is_Some in Hlt as [S0 HS0].
  exists (S0 ∪ event_ids p es).
  rewrite (insert_events_live_out _ _ _ _ _ _ _ p H), HS0. split; [reflexivity|].
  apply elem_of_union. right. apply elem_of_event_ids. eauto.
Qed.

(** The live-out sets only grow under insertions. *)
Lemma insert_events_grows es lo wl pso lo' wl' pso' p Sp t :
  insert_events es lo wl pso = Ok (lo', wl', pso') ->
  lo !! p = Some Sp -> t ∈ Sp ->
  exists Sp', lo' !! p = Some Sp' /\ t ∈ Sp'.
Proof.
  intros H HSp Ht. exists (Sp ∪ event_ids p es).
  rewrite (insert_events_live_out _ _ _ _ _ _ _ p H), HSp. split; [reflexivity|].
  set_solver.
Qed.

(** The live-in set of the block a step writes back, from the live-out
    set the step read. *)
Lemma step_of_live_in a b a' :
  step_of a b a' ->
  exists blk blk' live0 phis1 phis2 body st1,
    blocks (program a) !! b = Some blk /\
    blocks (program a') !! b = Some blk' /\
    same_block blk blk' /\
    live_out (lives a) !! index blk = Some live0 /\
    live_in_of blk' live0 = s_live st1 /\
    Forall (fun t => is_Some (temp_rc (program a) !! t)) (elements (s_live st1)) /\
    (index blk = 0%nat -> s_live st1 = ∅) /\
    (instructions blk' = phis2 ++ body /\ Forall2 same_instr phis1 phis2 /\
     Forall (fun i => is_phi i = true) phis2 /\ no_phi body) /\
    insert_events
      (merge_events (temp_rc (program a)) blk (elements (s_live st1))
       ++ phis_events blk phis1)
      (live_out (lives a)) (worklist a) (phi_sgpr_ops a)
    = Ok (live_out (lives a'), worklist a', phi_sgpr_ops a').
Proof.
  intros Hstep. pose proof Hstep as [].
  destruct (step_of_block _ _ _ _ Hstep Hblk) as (blk' & Hb' & Hsame' & Hi & Hlog & Hlin).
  unfold scan_start in *.
  set (st0 := {| s_live := live0; s_new_demand := demand_sub_sgpr nd0 phi;
                 s_needs_vcc := needs_vcc (program a) |}) in *.
  set (sc := scan_instructions phi (instructions blk) st0) in *.
  destruct (scan_instructions_split phi (instructions blk) st0)
    as (body & Hsplit & Hbody & Hscan & _). fold sc in Hsplit, Hscan.
  destruct (scan_instructions_idem phi body st0 Hbody) as [Hnp Hidem].
  rewrite Hscan in Hnp, Hidem. cbn in Hnp, Hidem.
  pose proof Hdefs as Hd.
  apply phi_definitions_Ok in Hd as (Hallphi & Hsame1 & Hlive1 & _).
  assert (Hsame : Forall2 same_instr (sc_phis sc) phis2)
    by (eapply Forall2_same_instr_trans; eassumption).
  assert (Hall2 : Forall (fun i => is_phi i = true) phis2)
    by (eapply all_phis_same; eassumption).
  assert (Hblk' : blk' = with_block blk (phis2 ++ sc_body sc)
                           (block_demand_after a blk sc)).
  { rewrite Hprog in Hb'. cbn in Hb'.
    rewrite list_lookup_insert_eq in Hb' by (eapply lookup_lt_Some; eassumption).
    congruence. }
  exists blk, blk', live0, phis1, phis2, (sc_body sc), st1.
  split; [assumption|]. split; [assumption|].
  split; [repeat split; assumption|]. split; [assumption|].
  split; [|split; [assumption|split; [apply Hentry|split; [|exact Hevents]]]].
  - unfold live_in_of. rewrite Hblk'. cbn [instructions with_block].
    set (z0 := {| s_live := live0; s_new_demand := zero_demand;
                  s_needs_vcc := false |}).
    rewrite (scan_instructions_app 0 phis2 (sc_body sc) z0 Hnp
               (all_phis_last _ Hall2)). cbn [sc_phis sc_state].
    rewrite (phi_def_ids_same _ _ Hsame), Hlive1.
    f_equal.
    rewrite (scan_instructions_live_eq 0 phi (sc_body sc) z0 st0 eq_refl).
    rewrite Hidem. reflexivity.
  - rewrite Hblk'. cbn. repeat split; assumption.
Qed.

(** A phi of the block a step writes back comes from a phi the step has
    read. *)
Lemma phis_of_written (phis1 phis2 body : list Instruction) insn :
  Forall2 same_instr phis1 phis2 -> no_phi body ->
  insn ∈ phis2 ++ body -> is_phi insn = true ->
  exists insn1, insn1 ∈ phis1 /\ same_instr insn1 insn.
Proof.
  intros Hphis2 Hnp Hin Hisphi.
  apply elem_of_app in Hin as [Hin|Hin].
  - apply list_elem_of_lookup in Hin as [i Hin].
    destruct (Forall2_lookup_r _ _ _ _ _ Hphis2 Hin) as (insn1 & H1 & Hs).
    exists insn1. split; [eapply list_elem_of_lookup_2; eassumption|assumption].
  - exfalso. unfold no_phi in Hnp. rewrite Forall_forall in Hnp.
    apply Hnp in Hin. congruence.
Qed.

Lemma same_instr_lookup_operand insn1 insn j o :
  same_instr insn1 insn -> operands insn !! j = Some o ->
  exists o1, operands insn1 !! j = Some o1 /\ same_ref o1 o.
Proof.
  intros (_ & Hops & _) Ho.
  destruct (Forall2_lookup_r _ _ _ _ _ Hops Ho) as (o1 & H1 & Hs). eauto.
Qed.

(** The block a step has processed has sent its live-in registers and its
    phi operands to its predecessors. *)
Lemma step_of_flows a b a' :
  step_of a b a' -> indexed (blocks (program a)) ->
  b ∉ worklist a' -> flows a' b.
Proof.
  intros Hstep Hidx Hwl blk' live0' Hb' Hl'.
  destruct (step_of_live_in _ _ _ Hstep)
    as (blk & blk0 & live0 & phis1 & phis2 & body & st1 & Hb & Hb0 & Hsame & Hl &
        Hin & Hrcs & Hentry & (Hsplit & Hphis2 & _ & Hnp) & Hev).
  assert (blk0 = blk') as -> by congruence.
  assert (Hib : index blk = b) by (apply Hidx; assumption).
  rewrite Hib in Hl.
  assert (live0' = live0) as ->.
  { rewrite (insert_events_live_out _ _ _ _ _ _ _ b Hev), Hl in Hl'. cbn in Hl'.
    injection Hl' as <-.
    destruct (decide (event_ids b
                (merge_events (temp_rc (program a)) blk (elements (s_live st1))
                 ++ phis_events blk phis1) ⊆ live0)) as [?|Hn]; [set_solver|].
    exfalso. apply Hwl.
    apply (insert_events_worklist _ _ _ _ _ _ _ b Hev). right. eauto. }
  destruct Hsame as (Hi' & Hlog & Hlin & Hinsns).
  rewrite Hin, (step_of_temp_rc _ _ _ Hstep).
  rewrite Forall_forall in Hrcs.
  split; [|split; [|split]].
  - intros t rc p Ht Hrc Hp.
    eapply insert_events_sent; [exact Hev|].
    apply elem_of_app. left.
    eapply merge_events_complete; [| |exact Hrc|].
    + rewrite Forall_forall. exact Hrcs.
    + apply elem_of_elements. exact Ht.
    + unfold preds_of in *. rewrite <- Hlog, <- Hlin. exact Hp.
  - intros insn j p o Hinsn Hphi Hp Ho Ht.
    rewrite Hsplit in Hinsn.
    destruct (phis_of_written _ _ _ _ Hphis2 Hnp Hinsn Hphi) as (insn1 & Hin1 & Hs1).
    destruct (same_instr_lookup_operand _ _ _ _ Hs1 Ho) as (o1 & Ho1 & Hso).
    assert (Hp1 : phi_preds blk insn1 !! j = Some p).
    { unfold phi_preds, phi_is_logical in *. destruct Hs1 as (Hop & _).
      rewrite <- Hop, <- Hlog, <- Hlin. exact Hp. }
    assert (Ht1 : op_isTemp o1 = true).
    { destruct Hso as (Hso & _). congruence. }
    destruct (phis_events_complete blk phis1 insn1 j p o1 Hin1 Hp1 Ho1 Ht1)
      as [inc Hinc].
    rewrite (same_ref_tempId _ _ Hso).
    eapply insert_events_sent; [exact Hev|].
    apply elem_of_app. right. exact Hinc.
  - intros H0. apply Hentry. congruence.
  - intros t Ht. apply Hrcs. apply elem_of_elements. exact Ht.
Qed.

(** A block the step has not put on the worklist has still sent
    everything. *)
Lemma step_of_keeps_flows a b a' k :
  step_of a b a' -> k <> b -> k ∉ worklist a' -> flows a k -> flows a' k.
Proof.
  intros Hstep Hk Hwl Hflows blk live0' Hb Hl'.
  rewrite (step_of_other_block _ _ _ _ Hstep Hk) in Hb.
  rewrite (step_of_temp_rc _ _ _ Hstep).
  destruct (step_of_live_in _ _ _ Hstep)
    as (blk0 & blk1 & live1 & phis1 & phis2 & body & st1 & _ & _ & _ & _ & _ & _ &
        _ & _ & Hev).
  destruct (live_out (lives a) !! k) as [live0|] eqn:Hl.
  2:{ rewrite (insert_events_live_out _ _ _ _ _ _ _ k Hev), Hl in Hl'.
      discriminate Hl'. }
  assert (live0' = live0) as ->.
  { rewrite (insert_events_live_out _ _ _ _ _ _ _ k Hev), Hl in Hl'. cbn in Hl'.
    injection Hl' as <-.
    match goal with
    | |- _ ∪ ?E = _ =>
        destruct (decide (E ⊆ live0)) as [?|Hn]; [set_solver|]
    end.
    exfalso. apply Hwl.
    apply (insert_events_worklist _ _ _ _ _ _ _ k Hev). right. eauto. }
  destruct (Hflows blk live0 Hb Hl) as (H1 & H2 & H3 & H4).
  split; [|split; [|split]]; try assumption.
  - intros t rc p Ht Hrc Hp. destruct (H1 t rc p Ht Hrc Hp) as (Sp & HSp & HtS).
    eapply insert_events_grows; eassumption.
  - intros insn j p o Hi Hphi Hp Ho Ht.
    destruct (H2 insn j p o Hi Hphi Hp Ho Ht) as (Sp & HSp & HtS).
    eapply insert_events_grows; eassumption.
Qed.

Lemma worklist_step_flowing a nd a' nd' :
  flowing a -> worklist a <> ∅ -> worklist_step a nd = Ok (a', nd') -> flowing a'.
Proof.
  intros [Hidx Hfl] _ H. apply worklist_step_Ok in H.
  set (idx := max_list (elements (worklist a))) in *.
  constructor.
  - eapply step_of_indexed; [exact H|exact Hidx].
  - intros k Hk Hwl. rewrite (step_of_blocks_length _ _ _ H) in Hk.
    destruct (decide (k = idx)) as [->|Hne].
    + eapply step_of_flows; [exact H|exact Hidx|exact Hwl].
    + eapply step_of_keeps_flows; [exact H|exact Hne|exact Hwl|].
      apply (Hfl k Hk). intros Hin. apply Hwl.
      apply (step_of_worklist_grows _ _ _ H). cbn. set_solver.
Qed.

Lemma initial_flowing prog :
  indexed (blocks prog) -> flowing (initial_analysis prog).
Proof.
  intros Hidx. constructor; [exact Hidx|].
  cbn. intros b Hb Hwl. exfalso. apply Hwl.
  apply lookup_lt_is_Some in Hb as [blk Hblk].
  apply elem_of_list_to_set, list_elem_of_fmap. exists blk.
  split; [symmetry; apply Hidx; assumption|].
  eapply list_elem_of_lookup_2. eassumption.
Qed.

Lemma analysis_flows fuel prog a nd b :
  indexed (blocks prog) ->
  worklist_loop fuel (initial_analysis prog) zero_demand = Some (Ok (a, nd)) ->
  (b < length (blocks (program a)))%nat -> flows a b.
Proof.
  intros Hidx H Hb.
  destruct (worklist_loop_invariant (fun a _ => flowing a)
              (fun a nd a' nd' => worklist_step_flowing a nd a' nd')
              fuel _ _ _ _ (initial_flowing prog Hidx) H) as [_ Hfl].
  apply Hfl; [assumption|].
  rewrite (worklist_loop_empty _ _ _ _ _ H). set_solver.
Qed.

(** Data-flow equation of the edges: after the analysis, every register
    live at the top of a block is in the live-out set of each predecessor
    of the block, the linear predecessors for a register of a linear
    class and the logical ones otherwise. *)
Theorem live_in_reaches_predecessors fuel prog a nd b blk live0 t rc p :
  indexed (blocks prog) ->
  worklist_loop fuel (initial_analysis prog) zero_demand = Some (Ok (a, nd)) ->
  blocks (program a) !! b = Some blk ->
  live_out (lives a) !! b = Some live0 ->
  t ∈ live_in_of blk live0 ->
  temp_rc prog !! t = Some rc -> p ∈ preds_of blk rc ->
  exists Sp, live_out (lives a) !! p = Some Sp /\ t ∈ Sp.
Proof.
  intros Hidx H Hb Hl Ht Hrc Hp.
  assert (Hlt : (b < length (blocks (program a)))%nat)
    by (eapply lookup_lt_Some; eassumption).
  destruct (analysis_flows _ _ _ _ _ Hidx H Hlt blk live0 Hb Hl) as (H1 & _).
  apply (H1 t rc p Ht); [|exact Hp].
  destruct (worklist_loop_keeps_code _ _ _ _ H) as [_ ->]. exact Hrc.
Qed.

(** Data-flow equation of the phis: after the analysis, the register a
    phi reads for its [j]-th predecessor is in the live-out set of that
    predecessor. *)
Theorem phi_operand_reaches_predecessor fuel prog a nd b blk i insn j p o :
  indexed (blocks prog) ->
  worklist_loop fuel (initial_analysis prog) zero_demand = Some (Ok (a, nd)) ->
  blocks (program a) !! b = Some blk ->
  instructions blk !! i = Some insn -> is_phi insn = true ->
  phi_preds blk insn !! j = Some p -> operands insn !! j = Some o ->
  op_isTemp o = true ->
  exists Sp, live_out (lives a) !! p = Some Sp /\ tempId o ∈ Sp.
Proof.
  intros Hidx H Hb Hi Hphi Hp Ho Ht.
  assert (Hlt : (b < length (blocks (program a)))%nat)
    by (eapply lookup_lt_Some; eassumption).
  pose proof (worklist_loop_live_out_length _ _ _ _ H) as Hlen.
  destruct (worklist_loop_keeps_code _ _ _ _ H) as [Hsame _].
  apply Forall2_length in Hsame.
  assert (Hl : is_Some (live_out (lives a) !! b))
    by (apply lookup_lt_is_Some; lia).
  destruct Hl as [live0 Hl].
  destruct (analysis_flows _ _ _ _ _ Hidx H Hlt blk live0 Hb Hl) as (_ & H2 & _).
  apply (H2 insn j p o); try assumption.
  eapply list_elem_of_lookup_2. exact Hi.
Qed.

End Flow.

Lemma live_in_reaches_predecessors_witness :
  exists a nd Sp,
    worklist_loop 4 (initial_analysis diamond) zero_demand = Some (Ok (a, nd)) /\
    live_out (lives a) !! 0%nat = Some Sp /\ 0%nat ∈ Sp.
Proof.
  assert (E : exists a nd blk,
    worklist_loop 4 (initial_analysis diamond) zero_demand = Some (Ok (a, nd)) /\
    blocks (program a) !! 1%nat = Some blk /\
    live_out (lives a) !! 1%nat = Some {[1%nat]} /\
    bool_decide (0%nat ∈ live_in_of blk {[1%nat]}) = true /\
    bool_decide (0%nat ∈ preds_of blk v1) = true).
  { eexists _, _, _. split; [vm_compute; reflexivity|].
    split; [reflexivity|]. split; [vm_compute; reflexivity|].
    split; vm_compute; reflexivity. }
  destruct E as (a & nd & blk & Hloop & Hb & Hl & Ht & Hp).
  apply bool_decide_eq_true in Ht. apply bool_decide_eq_true in Hp.
  destruct (live_in_reaches_predecessors 4 diamond a nd 1 blk {[1%nat]} 0 v1 0
              diamond_indexed Hloop Hb Hl Ht eq_refl Hp) as (Sp & HSp & HtS).
  exists a, nd, Sp. split; [exact Hloop|]. split; [exact HSp|exact HtS].
Defined.

Lemma phi_operand_reaches_predecessor_witness :
  exists a nd Sp,
    worklist_loop 4 (initial_analysis diamond) zero_demand = Some (Ok (a, nd)) /\
    live_out (lives a) !! 1%nat = Some Sp /\ 1%nat ∈ Sp.
Proof.
  assert (E : exists a nd blk insn o,
    worklist_loop 4 (initial_analysis diamond) zero_demand = Some (Ok (a, nd)) /\
    blocks (program a) !! 3%nat = Some blk /\
    instructions blk !! 0%nat = Some insn /\ is_phi insn = true /\
    phi_preds blk insn !! 0%nat = Some 1%nat /\
    operands insn !! 0%nat = Some o /\ op_isTemp o = true /\ tempId o = 1%nat).
  { eexists _, _, _, _, _. split; [vm_compute; reflexivity|].
    split; [reflexivity|]. split; [reflexivity|]. split; [reflexivity|].
    split; [reflexivity|]. split; [reflexivity|]. split; reflexivity. }
  destruct E as (a & nd & blk & insn & o & Hloop & Hb & Hi & Hphi & Hp & Ho & Ht & Hid).
  destruct (phi_operand_reaches_predecessor 4 diamond a nd 3 blk 0 insn 0 1 o
              diamond_indexed Hloop Hb Hi Hphi Hp Ho Ht) as (Sp & HSp & HtS).
  exists a, nd, Sp. split; [exact Hloop|]. split; [exact HSp|].
  rewrite <- Hid. exact HtS.
Defined.

(* ================================================================== *)
(** ** The transfer function of the scan *)

Section Transfer.

(** The live set the scan of a body leaves is the live-out set taken
    backward through the instructions. *)
Lemma scan_instructions_transfer phi body st :
  no_phi body ->
  s_live (sc_state (scan_instructions phi body st))
  = foldr live_through (s_live st) body.
Proof.
  induction 1 as [|i body Hi Hbody IH]; [reflexivity|].
  assert (Hnp : no_phi (i :: body)) by (constructor; assumption).
  rewrite (scan_instructions_cons_body phi i body st Hnp). cbn [sc_state foldr].
  destruct (process_instruction phi i _) as [[i' snap] st'] eqn:E.
  cbn [snd]. rewrite (process_instruction_live _ _ _ _ _ _ E), IH. reflexivity.
Qed.

(** [live_in_of] in closed form, for a block whose instructions are phis
    followed by a body without phis. *)
Lemma live_in_of_transfer blk live0 phis body :
  instructions blk = phis ++ body ->
  Forall (fun i => is_phi i = true) phis -> no_phi body ->
  live_in_of blk live0 = foldr live_through live0 body ∖ phi_def_ids phis.
Proof.
  intros Hsplit Hphis Hbody. unfold live_in_of. rewrite Hsplit.
  rewrite (scan_instructions_app 0 phis body _ Hbody (all_phis_last _ Hphis)).
  cbn [sc_phis sc_state]. rewrite (scan_instructions_transfer 0 body _ Hbody).
  reflexivity.
Qed.

End Transfer.


(* ================================================================== *)
(** ** Kill flags of the definitions *)

Section DefinitionFlags.

(** A definition of a live register that no earlier definition of the
    same instruction has erased is not marked as kill. *)
Lemma kill_definitions_alive defs : forall st snap defs' st' snap' j d',
  kill_definitions defs st snap = (defs', st', snap') ->
  defs' !! j = Some d' -> def_isTemp d' = true ->
  id (def_temp d') ∈ s_live st ->
  (forall i d, (i < j)%nat -> defs !! i = Some d -> def_isTemp d = true ->
               id (def_temp d) <> id (def_temp d')) ->
  def_isKill d' = false.
Proof.
  induction defs as [|d defs IH]; intros st snap defs' st' snap' j d' H Hj Ht Hl Hfirst;
    cbn in H.
  - injection H as <- <- <-. discriminate.
  - assert (Hrest : forall i d0, (i < pred j)%nat -> defs !! i = Some d0 ->
              def_isTemp d0 = true -> (0 < j)%nat ->
              id (def_temp d0) <> id (def_temp d')).
    { intros i d0 Hi Hd0 Ht0 Hpos. apply (Hfirst (S i) d0); [lia|exact Hd0|exact Ht0]. }
    destruct (negb (def_isTemp d)) eqn:Et.
    { destruct (kill_definitions defs st snap) as [[r s] x] eqn:E.
      injection H as <- <- <-. destruct j as [|j]; cbn in Hj.
      - injection Hj as <-. rewrite Ht in Et. discriminate.
      - eapply IH; [exact E|exact Hj|exact Ht|exact Hl|].
        intros i d0 Hi Hd0 Ht0. apply (Hrest i d0); [cbn; lia|assumption..|lia]. }
    apply negb_false_iff in Et.
    destruct (bool_decide _) eqn:El.
    + destruct (kill_definitions defs _ snap) as [[r s] x] eqn:E.
      injection H as <- <- <-. destruct j as [|j]; cbn in Hj.
      * injection Hj as <-. reflexivity.
      * eapply IH; [exact E|exact Hj|exact Ht| |].
        -- cbn. apply elem_of_difference. split; [exact Hl|].
           intros Heq. apply elem_of_singleton in Heq.
           apply (Hfirst 0%nat d); [lia|reflexivity|exact Et|]. congruence.
        -- intros i d0 Hi Hd0 Ht0. apply (Hrest i d0); [cbn; lia|assumption..|lia].
    + destruct (kill_definitions defs _ _) as [[r s] x] eqn:E.
      injection H as <- <- <-. destruct j as [|j]; cbn in Hj.
      * injection Hj as <-. cbn in Hl. apply bool_decide_eq_false in El.
        contradiction.
      * eapply IH; [exact E|exact Hj|exact Ht|exact Hl|].
        intros i d0 Hi Hd0 Ht0. apply (Hrest i d0); [cbn; lia|assumption..|lia].
Qed.

Lemma process_instruction_definitions phi insn st insn' snap st' :
  process_instruction phi insn st = (insn', snap, st') ->
  exists snap0 st1 snap1,
    kill_definitions (definitions insn) st snap0 = (definitions insn', st1, snap1).
Proof.
  unfold process_instruction. intros H.
  destruct (kill_definitions _ _ _) as [[defs' st1] snap1] eqn:Ek.
  destruct (is_logical_end insn).
  - injection H as <- <- <-. eauto.
  - destruct (gen_operands _ _ _) as [[ops' st2] snap2].
    injection H as <- <- <-. eauto.
Qed.

(** Kill flags of the definitions after the analysis: in an instruction
    that is not a phi, a definition of a register that is not in the
    running live set when the scan reaches the instruction is marked as
    kill; a definition of a register that is in it is not marked, unless
    an earlier definition of the same instruction writes the same
    register. *)
Theorem definition_kill_flags fuel prog a nd b blk live0 idx insn j d :
  indexed (blocks prog) ->
  worklist_loop fuel (initial_analysis prog) zero_demand = Some (Ok (a, nd)) ->
  blocks (program a) !! b = Some blk ->
  live_out (lives a) !! b = Some live0 ->
  instructions blk !! idx = Some insn -> is_phi insn = false ->
  definitions insn !! j = Some d -> def_isTemp d = true ->
  (id (def_temp d) ∉ running_live (instructions blk) live0 idx ->
   def_isKill d = true) /\
  (id (def_temp d) ∈ running_live (instructions blk) live0 idx ->
   (forall i d0, (i < j)%nat -> definitions insn !! i = Some d0 ->
                 def_isTemp d0 = true -> id (def_temp d0) <> id (def_temp d)) ->
   def_isKill d = false).
Proof.
  intros Hidx Hloop Hb Hl Hinsn Hphi Hd Ht.
  assert (Hlt : (b < length (blocks (program a)))%nat)
    by (eapply lookup_lt_Some; eassumption).
  destruct (annotated_body _ _ (analysis_annotated _ _ _ _ _ Hidx Hloop Hlt))
    as (blk' & live0' & phi & st0 & phis & body & Hb' & Hl' & Hst0 & _ &
        Hsplit & Hall & Hnp & Hfix & _).
  assert (blk' = blk) as -> by congruence.
  assert (live0' = live0) as -> by congruence.
  rewrite Hsplit in Hinsn. rewrite Hsplit.
  destruct (lookup_body _ _ _ _ Hall Hinsn Hphi) as (k & -> & Hk).
  destruct (scan_instructions_lookup phi body st0 k insn Hnp Hk) as (B & _ & _).
  cbn zeta in B. rewrite Hfix, Hk in B.
  destruct (process_instruction phi insn _) as [[insn' snap] st'] eqn:E.
  cbn in B. injection B as <-.
  destruct (process_instruction_definitions _ _ _ _ _ _ E) as (snap0 & st1 & snap1 & Ek).
  rewrite <- (running_live_body phi st0 phis body k live0 Hst0).
  split.
  - intros Hdead. eapply kill_definitions_dead; eassumption.
  - intros Hlive Hfirst. eapply kill_definitions_alive; eassumption.
Qed.

End DefinitionFlags.

(** A block with a definition nobody reads next to one that is read. *)
Lemma dead_def_use_indexed : indexed (blocks dead_def_use).
Proof.
  intros [|b] blk H; cbn in H; try discriminate H.
  injection H as <-. reflexivity.
Qed.

Lemma definition_kill_flags_witness :
  exists a nd blk insn0 insn1 d0 d1,
    worklist_loop 1 (initial_analysis dead_def_use) zero_demand = Some (Ok (a, nd)) /\
    blocks (program a) !! 0%nat = Some blk /\
    instructions blk !! 0%nat = Some insn0 /\ definitions insn0 !! 0%nat = Some d0 /\
    instructions blk !! 1%nat = Some insn1 /\ definitions insn1 !! 0%nat = Some d1 /\
    def_isKill d0 = true /\ def_isKill d1 = false.
Proof.
  assert (E : exists a nd blk insn0 insn1 d0 d1,
    worklist_loop 1 (initial_analysis dead_def_use) zero_demand = Some (Ok (a, nd)) /\
    blocks (program a) !! 0%nat = Some blk /\
    live_out (lives a) !! 0%nat = Some ∅ /\
    instructions blk !! 0%nat = Some insn0 /\ definitions insn0 !! 0%nat = Some d0 /\
    instructions blk !! 1%nat = Some insn1 /\ definitions insn1 !! 0%nat = Some d1 /\
    is_phi insn0 = false /\ is_phi insn1 = false /\
    def_isTemp d0 = true /\ def_isTemp d1 = true /\
    bool_decide (id (def_temp d0) ∈ running_live (instructions blk) ∅ 0) = false /\
    bool_decide (id (def_temp d1) ∈ running_live (instructions blk) ∅ 1) = true).
  { eexists _, _, _, _, _, _, _. split; [vm_compute; reflexivity|].
    split; [reflexivity|]. split; [vm_compute; reflexivity|].
    split; [reflexivity|]. split; [reflexivity|].
    split; [reflexivity|]. split; [reflexivity|].
    split; [reflexivity|]. split; [reflexivity|].
    split; [reflexivity|]. split; [reflexivity|].
    split; vm_compute; reflexivity. }
  destruct E as (a & nd & blk & insn0 & insn1 & d0 & d1 & Hloop & Hb & Hl & Hi0 & Hd0 &
                 Hi1 & Hd1 & Hp0 & Hp1 & Ht0 & Ht1 & Hdead & Hlive).
  apply bool_decide_eq_false in Hdead. apply bool_decide_eq_true in Hlive.
  exists a, nd, blk, insn0, insn1, d0, d1.
  split; [exact Hloop|]. split; [exact Hb|].
  split; [exact Hi0|]. split; [exact Hd0|]. split; [exact Hi1|]. split; [exact Hd1|].
  split.
  - apply (definition_kill_flags 1 dead_def_use a nd 0 blk ∅ 0 insn0 0 d0
             dead_def_use_indexed Hloop Hb Hl Hi0 Hp0 Hd0 Ht0). exact Hdead.
  - apply (definition_kill_flags 1 dead_def_use a nd 0 blk ∅ 1 insn1 0 d1
             dead_def_use_indexed Hloop Hb Hl Hi1 Hp1 Hd1 Ht1); [exact Hlive|].
    intros i d Hi. lia.
Defined.

(* ================================================================== *)
(** ** The demand before an instruction, recovered from its snapshot *)

Section DemandBefore.

(** [get_demand_before] undoes one step of the scan: from the snapshot of
    an annotated instruction it gives back the running demand the scan
    carried to the instruction above. *)
Theorem get_demand_before_restores phi insn st insn' snap st' :
  process_instruction phi insn st = (insn', snap, st') ->
  is_logical_end insn = false -> in_range (s_new_demand st) ->
  get_demand_before snap insn' None = s_new_demand st'.
Proof.
  intros H Hle Hst.
  destruct (process_instruction_demand _ _ _ _ _ _ H Hle Hst) as (-> & -> & _ & _).
  unfold get_demand_before.
  generalize (get_temp_registers insn'), (get_live_changes insn'). intros T C.
  revert Hst. generalize (s_new_demand st). clear. intros n Hn.
  demand_norm.
  all: match goal with
       | |- i16 (i16 ?x - ?y - ?z) = _ =>
           replace (i16 x - y - z) with (i16 x + (- y - z)) by lia;
           rewrite i16_add_l; f_equal; lia
       end.
Qed.

End DemandBefore.

(** An instruction with a dead definition and a read that ends a live
    range, and the state in which the scan reaches it. *)
Definition dead_def_last_use : Instruction :=
  instr (other_op 2) [use (tmp 0 v1)] [def (tmp 1 v1)].

Definition nothing_live : scan :=
  {| s_live := ∅; s_new_demand := zero_demand; s_needs_vcc := false |}.

Lemma get_demand_before_restores_witness :
  get_demand_before
    (process_instruction 0 dead_def_last_use nothing_live).1.2
    (process_instruction 0 dead_def_last_use nothing_live).1.1 None
  = s_new_demand (process_instruction 0 dead_def_last_use nothing_live).2.
Proof.
  apply (get_demand_before_restores 0 dead_def_last_use nothing_live).
  - destruct (process_instruction 0 dead_def_last_use nothing_live) as [[i d] s].
    reflexivity.
  - reflexivity.
  - split; cbn; lia.
Defined.

(* ================================================================== *)
(** ** Allocation granules and addressable registers *)

Section Allocation.
Local Open Scope Z_scope.

Lemma round_down_mul g x : 0 < g -> x - x mod g = x / g * g.
Proof. intros Hg. rewrite Z.mod_eq by lia. lia. Qed.

Lemma round_down_mono g x y :
  0 < g -> x <= y -> x - x mod g <= y - y mod g.
Proof.
  intros Hg Hxy. apply round_down_above; [assumption|apply round_down_divide|].
  pose proof (Z.mod_pos_bound x g Hg). lia.
Qed.

(** [round_down a b] is the greatest multiple of [b] that is not above
    [a]. *)
Theorem round_down_greatest a b :
  0 <= a < 4294967296 -> 0 < b ->
  exists r, round_down a b = Ok r /\
    (b | r) /\ r <= a < r + b /\
    forall m, (b | m) -> m <= a -> m <= r.
Proof.
  intros Ha Hb. unfold round_down.
  destruct (Z.eqb_spec b 0); [lia|]. eexists. split; [reflexivity|].
  pose proof (round_down_range b a Hb ltac:(lia)).
  pose proof (Z.mod_pos_bound a b Hb).
  rewrite u32_small by lia.
  split; [apply round_down_divide|]. split; [lia|].
  intros m Hm Hle. apply round_down_above; assumption.
Qed.

(** [get_sgpr_alloc] gives the least multiple of the allocation granule
    that holds the addressable registers and the extra ones, and at least
    one granule. *)
Theorem get_sgpr_alloc_least p s e :
  get_extra_sgprs p = Ok e ->
  0 < sgpr_alloc_granule (dev p) -> 0 <= s ->
  s + e + sgpr_alloc_granule (dev p) <= 65536 ->
  2 * sgpr_alloc_granule (dev p) <= 65536 ->
  exists a, get_sgpr_alloc p s = Ok a /\
    (sgpr_alloc_granule (dev p) | a) /\
    sgpr_alloc_granule (dev p) <= a /\ s + e <= a /\
    forall m, (sgpr_alloc_granule (dev p) | m) ->
              sgpr_alloc_granule (dev p) <= m -> s + e <= m -> a <= m.
Proof.
  intros He Hg Hs Hfit Hfit2.
  pose proof (get_extra_sgprs_bounds _ _ He) as Hebound.
  set (g := sgpr_alloc_granule (dev p)) in *.
  unfold get_sgpr_alloc, ALIGN_NPOT, udiv. rewrite He. cbn. fold g.
  destruct (Z.eqb_spec g 0); [lia|]. cbn.
  eexists. split; [reflexivity|].
  rewrite (u16_small (s + e)) by lia.
  set (y := Z.max (s + e) g).
  destruct (round_up_spec g y Hg ltac:(lia)) as [Hr Hdiv].
  rewrite u16_small by lia.
  split; [exact Hdiv|]. split; [lia|]. split; [lia|].
  intros m Hm Hgm Hsm. apply round_up_least; try assumption; lia.
Qed.

(** [get_vgpr_alloc] gives the least multiple of the power-of-two
    allocation granule that holds the addressable registers, and at least
    one granule. *)
Theorem get_vgpr_alloc_least p v k :
  vgpr_alloc_granule (dev p) = 2 ^ k -> 0 <= k ->
  0 <= v <= vgpr_limit (dev p) ->
  v + 2 ^ k <= 65536 -> 2 * 2 ^ k <= 65536 ->
  exists a, get_vgpr_alloc p v = Ok a /\
    (2 ^ k | a) /\ 2 ^ k <= a /\ v <= a /\
    forall m, (2 ^ k | m) -> 2 ^ k <= m -> v <= m -> a <= m.
Proof.
  intros Hg Hk Hv Hfit Hfit2.
  pose proof (Z.pow_pos_nonneg 2 k ltac:(lia) Hk) as Hpos.
  unfold get_vgpr_alloc, align. rewrite Hg.
  destruct (Z.leb_spec v (vgpr_limit (dev p))); [|lia]. cbn.
  eexists. split; [reflexivity|].
  set (y := Z.max v (2 ^ k)).
  rewrite land_lnot_pow2 by assumption.
  rewrite (u32_small (y + 2 ^ k - 1)) by lia.
  rewrite round_down_mul by assumption.
  destruct (round_up_spec (2 ^ k) y Hpos ltac:(lia)) as [Hr Hdiv].
  rewrite u16_small by lia.
  split; [exact Hdiv|]. split; [lia|]. split; [lia|].
  intros m Hm Hgm Hvm. apply round_up_least; try assumption; lia.
Qed.

(** More waves leave fewer addressable scalar registers to each. *)
Theorem get_addr_sgpr_from_waves_antitone p w w' r r' :
  0 <= physical_sgprs (dev p) < 65536 ->
  6 <= sgpr_alloc_granule (dev p) <= 128 ->
  0 < w <= w' -> sgpr_alloc_granule (dev p) * w' <= physical_sgprs (dev p) ->
  get_addr_sgpr_from_waves p w = Ok r ->
  get_addr_sgpr_from_waves p w' = Ok r' ->
  r' <= r.
Proof.
  intros HP Hg Hw Hfile H H'.
  set (g := sgpr_alloc_granule (dev p)) in *.
  destruct (get_addr_sgpr_from_waves_Ok _ _ _ HP ltac:(lia) H)
    as (e & x & He & _ & Hx & Hr).
  destruct (get_addr_sgpr_from_waves_Ok _ _ _ HP ltac:(lia) H')
    as (e' & x' & He' & _ & Hx' & Hr').
  assert (e' = e) as -> by congruence.
  pose proof (get_extra_sgprs_bounds _ _ He) as Hebound.
  specialize (Hr ltac:(lia)). specialize (Hr' ltac:(lia)). fold g in Hr, Hr'.
  assert (Hq : physical_sgprs (dev p) / w' <= physical_sgprs (dev p) / w)
    by (apply Z.div_le_compat_l; lia).
  assert (Hq' : g <= physical_sgprs (dev p) / w')
    by (apply Z.div_le_lower_bound; lia).
  assert (Hxx : x' <= x) by lia.
  assert (Hgx : g <= x') by lia.
  pose proof (round_down_mono g x' x ltac:(lia) Hxx) as Hmono.
  pose proof (round_down_above g g x' ltac:(lia) (Z.divide_refl g) Hgx) as Hlow.
  pose proof (round_down_range g x ltac:(lia) ltac:(lia)) as Hrange.
  rewrite u16_small in Hr by lia. rewrite u16_small in Hr' by lia.
  lia.
Qed.

(** More waves leave fewer addressable vector registers to each. *)
Theorem get_addr_vgpr_from_waves_antitone p k w w' r r' :
  vgpr_alloc_granule (dev p) = 2 ^ k -> 0 <= k ->
  0 <= physical_vgprs (dev p) < 65536 ->
  0 < w <= w' ->
  0 <= num_shared_vgprs (config p) / 2
    <= physical_vgprs (dev p) / w' - (physical_vgprs (dev p) / w') mod 2 ^ k ->
  get_addr_vgpr_from_waves p w = Ok r ->
  get_addr_vgpr_from_waves p w' = Ok r' ->
  r' <= r.
Proof.
  intros Hg Hk HP Hw Hshared H H'.
  pose proof (Z.pow_pos_nonneg 2 k ltac:(lia) Hk) as Hpos.
  destruct (get_addr_vgpr_from_waves_Ok _ _ _ _ HP Hk Hg H) as [_ Hr].
  destruct (get_addr_vgpr_from_waves_Ok _ _ _ _ HP Hk Hg H') as [_ Hr'].
  specialize (Hr ltac:(lia)). specialize (Hr' ltac:(lia)). cbn zeta in Hr, Hr'.
  set (q := physical_vgprs (dev p) / w) in *.
  set (q' := physical_vgprs (dev p) / w') in *.
  assert (Hq : q' <= q) by (apply Z.div_le_compat_l; lia).
  assert (Hq0 : 0 <= q') by (apply Z.div_pos; lia).
  assert (Hqp : q <= physical_vgprs (dev p))
    by (apply Z.div_le_upper_bound; nia).
  pose proof (round_down_mono (2 ^ k) q' q Hpos Hq) as Hmono.
  pose proof (round_down_range (2 ^ k) q Hpos ltac:(lia)) as Hrange.
  rewrite u16_small in Hr by lia. rewrite u16_small in Hr' by lia.
  lia.
Qed.

(** [calc_waves_per_workgroup] is the workgroup size divided by the wave
    size, rounded up; an unknown workgroup size counts as one wave. *)
Theorem calc_waves_per_workgroup_ceiling p k :
  wave_size p = 2 ^ k -> 0 <= k ->
  0 <= (if workgroup_size p =? UINT_MAX then wave_size p else workgroup_size p) ->
  (if workgroup_size p =? UINT_MAX then wave_size p else workgroup_size p)
    + wave_size p <= 4294967296 ->
  exists w, calc_waves_per_workgroup p = Ok w /\
    (if workgroup_size p =? UINT_MAX then wave_size p else workgroup_size p)
      <= w * wave_size p
      < (if workgroup_size p =? UINT_MAX then wave_size p else workgroup_size p)
        + wave_size p.
Proof.
  intros Hws Hk.
  pose proof (Z.pow_pos_nonneg 2 k ltac:(lia) Hk) as Hpos.
  unfold calc_waves_per_workgroup, align, udiv.
  set (size := if workgroup_size p =? UINT_MAX then wave_size p
               else workgroup_size p).
  rewrite Hws. intros Hsize Hfit.
  destruct (Z.eqb_spec (2 ^ k) 0); [lia|].
  eexists. split; [reflexivity|].
  rewrite land_lnot_pow2 by assumption.
  rewrite (u32_small (size + 2 ^ k - 1)) by lia.
  rewrite round_down_mul by assumption.
  rewrite Z.div_mul by lia.
  destruct (round_up_spec (2 ^ k) size Hpos Hsize) as [Hr _]. lia.
Qed.

(** [calc_min_waves] sets [min_waves] to the least number of waves per
    SIMD with which one workgroup fits a compute unit, and nothing else. *)
Theorem calc_min_waves_least p w :
  calc_waves_per_workgroup p = Ok w -> 0 <= w < 65536 ->
  0 < simd_per_cu (dev p) * (if wgp_mode p then 2 else 1) < 2147483648 ->
  exists m, calc_min_waves p = Ok (with_min_waves p m) /\
    w <= m * (simd_per_cu (dev p) * (if wgp_mode p then 2 else 1))
      < w + simd_per_cu (dev p) * (if wgp_mode p then 2 else 1).
Proof.
  intros Hw Hwr Hs. unfold calc_min_waves, DIV_ROUND_UP, simd_per_cu_wgp, udiv.
  rewrite Hw. cbn.
  set (s := simd_per_cu (dev p) * (if wgp_mode p then 2 else 1)) in *.
  rewrite (u32_small s) by lia.
  destruct (Z.eqb_spec s 0); [lia|]. cbn.
  eexists. split; [reflexivity|].
  rewrite (u32_small (w + s - 1)) by lia.
  destruct (round_up_spec s w ltac:(lia) ltac:(lia)) as [Hr _].
  assert (Hq : 0 <= (w + s - 1) / s) by (apply Z.div_pos; lia).
  assert (Hqw : (w + s - 1) / s <= w) by nia.
  rewrite u16_small by lia. lia.
Qed.

End Allocation.

Lemma round_down_greatest_witness :
  exists r, round_down 100 16 = Ok r /\
    (16 | r)%Z /\ (r <= 100 < r + 16)%Z /\
    forall m, (16 | m)%Z -> (m <= 100)%Z -> (m <= r)%Z.
Proof. apply (round_down_greatest 100 16); lia. Defined.

Lemma get_sgpr_alloc_least_witness :
  exists a, get_sgpr_alloc (gfx8_program true) 40 = Ok a /\
    (16 | a)%Z /\ (16 <= a)%Z /\ (40 + 2 <= a)%Z /\
    forall m, (16 | m)%Z -> (16 <= m)%Z -> (40 + 2 <= m)%Z -> (a <= m)%Z.
Proof.
  apply (get_sgpr_alloc_least (gfx8_program true) 40 2); cbn; try lia;
    try reflexivity.
Defined.

Lemma get_vgpr_alloc_least_witness :
  exists a, get_vgpr_alloc (gfx8_program false) 30 = Ok a /\
    (2 ^ 2 | a)%Z /\ (2 ^ 2 <= a)%Z /\ (30 <= a)%Z /\
    forall m, (2 ^ 2 | m)%Z -> (2 ^ 2 <= m)%Z -> (30 <= m)%Z -> (a <= m)%Z.
Proof.
  apply (get_vgpr_alloc_least (gfx8_program false) 30 2); cbn; try lia;
    try reflexivity.
Defined.

Lemma get_addr_sgpr_from_waves_antitone_witness :
  exists r r',
    get_addr_sgpr_from_waves (gfx8_program false) 8 = Ok r /\
    get_addr_sgpr_from_waves (gfx8_program false) 10 = Ok r' /\ (r' <= r)%Z.
Proof.
  exists 96%Z, 80%Z. split; [reflexivity|]. split; [reflexivity|].
  apply (get_addr_sgpr_from_waves_antitone (gfx8_program false) 8 10 96 80);
    cbn; try lia; try reflexivity.
Defined.

Lemma get_addr_vgpr_from_waves_antitone_witness :
  exists r r',
    get_addr_vgpr_from_waves (gfx8_program false) 4 = Ok r /\
    get_addr_vgpr_from_waves (gfx8_program false) 10 = Ok r' /\ (r' <= r)%Z.
Proof.
  exists 64%Z, 24%Z. split; [reflexivity|]. split; [reflexivity|].
  apply (get_addr_vgpr_from_waves_antitone (gfx8_program false) 2 4 10 64 24);
    cbn; try lia; try reflexivity.
  vm_compute. split; discriminate.
Defined.

Lemma calc_waves_per_workgroup_ceiling_witness :
  exists w, calc_waves_per_workgroup (gfx8_program false) = Ok w /\
            (64 <= w * 64 < 64 + 64)%Z.
Proof.
  apply (calc_waves_per_workgroup_ceiling (gfx8_program false) 6); cbn; try lia;
    try reflexivity.
Defined.

Lemma calc_min_waves_least_witness :
  exists m, calc_min_waves (gfx8_program false)
            = Ok (with_min_waves (gfx8_program false) m) /\
            (1 <= m * (4 * 1) < 1 + 4 * 1)%Z.
Proof.
  apply (calc_min_waves_least (gfx8_program false) 1); cbn; try lia;
    try reflexivity.
Defined.

(* ================================================================== *)
(** ** The driver *)

Section Driver.

Lemma worklist_loop_more_fuel : forall fuel a nd r,
  worklist_loop fuel a nd = Some r ->
  forall fuel', (fuel <= fuel')%nat -> worklist_loop fuel' a nd = Some r.
Proof.
  induction fuel as [|fuel IH]; intros a nd r H fuel' Hle; cbn in H.
  - destruct (decide (worklist a = ∅)) as [He|Hne]; [|discriminate].
    destruct fuel'; cbn; destruct (decide (worklist a = ∅)); congruence.
  - destruct fuel' as [|fuel']; [lia|]. cbn.
    destruct (decide (worklist a = ∅)); [assumption|].
    destruct (worklist_step a nd) as [[a1 nd1]|e]; [|assumption].
    apply IH; [assumption|lia].
Qed.

(** [live_var_analysis] returns, normally or through a failed assertion:
    the loop needs at most (number of blocks) * (number of registers of
    the program) + (number of blocks) per-block steps, and the result is
    the same with any larger number of steps allowed. *)
Theorem live_var_analysis_returns prog :
  exists r, forall fuel,
    (length (blocks prog) * size (program_temps prog) + length (blocks prog)
     <= fuel)%nat ->
    live_var_analysis fuel prog = Some r.
Proof.
  set (n := length (blocks prog)). set (regs := size (program_temps prog)).
  destruct (worklist_loop_fuel (program_temps prog) (n * regs + n)
              (initial_analysis prog) zero_demand) as [r Hr].
  - apply initial_within.
  - unfold potential, initial_analysis. cbn [worklist lives live_out].
    rewrite room_replicate.
    pose proof (size_list_to_set_le (index <$> blocks prog)) as Hs.
    rewrite length_fmap in Hs. subst n regs. lia.
  - exists (match r with
            | Err e => Err e
            | Ok (a, new_demand) =>
                if before_ra (progress (program a)) then
                  p ← update_vgpr_sgpr_demand (program a) new_demand;
                  Ok (p, lives a)
                else Ok (program a, lives a)
            end).
    intros fuel Hfuel. unfold live_var_analysis.
    rewrite (worklist_loop_more_fuel _ _ _ _ Hr fuel Hfuel).
    destruct r as [[a nd]|e]; [|reflexivity].
    destruct (before_ra (progress (program a))); reflexivity.
Qed.

Lemma update_vgpr_sgpr_demand_frame p d p' :
  update_vgpr_sgpr_demand p d = Ok p' ->
  p' = with_waves p (max_waves p') (num_waves p') (max_reg_demand p').
Proof.
  unfold update_vgpr_sgpr_demand. intros H.
  repeat (apply bind_Ok in H as (? & _ & H)).
  destruct (exceeds_limits _ _ _).
  - injection H as <-. reflexivity.
  - repeat (apply bind_Ok in H as (? & _ & H)).
    injection H as <-. reflexivity.
Qed.

Lemma live_var_analysis_Ok fuel prog p' lv :
  live_var_analysis fuel prog = Some (Ok (p', lv)) ->
  exists a nd,
    worklist_loop fuel (initial_analysis prog) zero_demand = Some (Ok (a, nd)) /\
    lv = lives a /\
    p' = with_waves (program a) (max_waves p') (num_waves p') (max_reg_demand p').
Proof.
  unfold live_var_analysis. intros H.
  destruct (worklist_loop fuel (initial_analysis prog) zero_demand)
    as [[[a nd]|e]|]; try discriminate H.
  exists a, nd. split; [reflexivity|].
  destruct (before_ra (progress (program a))).
  - injection H as H. apply bind_Ok in H as (p1 & Hup & H).
    injection H as <- <-. split; [reflexivity|].
    apply update_vgpr_sgpr_demand_frame in Hup. exact Hup.
  - injection H as <- <-. split; [reflexivity|].
    destruct (program a); reflexivity.
Qed.

(** [live_var_analysis] changes flags, demands, [needs_vcc] and the wave
    counts only: the blocks of the result are the blocks of the program
    with the same indices, predecessors, opcodes, operands and
    definitions up to kill flags; every other field of the program is as
    before; the result has one live-out set per block. *)
Theorem live_var_analysis_keeps_code fuel prog p' lv :
  live_var_analysis fuel prog = Some (Ok (p', lv)) ->
  Forall2 same_block (blocks prog) (blocks p') /\
  p' = with_waves (with_needs_vcc (with_blocks prog (blocks p')) (needs_vcc p'))
         (max_waves p') (num_waves p') (max_reg_demand p') /\
  length (live_out lv) = length (blocks prog).
Proof.
  intros H. destruct (live_var_analysis_Ok _ _ _ _ H) as (a & nd & Hloop & -> & Hp).
  destruct (worklist_loop_keeps_code _ _ _ _ Hloop) as [Hblocks Hprog].
  pose proof (worklist_loop_live_out_length _ _ _ _ Hloop) as Hlen.
  assert (Hb : blocks p' = blocks (program a)) by (rewrite Hp; reflexivity).
  assert (Hv : needs_vcc p' = needs_vcc (program a)) by (rewrite Hp; reflexivity).
  split; [rewrite Hb; exact Hblocks|]. split; [|exact Hlen].
  rewrite Hp at 1. rewrite Hprog at 1. rewrite Hb, Hv.
  destruct prog; reflexivity.
Qed.

End Driver.

Lemma live_var_analysis_keeps_code_witness :
  exists p' lv,
    live_var_analysis 4 diamond = Some (Ok (p', lv)) /\
    Forall2 same_block (blocks diamond) (blocks p') /\
    length (live_out lv) = 4%nat.
Proof.
  assert (E : exists p' lv, live_var_analysis 4 diamond = Some (Ok (p', lv))).
  { eexists _, _. vm_compute. reflexivity. }
  destruct E as (p' & lv & E). exists p', lv. split; [exact E|].
  destruct (live_var_analysis_keeps_code 4 diamond p' lv E) as (H1 & _ & H3).
  split; [exact H1|exact H3].
Defined.

(* ================================================================== *)
(** ** When [needs_vcc] is set *)

(** A register definition that is fixed or hinted to vcc, a register
    operand that is fixed to vcc. *)
Definition vcc_defs (defs : list Definition_) : bool :=
  existsb (fun d => def_isTemp d && def_on_vcc d) defs.

Definition vcc_ops (ops : list Operand) : bool :=
  existsb (fun o => op_isTemp o && op_on_vcc o) ops.

(** The references to vcc the step looks at: the definitions of every
    instruction; the operands of the instructions that are neither a phi
    nor the marker of the end of the logical part; of a phi, the operands
    that belong to a predecessor. *)
Definition insn_vcc (blk : Block) (insn : Instruction) : bool :=
  vcc_defs (definitions insn) ||
  (if is_phi insn
   then vcc_ops (take (length (phi_preds blk insn)) (operands insn))
   else negb (is_logical_end insn) && vcc_ops (operands insn)).

Definition block_vcc (blk : Block) : bool :=
  existsb (insn_vcc blk) (instructions blk).

Section NeedsVcc.

Lemma existsb_Forall2 {A B : Type} (R : A -> B -> Prop) (f : A -> bool)
    (g : B -> bool) l l' :
  Forall2 R l l' -> (forall x y, R x y -> f x = g y) ->
  existsb f l = existsb g l'.
Proof.
  intros H Hfg. induction H as [|x y l l' Hxy _ IH]; [reflexivity|].
  cbn. rewrite IH, (Hfg x y Hxy). reflexivity.
Qed.

Lemma vcc_ops_same_ref ops ops' :
  Forall2 same_ref ops ops' -> vcc_ops ops' = vcc_ops ops.
Proof.
  intros H. symmetry. unfold vcc_ops. eapply existsb_Forall2; [exact H|].
  intros o o' (H1 & _ & H3 & H4 & _). unfold op_on_vcc.
  rewrite H1, H3, H4. reflexivity.
Qed.

Lemma vcc_defs_same_def defs defs' :
  Forall2 same_def defs defs' -> vcc_defs defs' = vcc_defs defs.
Proof.
  intros H. symmetry. unfold vcc_defs. eapply existsb_Forall2; [exact H|].
  intros d d' [k ->]. reflexivity.
Qed.

Lemma insn_vcc_same blk blk' insn insn' :
  logical_preds blk' = logical_preds blk -> linear_preds blk' = linear_preds blk ->
  same_instr insn insn' -> insn_vcc blk' insn' = insn_vcc blk insn.
Proof.
  intros Hlog Hlin Hs. unfold insn_vcc.
  rewrite (same_instr_is_phi _ _ Hs), (same_instr_is_logical_end _ _ Hs).
  destruct Hs as (Hop & Hops & Hdefs).
  rewrite (vcc_defs_same_def _ _ Hdefs), (vcc_ops_same_ref _ _ Hops).
  unfold phi_preds, phi_is_logical. rewrite Hop, Hlog, Hlin.
  set (n := length (if match opcode insn with p_phi => true | _ => false end
                    then logical_preds blk else linear_preds blk)).
  rewrite (vcc_ops_same_ref (take n (operands insn)) (take n (operands insn')));
    [reflexivity|].
  apply Forall2_take. exact Hops.
Qed.

Lemma block_vcc_same blk blk' : same_block blk blk' -> block_vcc blk' = block_vcc blk.
Proof.
  intros (_ & Hlog & Hlin & Hinsns). symmetry. unfold block_vcc.
  eapply existsb_Forall2; [exact Hinsns|].
  intros i i' Hi. symmetry. apply insn_vcc_same; assumption.
Qed.

Lemma kill_definitions_needs_vcc defs : forall st snap defs' st' snap',
  kill_definitions defs st snap = (defs', st', snap') ->
  s_needs_vcc st' = s_needs_vcc st || vcc_defs defs.
Proof.
  induction defs as [|d defs IH]; intros st snap defs' st' snap' H; cbn in H.
  - injection H as <- <- <-. cbn. rewrite orb_false_r. reflexivity.
  - cbn [vcc_defs existsb]. fold (vcc_defs defs).
    destruct (def_isTemp d); cbn in H.
    2:{ destruct (kill_definitions defs st snap) as [[r s] x] eqn:E.
        injection H as <- <- <-. apply IH in E. rewrite E. reflexivity. }
    destruct (bool_decide _).
    + destruct (kill_definitions defs _ snap) as [[r s] x] eqn:E.
      injection H as <- <- <-. apply IH in E. rewrite E. cbn.
      rewrite orb_assoc. reflexivity.
    + destruct (kill_definitions defs _ _) as [[r s] x] eqn:E.
      injection H as <- <- <-. apply IH in E. rewrite E. cbn.
      rewrite orb_assoc. reflexivity.
Qed.

Lemma gen_operands_from_needs_vcc n : forall ops st snap ops' st' snap',
  gen_operands_from n ops st snap = (ops', st', snap') ->
  length ops = n ->
  s_needs_vcc st' = s_needs_vcc st || vcc_ops ops.
Proof.
  induction n as [|n IH]; intros ops st snap ops' st' snap' H Hn.
  - destruct ops; [|discriminate]. cbn in H. injection H as <- <- <-.
    cbn. rewrite orb_false_r. reflexivity.
  - destruct ops as [|o rest]; [discriminate|]. cbn in Hn. injection Hn as Hn.
    cbn in H. cbn [vcc_ops existsb]. fold (vcc_ops rest).
    destruct (op_isTemp o); cbn in H.
    2:{ destruct (gen_operands_from n rest st snap) as [[r s] x] eqn:E.
        injection H as <- <- <-. apply IH in E; [|assumption].
        rewrite E. reflexivity. }
    destruct (bool_decide _).
    + destruct (gen_operands_from n rest _ snap) as [[r s] x] eqn:E.
      injection H as <- <- <-. apply IH in E; [|assumption].
      rewrite E. cbn. rewrite orb_assoc. reflexivity.
    + destruct (gen_operands_from n _ _ _) as [[r s] x] eqn:E.
      injection H as <- <- <-. apply IH in E.
      * rewrite E. cbn. rewrite orb_assoc.
        rewrite (vcc_ops_same_ref _ _ (same_ref_mark (tempId o) rest)).
        reflexivity.
      * rewrite <- Hn. symmetry. eapply Forall2_length. apply same_ref_mark.
Qed.

Lemma process_instruction_needs_vcc phi insn st insn' snap st' :
  process_instruction phi insn st = (insn', snap, st') ->
  s_needs_vcc st' =
  s_needs_vcc st ||
    (vcc_defs (definitions insn) ||
     negb (is_logical_end insn) && vcc_ops (operands insn)).
Proof.
  unfold process_instruction. intros H.
  destruct (kill_definitions _ _ _) as [[defs' st1] snap1] eqn:Ek.
  apply kill_definitions_needs_vcc in Ek. cbn in Ek.
  destruct (is_logical_end insn).
  - injection H as <- <- <-. cbn. rewrite Ek, orb_false_r. reflexivity.
  - destruct (gen_operands _ _ _) as [[ops' st2] snap2] eqn:Eg.
    injection H as <- <- <-.
    apply gen_operands_from_needs_vcc in Eg; [|reflexivity].
    rewrite Eg, Ek, (vcc_ops_same_ref _ _ (same_ref_clear _)). cbn.
    rewrite orb_assoc. reflexivity.
Qed.

Lemma scan_instructions_needs_vcc blk phi body st :
  no_phi body ->
  s_needs_vcc (sc_state (scan_instructions phi body st))
  = s_needs_vcc st || existsb (insn_vcc blk) body.
Proof.
  induction 1 as [|i body Hi Hbody IH].
  - cbn. rewrite orb_false_r. reflexivity.
  - assert (Hnp : no_phi (i :: body)) by (constructor; assumption).
    rewrite (scan_instructions_cons_body phi i body st Hnp). cbn [sc_state existsb].
    destruct (process_instruction phi i _) as [[i' snap] st'] eqn:E. cbn [snd].
    rewrite (process_instruction_needs_vcc _ _ _ _ _ _ E), IH.
    unfold insn_vcc at 2. rewrite Hi.
    destruct (s_needs_vcc st), (existsb (insn_vcc blk) body),
      (vcc_defs (definitions i)), (negb (is_logical_end i) && vcc_ops (operands i));
      reflexivity.
Qed.

Lemma phi_definitions_needs_vcc phis : forall st phis' st',
  phi_definitions phis st = Ok (phis', st') ->
  s_needs_vcc st' =
  s_needs_vcc st || existsb (fun i => vcc_defs (definitions i)) phis.
Proof.
  induction phis as [|i phis IH]; intros st phis' st' H; cbn in H.
  - injection H as <- <-. cbn. rewrite orb_false_r. reflexivity.
  - apply bind_Ok in H as ([rest1 st1] & Hrec & H).
    apply bind_Ok in H as ([i1 st2] & Hi & H). injection H as <- <-.
    apply IH in Hrec. cbn [existsb].
    unfold phi_definition in Hi.
    apply bind_Ok in Hi as (u & _ & Hi).
    destruct (definitions i) as [|d [|? ?]] eqn:Ed; try discriminate Hi.
    cbn [vcc_defs existsb]. rewrite orb_false_r.
    destruct (def_isTemp d); cbn in Hi.
    + injection Hi as <- <-. cbn. rewrite Hrec.
      destruct (s_needs_vcc st), (def_on_vcc d),
        (existsb (fun i => vcc_defs (definitions i)) phis); reflexivity.
    + apply bind_Ok in Hi as (u' & _ & Hi). injection Hi as <- <-.
      rewrite Hrec. cbn.
      destruct (s_needs_vcc st),
        (existsb (fun i => vcc_defs (definitions i)) phis); reflexivity.
Qed.

Lemma phi_operands_needs_vcc logical live_in preds : forall ops s ops' s',
  phi_operands logical live_in preds ops s = Ok (ops', s') ->
  st_needs_vcc s' = st_needs_vcc s || vcc_ops (take (length preds) ops).
Proof.
  induction preds as [|p preds IH]; intros ops s ops' s' H; cbn in H.
  - injection H as <- <-. cbn. rewrite take_0. cbn.
    rewrite orb_false_r. reflexivity.
  - destruct ops as [|o ops]; [discriminate|].
    cbn [length take vcc_ops existsb]. fold (vcc_ops (take (length preds) ops)).
    destruct (op_isTemp o); cbn in H.
    + apply bind_Ok in H as ([lo1 ins] & _ & H).
      apply bind_Ok in H as (pso1 & _ & H).
      apply bind_Ok in H as ([ops1 s1] & Hrec & H). injection H as <- <-.
      apply IH in Hrec. rewrite Hrec. cbn. rewrite orb_assoc. reflexivity.
    + apply bind_Ok in H as ([ops1 s1] & Hrec & H). injection H as <- <-.
      apply IH in Hrec. rewrite Hrec. reflexivity.
Qed.

Lemma phis_operands_needs_vcc block live_in phis : forall s phis' s',
  phis_operands block live_in phis s = Ok (phis', s') ->
  st_needs_vcc s' =
  st_needs_vcc s ||
    existsb (fun i => vcc_ops (take (length (phi_preds block i)) (operands i))) phis.
Proof.
  induction phis as [|i phis IH]; intros s phis' s' H; cbn in H.
  - injection H as <- <-. cbn. rewrite orb_false_r. reflexivity.
  - apply bind_Ok in H as ([rest1 s1] & Hrec & H).
    apply bind_Ok in H as (u & _ & H).
    apply bind_Ok in H as ([ops1 s2] & Hops & H). injection H as <- <-.
    apply IH in Hrec. apply phi_operands_needs_vcc in Hops.
    rewrite Hops, Hrec. cbn [existsb]. unfold phi_preds, phi_is_logical.
    destruct (st_needs_vcc s),
      (existsb (fun i0 => vcc_ops (take (length
         (if match opcode i0 with p_phi => true | _ => false end
          then logical_preds block else linear_preds block)) (operands i0))) phis),
      (vcc_ops (take (length
         (if match opcode i with p_phi => true | _ => false end
          then logical_preds block else linear_preds block)) (operands i)));
      reflexivity.
Qed.

Lemma existsb_phis blk phis :
  Forall (fun i => is_phi i = true) phis ->
  existsb (insn_vcc blk) phis
  = existsb (fun i => vcc_defs (definitions i)) phis ||
    existsb (fun i => vcc_ops (take (length (phi_preds blk i)) (operands i))) phis.
Proof.
  induction 1 as [|i phis Hi _ IH]; [reflexivity|].
  cbn [existsb]. rewrite IH. unfold insn_vcc at 1. rewrite Hi.
  destruct (vcc_defs (definitions i)),
    (vcc_ops (take (length (phi_preds blk i)) (operands i))),
    (existsb (fun i => vcc_defs (definitions i)) phis),
    (existsb (fun i => vcc_ops (take (length (phi_preds blk i)) (operands i))) phis);
    reflexivity.
Qed.

(** A step sets [needs_vcc] exactly when the block refers to vcc. *)
Lemma process_block_needs_vcc a b a' :
  process_live_temps_per_block a b = Ok a' ->
  exists blk, blocks (program a) !! b = Some blk /\
    needs_vcc (program a') = needs_vcc (program a) || block_vcc blk.
Proof.
  unfold process_live_temps_per_block. intros H.
  apply bind_Ok in H as (blk & Hblk & H). apply of_option_Ok in Hblk.
  apply bind_Ok in H as (rd & _ & H).
  apply bind_Ok in H as (live0 & _ & H).
  apply bind_Ok in H as (nd0 & _ & H).
  apply bind_Ok in H as (phi & _ & H).
  set (st0 := {| s_live := live0; s_new_demand := demand_sub_sgpr nd0 phi;
                 s_needs_vcc := needs_vcc (program a) |}) in *.
  set (sc := scan_instructions phi (instructions blk) st0) in *.
  apply bind_Ok in H as ([phis1 st1] & Hdefs & H).
  apply bind_Ok in H as ([lo1 wl1] & _ & H).
  apply bind_Ok in H as ([phis2 s2] & Hops & H).
  apply bind_Ok in H as (u & _ & H).
  injection H as <-. exists blk. split; [assumption|]. cbn.
  destruct (scan_instructions_split phi (instructions blk) st0)
    as (body & Hsplit & Hbody & Hscan & _). fold sc in Hsplit, Hscan.
  pose proof (scan_instructions_needs_vcc blk phi body st0 Hbody) as Hb.
  rewrite Hscan in Hb. cbn in Hb.
  pose proof (phi_definitions_Ok _ _ _ _ Hdefs) as (Hall & Hsame & _).
  apply phi_definitions_needs_vcc in Hdefs.
  apply phis_operands_needs_vcc in Hops. cbn in Hops.
  assert (Hops1 :
    existsb (fun i => vcc_ops (take (length (phi_preds blk i)) (operands i))) phis1
    = existsb (fun i => vcc_ops (take (length (phi_preds blk i)) (operands i)))
        (sc_phis sc)).
  { symmetry. eapply existsb_Forall2; [exact Hsame|].
    intros i i' (Hop & Hoperands & _). unfold phi_preds, phi_is_logical.
    rewrite Hop. symmetry. apply vcc_ops_same_ref. apply Forall2_take.
    exact Hoperands. }
  rewrite Hops, Hops1, Hdefs, Hb.
  unfold block_vcc.
  replace (existsb (insn_vcc blk) (instructions blk))
    with (existsb (insn_vcc blk) (sc_phis sc ++ body))
    by (rewrite <- Hsplit; reflexivity).
  rewrite existsb_app.
  rewrite (existsb_phis blk _ Hall).
  destruct (needs_vcc (program a)), (existsb (insn_vcc blk) body),
    (existsb (fun i => vcc_defs (definitions i)) (sc_phis sc)),
    (existsb (fun i => vcc_ops (take (length (phi_preds blk i)) (operands i)))
       (sc_phis sc)); reflexivity.
Qed.

(** The invariant of the loop: [needs_vcc] is set only if some block
    refers to vcc, and it is set if a block that is not pending does. *)
Record vcc_tracked (prog : Program) (a : analysis) : Prop := {
  vcc_same : forall k blk, blocks prog !! k = Some blk ->
             exists blk', blocks (program a) !! k = Some blk' /\ same_block blk blk';
  vcc_length : length (blocks (program a)) = length (blocks prog);
  vcc_only_if : needs_vcc (program a) = true ->
                exists k blk, blocks prog !! k = Some blk /\ block_vcc blk = true;
  vcc_if : forall k blk, blocks prog !! k = Some blk -> k ∉ worklist a ->
           block_vcc blk = true -> needs_vcc (program a) = true
}.

Lemma worklist_step_needs_vcc a nd a' nd' :
  worklist_step a nd = Ok (a', nd') ->
  exists blk,
    blocks (program a) !! max_list (elements (worklist a)) = Some blk /\
    needs_vcc (program a') = needs_vcc (program a) || block_vcc blk.
Proof.
  unfold worklist_step. intros H.
  apply bind_Ok in H as (a1 & Hstep & H).
  apply bind_Ok in H as (blk & _ & H). injection H as <- _.
  apply process_block_needs_vcc in Hstep. exact Hstep.
Qed.

Lemma worklist_step_vcc_tracked prog a nd a' nd' :
  vcc_tracked prog a -> worklist a <> ∅ -> worklist_step a nd = Ok (a', nd') ->
  vcc_tracked prog a'.
Proof.
  intros [Hsame Hlen Honly Hif] _ H.
  destruct (worklist_step_needs_vcc _ _ _ _ H) as (blk & Hblk & Hvcc).
  apply worklist_step_Ok in H.
  set (idx := max_list (elements (worklist a))) in *.
  assert (Hidx0 : exists blk0, blocks prog !! idx = Some blk0 /\ same_block blk0 blk).
  { assert (Hlt : (idx < length (blocks prog))%nat)
      by (rewrite <- Hlen; eapply lookup_lt_Some; eassumption).
    apply lookup_lt_is_Some in Hlt as [blk0 Hblk0].
    destruct (Hsame idx blk0 Hblk0) as (blk1 & Hblk1 & Hs).
    exists blk0. split; [assumption|]. congruence. }
  destruct Hidx0 as (blk0 & Hblk0 & Hs0).
  rewrite (block_vcc_same _ _ Hs0) in Hvcc.
  constructor.
  - intros k blk1 Hk. destruct (Hsame k blk1 Hk) as (blk2 & Hk2 & Hs2).
    destruct (step_of_same_blocks _ _ _ k blk2 H Hk2) as (blk' & Hk' & Hs').
    exists blk'. split; [assumption|]. eapply same_block_trans; eassumption.
  - rewrite (step_of_blocks_length _ _ _ H). exact Hlen.
  - rewrite Hvcc. intros Hn. apply orb_true_iff in Hn as [Hn|Hn]; [auto|eauto].
  - intros k blk1 Hk Hwl Hb. rewrite Hvcc. apply orb_true_iff.
    destruct (decide (k = idx)) as [->|Hne].
    + right. congruence.
    + left. apply (Hif k blk1 Hk); [|exact Hb]. intros Hin. apply Hwl.
      apply (step_of_worklist_grows _ _ _ H). cbn. set_solver.
Qed.

Lemma initial_vcc_tracked prog :
  indexed (blocks prog) -> vcc_tracked prog (initial_analysis prog).
Proof.
  intros Hidx. constructor; cbn.
  - intros k blk Hk. exists blk. split; [assumption|apply same_block_refl].
  - reflexivity.
  - discriminate.
  - intros k blk Hk Hwl. exfalso. apply Hwl.
    apply elem_of_list_to_set, list_elem_of_fmap. exists blk.
    split; [symmetry; apply Hidx; assumption|].
    eapply list_elem_of_lookup_2. eassumption.
Qed.

(** After the analysis [needs_vcc] is set if and only if some block of
    the program refers to vcc: in a register definition that is fixed or
    hinted to vcc, in a register operand fixed to vcc of an instruction
    that is neither a phi nor the marker of the end of the logical part,
    or in such an operand of a phi that belongs to a predecessor. *)
Theorem needs_vcc_after_analysis fuel prog a nd :
  indexed (blocks prog) ->
  worklist_loop fuel (initial_analysis prog) zero_demand = Some (Ok (a, nd)) ->
  needs_vcc (program a) = existsb block_vcc (blocks prog).
Proof.
  intros Hidx H.
  destruct (worklist_loop_invariant (fun a _ => vcc_tracked prog a)
              (fun a nd a' nd' => worklist_step_vcc_tracked prog a nd a' nd')
              fuel _ _ _ _ (initial_vcc_tracked prog Hidx) H)
    as [_ _ Honly Hif].
  destruct (existsb block_vcc (blocks prog)) eqn:E.
  - apply existsb_exists in E as (blk & Hin & Hb).
    apply list_elem_of_In, list_elem_of_lookup in Hin as [k Hk].
    apply (Hif k blk Hk); [|exact Hb].
    rewrite (worklist_loop_empty _ _ _ _ _ H). set_solver.
  - destruct (needs_vcc (program a)) eqn:En; [|reflexivity].
    destruct (Honly eq_refl) as (k & blk & Hk & Hb).
    assert (existsb block_vcc (blocks prog) = true); [|congruence].
    apply existsb_exists. exists blk. split; [|exact Hb].
    apply list_elem_of_In. eapply list_elem_of_lookup_2. exact Hk.
Qed.

End NeedsVcc.

(** A block whose only instruction writes a register with a hint to vcc. *)
Definition hinted_vcc : Program :=
  sample_program
    [block_of 0 [instr (other_op 1) []
                   [{| def_isTemp := true; def_temp := tmp 0 s2;
                       def_isFixed := false; def_hasHint := true;
                       def_physReg := vcc; def_isKill := false |}];
                 instr p_logical_end [] []] [] []]
    [s2] GFX8 gfx8_dev no_lds false false.

Lemma hinted_vcc_indexed : indexed (blocks hinted_vcc).
Proof.
  intros [|b] blk H; cbn in H; try discriminate H.
  injection H as <-. reflexivity.
Qed.

Lemma needs_vcc_after_analysis_witness :
  exists a nd,
    worklist_loop 1 (initial_analysis hinted_vcc) zero_demand = Some (Ok (a, nd)) /\
    needs_vcc (program a) = true.
Proof.
  assert (E : exists a nd,
    worklist_loop 1 (initial_analysis hinted_vcc) zero_demand = Some (Ok (a, nd))).
  { eexists _, _. vm_compute. reflexivity. }
  destruct E as (a & nd & E). exists a, nd. split; [exact E|].
  rewrite (needs_vcc_after_analysis 1 hinted_vcc a nd hinted_vcc_indexed E).
  reflexivity.
Defined.

(* ================================================================== *)
(** ** Nothing is live out without a reason *)

(** Why register [t] is in the live-out set of block [p]: a block with
    [p] among its predecessors has [t] live at its top, or reads it in
    the operand of a phi that belongs to [p]. *)
Definition justified (a : analysis) (p t : nat) : Prop :=
  exists b blk live_b,
    blocks (program a) !! b = Some blk /\
    live_out (lives a) !! b = Some live_b /\
    ((t ∈ live_in_of blk live_b /\
      exists rc, temp_rc (program a) !! t = Some rc /\ p ∈ preds_of blk rc) \/
     (exists insn j o,
        insn ∈ instructions blk /\ is_phi insn = true /\
        phi_preds blk insn !! j = Some p /\ operands insn !! j = Some o /\
        op_isTemp o = true /\ tempId o = t)).

Record precise (a : analysis) : Prop := {
  precise_indexed : indexed (blocks (program a));
  precise_justified : forall p live_p t,
    live_out (lives a) !! p = Some live_p -> t ∈ live_p -> justified a p t
}.

Section Precision.

Lemma live_through_same insn insn' L :
  same_instr insn insn' -> live_through insn' L = live_through insn L.
Proof.
  intros Hs. unfold live_through.
  rewrite (same_instr_is_logical_end _ _ Hs).
  destruct Hs as (_ & Hops & Hdefs).
  rewrite (use_ids_same_ref _ _ Hops), (def_ids_same_def _ _ Hdefs). reflexivity.
Qed.

(** The phis the scan stops at and the live set it leaves depend on the
    instructions up to flags only, and the live set grows with the
    live-out set. *)
Lemma scan_instructions_same_mono phi phi' insns insns' :
  Forall2 same_instr insns insns' -> forall st st',
  s_live st ⊆ s_live st' ->
  Forall2 same_instr (sc_phis (scan_instructions phi insns st))
                     (sc_phis (scan_instructions phi' insns' st')) /\
  s_live (sc_state (scan_instructions phi insns st))
  ⊆ s_live (sc_state (scan_instructions phi' insns' st')).
Proof.
  induction 1 as [|i i' insns insns' Hi _ IH]; intros st st' Hst.
  - split; [constructor|exact Hst].
  - destruct (IH st st' Hst) as [IH1 IH2]. cbn.
    destruct (sc_phis (scan_instructions phi insns st)) as [|x xs];
      destruct (sc_phis (scan_instructions phi' insns' st')) as [|y ys];
      try (inversion IH1; fail).
    + rewrite (same_instr_is_phi _ _ Hi). destruct (is_phi i).
      * cbn. split; [constructor; [exact Hi|constructor]|exact IH2].
      * destruct (process_instruction phi i _) as [[i1 d1] s1] eqn:E1.
        destruct (process_instruction phi' i' _) as [[i2 d2] s2] eqn:E2.
        cbn. split; [constructor|].
        rewrite (process_instruction_live _ _ _ _ _ _ E1),
          (process_instruction_live _ _ _ _ _ _ E2), (live_through_same _ _ _ Hi).
        apply live_through_mono. exact IH2.
    + cbn. split; [constructor; assumption|exact IH2].
Qed.

Lemma live_in_of_mono blk blk' live0 live0' :
  same_block blk blk' -> live0 ⊆ live0' ->
  live_in_of blk live0 ⊆ live_in_of blk' live0'.
Proof.
  intros (_ & _ & _ & Hinsns) Hsub. unfold live_in_of.
  destruct (scan_instructions_same_mono 0 0 _ _ Hinsns
              {| s_live := live0; s_new_demand := zero_demand; s_needs_vcc := false |}
              {| s_live := live0'; s_new_demand := zero_demand; s_needs_vcc := false |}
              Hsub) as [Hphis Hlive].
  rewrite (phi_def_ids_same _ _ Hphis). set_solver.
Qed.

Lemma elem_of_phi_events_inv logical : forall preds ops p t inc,
  (p, t, inc) ∈ phi_events logical preds ops ->
  exists j o, preds !! j = Some p /\ ops !! j = Some o /\
              op_isTemp o = true /\ tempId o = t.
Proof.
  induction preds as [|p0 preds IH]; intros ops p t inc H; cbn in H.
  - apply elem_of_nil in H. contradiction.
  - destruct ops as [|o0 ops]; [apply elem_of_nil in H; contradiction|].
    apply elem_of_app in H as [H|H].
    + destruct (op_isTemp o0) eqn:Et; [|apply elem_of_nil in H; contradiction].
      apply list_elem_of_singleton in H. injection H as -> -> _.
      exists 0%nat, o0. repeat split; assumption.
    + destruct (IH _ _ _ _ H) as (j & o & Hj & Ho & Ht & Hid).
      exists (S j), o. repeat split; assumption.
Qed.

Lemma elem_of_phis_events_inv block phis p t inc :
  (p, t, inc) ∈ phis_events block phis ->
  exists insn j o,
    insn ∈ phis /\ phi_preds block insn !! j = Some p /\
    operands insn !! j = Some o /\ op_isTemp o = true /\ tempId o = t.
Proof.
  induction phis as [|i phis IH]; cbn.
  - intros H. apply elem_of_nil in H. contradiction.
  - rewrite elem_of_app. intros [H|H].
    + destruct (IH H) as (insn & j & o & Hin & Hrest).
      exists insn, j, o. split; [right; exact Hin|exact Hrest].
    + apply elem_of_phi_events_inv in H as (j & o & Hj & Ho & Ht & Hid).
      exists i, j, o. split; [left|]. repeat split; assumption.
Qed.

Lemma justified_grows a a' p t :
  temp_rc (program a') = temp_rc (program a) ->
  (forall k blk, blocks (program a) !! k = Some blk ->
     exists blk', blocks (program a') !! k = Some blk' /\ same_block blk blk') ->
  (forall k live_k, live_out (lives a) !! k = Some live_k ->
     exists live_k', live_out (lives a') !! k = Some live_k' /\ live_k ⊆ live_k') ->
  justified a p t -> justified a' p t.
Proof.
  intros Hrc Hblocks Hlives (b & blk & live_b & Hb & Hl & Hwhy).
  destruct (Hblocks b blk Hb) as (blk' & Hb' & Hsame).
  destruct (Hlives b live_b Hl) as (live_b' & Hl' & Hsub).
  exists b, blk', live_b'. split; [assumption|]. split; [assumption|].
  pose proof Hsame as (_ & Hlog & Hlin & Hinsns).
  destruct Hwhy as [(Ht & rc & Hrct & Hp)|(insn & j & o & Hin & Hphi & Hp & Ho & Ht & Hid)].
  - left. split; [eapply live_in_of_mono; eassumption|].
    exists rc. rewrite Hrc. split; [assumption|].
    unfold preds_of in *. rewrite Hlog, Hlin. exact Hp.
  - right. apply list_elem_of_lookup in Hin as [i Hin].
    destruct (Forall2_lookup_l _ _ _ _ _ Hinsns Hin) as (insn' & Hin' & Hs).
    pose proof Hs as (Hop & Hops & _).
    destruct (Forall2_lookup_l _ _ _ _ _ Hops Ho) as (o' & Ho' & Hso).
    exists insn', j, o'.
    split; [eapply list_elem_of_lookup_2; eassumption|].
    split; [rewrite (same_instr_is_phi _ _ Hs); assumption|].
    split; [unfold phi_preds, phi_is_logical in *; rewrite Hop, Hlog, Hlin; assumption|].
    split; [assumption|].
    split; [destruct Hso as (Hso & _); congruence|].
    rewrite (same_ref_tempId _ _ Hso). assumption.
Qed.

Lemma step_of_precise a b a' :
  step_of a b a' -> precise a -> precise a'.
Proof.
  intros Hstep [Hidx Hjust].
  destruct (step_of_live_in _ _ _ Hstep)
    as (blk & blk' & live0 & phis1 & phis2 & body & st1 & Hb & Hb' & Hsame & Hl &
        Hin & Hrcs & _ & (Hsplit & Hphis2 & Hall2 & Hnp) & Hev).
  assert (Hib : index blk = b) by (apply Hidx; assumption).
  rewrite Hib in Hl.
  assert (Hgrow : forall k live_k, live_out (lives a) !! k = Some live_k ->
            exists live_k', live_out (lives a') !! k = Some live_k' /\ live_k ⊆ live_k').
  { intros k live_k Hk. eexists.
    rewrite (insert_events_live_out _ _ _ _ _ _ _ k Hev), Hk.
    split; [reflexivity|set_solver]. }
  constructor; [eapply step_of_indexed; eassumption|].
  intros p live_p t Hp Ht.
  rewrite (insert_events_live_out _ _ _ _ _ _ _ p Hev) in Hp.
  destruct (live_out (lives a) !! p) as [live_p0|] eqn:Hp0; [|discriminate Hp].
  cbn in Hp. injection Hp as <-.
  apply elem_of_union in Ht as [Ht|Ht].
  - eapply justified_grows; [exact (step_of_temp_rc _ _ _ Hstep)| |exact Hgrow|].
    + intros k blk0 Hk. eapply step_of_same_blocks; eassumption.
    + eapply Hjust; eassumption.
  - apply elem_of_event_ids in Ht as [inc Ht].
    destruct (Hgrow b live0 Hl) as (live0' & Hl' & Hsub).
    exists b, blk', live0'. split; [assumption|]. split; [assumption|].
    pose proof Hsame as (_ & Hlog & Hlin & _).
    apply elem_of_app in Ht as [Ht|Ht].
    + left. apply elem_of_merge_events in Ht as (_ & Htl & rc & Hrc & Hpp).
      split.
      * apply (live_in_of_mono blk' blk' live0 live0' (same_block_refl _) Hsub).
        rewrite Hin. apply elem_of_elements. exact Htl.
      * exists rc. rewrite (step_of_temp_rc _ _ _ Hstep). split; [assumption|].
        unfold preds_of in *. rewrite Hlog, Hlin. exact Hpp.
    + right. apply elem_of_phis_events_inv in Ht
        as (insn1 & j & o1 & Hin1 & Hp1 & Ho1 & Ht1 & Hid1).
      apply list_elem_of_lookup in Hin1 as [i Hi1].
      destruct (Forall2_lookup_l _ _ _ _ _ Hphis2 Hi1) as (insn2 & Hi2 & Hs).
      pose proof Hs as (Hop & Hops & _).
      destruct (Forall2_lookup_l _ _ _ _ _ Hops Ho1) as (o2 & Ho2 & Hso).
      exists insn2, j, o2.
      split; [rewrite Hsplit; apply elem_of_app; left;
              eapply list_elem_of_lookup_2; eassumption|].
      split; [rewrite Forall_forall in Hall2; apply Hall2;
              eapply list_elem_of_lookup_2; eassumption|].
      split; [unfold phi_preds, phi_is_logical in *; rewrite Hop, Hlog, Hlin;
              assumption|].
      split; [assumption|].
      split; [destruct Hso as (Hso & _); congruence|].
      rewrite (same_ref_tempId _ _ Hso). assumption.
Qed.

Lemma initial_precise prog : indexed (blocks prog) -> precise (initial_analysis prog).
Proof.
  intros Hidx. constructor; [exact Hidx|].
  cbn. intros p live_p t Hp Ht. apply lookup_replicate in Hp as [-> _].
  set_solver.
Qed.

(** After the analysis every register in a live-out set is there for a
    reason: a block that has the set's block among the predecessors it
    uses for the register's class has the register live at its top, or
    one of its phis reads the register in the operand that belongs to
    that predecessor. *)
Theorem live_out_justified fuel prog a nd p live_p t :
  indexed (blocks prog) ->
  worklist_loop fuel (initial_analysis prog) zero_demand = Some (Ok (a, nd)) ->
  live_out (lives a) !! p = Some live_p -> t ∈ live_p ->
  justified a p t.
Proof.
  intros Hidx H Hp Ht.
  destruct (worklist_loop_invariant (fun a _ => precise a)) with
    (fuel := fuel) (a := initial_analysis prog) (nd := zero_demand)
    (a' := a) (nd' := nd) as [_ Hjust].
  - clear. intros a nd a' nd' Hpre _ Hs. apply worklist_step_Ok in Hs.
    eapply step_of_precise; [exact Hs|]. destruct Hpre as [H1 H2].
    constructor; assumption.
  - apply initial_precise. exact Hidx.
  - exact H.
  - eapply Hjust; eassumption.
Qed.

End Precision.

Lemma live_out_justified_witness :
  exists a nd,
    worklist_loop 4 (initial_analysis diamond) zero_demand = Some (Ok (a, nd)) /\
    justified a 1 1.
Proof.
  assert (E : exists a nd,
    worklist_loop 4 (initial_analysis diamond) zero_demand = Some (Ok (a, nd)) /\
    live_out (lives a) !! 1%nat = Some {[1%nat]}).
  { eexists _, _. split; [vm_compute; reflexivity|]. vm_compute. reflexivity. }
  destruct E as (a & nd & Hloop & Hl).
  exists a, nd. split; [exact Hloop|].
  apply (live_out_justified 4 diamond a nd 1 {[1%nat]} 1 diamond_indexed Hloop Hl).
  apply elem_of_singleton. reflexivity.
Defined.

(* ================================================================== *)
(** ** The result is a fixed point of the per-block step *)

Section FixedPoint.

(** Two scan states that differ in [needs_vcc] only. *)
Definition same_but_vcc (st st' : scan) : Prop :=
  s_live st' = s_live st /\ s_new_demand st' = s_new_demand st.

Lemma kill_definitions_but_vcc defs : forall st st' snap r s x r' s' x',
  same_but_vcc st st' ->
  kill_definitions defs st snap = (r, s, x) ->
  kill_definitions defs st' snap = (r', s', x') ->
  r' = r /\ same_but_vcc s s' /\ x' = x.
Proof.
  induction defs as [|d defs IH]; intros st st' snap r s x r' s' x' [Hl Hd] H H';
    cbn in H, H'.
  - injection H as <- <- <-. injection H' as <- <- <-. repeat split; assumption.
  - destruct (negb (def_isTemp d)).
    { destruct (kill_definitions defs st snap) as [[r1 s1] x1] eqn:E.
      destruct (kill_definitions defs st' snap) as [[r2 s2] x2] eqn:E'.
      injection H as <- <- <-. injection H' as <- <- <-.
      destruct (IH _ _ _ _ _ _ _ _ _ (conj Hl Hd) E E') as (-> & Hs & ->).
      repeat split; apply Hs. }
    rewrite Hl in H'. destruct (bool_decide _).
    + destruct (kill_definitions defs _ snap) as [[r1 s1] x1] eqn:E in H.
      destruct (kill_definitions defs _ snap) as [[r2 s2] x2] eqn:E' in H'.
      injection H as <- <- <-. injection H' as <- <- <-.
      eapply IH in E'; [| |exact E].
      * destruct E' as (-> & Hs & ->). repeat split; apply Hs.
      * split; cbn; congruence.
    + destruct (kill_definitions defs _ _) as [[r1 s1] x1] eqn:E in H.
      destruct (kill_definitions defs _ _) as [[r2 s2] x2] eqn:E' in H'.
      injection H as <- <- <-. injection H' as <- <- <-.
      eapply IH in E'; [| |exact E].
      * destruct E' as (-> & Hs & ->). repeat split; apply Hs.
      * split; cbn; congruence.
Qed.

Lemma gen_operands_from_but_vcc n : forall ops st st' snap r s x r' s' x',
  same_but_vcc st st' ->
  gen_operands_from n ops st snap = (r, s, x) ->
  gen_operands_from n ops st' snap = (r', s', x') ->
  r' = r /\ same_but_vcc s s' /\ x' = x.
Proof.
  induction n as [|n IH]; intros ops st st' snap r s x r' s' x' [Hl Hd] H H'.
  - cbn in H, H'. destruct ops; injection H as <- <- <-; injection H' as <- <- <-;
      repeat split; assumption.
  - destruct ops as [|o rest].
    { cbn in H, H'. injection H as <- <- <-. injection H' as <- <- <-.
      repeat split; assumption. }
    cbn in H, H'. destruct (negb (op_isTemp o)).
    { destruct (gen_operands_from n rest st snap) as [[r1 s1] x1] eqn:E.
      destruct (gen_operands_from n rest st' snap) as [[r2 s2] x2] eqn:E'.
      injection H as <- <- <-. injection H' as <- <- <-.
      destruct (IH _ _ _ _ _ _ _ _ _ _ (conj Hl Hd) E E') as (-> & Hs & ->).
      repeat split; apply Hs. }
    rewrite Hl in H'. destruct (bool_decide _).
    + destruct (gen_operands_from n rest _ snap) as [[r1 s1] x1] eqn:E in H.
      destruct (gen_operands_from n rest _ snap) as [[r2 s2] x2] eqn:E' in H'.
      injection H as <- <- <-. injection H' as <- <- <-.
      eapply IH in E'; [| |exact E].
      * destruct E' as (-> & Hs & ->). repeat split; apply Hs.
      * split; cbn; congruence.
    + destruct (gen_operands_from n _ _ _) as [[r1 s1] x1] eqn:E in H.
      destruct (gen_operands_from n _ _ _) as [[r2 s2] x2] eqn:E' in H'.
      injection H as <- <- <-. injection H' as <- <- <-.
      eapply IH in E'; [| |exact E].
      * destruct E' as (-> & Hs & ->). repeat split; apply Hs.
      * split; cbn; congruence.
Qed.

Lemma process_instruction_but_vcc phi insn st st' i d s i' d' s' :
  same_but_vcc st st' ->
  process_instruction phi insn st = (i, d, s) ->
  process_instruction phi insn st' = (i', d', s') ->
  i' = i /\ d' = d /\ same_but_vcc s s'.
Proof.
  intros Hst. pose proof Hst as [Hl Hd]. unfold process_instruction. rewrite Hd.
  destruct (kill_definitions (definitions insn) st _) as [[r1 s1] x1] eqn:E.
  destruct (kill_definitions (definitions insn) st' _) as [[r2 s2] x2] eqn:E'.
  destruct (kill_definitions_but_vcc _ _ _ _ _ _ _ _ _ _ Hst E E') as (-> & Hs & ->).
  destruct (is_logical_end insn).
  - intros [= <- <- <-] [= <- <- <-]. destruct Hs as [Hs1 Hs2].
    repeat split; cbn; congruence.
  - unfold gen_operands.
    destruct (gen_operands_from _ _ s1 x1) as [[o1 t1] y1] eqn:G.
    destruct (gen_operands_from _ _ s2 x1) as [[o2 t2] y2] eqn:G'.
    destruct (gen_operands_from_but_vcc _ _ _ _ _ _ _ _ _ _ _ Hs G G') as (-> & Ht & ->).
    intros [= <- <- <-] [= <- <- <-]. repeat split; apply Ht.
Qed.

(** The annotations and the snapshots of a scan do not depend on
    [needs_vcc]. *)
Lemma scan_instructions_but_vcc phi insns st st' :
  same_but_vcc st st' ->
  let sc := scan_instructions phi insns st in
  let sc' := scan_instructions phi insns st' in
  sc_phis sc' = sc_phis sc /\ sc_body sc' = sc_body sc /\
  sc_demands sc' = sc_demands sc /\ sc_block_demand sc' = sc_block_demand sc /\
  same_but_vcc (sc_state sc) (sc_state sc').
Proof.
  intros Hst. induction insns as [|i insns IH]; cbn zeta in *.
  - repeat split; apply Hst.
  - destruct IH as (IH1 & IH2 & IH3 & IH4 & IH5). cbn. rewrite IH1.
    destruct (sc_phis (scan_instructions phi insns st)).
    + destruct (is_phi i).
      * cbn. repeat split; try assumption; apply IH5.
      * destruct (process_instruction phi i (sc_state (scan_instructions phi insns st)))
          as [[i1 d1] s1] eqn:E.
        destruct (process_instruction phi i (sc_state (scan_instructions phi insns st')))
          as [[i2 d2] s2] eqn:E'.
        destruct (process_instruction_but_vcc _ _ _ _ _ _ _ _ _ _ IH5 E E')
          as (-> & -> & Hs).
        cbn. rewrite IH2, IH3, IH4. repeat split; apply Hs.
    + cbn. repeat split; try assumption; apply IH5.
Qed.

Lemma same_def_sym d d' : same_def d d' -> same_def d' d.
Proof. intros [k ->]. exists (def_isKill d). destruct d; reflexivity. Qed.

Lemma same_ref_sym o o' : same_ref o o' -> same_ref o' o.
Proof. unfold same_ref. intuition congruence. Qed.

Lemma same_instr_sym i i' : same_instr i i' -> same_instr i' i.
Proof.
  intros (H1 & H2 & H3). split; [congruence|]. split.
  - clear -H2. induction H2; constructor; auto using same_ref_sym.
  - clear -H3. induction H3; constructor; auto using same_def_sym.
Qed.

Lemma same_block_sym blk blk' : same_block blk blk' -> same_block blk' blk.
Proof.
  intros (H1 & H2 & H3 & H4). repeat split; try congruence.
  clear -H4. induction H4; constructor; auto using same_instr_sym.
Qed.

Lemma live_in_of_same blk blk' live0 :
  same_block blk blk' -> live_in_of blk' live0 = live_in_of blk live0.
Proof.
  intros Hs. apply set_eq. intros t. split.
  - apply live_in_of_mono; [apply same_block_sym; exact Hs|reflexivity].
  - apply live_in_of_mono; [exact Hs|reflexivity].
Qed.

(** Insertions of registers that are already there change nothing. *)
Lemma insert_events_nothing es lo wl pso lo' wl' pso' :
  insert_events es lo wl pso = Ok (lo', wl', pso') ->
  (forall p t inc, (p, t, inc) ∈ es ->
     exists Sp, lo !! p = Some Sp /\ t ∈ Sp) ->
  lo' = lo /\ wl' = wl /\ pso' = pso.
Proof.
  intros H Hes.
  assert (Hsub : forall k Sk, lo !! k = Some Sk -> event_ids k es ⊆ Sk).
  { intros k Sk Hk t Ht. apply elem_of_event_ids in Ht as [inc Ht].
    destruct (Hes _ _ _ Ht) as (Sp & HSp & HtS). congruence. }
  destruct (insert_events_length _ _ _ _ _ _ _ H) as [Hlen1 Hlen2].
  split; [|split].
  - apply list_eq. intros k.
    rewrite (insert_events_live_out _ _ _ _ _ _ _ k H).
    destruct (lo !! k) as [Sk|] eqn:Hk; [|reflexivity]. cbn. f_equal.
    specialize (Hsub k Sk Hk). set_solver.
  - apply set_eq. intros k.
    rewrite (insert_events_worklist _ _ _ _ _ _ _ k H). split; [|auto].
    intros [?|(Sk & Hk & Hn)]; [assumption|]. exfalso. apply Hn. eauto.
  - apply list_eq. intros k.
    destruct (insert_events_phi_sgpr_ops _ _ _ _ _ _ _ k H) as [->|(Sk & Hk & Hn)];
      [reflexivity|].
    exfalso. apply Hn. eauto.
Qed.

(** The result of the analysis is a fixed point of the per-block step:
    the step on any block of the final state leaves the live-out sets,
    the snapshots, the (empty) worklist and [phi_sgpr_ops] as they are,
    and the blocks as they are up to flags and block demand. *)
Theorem analysis_fixed_point fuel prog a nd b a' :
  indexed (blocks prog) ->
  worklist_loop fuel (initial_analysis prog) zero_demand = Some (Ok (a, nd)) ->
  process_live_temps_per_block a b = Ok a' ->
  lives a' = lives a /\ worklist a' = ∅ /\ phi_sgpr_ops a' = phi_sgpr_ops a /\
  Forall2 same_block (blocks (program a)) (blocks (program a')).
Proof.
  intros Hidx Hloop Hstep. apply process_block_Ok in Hstep.
  pose proof (worklist_loop_empty _ _ _ _ _ Hloop) as Hwl.
  destruct (worklist_loop_invariant (fun a _ => flowing a)
              (fun a nd a' nd' => worklist_step_flowing a nd a' nd')
              fuel _ _ _ _ (initial_flowing prog Hidx) Hloop) as [Hidx' Hfl].
  destruct (step_of_live_in _ _ _ Hstep)
    as (blk & blk' & live0 & phis1 & phis2 & body & st1 & Hb & Hb' & Hsame & Hl &
        Hin & _ & _ & (Hsplit & Hphis2 & Hall2 & Hnp) & Hev).
  assert (Hib : index blk = b) by (apply Hidx'; assumption).
  assert (Hlt : (b < length (blocks (program a)))%nat)
    by (eapply lookup_lt_Some; eassumption).
  rewrite Hib in Hl.
  destruct (Hfl b Hlt ltac:(rewrite Hwl; set_solver) blk live0 Hb Hl)
    as (F1 & F2 & _ & _).
  rewrite (live_in_of_same _ _ _ Hsame) in Hin.
  pose proof Hsame as (_ & Hlog & Hlin & Hinsns).
  destruct (insert_events_nothing _ _ _ _ _ _ _ Hev) as (Hlo & Hwl' & Hpso).
  { intros p t inc He. apply elem_of_app in He as [He|He].
    - apply elem_of_merge_events in He as (_ & Htl & rc & Hrc & Hp).
      apply (F1 t rc p); [|assumption..].
      rewrite Hin. apply elem_of_elements. exact Htl.
    - apply elem_of_phis_events_inv in He
        as (insn1 & j & o1 & Hin1 & Hp1 & Ho1 & Ht1 & Hid1).
      apply list_elem_of_lookup in Hin1 as [i Hi1].
      destruct (Forall2_lookup_l _ _ _ _ _ Hphis2 Hi1) as (insn2 & Hi2 & Hs12).
      assert (Hi2' : insn2 ∈ instructions blk').
      { rewrite Hsplit. apply elem_of_app. left.
        eapply list_elem_of_lookup_2. eassumption. }
      apply list_elem_of_lookup in Hi2' as [i' Hi2'].
      destruct (Forall2_lookup_r _ _ _ _ _ Hinsns Hi2') as (insn & Hi & Hs).
      assert (Hs1 : same_instr insn1 insn).
      { eapply same_instr_trans; [exact Hs12|]. apply same_instr_sym. exact Hs. }
      pose proof Hs1 as (Hop & Hops & _).
      destruct (Forall2_lookup_l _ _ _ _ _ Hops Ho1) as (o & Ho & Hso).
      rewrite <- Hid1, <- (same_ref_tempId _ _ Hso).
      apply (F2 insn j p o).
      + eapply list_elem_of_lookup_2. eassumption.
      + rewrite (same_instr_is_phi _ _ (same_instr_sym _ _ Hs)).
        rewrite Forall_forall in Hall2. apply Hall2.
        eapply list_elem_of_lookup_2. eassumption.
      + unfold phi_preds, phi_is_logical in *. rewrite Hop. exact Hp1.
      + exact Ho.
      + destruct Hso as (Hso & _). congruence. }
  split; [|split; [|split]].
  - destruct Hstep as [blkS liveS ndS phiS phisS1 phisS2 stS vccS HblkS HrdS HliveS
                        HndS HphiS _ _ _ _ _ _ Hdemands].
    assert (blkS = blk) as -> by congruence.
    rewrite Hib in *.
    assert (liveS = live0) as -> by congruence.
    destruct (analysis_annotated _ _ _ _ b Hidx Hloop Hlt)
      as (blk2 & live2 & phi2 & nd2 & vcc0 & Hb2 & Hl2 & Hphi2 & Hnd2 & Hsc).
    assert (blk2 = blk) as -> by congruence.
    assert (live2 = live0) as -> by congruence.
    assert (phi2 = phiS) as -> by congruence.
    assert (nd2 = ndS) as -> by congruence.
    cbn zeta in Hsc. destruct Hsc as (_ & _ & Hrd2).
    destruct (scan_instructions_but_vcc phiS (instructions blk)
                {| s_live := live0; s_new_demand := demand_sub_sgpr ndS phiS;
                   s_needs_vcc := vcc0 |}
                (scan_start a live0 ndS phiS))
      as (E1 & _ & E3 & _ & _ & E5); [split; reflexivity|].
    destruct (lives a') as [lo' rd']. destruct (lives a) as [lo rd].
    cbn in *. f_equal; [exact Hlo|]. rewrite Hdemands.
    apply list_insert_id. rewrite Hrd2. unfold scanned_demands.
    rewrite E1, E3, E5. reflexivity.
  - rewrite Hwl'. exact Hwl.
  - exact Hpso.
  - apply Forall2_same_length_lookup_2;
      [symmetry; eapply step_of_blocks_length; exact Hstep|].
    intros k x y Hx Hy.
    destruct (step_of_same_blocks _ _ _ k x Hstep Hx) as (y' & Hy' & Hs).
    congruence.
Qed.

End FixedPoint.

Lemma analysis_fixed_point_witness :
  exists a nd a',
    worklist_loop 4 (initial_analysis diamond) zero_demand = Some (Ok (a, nd)) /\
    process_live_temps_per_block a 3 = Ok a' /\
    lives a' = lives a /\ worklist a' = ∅.
Proof.
  assert (E : exists a nd a',
    worklist_loop 4 (initial_analysis diamond) zero_demand = Some (Ok (a, nd)) /\
    process_live_temps_per_block a 3 = Ok a').
  { eexists _, _, _. split; [vm_compute; reflexivity|]. vm_compute. reflexivity. }
  destruct E as (a & nd & a' & Hloop & Hstep).
  exists a, nd, a'. split; [exact Hloop|]. split; [exact Hstep|].
  destruct (analysis_fixed_point 4 diamond a nd 3 a' diamond_indexed Hloop Hstep)
    as (H1 & H2 & _).
  split; [exact H1|exact H2].
Defined.

(* ================================================================== *)
(** ** No lookup fails on a well-formed program *)

(** A phi the step can handle: one definition, a register or exec; at
    least as many operands as the block has predecessors of its kind. *)
Definition phi_ok (blk : Block) (insn : Instruction) : Prop :=
  is_phi insn = true /\
  (exists d, definitions insn = [d] /\
     (def_isTemp d = false ->
      def_isFixed d = true /\ def_physReg d = exec)) /\
  (length (phi_preds blk insn) <= length (operands insn))%nat.

(** The phis of a block come first. *)
Definition phis_first (blk : Block) : Prop :=
  exists phis body,
    instructions blk = phis ++ body /\ Forall (phi_ok blk) phis /\ no_phi body.

(** What the analysis takes for granted about a program: block indices
    are positions, predecessors are blocks, every register that is read
    has a class, the phis of a block come first and are well formed. *)
Record well_formed (prog : Program) : Prop := {
  wf_indexed : indexed (blocks prog);
  wf_preds : forall b blk p,
    blocks prog !! b = Some blk ->
    p ∈ logical_preds blk \/ p ∈ linear_preds blk ->
    (p < length (blocks prog))%nat;
  wf_classes : forall t, t ∈ program_uses prog -> is_Some (temp_rc prog !! t);
  wf_phis : forall b blk, blocks prog !! b = Some blk -> phis_first blk
}.

(** The states the loop goes through on a well-formed program. *)
Record safe_state (prog : Program) (a : analysis) : Prop := {
  safe_blocks : forall k blk, blocks prog !! k = Some blk ->
                exists blk', blocks (program a) !! k = Some blk' /\ same_block blk blk';
  safe_length : length (blocks (program a)) = length (blocks prog);
  safe_temp_rc : temp_rc (program a) = temp_rc prog;
  safe_live_out : length (live_out (lives a)) = length (blocks prog);
  safe_demands : length (lives_register_demand (lives a)) = length (blocks prog);
  safe_phi_sgpr_ops : length (phi_sgpr_ops a) = length (blocks prog);
  safe_within : within (program_uses prog) a;
  safe_worklist : forall k, k ∈ worklist a -> (k < length (blocks prog))%nat
}.

Section Safety.

Lemma phi_ok_same blk blk' insn insn' :
  same_block blk blk' -> same_instr insn insn' -> phi_ok blk insn -> phi_ok blk' insn'.
Proof.
  intros (_ & Hlog & Hlin & _) Hs (Hphi & (d & Hd & Hexec) & Hlen).
  pose proof Hs as (Hop & Hops & Hdefs).
  split; [rewrite (same_instr_is_phi _ _ Hs); exact Hphi|]. split.
  - rewrite Hd in Hdefs. inversion Hdefs as [|? d' ? ? [k ->] Hrest]; subst.
    inversion Hrest; subst. exists (def_setKill k d). split; [reflexivity|].
    exact Hexec.
  - unfold phi_preds, phi_is_logical in *. rewrite Hop, Hlog, Hlin.
    rewrite <- (Forall2_length _ _ _ Hops). exact Hlen.
Qed.

Lemma phis_first_same blk blk' : same_block blk blk' -> phis_first blk -> phis_first blk'.
Proof.
  intros Hs (phis & body & Hsplit & Hphis & Hbody).
  pose proof Hs as (_ & _ & _ & Hinsns). rewrite Hsplit in Hinsns.
  apply Forall2_app_inv_l in Hinsns as (phis' & body' & Hp & Hb & Hsplit').
  exists phis', body'. split; [assumption|]. split.
  - clear -Hs Hp Hphis. induction Hp as [|i i' l l' Hi _ IH]; [constructor|].
    apply Forall_cons in Hphis as [H1 H2]. constructor; [|auto].
    eapply phi_ok_same; eassumption.
  - clear -Hb Hbody. unfold no_phi in *.
    induction Hb as [|i i' l l' Hi _ IH]; [constructor|].
    apply Forall_cons in Hbody as [H1 H2]. constructor; [|auto].
    rewrite (same_instr_is_phi _ _ Hi). exact H1.
Qed.

Lemma initial_demand_total rcs ts : forall d,
  Forall (fun t => is_Some (rcs !! t)) ts ->
  exists nd, initial_demand rcs ts d = Ok nd.
Proof.
  induction ts as [|t ts IH]; intros d H; [cbn; eauto|].
  apply Forall_cons in H as [[rc Hrc] H]. cbn. rewrite Hrc. cbn. apply IH. exact H.
Qed.

Lemma phi_definitions_total blk phis : forall st,
  Forall (phi_ok blk) phis ->
  exists phis' st', phi_definitions phis st = Ok (phis', st').
Proof.
  induction phis as [|i phis IH]; intros st H; [cbn; eauto|].
  apply Forall_cons in H as [(Hphi & (d & Hd & Hexec) & _) H].
  destruct (IH st H) as (phis' & st' & E). cbn. rewrite E. cbn.
  unfold phi_definition. rewrite Hphi, Hd. cbn.
  destruct (def_isTemp d) eqn:Et; cbn; [eauto|].
  destruct (Hexec eq_refl) as [Hf He]. rewrite Hf.
  rewrite bool_decide_eq_true_2 by exact He. cbn. eauto.
Qed.

Lemma live_out_insert_total lo p t :
  (p < length lo)%nat ->
  exists lo' ins, live_out_insert lo p t = Ok (lo', ins) /\ length lo' = length lo.
Proof.
  intros Hp. apply lookup_lt_is_Some in Hp as [S0 HS]. unfold live_out_insert.
  rewrite HS. destruct (bool_decide _); eexists _, _; split; try reflexivity.
  apply length_insert.
Qed.

Lemma merge_into_preds_total preds t : forall lo wl,
  Forall (fun p => (p < length lo)%nat) preds ->
  exists lo' wl', merge_into_preds preds t lo wl = Ok (lo', wl') /\
                  length lo' = length lo.
Proof.
  induction preds as [|p preds IH]; intros lo wl H; [cbn; eauto|].
  apply Forall_cons in H as [Hp H].
  destruct (live_out_insert_total lo p t Hp) as (lo1 & ins & E & Hlen).
  cbn. rewrite E. cbn.
  destruct (IH lo1 (if ins then {[p]} ∪ wl else wl)) as (lo' & wl' & E' & Hlen').
  { rewrite Hlen. exact H. }
  exists lo', wl'. split; [exact E'|congruence].
Qed.

Lemma merge_live_ins_total rcs blk ts : forall lo wl,
  Forall (fun t => is_Some (rcs !! t)) ts ->
  (forall p, p ∈ logical_preds blk \/ p ∈ linear_preds blk -> (p < length lo)%nat) ->
  exists lo' wl', merge_live_ins rcs blk ts lo wl = Ok (lo', wl') /\
                  length lo' = length lo.
Proof.
  induction ts as [|t ts IH]; intros lo wl H Hpreds; [cbn; eauto|].
  apply Forall_cons in H as [[rc Hrc] H]. cbn. rewrite Hrc. cbn.
  destruct (merge_into_preds_total
              (if is_linear rc then linear_preds blk else logical_preds blk) t lo wl)
    as (lo1 & wl1 & E & Hlen).
  { rewrite Forall_forall. intros p Hp. apply Hpreds.
    destruct (is_linear rc); auto. }
  rewrite E. cbn. destruct (IH lo1 wl1 H) as (lo' & wl' & E' & Hlen').
  { intros p Hp. rewrite Hlen. auto. }
  exists lo', wl'. split; [exact E'|congruence].
Qed.

Lemma phi_operands_total logical live_in preds : forall ops s,
  (length preds <= length ops)%nat ->
  Forall (fun p => (p < length (st_live_out s))%nat) preds ->
  length (st_phi_sgpr_ops s) = length (st_live_out s) ->
  exists ops' s',
    phi_operands logical live_in preds ops s = Ok (ops', s') /\
    length (st_live_out s') = length (st_live_out s) /\
    length (st_phi_sgpr_ops s') = length (st_phi_sgpr_ops s).
Proof.
  induction preds as [|p preds IH]; intros ops s Hlen Hpreds Hpso; [cbn; eauto|].
  destruct ops as [|o ops]; [cbn in Hlen; lia|]. cbn in Hlen.
  apply Forall_cons in Hpreds as [Hp Hpreds]. cbn.
  destruct (op_isTemp o); cbn.
  - destruct (live_out_insert_total (st_live_out s) p (tempId o) Hp)
      as (lo1 & ins & E & Hlen1).
    rewrite E. cbn.
    assert (Hx : is_Some (st_phi_sgpr_ops s !! p))
      by (apply lookup_lt_is_Some; lia).
    destruct Hx as [x Hx].
    set (pso1 := if ins && logical && RegType_eqb (type (op_temp o)) RegType_sgpr
                 then <[p := u16 (x + temp_size (op_temp o))]> (st_phi_sgpr_ops s)
                 else st_phi_sgpr_ops s).
    assert (Epso : (if ins && logical && RegType_eqb (type (op_temp o)) RegType_sgpr
                    then x0 ← of_option (st_phi_sgpr_ops s !! p);
                         Ok (<[p := u16 (x0 + temp_size (op_temp o))]> (st_phi_sgpr_ops s))
                    else Ok (st_phi_sgpr_ops s)) = Ok pso1).
    { subst pso1. rewrite Hx.
      destruct (ins && logical && RegType_eqb (type (op_temp o)) RegType_sgpr);
        reflexivity. }
    rewrite Epso. cbn.
    assert (Hpso1 : length pso1 = length (st_phi_sgpr_ops s)).
    { subst pso1.
      destruct (ins && logical && RegType_eqb (type (op_temp o)) RegType_sgpr);
        [apply length_insert|reflexivity]. }
    edestruct (IH ops {| st_live_out := lo1;
                         st_worklist := if ins then {[p]} ∪ st_worklist s
                                        else st_worklist s;
                         st_phi_sgpr_ops := pso1;
                         st_needs_vcc := st_needs_vcc s || op_on_vcc o |})
      as (ops' & s' & E' & Hl1 & Hl2).
    + lia.
    + cbn. rewrite Hlen1. exact Hpreds.
    + cbn. congruence.
    + rewrite E'. cbn. eexists _, _. split; [reflexivity|].
      cbn in Hl1, Hl2. split; congruence.
  - destruct (IH ops s ltac:(lia) Hpreds Hpso) as (ops' & s' & E' & Hl1 & Hl2).
    rewrite E'. cbn. eexists _, _. split; [reflexivity|]. split; assumption.
Qed.

Lemma phis_operands_total blk live_in phis : forall s,
  Forall (fun i => is_phi i = true /\
                   (length (phi_preds blk i) <= length (operands i))%nat) phis ->
  (forall p, p ∈ logical_preds blk \/ p ∈ linear_preds blk ->
             (p < length (st_live_out s))%nat) ->
  length (st_phi_sgpr_ops s) = length (st_live_out s) ->
  exists phis' s',
    phis_operands blk live_in phis s = Ok (phis', s') /\
    length (st_live_out s') = length (st_live_out s) /\
    length (st_phi_sgpr_ops s') = length (st_phi_sgpr_ops s).
Proof.
  induction phis as [|i phis IH]; intros s H Hpreds Hpso; [cbn; eauto|].
  apply Forall_cons in H as [[Hphi Hlen] H].
  destruct (IH s H Hpreds Hpso) as (phis' & s1 & E & Hl1 & Hl2).
  cbn. rewrite E. cbn. rewrite Hphi. cbn.
  edestruct (phi_operands_total
               (match opcode i with p_phi => true | _ => false end) live_in
               (if match opcode i with p_phi => true | _ => false end
                then logical_preds blk else linear_preds blk) (operands i) s1)
    as (ops' & s2 & E2 & Hl3 & Hl4).
  - exact Hlen.
  - rewrite Forall_forall. intros p Hp. rewrite Hl1. apply Hpreds.
    destruct (match opcode i with p_phi => true | _ => false end); auto.
  - congruence.
  - rewrite E2. cbn. eexists _, _. split; [reflexivity|]. split; congruence.
Qed.

(** On a safe state the step on a block of the program returns, unless
    the assertion on the entry block fails. *)
Lemma process_block_total prog a b :
  well_formed prog -> safe_state prog a -> (b < length (blocks prog))%nat ->
  (exists a', process_live_temps_per_block a b = Ok a') \/
  process_live_temps_per_block a b = Err (AssertionFailed 238).
Proof.
  intros [Hidx Hpreds Hclasses Hphis] [Hblocks Hlen Hrc Hlo Hrd Hpso [Hwithin Huses] _] Hb.
  apply lookup_lt_is_Some in Hb as [blk0 Hblk0].
  destruct (Hblocks b blk0 Hblk0) as (blk & Hblk & Hsame).
  pose proof Hsame as (Hi & Hlog & Hlin & Hinsns).
  assert (Hib : index blk = b) by (rewrite Hi; apply Hidx; assumption).
  assert (Hbn : (b < length (blocks prog))%nat)
    by (eapply lookup_lt_Some; eassumption).
  unfold process_live_temps_per_block. rewrite Hblk. cbn. rewrite Hib.
  destruct (lookup_lt_is_Some_2 (lives_register_demand (lives a)) b ltac:(lia))
    as [rd Hrdb].
  destruct (lookup_lt_is_Some_2 (live_out (lives a)) b ltac:(lia)) as [live0 Hl].
  destruct (lookup_lt_is_Some_2 (phi_sgpr_ops a) b ltac:(lia)) as [phi Hphi].
  rewrite Hrdb, Hl. cbn.
  assert (Hlive0 : live0 ⊆ program_uses prog) by (eapply Hwithin; eassumption).
  assert (Hclass : forall (L : gset nat), L ⊆ program_uses prog ->
            Forall (fun t => is_Some (temp_rc (program a) !! t)) (elements L)).
  { intros L HL. rewrite Forall_forall. intros t Ht. rewrite Hrc.
    apply Hclasses, HL. apply elem_of_elements. exact Ht. }
  destruct (initial_demand_total (temp_rc (program a)) (elements live0) zero_demand
              (Hclass live0 Hlive0)) as [nd0 End].
  rewrite End, Hphi. cbn.
  set (st0 := {| s_live := live0; s_new_demand := demand_sub_sgpr nd0 phi;
                 s_needs_vcc := needs_vcc (program a) |}).
  set (sc := scan_instructions phi (instructions blk) st0).
  destruct (phis_first_same _ _ Hsame (Hphis b blk0 Hblk0))
    as (phis & body & Hsplit & Hphisok & Hbody).
  assert (Hallphi : Forall (fun i => is_phi i = true) phis).
  { eapply Forall_impl; [exact Hphisok|]. intros i (H & _). exact H. }
  assert (Hsc : sc_phis sc = phis).
  { subst sc. rewrite Hsplit.
    rewrite (scan_instructions_app phi phis body st0 Hbody (all_phis_last _ Hallphi)).
    reflexivity. }
  destruct (phi_definitions_total blk (sc_phis sc) (sc_state sc))
    as (phis1 & st1 & Edefs); [rewrite Hsc; exact Hphisok|].
  rewrite Edefs. cbn.
  pose proof (phi_definitions_Ok _ _ _ _ Edefs) as (_ & Hsame1 & Hlive1 & _).
  assert (Hlive_in : s_live st1 ⊆ program_uses prog).
  { rewrite Hlive1.
    pose proof (scan_instructions_live_bound phi (instructions blk) st0) as Hbound.
    fold sc in Hbound. cbn in Hbound.
    specialize (Huses b blk Hblk). set_solver. }
  assert (Hpreds' : forall p, p ∈ logical_preds blk \/ p ∈ linear_preds blk ->
                              (p < length (live_out (lives a)))%nat).
  { intros p Hp. rewrite Hlo. apply (Hpreds b blk0 p Hblk0).
    rewrite <- Hlog, <- Hlin. exact Hp. }
  destruct (merge_live_ins_total (temp_rc (program a)) blk (elements (s_live st1))
              (live_out (lives a)) (worklist a) (Hclass _ Hlive_in) Hpreds')
    as (lo1 & wl1 & Emerge & Hlen1).
  rewrite Emerge. cbn.
  edestruct (phis_operands_total blk (s_live st1) phis1
               {| st_live_out := lo1; st_worklist := wl1;
                  st_phi_sgpr_ops := phi_sgpr_ops a;
                  st_needs_vcc := s_needs_vcc st1 |})
    as (phis2 & s2 & Eops & _ & _).
  { rewrite Hsc in Hsame1. clear -Hsame1 Hphisok.
    induction Hsame1 as [|i i' l l' Hi _ IH]; [constructor|].
    apply Forall_cons in Hphisok as [H1 H2]. constructor; [|auto].
    destruct (phi_ok_same blk blk i i' (same_block_refl blk) Hi H1) as (Hp & _ & Hl).
    split; assumption. }
  { cbn. intros p Hp. rewrite Hlen1. auto. }
  { cbn. congruence. }
  rewrite Eops. cbn.
  destruct (negb (bool_decide (b = 0%nat)) ||
            demand_eqb (s_new_demand (sc_state sc)) zero_demand &&
            bool_decide (s_live st1 = ∅)); cbn; eauto.
Qed.

Lemma safe_without_block prog a k :
  safe_state prog a -> safe_state prog (without_block a k).
Proof.
  intros [H1 H2 H3 H4 H5 H6 H7 H8]. constructor; cbn; try assumption.
  - apply within_without_block. exact H7.
  - intros j Hj. apply H8. set_solver.
Qed.

Lemma step_of_safe prog a b a' :
  indexed (blocks prog) -> step_of a b a' -> safe_state prog a -> safe_state prog a'.
Proof.
  intros Hidx Hstep [Hblocks Hlen Hrc Hlo Hrd Hpso Hwithin Hwl].
  pose proof Hstep as [blk live0 nd0 phi phis1 phis2 st1 vcc' Hblk _ _ _ _ _
                         Hev _ _ _ _ Hdemands].
  destruct (insert_events_length _ _ _ _ _ _ _ Hev) as [Hl1 Hl2].
  constructor.
  - intros k blk0 Hk. destruct (Hblocks k blk0 Hk) as (blk1 & Hk1 & Hs1).
    destruct (step_of_same_blocks _ _ _ k blk1 Hstep Hk1) as (blk' & Hk' & Hs').
    exists blk'. split; [assumption|]. eapply same_block_trans; eassumption.
  - rewrite (step_of_blocks_length _ _ _ Hstep). exact Hlen.
  - rewrite (step_of_temp_rc _ _ _ Hstep). exact Hrc.
  - congruence.
  - rewrite Hdemands, length_insert. exact Hrd.
  - congruence.
  - eapply step_of_within; eassumption.
  - intros k Hk. apply (insert_events_worklist _ _ _ _ _ _ _ k Hev) in Hk
      as [Hk|(S0 & HS0 & _)]; [auto|].
    rewrite <- Hlo. eapply lookup_lt_Some. exact HS0.
Qed.

Lemma initial_safe prog : well_formed prog -> safe_state prog (initial_analysis prog).
Proof.
  intros [Hidx Hpreds Hclasses Hphis]. constructor; cbn.
  - intros k blk Hk. exists blk. split; [assumption|apply same_block_refl].
  - reflexivity.
  - reflexivity.
  - apply length_replicate.
  - apply length_replicate.
  - apply length_replicate.
  - apply initial_within_uses.
  - intros k Hk. apply elem_of_list_to_set, list_elem_of_fmap in Hk
      as (blk & -> & Hin).
    apply list_elem_of_lookup in Hin as [i Hi].
    rewrite (Hidx i blk Hi). eapply lookup_lt_Some. exact Hi.
Qed.

(** One iteration of the loop on a safe state. *)
Lemma worklist_step_total prog a nd :
  well_formed prog -> safe_state prog a -> worklist a <> ∅ ->
  (exists a' nd', worklist_step a nd = Ok (a', nd') /\ safe_state prog a') \/
  worklist_step a nd = Err (AssertionFailed 238).
Proof.
  intros Hwf Hsafe Hne.
  pose proof (highest_pending _ Hne) as Hidx.
  set (idx := max_list (elements (worklist a))) in *.
  assert (Hlt : (idx < length (blocks prog))%nat)
    by (apply (safe_worklist _ _ Hsafe); exact Hidx).
  destruct (process_block_total prog (without_block a idx) idx Hwf
              (safe_without_block _ _ idx Hsafe) Hlt) as [[a' E]|E].
  - left. pose proof (process_block_Ok _ _ _ E) as Hstep.
    pose proof (step_of_safe prog _ _ _ (wf_indexed _ Hwf) Hstep
                  (safe_without_block _ _ idx Hsafe)) as Hsafe'.
    assert (Hblk : is_Some (blocks (program a') !! idx)).
    { apply lookup_lt_is_Some. rewrite (safe_length _ _ Hsafe'). exact Hlt. }
    destruct Hblk as [blk Hblk].
    exists a', (demand_update nd (register_demand blk)).
    split; [|exact Hsafe'].
    unfold worklist_step. fold idx. rewrite E. cbn. rewrite Hblk. reflexivity.
  - right. unfold worklist_step. fold idx. rewrite E. reflexivity.
Qed.

Lemma worklist_loop_safe prog : forall fuel a nd e,
  well_formed prog -> safe_state prog a ->
  worklist_loop fuel a nd = Some (Err e) -> e = AssertionFailed 238.
Proof.
  induction fuel as [|fuel IH]; intros a nd e Hwf Hsafe H; cbn in H.
  - destruct (decide (worklist a = ∅)); discriminate H.
  - destruct (decide (worklist a = ∅)) as [|Hne]; [discriminate H|].
    destruct (worklist_step_total prog a nd Hwf Hsafe Hne)
      as [(a' & nd' & E & Hsafe')|E]; rewrite E in H.
    + eapply IH; eassumption.
    + injection H as <-. reflexivity.
Qed.

(** On a well-formed program the loop of the analysis never reads
    outside a vector and fails no assertion on the phis: within
    (number of blocks) * (number of registers) + (number of blocks)
    steps it returns normally, or it stops at the assertion of line 238
    on the entry block. *)
Theorem analysis_safe prog :
  well_formed prog ->
  (exists a nd,
     worklist_loop (length (blocks prog) * size (program_temps prog)
                    + length (blocks prog))
       (initial_analysis prog) zero_demand = Some (Ok (a, nd))) \/
  worklist_loop (length (blocks prog) * size (program_temps prog)
                 + length (blocks prog))
    (initial_analysis prog) zero_demand = Some (Err (AssertionFailed 238)).
Proof.
  intros Hwf.
  set (n := length (blocks prog)). set (regs := size (program_temps prog)).
  destruct (worklist_loop_fuel (program_temps prog) (n * regs + n)
              (initial_analysis prog) zero_demand) as [r Hr].
  - apply initial_within.
  - unfold potential, initial_analysis. cbn [worklist lives live_out].
    rewrite room_replicate.
    pose proof (size_list_to_set_le (index <$> blocks prog)) as Hs.
    rewrite length_fmap in Hs. subst n regs. lia.
  - destruct r as [[a nd]|e]; [left; eauto|]. right.
    rewrite (worklist_loop_safe prog _ _ _ e Hwf (initial_safe prog Hwf) Hr) in Hr.
    exact Hr.
Qed.

End Safety.

(* ================================================================== *)
(** ** Kill flags of the phi operands *)

(** The operands of the phis of the block at position [b] that belong to
    a predecessor are marked as kill exactly when the register is not
    live at the top of the block. *)
Definition phi_flagged (a : analysis) (b : nat) : Prop :=
  forall blk live0 insn j o,
    blocks (program a) !! b = Some blk ->
    live_out (lives a) !! b = Some live0 ->
    insn ∈ instructions blk -> is_phi insn = true ->
    (j < length (phi_preds blk insn))%nat ->
    operands insn !! j = Some o -> op_isTemp o = true ->
    op_isKill o = negb (bool_decide (tempId o ∈ live_in_of blk live0)).

Record phis_flagged (a : analysis) : Prop := {
  phis_flagged_indexed : indexed (blocks (program a));
  phis_flagged_blocks : forall b, (b < length (blocks (program a)))%nat ->
                        b ∉ worklist a -> phi_flagged a b
}.

Section PhiFlags.

Lemma op_isKill_setKill k o : op_isKill (op_setKill k o) = k.
Proof. destruct k; reflexivity. Qed.

Lemma phi_operands_kill logical live_in preds : forall ops s ops' s' j o',
  phi_operands logical live_in preds ops s = Ok (ops', s') ->
  (j < length preds)%nat -> ops' !! j = Some o' -> op_isTemp o' = true ->
  op_isKill o' = negb (bool_decide (tempId o' ∈ live_in)).
Proof.
  induction preds as [|p preds IH]; intros ops s ops' s' j o' H Hj Ho Ht;
    [cbn in Hj; lia|].
  cbn in H. destruct ops as [|o ops]; [discriminate H|].
  destruct (op_isTemp o) eqn:Et; cbn in H.
  - apply bind_Ok in H as ([lo1 ins] & _ & H).
    apply bind_Ok in H as (pso1 & _ & H).
    apply bind_Ok in H as ([ops1 s1] & Hrec & H). injection H as <- <-.
    destruct j as [|j]; cbn in Ho.
    + injection Ho as <-. rewrite op_isKill_setKill. reflexivity.
    + eapply IH; [exact Hrec| |exact Ho|exact Ht]. cbn in Hj. lia.
  - apply bind_Ok in H as ([ops1 s1] & Hrec & H). injection H as <- <-.
    destruct j as [|j]; cbn in Ho.
    + injection Ho as <-. congruence.
    + eapply IH; [exact Hrec| |exact Ho|exact Ht]. cbn in Hj. lia.
Qed.

Lemma phis_operands_kill block live_in phis : forall s phis' s' insn' j o',
  phis_operands block live_in phis s = Ok (phis', s') ->
  insn' ∈ phis' -> (j < length (phi_preds block insn'))%nat ->
  operands insn' !! j = Some o' -> op_isTemp o' = true ->
  op_isKill o' = negb (bool_decide (tempId o' ∈ live_in)).
Proof.
  induction phis as [|i phis IH]; intros s phis' s' insn' j o' H Hin Hj Ho Ht;
    cbn in H.
  - injection H as <- <-. apply elem_of_nil in Hin. contradiction.
  - apply bind_Ok in H as ([rest1 s1] & Hrec & H).
    apply bind_Ok in H as (u & _ & H).
    apply bind_Ok in H as ([ops1 s2] & Hops & H). injection H as <- <-.
    apply elem_of_cons in Hin as [->|Hin].
    + unfold phi_preds, phi_is_logical in Hj. cbn in Hj, Ho.
      eapply phi_operands_kill; eassumption.
    + eapply IH; eassumption.
Qed.

(** The phis of the block a step writes back carry the flags of the
    live-in set the step computed. *)
Lemma process_block_phi_flags a b a' :
  process_live_temps_per_block a b = Ok a' -> indexed (blocks (program a)) ->
  exists blk' live0,
    blocks (program a') !! b = Some blk' /\
    live_out (lives a) !! b = Some live0 /\
    forall insn j o,
      insn ∈ instructions blk' -> is_phi insn = true ->
      (j < length (phi_preds blk' insn))%nat ->
      operands insn !! j = Some o -> op_isTemp o = true ->
      op_isKill o = negb (bool_decide (tempId o ∈ live_in_of blk' live0)).
Proof.
  unfold process_live_temps_per_block. intros H Hidx.
  apply bind_Ok in H as (blk & Hblk & H). apply of_option_Ok in Hblk.
  apply bind_Ok in H as (rd & _ & H).
  apply bind_Ok in H as (live0 & Hl & H). apply of_option_Ok in Hl.
  apply bind_Ok in H as (nd0 & _ & H).
  apply bind_Ok in H as (phi & _ & H).
  set (st0 := {| s_live := live0; s_new_demand := demand_sub_sgpr nd0 phi;
                 s_needs_vcc := needs_vcc (program a) |}) in *.
  set (sc := scan_instructions phi (instructions blk) st0) in *.
  apply bind_Ok in H as ([phis1 st1] & Hdefs & H).
  apply bind_Ok in H as ([lo1 wl1] & _ & H).
  apply bind_Ok in H as ([phis2 s2] & Hops & H).
  apply bind_Ok in H as (u & _ & H).
  injection H as <-. cbn.
  assert (Hib : index blk = b) by (apply Hidx; assumption).
  rewrite Hib in Hl.
  eexists _, live0. split.
  { apply list_lookup_insert_eq. eapply lookup_lt_Some. exact Hblk. }
  split; [exact Hl|].
  destruct (scan_instructions_split phi (instructions blk) st0)
    as (body & Hsplit & Hbody & Hscan & _). fold sc in Hsplit, Hscan.
  destruct (scan_instructions_idem phi body st0 Hbody) as [Hnp Hidem].
  rewrite Hscan in Hnp, Hidem. cbn in Hnp, Hidem.
  pose proof (phi_definitions_Ok _ _ _ _ Hdefs) as (Hallphi & Hsame1 & Hlive1 & _).
  pose proof (phis_operands_events _ _ _ _ _ _ Hops) as (_ & Hsame2 & _).
  assert (Hsame : Forall2 same_instr (sc_phis sc) phis2)
    by (eapply Forall2_same_instr_trans; eassumption).
  assert (Hall2 : Forall (fun i => is_phi i = true) phis2)
    by (eapply all_phis_same; eassumption).
  assert (Hin : live_in_of (with_block blk (phis2 ++ sc_body sc)
                              (if before_ra (progress (program a))
                               then demand_update (sc_block_demand sc)
                                      (s_new_demand (sc_state sc))
                               else register_demand blk)) live0
                = s_live st1).
  { unfold live_in_of. cbn [instructions with_block].
    set (z0 := {| s_live := live0; s_new_demand := zero_demand;
                  s_needs_vcc := false |}).
    rewrite (scan_instructions_app 0 phis2 (sc_body sc) z0 Hnp
               (all_phis_last _ Hall2)). cbn [sc_phis sc_state].
    rewrite (phi_def_ids_same _ _ Hsame), Hlive1. f_equal.
    rewrite (scan_instructions_live_eq 0 phi (sc_body sc) z0 st0 eq_refl).
    rewrite Hidem. reflexivity. }
  intros insn j o Hinsn Hphi Hj Ho Ht. rewrite Hin.
  cbn [instructions with_block] in Hinsn.
  apply elem_of_app in Hinsn as [Hinsn|Hinsn].
  - eapply phis_operands_kill; [exact Hops|exact Hinsn| |exact Ho|exact Ht].
    exact Hj.
  - exfalso. unfold no_phi in Hnp. rewrite Forall_forall in Hnp.
    apply Hnp in Hinsn. congruence.
Qed.

Lemma worklist_step_process a nd a' nd' :
  worklist_step a nd = Ok (a', nd') ->
  process_live_temps_per_block
    (without_block a (max_list (elements (worklist a))))
    (max_list (elements (worklist a))) = Ok a'.
Proof.
  unfold worklist_step. intros H.
  apply bind_Ok in H as (a1 & Hstep & H).
  apply bind_Ok in H as (blk & _ & H). injection H as <- _. exact Hstep.
Qed.

Lemma worklist_step_phis_flagged a nd a' nd' :
  phis_flagged a -> worklist a <> ∅ -> worklist_step a nd = Ok (a', nd') ->
  phis_flagged a'.
Proof.
  intros [Hidx Hfl] _ H.
  pose proof (worklist_step_process _ _ _ _ H) as Hproc.
  apply worklist_step_Ok in H.
  set (idx := max_list (elements (worklist a))) in *.
  destruct (step_of_live_in _ _ _ H)
    as (blk0 & blk1 & live1 & phis1 & phis2 & body & st1 & Hb0 & _ & _ & Hl1 & _ & _ &
        _ & _ & Hev).
  assert (Hkeep : forall k live_k, k ∉ worklist a' ->
            live_out (lives a') !! k = Some live_k ->
            live_out (lives a) !! k = Some live_k).
  { intros k live_k Hwl Hk.
    rewrite (insert_events_live_out _ _ _ _ _ _ _ k Hev) in Hk. cbn in Hk.
    destruct (live_out (lives a) !! k) as [S0|] eqn:E; [|discriminate Hk].
    cbn in Hk. injection Hk as <-. f_equal.
    match goal with
    | |- _ = _ ∪ ?E =>
        destruct (decide (E ⊆ S0)) as [?|Hn]; [set_solver|]
    end.
    exfalso. apply Hwl.
    apply (insert_events_worklist _ _ _ _ _ _ _ k Hev). right. eauto. }
  constructor; [eapply step_of_indexed; [exact H|exact Hidx]|].
  intros k Hk Hwl blk live0 insn j o Hb Hl Hinsn Hphi Hj Ho Ht.
  rewrite (step_of_blocks_length _ _ _ H) in Hk.
  apply Hkeep in Hl; [|exact Hwl].
  destruct (decide (k = idx)) as [->|Hne].
  - destruct (process_block_phi_flags _ _ _ Hproc Hidx)
      as (blk' & live0' & Hb' & Hl' & Hflags).
    cbn in Hl'. assert (blk' = blk) as -> by congruence.
    assert (live0' = live0) as -> by congruence.
    eapply Hflags; eassumption.
  - rewrite (step_of_other_block _ _ _ _ H Hne) in Hb.
    eapply (Hfl k Hk); try eassumption.
    intros Hin. apply Hwl. apply (step_of_worklist_grows _ _ _ H). cbn. set_solver.
Qed.

Lemma initial_phis_flagged prog :
  indexed (blocks prog) -> phis_flagged (initial_analysis prog).
Proof.
  intros Hidx. constructor; [exact Hidx|].
  cbn. intros b Hb Hwl. exfalso. apply Hwl.
  apply lookup_lt_is_Some in Hb as [blk Hblk].
  apply elem_of_list_to_set, list_elem_of_fmap. exists blk.
  split; [symmetry; apply Hidx; assumption|].
  eapply list_elem_of_lookup_2. eassumption.
Qed.

(** Kill flags of the phi operands after the analysis: the operand a phi
    reads for one of its predecessors is marked as kill if and only if
    its register is not live at the top of the block of the phi. *)
Theorem phi_operand_kill_flags fuel prog a nd b blk live0 i insn j o :
  indexed (blocks prog) ->
  worklist_loop fuel (initial_analysis prog) zero_demand = Some (Ok (a, nd)) ->
  blocks (program a) !! b = Some blk ->
  live_out (lives a) !! b = Some live0 ->
  instructions blk !! i = Some insn -> is_phi insn = true ->
  (j < length (phi_preds blk insn))%nat ->
  operands insn !! j = Some o -> op_isTemp o = true ->
  op_isKill o = negb (bool_decide (tempId o ∈ live_in_of blk live0)).
Proof.
  intros Hidx H Hb Hl Hi Hphi Hj Ho Ht.
  assert (Hlt : (b < length (blocks (program a)))%nat)
    by (eapply lookup_lt_Some; eassumption).
  destruct (worklist_loop_invariant (fun a _ => phis_flagged a)
              (fun a nd a' nd' => worklist_step_phis_flagged a nd a' nd')
              fuel _ _ _ _ (initial_phis_flagged prog Hidx) H) as [_ Hfl].
  eapply (Hfl b Hlt); try eassumption.
  - rewrite (worklist_loop_empty _ _ _ _ _ H). set_solver.
  - eapply list_elem_of_lookup_2. exact Hi.
Qed.

End PhiFlags.

Lemma phi_operand_kill_flags_witness :
  exists a nd blk insn o,
    worklist_loop 4 (initial_analysis diamond) zero_demand = Some (Ok (a, nd)) /\
    blocks (program a) !! 3%nat = Some blk /\
    instructions blk !! 0%nat = Some insn /\
    operands insn !! 0%nat = Some o /\
    op_isKill o = true.
Proof.
  assert (E : exists a nd blk insn o,
    worklist_loop 4 (initial_analysis diamond) zero_demand = Some (Ok (a, nd)) /\
    blocks (program a) !! 3%nat = Some blk /\
    live_out (lives a) !! 3%nat = Some ∅ /\
    instructions blk !! 0%nat = Some insn /\ is_phi insn = true /\
    (0 < length (phi_preds blk insn))%nat /\
    operands insn !! 0%nat = Some o /\ op_isTemp o = true /\
    negb (bool_decide (tempId o ∈ live_in_of blk ∅)) = true).
  { eexists _, _, _, _, _. split; [vm_compute; reflexivity|].
    split; [reflexivity|]. split; [vm_compute; reflexivity|].
    split; [reflexivity|]. split; [reflexivity|].
    split; [cbn; lia|]. split; [reflexivity|]. split; [reflexivity|].
    vm_compute. reflexivity. }
  destruct E as (a & nd & blk & insn & o & Hloop & Hb & Hl & Hi & Hphi & Hj & Ho &
                 Ht & Hkill).
  exists a, nd, blk, insn, o.
  split; [exact Hloop|]. split; [exact Hb|]. split; [exact Hi|]. split; [exact Ho|].
  rewrite (phi_operand_kill_flags 4 diamond a nd 3 blk ∅ 0 insn 0 o
             diamond_indexed Hloop Hb Hl Hi Hphi Hj Ho Ht).
  exact Hkill.
Defined.

(** The diamond is well formed. *)
Lemma diamond_well_formed : well_formed diamond.
Proof.
  constructor.
  - exact diamond_indexed.
  - intros [|[|[|[|b]]]] blk p H Hp; cbn in H; try discriminate H;
      injection H as <-; cbn in Hp; destruct Hp as [Hp|Hp];
      repeat (apply elem_of_cons in Hp as [->|Hp]; [cbn; lia|]);
      apply elem_of_nil in Hp; contradiction.
  - assert (H : Forall (fun t => is_Some (temp_rc diamond !! t))
                  (elements (program_uses diamond))).
    { apply (proj1 (bool_decide_eq_true _)). vm_compute. reflexivity. }
    rewrite Forall_forall in H. intros t Ht. apply H, elem_of_elements, Ht.
  - intros [|[|[|[|b]]]] blk H; cbn in H; try discriminate H; injection H as <-.
    + exists [], (instructions (block_of 0
                    [instr (other_op 1) [] [def (tmp 0 v1)];
                     instr p_logical_end [] []] [] [])).
      split; [reflexivity|]. split; repeat constructor.
    + exists [], (instructions (block_of 1
                    [instr (other_op 2) [use (tmp 0 v1)] [def (tmp 1 v1)];
                     instr p_logical_end [] []] [0%nat] [0%nat])).
      split; [reflexivity|]. split; repeat constructor.
    + exists [], (instructions (block_of 2
                    [instr (other_op 3) [use (tmp 0 v1)] [];
                     instr p_logical_end [] []] [0%nat] [0%nat])).
      split; [reflexivity|]. split; repeat constructor.
    + exists [instr p_phi [use (tmp 1 v1); constant] [def (tmp 2 v1)]],
        [instr (other_op 4) [use (tmp 2 v1)] []; instr p_logical_end [] []].
      split; [reflexivity|]. split; [|repeat constructor].
      constructor; [|constructor]. split; [reflexivity|]. split.
      * eexists. split; [reflexivity|]. discriminate.
      * cbn. lia.
Qed.

Lemma analysis_safe_witness :
  (exists a nd,
     worklist_loop (length (blocks diamond) * size (program_temps diamond)
                    + length (blocks diamond))
       (initial_analysis diamond) zero_demand = Some (Ok (a, nd))) \/
  worklist_loop (length (blocks diamond) * size (program_temps diamond)
                 + length (blocks diamond))
    (initial_analysis diamond) zero_demand = Some (Err (AssertionFailed 238)).
Proof. apply (analysis_safe diamond). exact diamond_well_formed. Defined.

(* ================================================================== *)
(** ** The running demand is the size of the live registers *)

(** The size a register takes in the vector and in the scalar bank,
    after its class in [temp_rc]. *)
Definition vsize (rcs : list RegClass) (t : nat) : Z :=
  match rcs !! t with
  | Some rc => match rc_type rc with RegType_vgpr => rc_size rc | RegType_sgpr => 0%Z end
  | None => 0%Z
  end.

Definition ssize (rcs : list RegClass) (t : nat) : Z :=
  match rcs !! t with
  | Some rc => match rc_type rc with RegType_sgpr => rc_size rc | RegType_vgpr => 0%Z end
  | None => 0%Z
  end.

Definition zsum (f : nat -> Z) (L : gset nat) : Z :=
  foldr Z.add 0%Z (f <$> elements L).

(** The demand of a set of live registers, in 16-bit counters. *)
Definition live_demand (rcs : list RegClass) (L : gset nat) : RegisterDemand :=
  {| vgpr := i16 (zsum (vsize rcs) L); sgpr := i16 (zsum (ssize rcs) L) |}.

(** The references of an instruction carry the class [temp_rc] gives to
    their register. *)
Definition insn_classed (rcs : list RegClass) (insn : Instruction) : Prop :=
  Forall (fun o => op_isTemp o = true ->
                   rcs !! tempId o = Some (regClass (op_temp o))) (operands insn) /\
  Forall (fun d => def_isTemp d = true ->
                   rcs !! id (def_temp d) = Some (regClass (def_temp d)))
         (definitions insn).

Definition classed (prog : Program) : Prop :=
  forall b blk insn, blocks prog !! b = Some blk -> insn ∈ instructions blk ->
    insn_classed (temp_rc prog) insn.

(** The number of markers of the end of the logical part in a list of
    instructions. *)
Definition logical_ends (insns : list Instruction) : Z :=
  Z.of_nat (length (filter (fun i => is_logical_end i = true) insns)).

(** The running demand of a scan state: the size of the live registers,
    the scalar counter shifted by [c]. *)
Definition tracks (rcs : list RegClass) (c : Z) (st : scan) : Prop :=
  vgpr (s_new_demand st) = i16 (zsum (vsize rcs) (s_live st)) /\
  sgpr (s_new_demand st) = i16 (zsum (ssize rcs) (s_live st) + c).

Section LiveDemand.
Local Open Scope Z_scope.

Lemma zsum_list_perm (f : nat -> Z) l l' :
  l ≡ₚ l' -> foldr Z.add 0 (f <$> l) = foldr Z.add 0 (f <$> l').
Proof. induction 1; cbn; lia. Qed.

Lemma zsum_insert f t (L : gset nat) :
  t ∉ L -> zsum f ({[t]} ∪ L) = f t + zsum f L.
Proof.
  intros Ht. unfold zsum.
  rewrite (zsum_list_perm f _ _ (elements_union_singleton L t Ht)). reflexivity.
Qed.

Lemma zsum_delete f t (L : gset nat) :
  t ∈ L -> zsum f (L ∖ {[t]}) = zsum f L - f t.
Proof.
  intros Ht.
  assert (HL : L = {[t]} ∪ (L ∖ {[t]})).
  { apply set_eq. intros x. destruct (decide (x = t)); set_solver. }
  rewrite HL at 2. rewrite zsum_insert by set_solver. lia.
Qed.

Lemma vsize_classed (rcs : list RegClass) (t : Temp) :
  rcs !! id t = Some (regClass t) ->
  vsize rcs (id t) = match type t with RegType_vgpr => temp_size t | RegType_sgpr => 0 end /\
  ssize rcs (id t) = match type t with RegType_sgpr => temp_size t | RegType_vgpr => 0 end.
Proof. intros H. unfold vsize, ssize, type, temp_size. rewrite H. auto. Qed.

Lemma tracks_add rcs c (L : gset nat) nd (t : Temp) v :
  rcs !! id t = Some (regClass t) -> id t ∉ L ->
  tracks rcs c {| s_live := L; s_new_demand := nd; s_needs_vcc := v |} ->
  forall v', tracks rcs c {| s_live := {[id t]} ∪ L;
                             s_new_demand := demand_add_temp nd t;
                             s_needs_vcc := v' |}.
Proof.
  intros Hrc Ht [Hv Hs] v'. destruct (vsize_classed _ _ Hrc) as [Ev Es].
  unfold tracks in *. cbn in *. rewrite !zsum_insert by assumption.
  rewrite Ev, Es. unfold demand_add_temp. destruct (type t); cbn.
  - split; [rewrite Hv; f_equal; lia|].
    rewrite Hs, i16_add_l. f_equal; lia.
  - split; [|rewrite Hs; f_equal; lia].
    rewrite Hv, i16_add_l. f_equal; lia.
Qed.

Lemma tracks_sub rcs c (L : gset nat) nd (t : Temp) v :
  rcs !! id t = Some (regClass t) -> id t ∈ L ->
  tracks rcs c {| s_live := L; s_new_demand := nd; s_needs_vcc := v |} ->
  forall v', tracks rcs c {| s_live := L ∖ {[id t]};
                             s_new_demand := demand_sub_temp nd t;
                             s_needs_vcc := v' |}.
Proof.
  intros Hrc Ht [Hv Hs] v'. destruct (vsize_classed _ _ Hrc) as [Ev Es].
  unfold tracks in *. cbn in *. rewrite !zsum_delete by assumption.
  rewrite Ev, Es. unfold demand_sub_temp. destruct (type t); cbn.
  - split; [rewrite Hv; f_equal; lia|].
    rewrite Hs, i16_sub_l. f_equal; lia.
  - split; [|rewrite Hs; f_equal; lia].
    rewrite Hv, i16_sub_l. f_equal; lia.
Qed.

Lemma tracks_vcc rcs c st v :
  tracks rcs c st ->
  tracks rcs c {| s_live := s_live st; s_new_demand := s_new_demand st;
                  s_needs_vcc := v |}.
Proof. intros H. exact H. Qed.

Lemma kill_definitions_tracks rcs c defs : forall st snap defs' st' snap',
  Forall (fun d => def_isTemp d = true ->
                   rcs !! id (def_temp d) = Some (regClass (def_temp d))) defs ->
  kill_definitions defs st snap = (defs', st', snap') ->
  tracks rcs c st -> tracks rcs c st'.
Proof.
  induction defs as [|d defs IH]; intros st snap defs' st' snap' Hc H Ht; cbn in H.
  - injection H as <- <- <-. exact Ht.
  - apply Forall_cons in Hc as [Hd Hc].
    destruct (def_isTemp d) eqn:Et; cbn in H.
    2:{ destruct (kill_definitions defs st snap) as [[r s] x] eqn:E.
        injection H as <- <- <-. eapply IH; eassumption. }
    specialize (Hd eq_refl). destruct st as [L nd v]. cbn in H.
    destruct (bool_decide _) eqn:El.
    + apply bool_decide_eq_true in El.
      destruct (kill_definitions defs _ snap) as [[r s] x] eqn:E.
      injection H as <- <- <-.
      eapply IH; [exact Hc|exact E|]. eapply tracks_sub; eassumption.
    + destruct (kill_definitions defs _ _) as [[r s] x] eqn:E.
      injection H as <- <- <-.
      eapply IH; [exact Hc|exact E|]. exact Ht.
Qed.

Lemma classed_mark (rcs : list RegClass) t rest :
  Forall (fun o => op_isTemp o = true ->
                   rcs !! tempId o = Some (regClass (op_temp o))) rest ->
  Forall (fun o => op_isTemp o = true ->
                   rcs !! tempId o = Some (regClass (op_temp o)))
         (mark_later_uses t rest).
Proof.
  unfold mark_later_uses. induction 1 as [|o rest Ho _ IH]; cbn; constructor; auto.
  destruct (_ && _); [|exact Ho]. exact Ho.
Qed.

Lemma classed_clear (rcs : list RegClass) ops :
  Forall (fun o => op_isTemp o = true ->
                   rcs !! tempId o = Some (regClass (op_temp o))) ops ->
  Forall (fun o => op_isTemp o = true ->
                   rcs !! tempId o = Some (regClass (op_temp o)))
         (map (op_setKill false) ops).
Proof. induction 1 as [|o rest Ho _ IH]; cbn; constructor; auto. Qed.

Lemma gen_operands_from_tracks rcs c n : forall ops st snap ops' st' snap',
  Forall (fun o => op_isTemp o = true ->
                   rcs !! tempId o = Some (regClass (op_temp o))) ops ->
  gen_operands_from n ops st snap = (ops', st', snap') ->
  tracks rcs c st -> tracks rcs c st'.
Proof.
  induction n as [|n IH]; intros ops st snap ops' st' snap' Hc H Ht.
  - cbn in H. destruct ops; injection H as <- <- <-; exact Ht.
  - destruct ops as [|o rest]; [cbn in H; injection H as <- <- <-; exact Ht|].
    apply Forall_cons in Hc as [Ho Hc]. cbn in H.
    destruct (op_isTemp o) eqn:Et; cbn in H.
    2:{ destruct (gen_operands_from n rest st snap) as [[r s] x] eqn:E.
        injection H as <- <- <-. eapply IH; eassumption. }
    specialize (Ho eq_refl). destruct st as [L nd v]. cbn in H.
    destruct (bool_decide _) eqn:El.
    + destruct (gen_operands_from n rest _ snap) as [[r s] x] eqn:E.
      injection H as <- <- <-. eapply IH; [exact Hc|exact E|]. exact Ht.
    + apply bool_decide_eq_false in El.
      destruct (gen_operands_from n _ _ _) as [[r s] x] eqn:E.
      injection H as <- <- <-.
      eapply IH; [apply classed_mark; exact Hc|exact E|].
      eapply tracks_add; eassumption.
Qed.

Lemma process_instruction_tracks rcs c phi insn st insn' snap st' :
  insn_classed rcs insn ->
  process_instruction phi insn st = (insn', snap, st') ->
  tracks rcs c st ->
  tracks rcs (if is_logical_end insn then c + phi else c) st'.
Proof.
  intros [Hops Hdefs] H Ht. unfold process_instruction in H.
  destruct (kill_definitions _ _ _) as [[defs' st1] snap1] eqn:Ek.
  pose proof (kill_definitions_tracks rcs c _ _ _ _ _ _ Hdefs Ek Ht) as [Hv Hs].
  destruct (is_logical_end insn).
  - injection H as <- <- <-. split; cbn; [exact Hv|].
    rewrite Hs, i16_add_l. f_equal; lia.
  - destruct (gen_operands _ _ _) as [[ops' st2] snap2] eqn:Eg.
    injection H as <- <- <-.
    eapply gen_operands_from_tracks; [|exact Eg|split; assumption].
    apply classed_clear. exact Hops.
Qed.

Lemma logical_ends_cons i insns :
  logical_ends (i :: insns)
  = (if is_logical_end i then 1 else 0) + logical_ends insns.
Proof.
  unfold logical_ends. rewrite filter_cons.
  destruct (decide (is_logical_end i = true)) as [->|Hn].
  - cbn [length]. lia.
  - destruct (is_logical_end i); [congruence|]. lia.
Qed.

Lemma scan_instructions_tracks rcs c phi body st :
  no_phi body -> Forall (insn_classed rcs) body -> tracks rcs c st ->
  tracks rcs (c + phi * logical_ends body)
    (sc_state (scan_instructions phi body st)).
Proof.
  intros Hnp Hc Ht. induction Hnp as [|i body Hi Hbody IH].
  - cbn. unfold logical_ends. cbn. rewrite Z.mul_0_r, Z.add_0_r. exact Ht.
  - apply Forall_cons in Hc as [Hci Hc].
    assert (Hnp : no_phi (i :: body)) by (constructor; assumption).
    rewrite (scan_instructions_cons_body phi i body st Hnp). cbn [sc_state].
    destruct (process_instruction phi i _) as [[i' snap] st'] eqn:E. cbn [snd].
    pose proof (process_instruction_tracks rcs _ phi i _ _ _ _ Hci E (IH Hc)) as H.
    rewrite logical_ends_cons.
    destruct (is_logical_end i);
      [replace (c + phi * (1 + logical_ends body))
         with (c + phi * logical_ends body + phi) by lia
      |replace (c + phi * (0 + logical_ends body))
         with (c + phi * logical_ends body) by lia]; exact H.
Qed.

Lemma initial_demand_tracks rcs ts : forall d nd x y,
  initial_demand rcs ts d = Ok nd ->
  vgpr d = i16 x -> sgpr d = i16 y ->
  vgpr nd = i16 (x + foldr Z.add 0 (vsize rcs <$> ts)) /\
  sgpr nd = i16 (y + foldr Z.add 0 (ssize rcs <$> ts)).
Proof.
  induction ts as [|t ts IH]; intros d nd x y H Hx Hy; cbn in H.
  - injection H as <-. cbn. rewrite !Z.add_0_r. auto.
  - apply bind_Ok in H as (rc & Hrc & H). apply of_option_Ok in Hrc.
    cbn [fmap list_fmap foldr].
    assert (Ev : vsize rcs t = match rc_type rc with RegType_vgpr => rc_size rc
                                                    | RegType_sgpr => 0 end)
      by (unfold vsize; rewrite Hrc; reflexivity).
    assert (Es : ssize rcs t = match rc_type rc with RegType_sgpr => rc_size rc
                                                    | RegType_vgpr => 0 end)
      by (unfold ssize; rewrite Hrc; reflexivity).
    rewrite Ev, Es.
    destruct (rc_type rc) eqn:Ety.
    + destruct (IH _ _ x (y + rc_size rc) H) as [H1 H2].
      * unfold demand_add_temp, type. cbn. rewrite Ety. cbn. exact Hx.
      * unfold demand_add_temp, type, temp_size. cbn. rewrite Ety. cbn.
        rewrite Hy, i16_add_l. reflexivity.
      * split; [rewrite H1; f_equal; lia|rewrite H2; f_equal; lia].
    + destruct (IH _ _ (x + rc_size rc) y H) as [H1 H2].
      * unfold demand_add_temp, type, temp_size. cbn. rewrite Ety. cbn.
        rewrite Hx, i16_add_l. reflexivity.
      * unfold demand_add_temp, type. cbn. rewrite Ety. cbn. exact Hy.
      * split; [rewrite H1; f_equal; lia|rewrite H2; f_equal; lia].
Qed.

Lemma insn_classed_same (rcs : list RegClass) insn insn' :
  same_instr insn insn' -> insn_classed rcs insn -> insn_classed rcs insn'.
Proof.
  intros (_ & Hops & Hdefs) [Hco Hcd]. split.
  - clear -Hops Hco. induction Hops as [|o o' l l' Ho _ IH]; [constructor|].
    apply Forall_cons in Hco as [H1 H2]. constructor; [|auto].
    destruct Ho as (E1 & E2 & _). unfold tempId in *. rewrite E1, E2. exact H1.
  - clear -Hdefs Hcd. induction Hdefs as [|d d' l l' [k ->] _ IH]; [constructor|].
    apply Forall_cons in Hcd as [H1 H2]. constructor; [|auto]. exact H1.
Qed.

(** The start state of the scan of an annotated block. *)
Lemma annotated_body_start a b :
  annotated a b ->
  exists blk live0 phi nd0 vcc0 phis body,
    blocks (program a) !! b = Some blk /\
    live_out (lives a) !! b = Some live0 /\
    phi_sgpr_ops a !! b = Some phi /\
    initial_demand (temp_rc (program a)) (elements live0) zero_demand = Ok nd0 /\
    instructions blk = phis ++ body /\
    Forall (fun i => is_phi i = true) phis /\ no_phi body /\
    let st0 := {| s_live := live0; s_new_demand := demand_sub_sgpr nd0 phi;
                  s_needs_vcc := vcc0 |} in
    sc_body (scan_instructions phi body st0) = body /\
    lives_register_demand (lives a) !! b
    = Some (replicate (length phis)
              (s_new_demand (sc_state (scan_instructions phi body st0)))
            ++ sc_demands (scan_instructions phi body st0)).
Proof.
  intros (blk & live0 & phi & nd0 & vcc0 & Hb & Hl & Hphi & Hnd & Hsc).
  cbn zeta in Hsc. destruct Hsc as (Hall & Hbody & Hrd).
  set (st0 := {| s_live := live0; s_new_demand := demand_sub_sgpr nd0 phi;
                 s_needs_vcc := vcc0 |}) in *.
  destruct (scan_instructions_split phi (instructions blk) st0)
    as (body & Hsplit & Hnp & Hscan & _).
  exists blk, live0, phi, nd0, vcc0,
    (sc_phis (scan_instructions phi (instructions blk) st0)), body.
  assert (Hbody' : sc_body (scan_instructions phi (instructions blk) st0) = body).
  { rewrite Hbody. rewrite Hsplit at 2. rewrite drop_app_length. reflexivity. }
  cbn zeta. fold st0. rewrite Hscan. cbn.
  repeat split; assumption.
Qed.

(** The meaning of a snapshot: after the analysis, on a program whose
    references carry the classes of [temp_rc], the snapshot of an
    instruction that is neither a phi nor the marker of the end of the
    logical part is the size of the registers live after it, plus the
    transient registers of the instruction; the scalar counter is low by
    [phi_sgpr_ops] of the block below the marker (no marker further down),
    exact above one marker. *)
Theorem snapshot_is_live_demand fuel prog a nd b blk live0 phi rd idx insn d :
  indexed (blocks prog) -> classed prog ->
  worklist_loop fuel (initial_analysis prog) zero_demand = Some (Ok (a, nd)) ->
  blocks (program a) !! b = Some blk ->
  live_out (lives a) !! b = Some live0 ->
  phi_sgpr_ops a !! b = Some phi ->
  lives_register_demand (lives a) !! b = Some rd ->
  instructions blk !! idx = Some insn ->
  is_phi insn = false -> is_logical_end insn = false ->
  rd !! idx = Some d ->
  d = demand_add
        (demand_add_sgpr
           (live_demand (temp_rc prog) (running_live (instructions blk) live0 idx))
           ((logical_ends (drop (idx + 1) (instructions blk)) - 1) * phi))
        (get_temp_registers insn).
Proof.
  intros Hidx Hclassed Hloop Hb Hl Hphi Hrd Hinsn Hnphi Hle Hd.
  assert (Hlt : (b < length (blocks (program a)))%nat)
    by (eapply lookup_lt_Some; eassumption).
  destruct (annotated_body_start _ _ (analysis_annotated _ _ _ _ _ Hidx Hloop Hlt))
    as (blk' & live0' & phi' & nd0 & vcc0 & phis & body & Hb' & Hl' & Hphi' & Hnd &
        Hsplit & Hall & Hnp & Hfix & Hrd').
  cbn zeta in Hfix, Hrd'.
  assert (blk' = blk) as -> by congruence.
  assert (live0' = live0) as -> by congruence.
  assert (phi' = phi) as -> by congruence.
  rewrite Hrd in Hrd'. injection Hrd' as ->.
  set (st0 := {| s_live := live0; s_new_demand := demand_sub_sgpr nd0 phi;
                 s_needs_vcc := vcc0 |}) in *.
  destruct (worklist_loop_keeps_code _ _ _ _ Hloop) as [Hblocks Hprog].
  assert (Hrc : temp_rc (program a) = temp_rc prog) by (rewrite Hprog; reflexivity).
  rewrite Hrc in Hnd.
  (* the instructions of the final block carry the classes *)
  assert (Hcb : Forall (insn_classed (temp_rc prog)) (instructions blk)).
  { destruct (Forall2_lookup_r _ _ _ _ _ Hblocks Hb) as (blk0 & Hb0 & Hs).
    destruct Hs as (_ & _ & _ & Hinsns).
    rewrite Forall_forall. intros i Hi.
    apply list_elem_of_lookup in Hi as [k Hk].
    destruct (Forall2_lookup_r _ _ _ _ _ Hinsns Hk) as (i0 & Hk0 & Hsi).
    eapply insn_classed_same; [exact Hsi|].
    eapply Hclassed; [exact Hb0|]. eapply list_elem_of_lookup_2. exact Hk0. }
  rewrite Hsplit in Hinsn, Hcb. rewrite Hsplit.
  apply Forall_app in Hcb as [_ Hcb].
  destruct (lookup_body _ _ _ _ Hall Hinsn Hnphi) as (j & -> & Hj).
  rewrite lookup_app_r in Hd by (rewrite length_replicate; lia).
  rewrite length_replicate in Hd.
  replace (length phis + j - length phis)%nat with j in Hd by lia.
  replace (length phis + j + 1)%nat with (length phis + S j)%nat by lia.
  rewrite drop_app_add.
  rewrite <- (running_live_body phi st0 phis body j live0 eq_refl).
  destruct (scan_instructions_lookup phi body st0 j insn Hnp Hj) as (B & D & _).
  cbn zeta in B, D. rewrite Hfix, Hj in B. rewrite Hd in D.
  set (stj := sc_state (scan_instructions phi (drop (S j) body) st0)) in *.
  destruct (process_instruction phi insn stj) as [[insn' snap] st'] eqn:E.
  cbn in B, D. injection B as <-. injection D as <-.
  (* the running demand below the instruction *)
  assert (Hst0 : tracks (temp_rc prog) (- phi) st0).
  { destruct (initial_demand_tracks _ _ _ _ 0 0 Hnd eq_refl eq_refl) as [Hv Hs].
    split; cbn; [rewrite Hv; reflexivity|].
    rewrite Hs, i16_sub_l. unfold zsum. f_equal; lia. }
  assert (Hnpj : no_phi (drop (S j) body)).
  { unfold no_phi in *. apply Forall_drop. exact Hnp. }
  pose proof (scan_instructions_tracks (temp_rc prog) (- phi) phi (drop (S j) body) st0
                Hnpj (Forall_drop _ _ _ Hcb) Hst0) as [Hv Hs].
  fold stj in Hv, Hs.
  assert (Hin : in_range (s_new_demand stj)).
  { apply scan_instructions_in_range. cbn. apply in_range_sub_sgpr.
    eapply initial_demand_in_range; [exact Hnd|apply in_range_zero]. }
  destruct (process_instruction_demand _ _ _ _ _ _ E Hle Hin) as (-> & _).
  f_equal. apply demand_eq; cbn.
  - exact Hv.
  - rewrite Hs, i16_add_l. f_equal; lia.
Qed.

End LiveDemand.

Lemma diamond_classed : classed diamond.
Proof.
  intros [|[|[|[|b]]]] blk insn H Hin; cbn in H; try discriminate H;
    injection H as <-; cbn in Hin;
    repeat (apply elem_of_cons in Hin as [->|Hin];
            [split; repeat constructor; discriminate|]);
    apply elem_of_nil in Hin; contradiction.
Qed.

Lemma snapshot_is_live_demand_witness :
  exists a nd blk rd insn d,
    worklist_loop 4 (initial_analysis diamond) zero_demand = Some (Ok (a, nd)) /\
    blocks (program a) !! 1%nat = Some blk /\
    lives_register_demand (lives a) !! 1%nat = Some rd /\
    instructions blk !! 0%nat = Some insn /\ rd !! 0%nat = Some d /\
    d = demand_add
          (demand_add_sgpr
             (live_demand (temp_rc diamond) (running_live (instructions blk) {[1%nat]} 0))
             ((logical_ends (drop (0 + 1) (instructions blk)) - 1) * 0))
          (get_temp_registers insn).
Proof.
  assert (E : exists a nd blk rd insn d,
    worklist_loop 4 (initial_analysis diamond) zero_demand = Some (Ok (a, nd)) /\
    blocks (program a) !! 1%nat = Some blk /\
    live_out (lives a) !! 1%nat = Some {[1%nat]} /\
    phi_sgpr_ops a !! 1%nat = Some 0%Z /\
    lives_register_demand (lives a) !! 1%nat = Some rd /\
    instructions blk !! 0%nat = Some insn /\
    is_phi insn = false /\ is_logical_end insn = false /\
    rd !! 0%nat = Some d).
  { eexists _, _, _, _, _, _. split; [vm_compute; reflexivity|].
    split; [reflexivity|]. split; [vm_compute; reflexivity|].
    split; [reflexivity|]. split; [reflexivity|]. split; [reflexivity|].
    split; [reflexivity|]. split; reflexivity. }
  destruct E as (a & nd & blk & rd & insn & d & Hloop & Hb & Hl & Hphi & Hrd & Hi &
                 Hp & Hle & Hd).
  exists a, nd, blk, rd, insn, d.
  split; [exact Hloop|]. split; [exact Hb|]. split; [exact Hrd|].
  split; [exact Hi|]. split; [exact Hd|].
  apply (snapshot_is_live_demand 4 diamond a nd 1 blk {[1%nat]} 0 rd 0 insn d
           diamond_indexed diamond_classed Hloop Hb Hl Hphi Hrd Hi Hp Hle Hd).
Defined.

(* ================================================================== *)
(** ** The live-out sets are the least solution *)

(** A family of sets, one per block, that satisfies the data-flow
    equations of the program: what is live at the top of a block is in
    the set of every predecessor the register's class follows, and what a
    phi reads for a predecessor is in the set of that predecessor. *)
Definition solution (prog : Program) (X : list (gset nat)) : Prop :=
  forall b blk Xb,
    blocks prog !! b = Some blk -> X !! b = Some Xb ->
    (forall t rc p,
        t ∈ live_in_of blk Xb -> temp_rc prog !! t = Some rc ->
        p ∈ preds_of blk rc ->
        exists Xp, X !! p = Some Xp /\ t ∈ Xp) /\
    (forall insn j p o,
        insn ∈ instructions blk -> is_phi insn = true ->
        phi_preds blk insn !! j = Some p -> operands insn !! j = Some o ->
        op_isTemp o = true ->
        exists Xp, X !! p = Some Xp /\ tempId o ∈ Xp).

(** The live-out sets of a state are below [X], and the blocks are those
    of the program up to flags. *)
Record below (prog : Program) (X : list (gset nat)) (a : analysis) : Prop := {
  below_indexed : indexed (blocks (program a));
  below_blocks : forall k blk', blocks (program a) !! k = Some blk' ->
                 exists blk, blocks prog !! k = Some blk /\ same_block blk blk';
  below_temp_rc : temp_rc (program a) = temp_rc prog;
  below_live_out : forall p live_p, live_out (lives a) !! p = Some live_p ->
                   exists Xp, X !! p = Some Xp /\ live_p ⊆ Xp
}.

Section Least.

Lemma step_of_below prog X a b a' :
  solution prog X -> step_of a b a' -> below prog X a -> below prog X a'.
Proof.
  intros Hsol Hstep [Hidx Hblocks Hrc Hlo].
  destruct (step_of_live_in _ _ _ Hstep)
    as (blk & blk' & live0 & phis1 & phis2 & body & st1 & Hb & Hb' & Hsame & Hl &
        Hin & _ & _ & (Hsplit & Hphis2 & Hall2 & Hnp) & Hev).
  assert (Hib : index blk = b) by (apply Hidx; assumption).
  rewrite Hib in Hl.
  destruct (Hblocks b blk Hb) as (blk0 & Hb0 & Hs0).
  destruct (Hlo b live0 Hl) as (Xb & HXb & Hsub).
  destruct (Hsol b blk0 Xb Hb0 HXb) as [S1 S2].
  pose proof Hs0 as (_ & Hlog0 & Hlin0 & Hinsns0).
  assert (Hs0' : same_block blk0 blk') by (eapply same_block_trans; eassumption).
  constructor.
  - eapply step_of_indexed; eassumption.
  - intros k blk1 Hk. destruct (decide (k = b)) as [->|Hne].
    + exists blk0. split; [assumption|]. congruence.
    + rewrite (step_of_other_block _ _ _ _ Hstep Hne) in Hk. auto.
  - rewrite (step_of_temp_rc _ _ _ Hstep). exact Hrc.
  - intros p live_p Hp.
    rewrite (insert_events_live_out _ _ _ _ _ _ _ p Hev) in Hp.
    destruct (live_out (lives a) !! p) as [live_p0|] eqn:Hp0; [|discriminate Hp].
    cbn in Hp. injection Hp as <-.
    destruct (Hlo p live_p0 Hp0) as (Xp & HXp & Hsubp).
    exists Xp. split; [assumption|].
    apply union_subseteq. split; [exact Hsubp|].
    intros t Ht. apply elem_of_event_ids in Ht as [inc Ht].
    apply elem_of_app in Ht as [Ht|Ht].
    + apply elem_of_merge_events in Ht as (_ & Htl & rc & Hrct & Hpp).
      destruct (S1 t rc p) as (Xp' & HXp' & HtX).
      * apply (live_in_of_mono blk' blk0 live0 Xb (same_block_sym _ _ Hs0') Hsub).
        rewrite Hin. apply elem_of_elements. exact Htl.
      * rewrite <- Hrc. exact Hrct.
      * unfold preds_of in *. rewrite <- Hlog0, <- Hlin0. exact Hpp.
      * congruence.
    + apply elem_of_phis_events_inv in Ht
        as (insn1 & j & o1 & Hin1 & Hp1 & Ho1 & Ht1 & Hid1).
      apply list_elem_of_lookup in Hin1 as [i Hi1].
      destruct (Forall2_lookup_l _ _ _ _ _ Hphis2 Hi1) as (insn2 & Hi2 & Hs12).
      assert (Hi2' : insn2 ∈ instructions blk').
      { rewrite Hsplit. apply elem_of_app. left.
        eapply list_elem_of_lookup_2. eassumption. }
      apply list_elem_of_lookup in Hi2' as [i' Hi2'].
      destruct Hs0' as (_ & Hlog' & Hlin' & Hinsns').
      destruct (Forall2_lookup_r _ _ _ _ _ Hinsns' Hi2') as (insn0 & Hi0 & Hs02).
      assert (Hs10 : same_instr insn1 insn0).
      { eapply same_instr_trans; [exact Hs12|]. apply same_instr_sym. exact Hs02. }
      pose proof Hs10 as (Hop & Hops & _).
      destruct (Forall2_lookup_l _ _ _ _ _ Hops Ho1) as (o0 & Ho0 & Hso).
      destruct (S2 insn0 j p o0) as (Xp' & HXp' & HtX).
      * eapply list_elem_of_lookup_2. eassumption.
      * rewrite (same_instr_is_phi _ _ (same_instr_sym _ _ Hs02)).
        rewrite Forall_forall in Hall2. apply Hall2.
        eapply list_elem_of_lookup_2. eassumption.
      * unfold phi_preds, phi_is_logical in *.
        rewrite Hop, <- Hlog0, <- Hlin0. exact Hp1.
      * exact Ho0.
      * destruct Hso as (Hso & _). congruence.
      * rewrite (same_ref_tempId _ _ Hso), Hid1 in HtX. congruence.
Qed.

Lemma initial_below prog X :
  indexed (blocks prog) -> length X = length (blocks prog) ->
  below prog X (initial_analysis prog).
Proof.
  intros Hidx Hlen. constructor; cbn.
  - exact Hidx.
  - intros k blk Hk. exists blk. split; [assumption|apply same_block_refl].
  - reflexivity.
  - intros p live_p Hp. apply lookup_replicate in Hp as [-> Hp].
    rewrite <- Hlen in Hp. apply lookup_lt_is_Some in Hp as [Xp HXp].
    exists Xp. split; [assumption|set_solver].
Qed.

(** The live-out sets of the analysis are the least solution of the
    data-flow equations: they are included, block by block, in every
    family of sets that satisfies the equations. *)
Theorem live_out_least fuel prog a nd X p live_p Xp :
  indexed (blocks prog) ->
  worklist_loop fuel (initial_analysis prog) zero_demand = Some (Ok (a, nd)) ->
  solution prog X -> length X = length (blocks prog) ->
  live_out (lives a) !! p = Some live_p -> X !! p = Some Xp ->
  live_p ⊆ Xp.
Proof.
  intros Hidx H Hsol Hlen Hp HXp.
  destruct (worklist_loop_invariant (fun a _ => below prog X a)) with
    (fuel := fuel) (a := initial_analysis prog) (nd := zero_demand)
    (a' := a) (nd' := nd) as [_ _ _ Hlo].
  - clear -Hsol. intros a nd a' nd' Hbe _ Hs. apply worklist_step_Ok in Hs.
    eapply step_of_below; [exact Hsol|exact Hs|].
    destruct Hbe as [H1 H2 H3 H4]. constructor; assumption.
  - apply initial_below; assumption.
  - exact H.
  - destruct (Hlo p live_p Hp) as (Xp' & HXp' & Hsub).
    assert (Xp' = Xp) as -> by congruence. exact Hsub.
Qed.

End Least.

(** Everything live out everywhere: a solution of the equations of the
    diamond. *)
Definition diamond_top : list (gset nat) :=
  [{[0%nat; 1%nat; 2%nat]}; {[0%nat; 1%nat; 2%nat]}; {[0%nat; 1%nat; 2%nat]};
   {[0%nat; 1%nat; 2%nat]}].

Lemma use_ids_uses_of insn insns :
  insn ∈ insns -> use_ids (operands insn) ⊆ uses_of insns.
Proof.
  induction insns as [|i insns IH]; intros Hin.
  - apply elem_of_nil in Hin. contradiction.
  - rewrite uses_of_cons. apply elem_of_cons in Hin as [->|Hin]; [set_solver|].
    specialize (IH Hin). set_solver.
Qed.

Lemma diamond_top_solution : solution diamond diamond_top.
Proof.
  assert (Hall : forall p t, (p < 4)%nat -> (t < 3)%nat ->
            exists Xp, diamond_top !! p = Some Xp /\ t ∈ Xp).
  { intros [|[|[|[|p]]]] t Hp Ht; try lia; eexists; (split; [reflexivity|]);
      destruct t as [|[|[|t]]]; try lia; set_solver. }
  pose proof diamond_well_formed as [_ Hpreds Hclasses _].
  intros b blk Xb Hb HX. split.
  - intros t rc p Ht Hrc Hp. apply Hall.
    + apply (Hpreds b blk p Hb). apply (preds_of_either blk rc). exact Hp.
    + apply lookup_lt_Some in Hrc. exact Hrc.
  - intros insn j p o Hin Hphi Hp Ho Ht. apply Hall.
    + apply (Hpreds b blk p Hb). apply list_elem_of_lookup_2 in Hp.
      unfold phi_preds in Hp. destruct (phi_is_logical insn); auto.
    + assert (Hu : tempId o ∈ program_uses diamond).
      { apply (uses_of_program_uses diamond b blk Hb).
        apply (use_ids_uses_of insn _ Hin). apply elem_of_use_ids.
        exists o. split; [eapply list_elem_of_lookup_2; exact Ho|]. auto. }
      destruct (Hclasses _ Hu) as [rc Hrc].
      apply lookup_lt_Some in Hrc. exact Hrc.
Qed.

Lemma live_out_least_witness :
  exists a nd live_p,
    worklist_loop 4 (initial_analysis diamond) zero_demand = Some (Ok (a, nd)) /\
    live_out (lives a) !! 1%nat = Some live_p /\
    live_p ⊆ {[0%nat; 1%nat; 2%nat]}.
Proof.
  assert (E : exists a nd live_p,
    worklist_loop 4 (initial_analysis diamond) zero_demand = Some (Ok (a, nd)) /\
    live_out (lives a) !! 1%nat = Some live_p).
  { eexists _, _, _. split; [vm_compute; reflexivity|]. reflexivity. }
  destruct E as (a & nd & live_p & Hloop & Hl).
  exists a, nd, live_p. split; [exact Hloop|]. split; [exact Hl|].
  apply (live_out_least 4 diamond a nd diamond_top 1 live_p {[0%nat; 1%nat; 2%nat]}
           diamond_indexed Hloop diamond_top_solution eq_refl Hl eq_refl).
Defined.

(* ================================================================== *)
(** ** The live change of an instruction *)

Section LiveChanges.
Local Open Scope Z_scope.

Lemma i16_mod x : i16 x mod 65536 = x mod 65536.
Proof.
  unfold i16. rewrite (Z.mod_eq (x + 32768) 65536) by lia.
  replace (x + 32768 - 65536 * ((x + 32768) / 65536) - 32768)
    with (x + (- ((x + 32768) / 65536)) * 65536) by lia.
  apply Z.mod_add. lia.
Qed.

Lemma i16_eq_mod x y : x mod 65536 = y mod 65536 -> i16 x = i16 y.
Proof.
  intros H. unfold i16.
  rewrite <- (Z.add_mod_idemp_l x), <- (Z.add_mod_idemp_l y) by lia.
  rewrite H. reflexivity.
Qed.

Lemma i16_cancel x y c : i16 (x + c) = i16 (y + c) -> i16 x = i16 y.
Proof.
  intros H. apply i16_eq_mod.
  assert (H1 : (x + c) mod 65536 = (y + c) mod 65536)
    by (rewrite <- i16_mod, H, i16_mod; reflexivity).
  replace x with (x + c - c) by lia. replace y with (y + c - c) by lia.
  rewrite <- (Zminus_mod_idemp_l (x + c)), <- (Zminus_mod_idemp_l (y + c)), H1.
  reflexivity.
Qed.

(** [get_live_changes] of an annotated instruction is the size of the
    registers live after it minus the size of those live before it. *)
Theorem live_changes_is_demand_delta fuel prog a nd b blk live0 idx insn :
  indexed (blocks prog) -> classed prog ->
  worklist_loop fuel (initial_analysis prog) zero_demand = Some (Ok (a, nd)) ->
  blocks (program a) !! b = Some blk ->
  live_out (lives a) !! b = Some live0 ->
  instructions blk !! idx = Some insn ->
  is_phi insn = false -> is_logical_end insn = false ->
  live_demand (temp_rc prog)
    (live_through insn (running_live (instructions blk) live0 idx))
  = demand_sub
      (live_demand (temp_rc prog) (running_live (instructions blk) live0 idx))
      (get_live_changes insn).
Proof.
  intros Hidx Hclassed Hloop Hb Hl Hinsn Hnphi Hle.
  assert (Hlt : (b < length (blocks (program a)))%nat)
    by (eapply lookup_lt_Some; eassumption).
  destruct (annotated_body_start _ _ (analysis_annotated _ _ _ _ _ Hidx Hloop Hlt))
    as (blk' & live0' & phi & nd0 & vcc0 & phis & body & Hb' & Hl' & Hphi' & Hnd &
        Hsplit & Hall & Hnp & Hfix & _).
  cbn zeta in Hfix.
  assert (blk' = blk) as -> by congruence.
  assert (live0' = live0) as -> by congruence.
  set (st0 := {| s_live := live0; s_new_demand := demand_sub_sgpr nd0 phi;
                 s_needs_vcc := vcc0 |}) in *.
  destruct (worklist_loop_keeps_code _ _ _ _ Hloop) as [Hblocks Hprog].
  assert (Hrc : temp_rc (program a) = temp_rc prog) by (rewrite Hprog; reflexivity).
  rewrite Hrc in Hnd.
  assert (Hcb : Forall (insn_classed (temp_rc prog)) (instructions blk)).
  { destruct (Forall2_lookup_r _ _ _ _ _ Hblocks Hb) as (blk0 & Hb0 & Hs).
    destruct Hs as (_ & _ & _ & Hinsns).
    rewrite Forall_forall. intros i Hi.
    apply list_elem_of_lookup in Hi as [k Hk].
    destruct (Forall2_lookup_r _ _ _ _ _ Hinsns Hk) as (i0 & Hk0 & Hsi).
    eapply insn_classed_same; [exact Hsi|].
    eapply Hclassed; [exact Hb0|]. eapply list_elem_of_lookup_2. exact Hk0. }
  rewrite Hsplit in Hinsn, Hcb. rewrite Hsplit.
  apply Forall_app in Hcb as [_ Hcb].
  destruct (lookup_body _ _ _ _ Hall Hinsn Hnphi) as (j & -> & Hj).
  rewrite <- (running_live_body phi st0 phis body j live0 eq_refl).
  destruct (scan_instructions_lookup phi body st0 j insn Hnp Hj) as (B & _ & _).
  cbn zeta in B. rewrite Hfix, Hj in B.
  set (stj := sc_state (scan_instructions phi (drop (S j) body) st0)) in *.
  destruct (process_instruction phi insn stj) as [[insn' snap] st'] eqn:E.
  cbn in B. injection B as <-.
  assert (Hst0 : tracks (temp_rc prog) (- phi) st0).
  { destruct (initial_demand_tracks _ _ _ _ 0 0 Hnd eq_refl eq_refl) as [Hv Hs].
    split; cbn; [rewrite Hv; reflexivity|].
    rewrite Hs, i16_sub_l. unfold zsum. f_equal; lia. }
  assert (Hnpj : no_phi (drop (S j) body)).
  { unfold no_phi in *. apply Forall_drop. exact Hnp. }
  pose proof (scan_instructions_tracks (temp_rc prog) (- phi) phi (drop (S j) body) st0
                Hnpj (Forall_drop _ _ _ Hcb) Hst0) as Htj.
  fold stj in Htj.
  assert (Hci : insn_classed (temp_rc prog) insn).
  { rewrite Forall_forall in Hcb. apply Hcb.
    eapply list_elem_of_lookup_2. exact Hj. }
  pose proof (process_instruction_tracks _ _ phi insn stj _ _ _ Hci E Htj) as Ht'.
  rewrite Hle in Ht'.
  assert (Hin : in_range (s_new_demand stj)).
  { apply scan_instructions_in_range. cbn. apply in_range_sub_sgpr.
    eapply initial_demand_in_range; [exact Hnd|apply in_range_zero]. }
  destruct (process_instruction_demand _ _ _ _ _ _ E Hle Hin) as (_ & Hnd' & _).
  rewrite <- (process_instruction_live _ _ _ _ _ _ E).
  destruct Htj as [Hv Hs]. destruct Ht' as [Hv' Hs'].
  rewrite Hnd' in Hv', Hs'. cbn in Hv', Hs'.
  rewrite Hv in Hv'. rewrite Hs in Hs'.
  apply demand_eq; cbn.
  - rewrite i16_sub_l. rewrite i16_sub_l in Hv'. symmetry. exact Hv'.
  - rewrite i16_sub_l. rewrite i16_sub_l in Hs'.
    symmetry. apply (i16_cancel _ _ (- phi + phi * logical_ends (drop (S j) body))).
    rewrite <- Hs'. f_equal. lia.
Qed.

End LiveChanges.

Lemma live_changes_is_demand_delta_witness :
  exists a nd blk insn,
    worklist_loop 4 (initial_analysis diamond) zero_demand = Some (Ok (a, nd)) /\
    blocks (program a) !! 1%nat = Some blk /\
    instructions blk !! 0%nat = Some insn /\
    live_demand (temp_rc diamond)
      (live_through insn (running_live (instructions blk) {[1%nat]} 0))
    = demand_sub
        (live_demand (temp_rc diamond) (running_live (instructions blk) {[1%nat]} 0))
        (get_live_changes insn).
Proof.
  assert (E : exists a nd blk insn,
    worklist_loop 4 (initial_analysis diamond) zero_demand = Some (Ok (a, nd)) /\
    blocks (program a) !! 1%nat = Some blk /\
    live_out (lives a) !! 1%nat = Some {[1%nat]} /\
    instructions blk !! 0%nat = Some insn /\
    is_phi insn = false /\ is_logical_end insn = false).
  { eexists _, _, _, _. split; [vm_compute; reflexivity|].
    split; [reflexivity|]. split; [vm_compute; reflexivity|].
    split; [reflexivity|]. split; reflexivity. }
  destruct E as (a & nd & blk & insn & Hloop & Hb & Hl & Hi & Hp & Hle).
  exists a, nd, blk, insn.
  split; [exact Hloop|]. split; [exact Hb|]. split; [exact Hi|].
  apply (live_changes_is_demand_delta 4 diamond a nd 1 blk {[1%nat]} 0 insn
           diamond_indexed diamond_classed Hloop Hb Hl Hi Hp Hle).
Defined.

(* ================================================================== *)
(** ** Monotonicity of the per-block step *)

Section StepMonotone.

(** The insertions of a step depend on the block through its
    predecessors only. *)
Lemma merge_events_preds rcs blk blk' ts :
  logical_preds blk' = logical_preds blk -> linear_preds blk' = linear_preds blk ->
  merge_events rcs blk' ts = merge_events rcs blk ts.
Proof.
  intros H1 H2. induction ts as [|t ts IH]; [reflexivity|].
  cbn. rewrite IH. unfold preds_of. rewrite H1, H2. reflexivity.
Qed.

Lemma phis_events_preds blk blk' phis :
  logical_preds blk' = logical_preds blk -> linear_preds blk' = linear_preds blk ->
  phis_events blk' phis = phis_events blk phis.
Proof.
  intros H1 H2. induction phis as [|i phis IH]; [reflexivity|].
  cbn. rewrite IH. unfold phi_preds. rewrite H1, H2. reflexivity.
Qed.

(** A step keeps the code of every block, the register classes and the
    number of live-out sets. *)
Lemma step_of_same_code a b a' :
  step_of a b a' ->
  Forall2 same_block (blocks (program a)) (blocks (program a')) /\
  temp_rc (program a') = temp_rc (program a) /\
  length (live_out (lives a')) = length (live_out (lives a)).
Proof.
  intros Hstep. split; [|split].
  - apply Forall2_same_length_lookup. split.
    + symmetry. eapply step_of_blocks_length. exact Hstep.
    + intros k blk blk' Hk Hk'.
      destruct (step_of_same_blocks _ _ _ _ _ Hstep Hk) as (blk2 & Hk2 & Hs).
      congruence.
  - eapply step_of_temp_rc. exact Hstep.
  - destruct Hstep. eapply insert_events_length. exact Hevents.
Qed.

(** C8: the step is monotone in the stored live-out sets, whatever the
    flags, the stored demands and [needs_vcc] are.  On two states whose
    programs have the same code up to annotations and the same register
    classes, when every live-out set of one state is included in the set
    of the other at the same block, the same holds after the step on any
    block; in particular a re-run of the step on the program it has
    annotated, with a larger live-out set of the block, sends at least
    the same registers to each predecessor. *)
Theorem step_monotone a1 a2 b a1' a2' :
  Forall2 same_block (blocks (program a1)) (blocks (program a2)) ->
  temp_rc (program a1) = temp_rc (program a2) ->
  Forall2 (⊆) (live_out (lives a1)) (live_out (lives a2)) ->
  process_live_temps_per_block a1 b = Ok a1' ->
  process_live_temps_per_block a2 b = Ok a2' ->
  Forall2 (⊆) (live_out (lives a1')) (live_out (lives a2')).
Proof.
  intros Hcode Hrcs Hsub H1 H2.
  apply process_block_Ok in H1. apply process_block_Ok in H2.
  destruct H1 as [blk1 live1 nd1 phi1 phisA1 phisB1 st1 vcc1 Hblk1 _ Hlive1 _ _
                    Hdefs1 Hev1 Hrcs1 _ _ _ _].
  destruct H2 as [blk2 live2 nd2 phi2 phisA2 phisB2 st2 vcc2 Hblk2 _ Hlive2 _ _
                    Hdefs2 Hev2 Hrcs2 _ _ _ _].
  assert (Hsb : same_block blk1 blk2) by (eapply Forall2_lookup_lr; eauto).
  destruct Hsb as (Hidx & Hlog & Hlin & Hinsns).
  rewrite Hidx in Hlive2.
  assert (Hl : live1 ⊆ live2) by (eapply Forall2_lookup_lr; eauto).
  destruct (scan_instructions_same_mono phi1 phi2 _ _ Hinsns
              (scan_start a1 live1 nd1 phi1) (scan_start a2 live2 nd2 phi2) Hl)
    as [Hphis Hlive].
  apply phi_definitions_Ok in Hdefs1 as (_ & Hsame1 & Hst1 & _).
  apply phi_definitions_Ok in Hdefs2 as (_ & Hsame2 & Hst2 & _).
  assert (Hin : s_live st1 ⊆ s_live st2).
  { rewrite Hst1, Hst2, (phi_def_ids_same _ _ Hphis). set_solver. }
  apply Forall2_same_length_lookup. split.
  { apply insert_events_length in Hev1 as [-> _].
    apply insert_events_length in Hev2 as [-> _].
    eapply Forall2_length; eauto. }
  intros k S1 S2 HS1 HS2.
  rewrite (insert_events_live_out _ _ _ _ _ _ _ k Hev1) in HS1.
  rewrite (insert_events_live_out _ _ _ _ _ _ _ k Hev2) in HS2.
  destruct (live_out (lives a1) !! k) as [T1|] eqn:E1; [|discriminate].
  destruct (live_out (lives a2) !! k) as [T2|] eqn:E2; [|discriminate].
  injection HS1 as <-. injection HS2 as <-.
  assert (T1 ⊆ T2) by (eapply Forall2_lookup_lr; eauto).
  rewrite !event_ids_app.
  rewrite (merge_events_preds _ blk1 blk2), (phis_events_preds blk1 blk2)
    by assumption.
  rewrite (phis_events_same _ _ _ Hsame1), (phis_events_same _ _ _ Hsame2),
    (phis_events_same _ _ _ Hphis).
  rewrite <- Hrcs.
  assert (event_ids k (merge_events (temp_rc (program a1)) blk1 (elements (s_live st1)))
          ⊆ event_ids k (merge_events (temp_rc (program a1)) blk1 (elements (s_live st2)))).
  { intros t. rewrite !elem_of_event_ids. intros [inc He].
    apply elem_of_merge_events in He as (-> & Ht & rc & Hrc & Hp).
    exists None. eapply merge_events_complete; eauto.
    - rewrite Hrcs. exact Hrcs2.
    - apply elem_of_elements. apply elem_of_elements in Ht. auto. }
  set_solver.
Qed.

End StepMonotone.

Lemma step_monotone_witness :
  exists s1 s2 s3 a1' a2',
    process_live_temps_per_block (initial_analysis diamond) 3 = Ok s1 /\
    process_live_temps_per_block s1 2 = Ok s2 /\
    process_live_temps_per_block s2 1 = Ok s3 /\
    process_live_temps_per_block (initial_analysis diamond) 1 = Ok a1' /\
    process_live_temps_per_block s3 1 = Ok a2' /\
    Forall2 (⊆) (live_out (lives a1')) (live_out (lives a2')).
Proof.
  assert (E : exists s1 s2 s3 a1' a2',
    process_live_temps_per_block (initial_analysis diamond) 3 = Ok s1 /\
    process_live_temps_per_block s1 2 = Ok s2 /\
    process_live_temps_per_block s2 1 = Ok s3 /\
    process_live_temps_per_block (initial_analysis diamond) 1 = Ok a1' /\
    process_live_temps_per_block s3 1 = Ok a2').
  { eexists _, _, _, _, _.
    split; [vm_compute; reflexivity|]. split; [vm_compute; reflexivity|].
    split; [vm_compute; reflexivity|]. split; [vm_compute; reflexivity|].
    vm_compute. reflexivity. }
  destruct E as (s1 & s2 & s3 & a1' & a2' & E1 & E2 & E3 & E4 & E5).
  exists s1, s2, s3, a1', a2'.
  split; [exact E1|]. split; [exact E2|]. split; [exact E3|].
  split; [exact E4|]. split; [exact E5|].
  destruct (step_of_same_code _ _ _ (process_block_Ok _ _ _ E1)) as (B1 & R1 & L1).
  destruct (step_of_same_code _ _ _ (process_block_Ok _ _ _ E2)) as (B2 & R2 & L2).
  destruct (step_of_same_code _ _ _ (process_block_Ok _ _ _ E3)) as (B3 & R3 & L3).
  apply (step_monotone (initial_analysis diamond) s3 1 a1' a2');
    [| |  |exact E4|exact E5].
  - eapply Forall2_trans; [apply same_block_trans| |exact B3].
    eapply Forall2_trans; [apply same_block_trans|exact B1|exact B2].
  - rewrite R3, R2, R1. reflexivity.
  - apply Forall2_same_length_lookup. split; [rewrite L3, L2, L1; reflexivity|].
    intros i x y Hx Hy.
    change (live_out (lives (initial_analysis diamond)))
      with (replicate 4 (∅ : gset nat)) in Hx.
    apply lookup_replicate in Hx as [-> _].
    apply empty_subseteq.
Defined.

(* ================================================================== *)
(** ** The assertion on the entry block *)

(** The demand at the top of the entry block, computed as the step
    computes it from the stored live-out set and the stored count of
    scalar phi operands, is zero. *)
Definition entry_zero (a : analysis) : Prop :=
  forall blk live0 nd0 phi vcc,
    blocks (program a) !! 0%nat = Some blk ->
    live_out (lives a) !! 0%nat = Some live0 ->
    initial_demand (temp_rc (program a)) (elements live0) zero_demand = Ok nd0 ->
    phi_sgpr_ops a !! 0%nat = Some phi ->
    s_new_demand
      (sc_state (scan_instructions phi (instructions blk)
                   {| s_live := live0; s_new_demand := demand_sub_sgpr nd0 phi;
                      s_needs_vcc := vcc |}))
    = zero_demand.

Record entry_checked (a : analysis) : Prop := {
  entry_indexed : indexed (blocks (program a));
  entry_checked_zero : 0%nat ∉ worklist a -> entry_zero a
}.

Section Entry.

Lemma demand_eqb_eq d d' : demand_eqb d d' = true -> d = d'.
Proof.
  unfold demand_eqb. intros H. apply andb_true_iff in H as [H1 H2].
  apply Z.eqb_eq in H1, H2. apply demand_eq; assumption.
Qed.

(** The step on the entry block leaves the demand it has asserted. *)
Lemma step_of_entry a a' :
  step_of a 0 a' -> indexed (blocks (program a)) ->
  0%nat ∉ worklist a' -> entry_zero a'.
Proof.
  intros [] Hidx Hwl blk' live0' nd0' phi' vcc Hb' Hl' Hnd' Hphi'.
  assert (Hib : index blk = 0%nat) by (apply Hidx; assumption).
  rewrite Hib in *.
  assert (Hids : event_ids 0
                   (merge_events (temp_rc (program a)) blk (elements (s_live st1))
                    ++ phis_events blk phis1) ⊆ live0).
  { destruct (decide (event_ids 0
                   (merge_events (temp_rc (program a)) blk (elements (s_live st1))
                    ++ phis_events blk phis1) ⊆ live0)) as [?|Hn]; [assumption|].
    exfalso. apply Hwl.
    apply (insert_events_worklist _ _ _ _ _ _ _ 0%nat Hevents). right. eauto. }
  destruct (Hentry eq_refl) as [Hzero _]. apply demand_eqb_eq in Hzero.
  unfold scan_start in *.
  set (st0 := {| s_live := live0; s_new_demand := demand_sub_sgpr nd0 phi;
                 s_needs_vcc := needs_vcc (program a) |}) in *.
  set (sc := scan_instructions phi (instructions blk) st0) in *.
  destruct (scan_instructions_split phi (instructions blk) st0)
    as (body & Hsplit & Hbody & Hscan & _). fold sc in Hsplit, Hscan.
  destruct (scan_instructions_idem phi body st0 Hbody) as [Hnp Hidem].
  rewrite Hscan in Hnp, Hidem. cbn in Hnp, Hidem.
  pose proof Hdefs as Hd. apply phi_definitions_Ok in Hd as (Hallphi & Hsame1 & _).
  assert (Hsame : Forall2 same_instr (sc_phis sc) phis2)
    by (eapply Forall2_same_instr_trans; eassumption).
  assert (Hall2 : Forall (fun i => is_phi i = true) phis2)
    by (eapply all_phis_same; eassumption).
  pose proof (scan_instructions_app phi phis2 (sc_body sc) st0 Hnp
                (all_phis_last _ Hall2)) as Happ.
  cbn zeta in Happ. rewrite Hidem in Happ. cbn in Happ.
  (* what the new state stores for the entry block *)
  assert (blk' = with_block blk (phis2 ++ sc_body sc) (block_demand_after a blk sc))
    as ->.
  { rewrite Hprog in Hb'. cbn in Hb'.
    rewrite list_lookup_insert_eq in Hb' by (eapply lookup_lt_Some; eassumption).
    congruence. }
  assert (live0' = live0) as ->.
  { rewrite (insert_events_live_out _ _ _ _ _ _ _ 0%nat Hevents), Hlive0 in Hl'.
    cbn in Hl'. injection Hl' as <-. set_solver. }
  assert (phi' = phi) as ->.
  { destruct (insert_events_phi_sgpr_ops _ _ _ _ _ _ _ 0%nat Hevents)
      as [E|(S' & HS' & Hn)]; [congruence|].
    exfalso. apply Hn. congruence. }
  assert (nd0' = nd0) as ->.
  { rewrite Hprog in Hnd'. cbn in Hnd'. congruence. }
  cbn [instructions with_block].
  destruct (scan_instructions_but_vcc phi (phis2 ++ sc_body sc) st0
              {| s_live := live0; s_new_demand := demand_sub_sgpr nd0 phi;
                 s_needs_vcc := vcc |}) as (_ & _ & _ & _ & _ & Hd);
    [split; reflexivity|].
  rewrite Hd, Happ. cbn. exact Hzero.
Qed.

(** A step on another block that does not put the entry block on the
    worklist leaves the demand at its top as it is. *)
Lemma step_of_keeps_entry a b a' :
  step_of a b a' -> b <> 0%nat -> 0%nat ∉ worklist a' ->
  entry_zero a -> entry_zero a'.
Proof.
  intros Hstep Hb Hwl Hz eblk L0' end0 ephi vcc Hblk' Hl' Hnd' Hphi'.
  rewrite (step_of_other_block _ _ _ _ Hstep (not_eq_sym Hb)) in Hblk'.
  rewrite (step_of_temp_rc _ _ _ Hstep) in Hnd'.
  destruct Hstep.
  destruct (live_out (lives a) !! 0%nat) as [L0|] eqn:Hl.
  2:{ rewrite (insert_events_live_out _ _ _ _ _ _ _ 0%nat Hevents), Hl in Hl'.
      discriminate Hl'. }
  assert (Hids : event_ids 0
                   (merge_events (temp_rc (program a)) blk (elements (s_live st1))
                    ++ phis_events blk phis1) ⊆ L0).
  { destruct (decide (event_ids 0
                   (merge_events (temp_rc (program a)) blk (elements (s_live st1))
                    ++ phis_events blk phis1) ⊆ L0)) as [?|Hn]; [assumption|].
    exfalso. apply Hwl.
    apply (insert_events_worklist _ _ _ _ _ _ _ 0%nat Hevents). right. eauto. }
  assert (L0' = L0) as ->.
  { rewrite (insert_events_live_out _ _ _ _ _ _ _ 0%nat Hevents), Hl in Hl'.
    cbn in Hl'. injection Hl' as <-. set_solver. }
  assert (Hphi0 : phi_sgpr_ops a !! 0%nat = Some ephi).
  { destruct (insert_events_phi_sgpr_ops _ _ _ _ _ _ _ 0%nat Hevents)
      as [E|(S' & HS' & Hn)]; [congruence|].
    exfalso. apply Hn. congruence. }
  exact (Hz eblk L0 end0 ephi vcc Hblk' Hl Hnd' Hphi0).
Qed.

Lemma worklist_step_entry a nd a' nd' :
  entry_checked a -> worklist a <> ∅ -> worklist_step a nd = Ok (a', nd') ->
  entry_checked a'.
Proof.
  intros [Hidx Hz] _ H. apply worklist_step_Ok in H.
  set (idx := max_list (elements (worklist a))) in *.
  constructor.
  - eapply step_of_indexed; [exact H|exact Hidx].
  - intros Hwl. destruct (decide (idx = 0%nat)) as [E|Hne].
    + rewrite E in H. eapply step_of_entry; [exact H|exact Hidx|exact Hwl].
    + eapply step_of_keeps_entry; [exact H|exact Hne|exact Hwl|].
      assert (H0 : 0%nat ∉ worklist a).
      { intros Hin. apply Hwl. apply (step_of_worklist_grows _ _ _ H).
        cbn. set_solver. }
      intros blk live0 nd0 phi vcc. apply (Hz H0).
Qed.

Lemma initial_entry_checked prog :
  indexed (blocks prog) -> blocks prog <> [] ->
  entry_checked (initial_analysis prog).
Proof.
  intros Hidx Hne. constructor; [exact Hidx|].
  cbn. intros Hwl. exfalso. apply Hwl.
  destruct (blocks prog) as [|blk bs] eqn:E; [contradiction|].
  apply elem_of_list_to_set, list_elem_of_fmap. exists blk.
  split; [symmetry; apply Hidx; rewrite ?E; reflexivity|]. left.
Qed.

(** When the analysis returns, the two conditions of the assertion of
    line 238 hold of the final state: computed from the final live-out
    set of the entry block and its final count of scalar phi operands, as
    the per-block step computes them, the register demand at the top of
    the entry block is zero and no register is live there. *)
Theorem entry_assertion_holds fuel prog a nd blk live0 nd0 phi vcc phis1 st1 :
  indexed (blocks prog) ->
  worklist_loop fuel (initial_analysis prog) zero_demand = Some (Ok (a, nd)) ->
  blocks (program a) !! 0%nat = Some blk ->
  live_out (lives a) !! 0%nat = Some live0 ->
  initial_demand (temp_rc (program a)) (elements live0) zero_demand = Ok nd0 ->
  phi_sgpr_ops a !! 0%nat = Some phi ->
  phi_definitions
    (sc_phis (scan_instructions phi (instructions blk)
                {| s_live := live0; s_new_demand := demand_sub_sgpr nd0 phi;
                   s_needs_vcc := vcc |}))
    (sc_state (scan_instructions phi (instructions blk)
                 {| s_live := live0; s_new_demand := demand_sub_sgpr nd0 phi;
                    s_needs_vcc := vcc |}))
  = Ok (phis1, st1) ->
  s_new_demand st1 = zero_demand /\ s_live st1 = ∅.
Proof.
  intros Hidx H Hb Hl Hnd Hphi Hdefs.
  apply phi_definitions_Ok in Hdefs as (_ & _ & Hlive & Hdemand).
  assert (Hblocks : blocks prog <> []).
  { destruct (worklist_loop_keeps_code _ _ _ _ H) as [Hsame _].
    intros E. rewrite E in Hsame. apply Forall2_nil_inv_l in Hsame.
    rewrite Hsame in Hb. discriminate Hb. }
  split.
  - rewrite Hdemand.
    destruct (worklist_loop_invariant (fun a _ => entry_checked a)
                (fun a nd a' nd' => worklist_step_entry a nd a' nd')
                fuel _ _ _ _ (initial_entry_checked prog Hidx Hblocks) H)
      as [_ Hz].
    apply Hz; try assumption.
    rewrite (worklist_loop_empty _ _ _ _ _ H). set_solver.
  - assert (Hlt : (0 < length (blocks (program a)))%nat)
      by (eapply lookup_lt_Some; eassumption).
    destruct (analysis_flows _ _ _ _ _ Hidx H Hlt blk live0 Hb Hl)
      as (_ & _ & H3 & _).
    pose proof (worklist_loop_invariant (fun a _ => flowing a)
                (fun a nd a' nd' => worklist_step_flowing a nd a' nd')
                fuel _ _ _ _ (initial_flowing prog Hidx) H) as [Hidx' _].
    specialize (H3 (Hidx' _ _ Hb)). unfold live_in_of in H3. cbn zeta in H3.
    rewrite Hlive.
    destruct (scan_instructions_mono phi 0 (instructions blk)
                {| s_live := live0; s_new_demand := demand_sub_sgpr nd0 phi;
                   s_needs_vcc := vcc |}
                {| s_live := live0; s_new_demand := zero_demand;
                   s_needs_vcc := false |} (reflexivity _)) as [-> _].
    rewrite (scan_instructions_live_eq phi 0 (instructions blk)
               {| s_live := live0; s_new_demand := demand_sub_sgpr nd0 phi;
                  s_needs_vcc := vcc |}
               {| s_live := live0; s_new_demand := zero_demand;
                  s_needs_vcc := false |} eq_refl).
    exact H3.
Qed.

End Entry.

Lemma entry_assertion_holds_witness :
  exists a nd blk nd0 phi phis1 st1,
    worklist_loop 4 (initial_analysis diamond) zero_demand = Some (Ok (a, nd)) /\
    blocks (program a) !! 0%nat = Some blk /\
    live_out (lives a) !! 0%nat = Some {[0%nat]} /\
    initial_demand (temp_rc (program a)) (elements ({[0%nat]} : gset nat))
      zero_demand = Ok nd0 /\
    phi_sgpr_ops a !! 0%nat = Some phi /\
    phi_definitions
      (sc_phis (scan_instructions phi (instructions blk)
                  {| s_live := {[0%nat]}; s_new_demand := demand_sub_sgpr nd0 phi;
                     s_needs_vcc := false |}))
      (sc_state (scan_instructions phi (instructions blk)
                   {| s_live := {[0%nat]}; s_new_demand := demand_sub_sgpr nd0 phi;
                      s_needs_vcc := false |}))
    = Ok (phis1, st1) /\
    s_new_demand st1 = zero_demand /\ s_live st1 = ∅.
Proof.
  assert (E : exists a nd blk nd0 phi phis1 st1,
    worklist_loop 4 (initial_analysis diamond) zero_demand = Some (Ok (a, nd)) /\
    blocks (program a) !! 0%nat = Some blk /\
    live_out (lives a) !! 0%nat = Some {[0%nat]} /\
    initial_demand (temp_rc (program a)) (elements ({[0%nat]} : gset nat))
      zero_demand = Ok nd0 /\
    phi_sgpr_ops a !! 0%nat = Some phi /\
    phi_definitions
      (sc_phis (scan_instructions phi (instructions blk)
                  {| s_live := {[0%nat]}; s_new_demand := demand_sub_sgpr nd0 phi;
                     s_needs_vcc := false |}))
      (sc_state (scan_instructions phi (instructions blk)
                   {| s_live := {[0%nat]}; s_new_demand := demand_sub_sgpr nd0 phi;
                      s_needs_vcc := false |}))
    = Ok (phis1, st1)).
  { eexists _, _, _, _, _, _, _. split; [vm_compute; reflexivity|].
    split; [reflexivity|]. split; [vm_compute; reflexivity|].
    split; [vm_compute; reflexivity|]. split; [vm_compute; reflexivity|].
    vm_compute. reflexivity. }
  destruct E as (a & nd & blk & nd0 & phi & phis1 & st1 &
                 Hloop & Hb & Hl & Hnd & Hphi & Hdefs).
  exists a, nd, blk, nd0, phi, phis1, st1.
  split; [exact Hloop|]. split; [exact Hb|]. split; [exact Hl|].
  split; [exact Hnd|]. split; [exact Hphi|]. split; [exact Hdefs|].
  exact (entry_assertion_holds 4 diamond a nd blk {[0%nat]} nd0 phi false phis1 st1
           diamond_indexed Hloop Hb Hl Hnd Hphi Hdefs).
Defined.

(* ================================================================== *)
(** ** The data-flow equation of one step *)

Section StepTransfer.

(** What one step writes into the live-out sets, whatever the demands,
    the count of scalar phi operands and the flags of the state are: for
    a block whose instructions are phis followed by a body without phis,
    a register is in the live-out set of [p] after the step exactly when
    it was there before, or it is live at the top of the block (the
    live-out set of the block taken backward through the body, every
    instruction removing the registers it defines and then adding the
    registers it reads, the marker of the end of the logical part only
    removing, without the registers the phis define) and [p] is a
    predecessor of the kind of its class, or a phi reads it for its
    predecessor [p]. *)
Theorem step_live_out_transfer a b a' blk live0 phis body p S S' t :
  process_live_temps_per_block a b = Ok a' ->
  blocks (program a) !! b = Some blk ->
  live_out (lives a) !! index blk = Some live0 ->
  instructions blk = phis ++ body ->
  Forall (fun i => is_phi i = true) phis -> no_phi body ->
  live_out (lives a) !! p = Some S ->
  live_out (lives a') !! p = Some S' ->
  t ∈ S' <->
  t ∈ S \/
  (t ∈ foldr live_through live0 body ∖ phi_def_ids phis /\
   exists rc, temp_rc (program a) !! t = Some rc /\ p ∈ preds_of blk rc) \/
  (exists insn j o,
     insn ∈ phis /\ phi_preds blk insn !! j = Some p /\
     operands insn !! j = Some o /\ op_isTemp o = true /\ tempId o = t).
Proof.
  intros H Hb Hl Hsplit Hphis Hbody HS HS'.
  apply process_block_Ok in H.
  destruct H as [blk0 L0 nd0 phi phis1 phis2 st1 vcc' Hblk _ Hlive0 _ _
                   Hdefs Hevents Hrcs _ _ _ _].
  assert (blk0 = blk) as -> by congruence.
  assert (L0 = live0) as -> by congruence.
  rewrite Hsplit in Hdefs.
  rewrite (scan_instructions_app phi phis body _ Hbody (all_phis_last _ Hphis))
    in Hdefs.
  cbn [sc_phis sc_state] in Hdefs.
  apply phi_definitions_Ok in Hdefs as (_ & Hsame & Hlive & _).
  rewrite (scan_instructions_transfer phi body _ Hbody) in Hlive.
  cbn [s_live scan_start] in Hlive.
  rewrite (insert_events_live_out _ _ _ _ _ _ _ p Hevents), HS in HS'.
  cbn in HS'. injection HS' as <-.
  rewrite (phis_events_same _ _ _ Hsame).
  rewrite elem_of_union, event_ids_app, elem_of_union, !elem_of_event_ids.
  rewrite <- Hlive. split.
  - intros [Ht|[[inc He]|[inc He]]].
    + left. exact Ht.
    + right. left.
      apply elem_of_merge_events in He as (_ & Ht & rc & Hrc & Hp).
      apply elem_of_elements in Ht. eauto.
    + right. right. eapply elem_of_phis_events_inv. exact He.
  - intros [Ht|[(Ht & rc & Hrc & Hp)|(insn & j & o & Hin & Hp & Ho & Hio & <-)]].
    + left. exact Ht.
    + right. left. exists None.
      eapply merge_events_complete; [exact Hrcs| |exact Hrc|exact Hp].
      apply elem_of_elements. exact Ht.
    + right. right. eapply phis_events_complete; eassumption.
Qed.

End StepTransfer.

Lemma step_live_out_transfer_witness :
  exists a' S',
    process_live_temps_per_block (initial_analysis diamond) 3 = Ok a' /\
    live_out (lives a') !! 1%nat = Some S' /\
    1%nat ∈ S'.
Proof.
  assert (E : exists a' S',
    process_live_temps_per_block (initial_analysis diamond) 3 = Ok a' /\
    live_out (lives a') !! 1%nat = Some S').
  { eexists _, _. split; [vm_compute; reflexivity|]. vm_compute. reflexivity. }
  destruct E as (a' & S' & Hstep & HS').
  exists a', S'. split; [exact Hstep|]. split; [exact HS'|].
  apply (proj2 (step_live_out_transfer (initial_analysis diamond) 3 a'
           (block_of 3 [instr p_phi [use (tmp 1 v1); constant] [def (tmp 2 v1)];
                        instr (other_op 4) [use (tmp 2 v1)] [];
                        instr p_logical_end [] []] [1; 2] [1; 2])%nat ∅
           [instr p_phi [use (tmp 1 v1); constant] [def (tmp 2 v1)]]
           [instr (other_op 4) [use (tmp 2 v1)] []; instr p_logical_end [] []]
           1%nat ∅ S' 1%nat Hstep eq_refl eq_refl eq_refl
           ltac:(repeat constructor) ltac:(repeat constructor) eq_refl HS')).
  right. right.
  exists (instr p_phi [use (tmp 1 v1); constant] [def (tmp 2 v1)]), 0%nat,
    (use (tmp 1 v1)).
  split; [left|]. repeat split.
Defined.
